(** * A shallow embedding of the NLEval sparse-graph engine

    The development follows the Python sources
    [NLEval/util/IDmap.py] (class [IDmap]), [NLEval/graph/sparse.py]
    (classes [SparseGraph] and [DirectedSparseGraph]) and [NLEval/Graph.py]
    (class [AdjLst]).

    - Python objects are records; a method is a function in a small
      state-and-exception monad whose state is the receiver.  A raised
      exception keeps every mutation made before the [raise].
    - [IDmap._data] (a [dict] from [str] to [int] that is only looked up,
      extended and popped) is a [gmap string nat]; [IDmap._lst] is a list.
    - A row of the adjacency list (a [dict] from neighbour index to weight
      whose iteration order is observable) is an insertion-ordered
      association list.
    - Edge weights are IEEE binary64 numbers, as Python's [float]. *)

From Stdlib Require Import ZArith Ascii String.
From Stdlib Require Import Floats.
From stdpp Require Import gmap strings list fin_maps pretty sorting.

Set Default Proof Using "Type".
Local Open Scope string_scope.
Local Open Scope nat_scope.
Local Open Scope list_scope.

(** ** Python primitives *)

Module Py.

(** The exceptions the modelled code raises. *)
Inductive exn : Type :=
| KeyError
| IndexError
| ValueError
| AssertionError
| IDNotExistError.

#[global] Instance exn_eq_dec : EqDecision exn.
Proof. solve_decision. Defined.

Inductive result (A : Type) : Type :=
| Ok (a : A)
| Raise (e : exn).
Arguments Ok {A} a.
Arguments Raise {A} e.

(** A computation over a mutable receiver of type [S]. *)
Definition M (S A : Type) : Type := S -> result A * S.

Definition ret {S A} (a : A) : M S A := fun s => (Ok a, s).
Definition raise {S A} (e : exn) : M S A := fun s => (Raise e, s).
Definition bind {S A B} (c : M S A) (k : A -> M S B) : M S B :=
  fun s =>
    match c s with
    | (Ok a, s') => k a s'
    | (Raise e, s') => (Raise e, s')
    end.
Definition get {S} : M S S := fun s => (Ok s, s).
Definition gets {S A} (f : S -> A) : M S A := fun s => (Ok (f s), s).
Definition modify {S} (f : S -> S) : M S unit := fun s => (Ok tt, f s).

(** [try: c except e: h] *)
Definition try_except {S A} (c : M S A) (e : exn) (h : M S A) : M S A :=
  fun s =>
    match c s with
    | (Raise e', s') => if bool_decide (e' = e) then h s' else (Raise e', s')
    | r => r
    end.

(** An [option] read as "value, or this exception". *)
Definition or_raise {S A} (o : option A) (e : exn) : M S A :=
  match o with
  | Some a => ret a
  | None => raise e
  end.

(** [for x in xs: body x], left when [body] raises. *)
Fixpoint for_each {S A} (xs : list A) (body : A -> M S unit) : M S unit :=
  match xs with
  | [] => ret tt
  | x :: xs' => bind (body x) (fun _ => for_each xs' body)
  end.

(** The value and the final state of a run. *)
Definition value {S A} (r : result A * S) : result A := fst r.
Definition state {S A} (r : result A * S) : S := snd r.

(** Identity of floats is decidable ([Leibniz.eqb] is the primitive test). *)
#[global] Instance float_eq_dec : EqDecision float.
Proof.
intros x y. destruct (PrimFloat.Leibniz.eqb x y) eqn:E.
- left. by apply FloatAxioms.Leibniz.eqb_spec.
- right. intros Hxy. apply FloatAxioms.Leibniz.eqb_spec in Hxy. congruence.
Defined.

(** [max(a, b)] and [min(a, b)] on floats: the first argument is kept
    unless the second is strictly greater (resp. smaller). *)
Definition max (a b : float) : float := if PrimFloat.ltb a b then b else a.
Definition min (a b : float) : float := if PrimFloat.ltb b a then b else a.
(** [a != b] on floats. *)
Definition ne (a b : float) : bool := negb (PrimFloat.eqb a b).

(** [num % 1 == 0] and [int(num)] for a float [num]: a finite float is
    [(-1)^s * m * 2^e]; it is whole when no fractional bit is set. *)
Definition to_integer (x : float) : option Z :=
  match Prim2SF x with
  | S754_zero _ => Some 0%Z
  | S754_finite s m e =>
      let v :=
        if (0 <=? e)%Z then Some (Z.pos m * 2 ^ e)%Z
        else if (Z.pos m mod 2 ^ (- e) =? 0)%Z then Some (Z.pos m / 2 ^ (- e))%Z
        else None in
      if s then Z.opp <$> v else v
  | _ => None
  end.
Definition is_whole (x : float) : bool := bool_decide (is_Some (to_integer x)).
Definition int (x : float) : Z := default 0%Z (to_integer x).
(** [str(n)] for an [int] [n]. *)
Definition str_int (n : Z) : string := pretty n.

(** [s.split(sep)] for a one-character separator. *)
Fixpoint split (sep : ascii) (s : string) : list string :=
  match s with
  | EmptyString => [EmptyString]
  | String c s' =>
      match split sep s' with
      | p :: ps => if Ascii.eqb c sep then EmptyString :: p :: ps else String c p :: ps
      | [] => [String c EmptyString]
      end
  end.

(** ASCII whitespace, as [str.isspace]. *)
Definition isspace (c : ascii) : bool :=
  let n := nat_of_ascii c in
  ((9 <=? n)%nat && (n <=? 13)%nat) || ((28 <=? n)%nat && (n <=? 32)%nat).

Fixpoint lstrip (s : string) : string :=
  match s with
  | String c s' => if isspace c then lstrip s' else s
  | EmptyString => EmptyString
  end.
Definition rstrip (s : string) : string := String.rev (lstrip (String.rev s)).
(** [s.strip()] *)
Definition strip (s : string) : string := rstrip (lstrip s).

Definition NL : ascii := ascii_of_nat 10.
Definition CR : ascii := ascii_of_nat 13.
Definition TAB : ascii := ascii_of_nat 9.

(** The lines a text file opened with [open(path, 'r')] yields when
    iterated.  The file is read with universal newlines: a line ends at
    a line feed, at a carriage return followed by a line feed, or at a
    carriage return alone, and each of the three reaches the program as
    one line feed.  The last line has none when the text does not end
    with one. *)
Fixpoint readlines (s : string) : list string :=
  match s with
  | EmptyString => []
  | String c s' =>
      if Ascii.eqb c NL then String NL EmptyString :: readlines s'
      else if Ascii.eqb c CR then
        String NL EmptyString ::
        match s' with
        | String c' s'' => if Ascii.eqb c' NL then readlines s'' else readlines s'
        | EmptyString => []
        end
      else match readlines s' with
           | l :: ls => String c l :: ls
           | [] => [String c EmptyString]
           end
  end.

(** The two conversions between text and floats that the code takes
    from the language: [float(s)] ([None] when it raises [ValueError])
    and [str(x)]. *)
Class Float := {
  float : string -> option PrimFloat.float;
  str : PrimFloat.float -> string
}.

(** [l[i]] for a Python [int] [i]: a negative index counts from the end
    of the list; [None] stands for the [IndexError]. *)
Definition index {A} (l : list A) (i : Z) : option A :=
  if (0 <=? i)%Z then l !! Z.to_nat i
  else if (- Z.of_nat (length l) <=? i)%Z then l !! Z.to_nat (Z.of_nat (length l) + i)
  else None.

(** [[f(x) for x in xs]] where [f] may raise. *)
Fixpoint collect {A B} (f : A -> result B) (xs : list A) : result (list B) :=
  match xs with
  | [] => Ok []
  | x :: xs' =>
      match f x with
      | Ok y =>
          match collect f xs' with
          | Ok ys => Ok (y :: ys)
          | Raise e => Raise e
          end
      | Raise e => Raise e
      end
  end.

(** [enumerate(xs)] *)
Definition enumerate {A} (xs : list A) : list (nat * A) :=
  zip (seq 0 (length xs)) xs.

(** [sorted(xs)] for a list of [int]s. *)
Definition sorted (xs : list nat) : list nat := merge_sort (≤) xs.

End Py.

Notation "x <- c ;; k" := (Py.bind c (fun x => k))
  (at level 20, c at level 99, k at level 200).
Notation "c ;;; k" := (Py.bind c (fun _ => k))
  (at level 100, k at level 200, right associativity).


(** ** Adjacency rows

    One row of the adjacency list is a Python [dict] from neighbour index
    to weight.  Python dicts iterate in insertion order and an assignment
    to an existing key keeps its position. *)

Module Row.

Definition t : Type := list (nat * float).

(** [k in r] and [r[k]] *)
Fixpoint get (k : nat) (r : t) : option float :=
  match r with
  | [] => None
  | (k', v) :: r' => if decide (k' = k) then Some v else get k r'
  end.

(** [r[k] = v] *)
Fixpoint set (k : nat) (v : float) (r : t) : t :=
  match r with
  | [] => [(k, v)]
  | (k', v') :: r' => if decide (k' = k) then (k, v) :: r' else (k', v') :: set k v r'
  end.

(** [r.pop(k)]: [None] stands for the [KeyError] of a missing key. *)
Fixpoint pop (k : nat) (r : t) : option t :=
  match r with
  | [] => None
  | (k', v') :: r' =>
      if decide (k' = k) then Some r' else cons (k', v') <$> pop k r'
  end.

Definition keys (r : t) : list nat := r.*1.

(** The row with the same keys in the same order and every weight [w]
    replaced by [f w]. *)
Definition map_weights (f : float -> float) (r : t) : t :=
  (fun '(k, w) => (k, f w)) <$> r.

(** The data-type invariant of a [dict]: keys are unique. *)
Definition wf (r : t) : Prop := NoDup (keys r).

End Row.

(** ** [IDmap] ([NLEval/util/IDmap.py]) *)

Module IDmap.

#[projections(primitive)]
Record t : Type := mk {
  data : gmap string nat;   (* [_data]: ID -> index *)
  lst : list string         (* [_lst]: IDs in index order *)
}.

(** [IDmap()] *)
Definition empty : t := mk ∅ [].

(** [size]: [len(self._data)] *)
Definition size (m : t) : nat := base.size (data m).

(** [__contains__]: [key in self._data] *)
Definition contains (key : string) (m : t) : bool :=
  bool_decide (is_Some (data m !! key)).

(** [__getitem__] for a [str] key: [self._data[key]] *)
Definition getitem (key : string) : Py.M t nat :=
  fun m => Py.or_raise (data m !! key) Py.KeyError m.

(** [idx2ID]: [self._lst[idx]] *)
Definition idx2ID (idx : nat) : Py.M t string :=
  fun m => Py.or_raise (lst m !! idx) Py.IndexError m.

(** The loop of [pop]:
    [for i, ID in enumerate(self.lst[idx:]): self.data[ID] = idx + i] *)
Fixpoint reindex (idx : nat) (ids : list string) (d : gmap string nat)
  : gmap string nat :=
  match ids with
  | [] => d
  | ID :: ids' => reindex (S idx) ids' (<[ID := idx]> d)
  end.

(** [pop] *)
Definition pop (ID : string) : Py.M t unit :=
  fun m =>
    match data m !! ID with
    | None => (Py.Raise Py.KeyError, m)
    | Some idx =>
        let d := delete ID (data m) in
        if decide (idx < length (lst m)) then
          let l := delete idx (lst m) in
          (Py.Ok tt, mk (reindex idx (drop idx l) d) l)
        else (Py.Raise Py.IndexError, mk d (lst m))
    end.

Section with_float.
Context `{Py.Float}.

(** The [try] block of [addID] on a [str] ID:
    [num = float(ID)];
    [ID = str(int(num)) if num % 1 == 0 else str(num)];
    a [ValueError] of [float] leaves [ID] as it is. *)
Definition canon (ID : string) : string :=
  match Py.float ID with
  | Some num => if Py.is_whole num then Py.str_int (Py.int num) else Py.str num
  | None => ID
  end.

(** [addID].  The method has no [return]: the caller receives Python's
    [None], written [None] here; an integer result would be [Some _]. *)
Definition addID (ID : string) : Py.M t (option nat) :=
  fun m =>
    let ID := canon ID in
    if contains ID m then (Py.Raise Py.AssertionError, m)
    else (Py.Ok None, mk (<[ID := size m]> (data m)) (lst m ++ [ID])).

(** Modelled from the spec: [from_list], the constructor [read_npz]
    calls, belongs to the later revision of the class and is not among
    the sources.  The spec has the map "created empty", growing "only
    by appending ([add_id])", and the archive reader rebuilding it
    "from the identifier array (order preserved)". *)
Definition from_list (ids : list string) : Py.result t :=
  match Py.for_each ids (fun ID => addID ID ;;; Py.ret tt) empty with
  | (Py.Ok _, m) => Py.Ok m
  | (Py.Raise e, _) => Py.Raise e
  end.

End with_float.

(** The invariant of the two directions of the map:
    [data[lst[i]] == i] for the indices [0 .. len(lst) - 1], and nothing
    else in [data]. *)
Definition wf (m : t) : Prop :=
  ∀ ID i, data m !! ID = Some i ↔ lst m !! i = Some ID.

(** A decision procedure for the invariant. *)
Definition check (m : t) : bool :=
  bool_decide (data m = list_to_map (zip (lst m) (seq 0 (length (lst m)))))
  && bool_decide (NoDup (lst m)).

(** [__iter__]: the IDs in index order. *)
Definition __iter__ (m : t) : list string := lst m.

(** [__getitem__] for a [list] (or array) key:
    [for i in key: idx.append(self._data[i])]. *)
Fixpoint getitem_list (key : list string) : Py.M t (list nat) :=
  match key with
  | [] => Py.ret []
  | i :: key' =>
      x <- getitem i ;;
      idx <- getitem_list key' ;;
      Py.ret (x :: idx)
  end.

(** [__eq__]: [set(self.lst) == set(idmap.lst)] *)
Definition __eq__ (self idmap : t) : bool :=
  bool_decide (list_to_set (C := gset string) (lst self) = list_to_set (lst idmap)).

(** [copy]: a deep copy shares nothing with the original; as values the
    two are the same. *)
Definition copy (m : t) : t := m.

Section with_float.
Context `{Py.Float}.

(** [__add__] *)
Definition __add__ (self other : t) : Py.result t :=
  let new := copy self in
  match Py.for_each (__iter__ other) (fun ID =>
          new <- Py.get ;;
          if negb (contains ID new) then addID ID ;;; Py.ret tt
          else Py.ret tt) new with
  | (Py.Ok _, new) => Py.Ok new
  | (Py.Raise e, _) => Py.Raise e
  end.

(** [__sub__]; [self.__class__()] is a new, empty map. *)
Definition __sub__ (self other : t) : Py.result t :=
  let new := empty in
  match Py.for_each (__iter__ self) (fun ID =>
          if negb (contains ID other) then addID ID ;;; Py.ret tt
          else Py.ret tt) new with
  | (Py.Ok _, new) => Py.Ok new
  | (Py.Raise e, _) => Py.Raise e
  end.

(** The two mutating methods, for clients that make a sequence of calls
    and go on with the map as it is when a call raises. *)
Inductive call : Type :=
| AddID (ID : string)
| Pop (ID : string).

Definition do_call (c : call) : Py.M t unit :=
  match c with
  | AddID ID => addID ID ;;; Py.ret tt
  | Pop ID => pop ID
  end.

Fixpoint run (cs : list call) (m : t) : t :=
  match cs with
  | [] => m
  | c :: cs' => run cs' (Py.state (do_call c m))
  end.

End with_float.

(** Modelled from the spec: the lookup [self.idmap[...]] of the class
    [IDmap] that [sparse.py] imports from [util/idhandler], with the
    error [IDNotExistError] it imports from [util/exceptions]; neither
    module is among the sources.  The spec has "[index_of(identifier)]
    ... single lookup fails with UnknownIdError", and for that error
    "any lookup ([index_of], [get_edge], [induced_subgraph]) referencing
    an identifier absent from the map; always surfaced, never
    swallowed".  The error is not a [KeyError]. *)
Definition index_of (identifier : string) : Py.M t nat :=
  fun m => Py.or_raise (data m !! identifier) Py.IDNotExistError m.

End IDmap.

(** ** NumPy conversions used by the archive writer *)

Module Np.

(** [np.float32(x)]: [x] rounded to binary32 (24 bits of precision,
    ties to even, overflow to infinity), kept here as the binary64
    number of the same value. *)
Definition float32 (x : float) : float :=
  match Prim2SF x with
  | S754_finite s m e =>
      SF2Prim (binary_normalize 24 128 (cond_Zopp s (Z.pos m)) e s)
  | _ => x
  end.

(** [np.isclose(a, b, rtol, atol)]: [|a - b| <= atol + rtol * |b|]. *)
Definition isclose (rtol atol a b : float) : bool :=
  PrimFloat.leb (PrimFloat.abs (a - b)) (atol + rtol * PrimFloat.abs b).

(** [np.uint32(n)]: stores wrap around at 32 bits. *)
Definition uint32 (n : nat) : nat := N.to_nat (N.of_nat n mod 2 ^ 32).

(** The three arrays of an archive: [node_ids], [edge_index] (one pair
    per column of the 2 x m array) and, when saved, [edge_weight]. *)
Record npz : Type := mk_npz {
  node_ids : list string;
  edge_index : list (nat * nat);
  edge_weight : option (list float)
}.

(** [np.zeros(n)] *)
Definition zeros (n : nat) : list float := replicate n 0%float.

(** [a[i] = x] on a one-dimensional array, for an index [i >= 0]. *)
Definition setitem (i : nat) (x : float) : Py.M (list float) unit :=
  fun a =>
    if decide (i < length a) then (Py.Ok tt, <[i := x]> a)
    else (Py.Raise Py.IndexError, a).

(** [a[i, j] = x] on a two-dimensional array, for indices [i, j >= 0]. *)
Definition setitem2 (i j : nat) (x : float) : Py.M (list (list float)) unit :=
  fun a =>
    match a !! i with
    | Some row =>
        if decide (j < length row) then (Py.Ok tt, <[i := <[j := x]> row]> a)
        else (Py.Raise Py.IndexError, a)
    | None => (Py.Raise Py.IndexError, a)
    end.

(** [np.where(mat != 0)] for a two-dimensional array, zipped: the
    positions of the entries that differ from 0, row by row. *)
Definition where_ne0 (mat : list (list float)) : list (nat * nat) :=
  concat (imap (fun i row =>
    concat (imap (fun j x => if Py.ne x 0 then [(i, j)] else []) row)) mat).

(** [mat[i, j]] for indices [i, j >= 0]. *)
Definition getitem2 (mat : list (list float)) (i j : nat) : option float :=
  mat !! i ≫= (.!! j).

(** What the array assignments below raise: the [ValueError] of a value
    that cannot be broadcast to the slice, and the [TypeError] of a
    [None] assigned into an array of floats. *)
Inductive error : Type :=
| BroadcastError
| NoneTypeError.

(** [a[start:stop] = x] on a one-dimensional array, for a scalar [x] and
    [0 <= start <= stop]; the slice is clipped to the array. *)
Definition setslice_scalar {A} (start stop : nat) (x : A) (a : list A) : list A :=
  take start a
  ++ replicate (stop `min` length a - start `min` length a) x
  ++ drop stop a.

(** [a[start:stop] = values] for a list: its length is the length of the
    clipped slice, or [1]. *)
Definition setslice {A} (start stop : nat) (values : list A) (a : list A)
  : error + list A :=
  if decide (length values = stop `min` length a - start `min` length a)
  then inr (take start a ++ values ++ drop stop a)
  else match values with
       | [x] => inr (setslice_scalar start stop x a)
       | _ => inl BroadcastError
       end.

(** The same assignment into an array of [float32], from a list whose
    elements are floats or [None]: the list is converted first. *)
Definition setslice_float32 (start stop : nat) (values : list (option float))
    (a : list float) : error + list float :=
  match mapM id values with
  | Some values => setslice start stop (float32 <$> values) a
  | None => inl NoneTypeError
  end.

End Np.

(** ** [SparseGraph] and [DirectedSparseGraph] ([NLEval/graph/sparse.py])

    An object of either class is one record with its class tag; the tag
    decides which [add_id] and [add_edge] a call dispatches to.
    [rev_edge_data] is an attribute of [DirectedSparseGraph] objects only
    and stays empty in a [SparseGraph].

    [sparse.py] reaches the identifier map through [add_id] and [getID],
    the names a later revision of the class gives to [addID] and
    [idx2ID] of [NLEval/util/IDmap.py]; [size] is the property of the
    base class, [self.idmap.size]. *)

Module Graph.

Inductive cls : Type := SparseGraph | DirectedSparseGraph.

(** What [self.logger.warning] receives in [_add_edge]. *)
Inductive log_record : Type :=
| Overwrite (node_id1 node_id2 : string) (old_weight weight : float).

#[projections(primitive)]
Record t : Type := mk {
  class : cls;
  idmap : IDmap.t;
  edge_data : list Row.t;        (* [_edge_data] *)
  rev_edge_data : list Row.t;    (* [_rev_edge_data] *)
  weighted : bool;
  directed : bool;
  self_loops : bool;
  logger : list log_record
}.

Definition with_idmap (m : IDmap.t) (g : t) : t :=
  mk (class g) m (edge_data g) (rev_edge_data g)
     (weighted g) (directed g) (self_loops g) (logger g).
Definition with_edge_data (ed : list Row.t) (g : t) : t :=
  mk (class g) (idmap g) ed (rev_edge_data g)
     (weighted g) (directed g) (self_loops g) (logger g).
Definition with_rev_edge_data (ed : list Row.t) (g : t) : t :=
  mk (class g) (idmap g) (edge_data g) ed
     (weighted g) (directed g) (self_loops g) (logger g).
Definition with_logger (l : list log_record) (g : t) : t :=
  mk (class g) (idmap g) (edge_data g) (rev_edge_data g)
     (weighted g) (directed g) (self_loops g) l.

(** [SparseGraph(weighted, directed, self_loops)] *)
Definition new (weighted directed self_loops : bool) : t :=
  mk SparseGraph IDmap.empty [] [] weighted directed self_loops [].
(** [DirectedSparseGraph(weighted)] *)
Definition new_directed (weighted : bool) : t :=
  mk DirectedSparseGraph IDmap.empty [] [] weighted true false [].

(** A method of [self.idmap] run on the graph. *)
Definition on_idmap {A} (c : Py.M IDmap.t A) : Py.M t A :=
  fun g => let (r, m) := c (idmap g) in (r, with_idmap m g).

(** The adjacency list an [_add_edge] call is handed: [self._edge_data]
    or [self._rev_edge_data].  The list is passed by reference, so the
    callee's writes are writes to that attribute. *)
Inductive store : Type := Forward | Reverse.
Definition get_store (s : store) (g : t) : list Row.t :=
  match s with Forward => edge_data g | Reverse => rev_edge_data g end.
Definition set_store (s : store) (ed : list Row.t) (g : t) : t :=
  match s with
  | Forward => with_edge_data ed g
  | Reverse => with_rev_edge_data ed g
  end.

(** [edge_data[i]] *)
Definition getrow (s : store) (i : nat) : Py.M t Row.t :=
  fun g => Py.or_raise (get_store s g !! i) Py.IndexError g.
(** [edge_data[i][j] = w] *)
Definition setitem (s : store) (i j : nat) (w : float) : Py.M t unit :=
  row <- getrow s i ;;
  Py.modify (fun g => set_store s (<[i := Row.set j w row]> (get_store s g)) g).

(** [edge_data[i][j]] when present *)
Definition lookup (ed : list Row.t) (i j : nat) : option float :=
  ed !! i ≫= Row.get j.

(** The adjacency list after a successful [edge_data[i][j] = w]. *)
Definition write (ed : list Row.t) (i j : nat) (w : float) : list Row.t :=
  match ed !! i with
  | Some row => <[i := Row.set j w row]> ed
  | None => ed
  end.

(** The invariant of a [DirectedSparseGraph]: a directed graph over a
    consistent map, one row per node in each adjacency list, and the
    reversed list holding exactly the entries of the forward one. *)
Record mirrored (g : t) : Prop := {
  mirrored_class : class g = DirectedSparseGraph;
  mirrored_directed : directed g = true;
  mirrored_idmap : IDmap.wf (idmap g);
  mirrored_rows : length (edge_data g) = length (IDmap.lst (idmap g));
  mirrored_rev_rows : length (rev_edge_data g) = length (IDmap.lst (idmap g));
  mirrored_entries :
    ∀ i j, lookup (rev_edge_data g) j i = lookup (edge_data g) i j
}.

(** [size] and [num_edges] *)
Definition size (g : t) : nat := IDmap.size (idmap g).
Definition num_edges (g : t) : nat := sum_list (length <$> edge_data g).

(** [reduction not in [None, "max", "min"]] *)
Definition known_reduction (reduction : option string) : bool :=
  bool_decide (reduction ∈ [None; Some "max"; Some "min"]).

Section with_float.
Context `{Py.Float}.

(** [add_id] for one [str], by class. *)
Definition add_id (node_id : string) : Py.M t unit :=
  on_idmap (IDmap.addID node_id) ;;;
  self <- Py.get ;;
  Py.modify (with_edge_data (edge_data self ++ [[]])) ;;;
  match class self with
  | SparseGraph => Py.ret tt
  | DirectedSparseGraph =>
      Py.modify (with_rev_edge_data (rev_edge_data self ++ [[]]))
  end.

(** [add_id] for a [list]. *)
Definition add_ids (node_ids : list string) : Py.M t unit :=
  Py.for_each node_ids add_id.

Definition _default_add_id (node_id : string) : Py.M t unit :=
  self <- Py.get ;;
  if IDmap.contains node_id (idmap self) then Py.ret tt else add_id node_id.

Definition _add_edge (node_id1 node_id2 : string) (weight : float)
    (reduction : option string) (edge_data : store) : Py.M t unit :=
  node_idx1 <- on_idmap (IDmap.getitem node_id1) ;;
  node_idx2 <- on_idmap (IDmap.getitem node_id2) ;;
  self <- Py.get ;;
  if negb (self_loops self) && bool_decide (node_idx1 = node_idx2)
  then Py.ret tt
  else
    nbrs <- getrow edge_data node_idx1 ;;
    weight <-
      match Row.get node_idx2 nbrs with
      | Some old_weight =>
          if Py.ne old_weight weight then
            match reduction with
            | None =>
                Py.modify (fun g =>
                  with_logger
                    (logger g ++ [Overwrite node_id1 node_id2 old_weight weight]) g) ;;;
                Py.ret weight
            | Some r =>
                if String.eqb r "max" then Py.ret (Py.max old_weight weight)
                else if String.eqb r "min" then Py.ret (Py.min old_weight weight)
                else Py.ret weight
            end
          else Py.ret weight
      | None => Py.ret weight
      end ;;
    setitem edge_data node_idx1 node_idx2 weight ;;;
    if negb (directed self)
    then setitem edge_data node_idx2 node_idx1 weight
    else Py.ret tt.

(** [SparseGraph.add_edge]; the calls to [add_id] inside dispatch on
    the class of [self]. *)
Definition SparseGraph_add_edge (node_id1 node_id2 : string)
    (weight : float) (reduction : option string) : Py.M t unit :=
  if negb (known_reduction reduction) then Py.raise Py.ValueError
  else
    _default_add_id node_id1 ;;;
    _default_add_id node_id2 ;;;
    _add_edge node_id1 node_id2 weight reduction Forward.

(** [DirectedSparseGraph.add_edge] *)
Definition DirectedSparseGraph_add_edge (node_id1 node_id2 : string)
    (weight : float) (reduction : option string) : Py.M t unit :=
  SparseGraph_add_edge node_id1 node_id2 weight reduction ;;;
  _add_edge node_id2 node_id1 weight reduction Reverse.

Definition add_edge (node_id1 node_id2 : string)
    (weight : float) (reduction : option string) : Py.M t unit :=
  self <- Py.get ;;
  match class self with
  | SparseGraph => SparseGraph_add_edge node_id1 node_id2 weight reduction
  | DirectedSparseGraph =>
      DirectedSparseGraph_add_edge node_id1 node_id2 weight reduction
  end.

(** [get_edge], with the lookups [self.idmap[...]] read as [__getitem__]
    of [NLEval/util/IDmap.py]; the result [0] of the handler is the float
    zero. *)
Definition get_edge (node_id1 node_id2 : string) : Py.M t float :=
  Py.try_except
    (node_idx1 <- on_idmap (IDmap.getitem node_id1) ;;
     nbrs <- getrow Forward node_idx1 ;;
     node_idx2 <- on_idmap (IDmap.getitem node_id2) ;;
     fun g => Py.or_raise (Row.get node_idx2 nbrs) Py.KeyError g)
    Py.KeyError
    (Py.ret 0%float).

(** One step of the generator [edglst_reader]: what a line of the
    file makes it do. *)
Inductive reader_step : Type :=
| Skip                                         (* [continue] *)
| Yield (node_id1 node_id2 : string) (weight : float)
| Fail (e : Py.exn).

Definition edglst_reader_line (weighted : bool) (cut_threshold : float)
    (line : string) : reader_step :=
  let fields := Py.split Py.TAB line in
  (* [except ValueError:] *)
  let handler :=
    match fields with
    | [node_id1; node_id2] => Yield (Py.strip node_id1) (Py.strip node_id2) 1
    | _ => Fail Py.ValueError
    end in
  match fields with
  | [node_id1; node_id2; weight] =>
      match Py.float weight with
      | Some weight =>
          if PrimFloat.leb weight cut_threshold then Skip
          else Yield (Py.strip node_id1) (Py.strip node_id2)
                     (if weighted then weight else 1)
      | None => handler
      end
  | _ => handler
  end.

(** [read] with the reader [edglst_reader]; [file] is the text of the
    file at [edg_path]. *)
Definition read (file : string) (cut_threshold : float) : Py.M t unit :=
  self <- Py.get ;;
  Py.for_each (Py.readlines file) (fun line =>
    match edglst_reader_line (weighted self) cut_threshold line with
    | Skip => Py.ret tt
    | Yield node_id1 node_id2 weight => add_edge node_id1 node_id2 weight None
    | Fail e => Py.raise e
    end).

(** [SparseGraph.from_edglst] *)
Definition from_edglst (file : string) (weighted directed : bool)
    (cut_threshold : float) : Py.result t :=
  match read file cut_threshold (new weighted directed false) with
  | (Py.Ok _, graph) => Py.Ok graph
  | (Py.Raise e, _) => Py.Raise e
  end.

(** [induced_subgraph]: [self] is only read; the new graph is the
    receiver of the calls in the two loops. *)
Definition induced_subgraph (self : t) (node_ids : list string)
  : Py.result t :=
  let graph := new (weighted self) (directed self) (self_loops self) in
  let body : Py.M t unit :=
    Py.for_each node_ids (fun node =>
      if IDmap.contains node (idmap self) then add_id node
      else Py.raise Py.IDNotExistError) ;;;
    Py.for_each node_ids (fun node1 =>
      node1_idx <- (fun g => Py.or_raise (IDmap.data (idmap self) !! node1) Py.KeyError g) ;;
      nbrs <- (fun g => Py.or_raise (edge_data self !! node1_idx) Py.IndexError g) ;;
      Py.for_each nbrs (fun '(node2_idx, weight) =>
        node2 <- (fun g => Py.or_raise (IDmap.lst (idmap self) !! node2_idx) Py.IndexError g) ;;
        if bool_decide (node2 ∈ node_ids)
        then add_edge node1 node2 weight None
        else Py.ret tt)) in
  match body graph with
  | (Py.Ok _, graph) => Py.Ok graph
  | (Py.Raise e, _) => Py.Raise e
  end.

End with_float.

(** [for x in xs: ... yield f x]: the values yielded, in order. *)
Fixpoint yield_each {S A B} (xs : list A) (body : A -> Py.M S B)
  : Py.M S (list B) :=
  match xs with
  | [] => Py.ret []
  | x :: xs' =>
      y <- body x ;;
      ys <- yield_each xs' body ;;
      Py.ret (y :: ys)
  end.

(** [edge_gen], run until the generator is exhausted: the edges it
    yields and the graph it leaves.

    [edge_data_copy = self._edge_data[:]] is a new list of the same
    [dict] objects: [edge_data_copy[i]] and [self._edge_data[i]] are one
    object, so element [i] of the copy is the reference [i] into
    [edge_data self], and [edge_data_copy[dst_idx].pop(src_idx)] pops
    from row [dst_idx] of the graph. *)
Definition edge_gen : Py.M t (list (string * string * float)) :=
  self <- Py.get ;;
  let edge_data_copy : list nat := seq 0 (length (edge_data self)) in
  let deref (ref : nat) : Py.M t Row.t := getrow Forward ref in
  per_src <-
    yield_each (seq 0 (length edge_data_copy)) (fun src_idx =>
      src_ref <- (fun g => Py.or_raise (edge_data_copy !! src_idx) Py.IndexError g) ;;
      src_nbrs <- deref src_ref ;;
      src_node_id <- on_idmap (IDmap.idx2ID src_idx) ;;
      yield_each (Row.keys src_nbrs) (fun dst_idx =>
        dst_node_id <- on_idmap (IDmap.idx2ID dst_idx) ;;
        (if negb (directed self) then
           dst_ref <- (fun g => Py.or_raise (edge_data_copy !! dst_idx) Py.IndexError g) ;;
           dst_nbrs <- deref dst_ref ;;
           popped <- (fun g => Py.or_raise (Row.pop src_idx dst_nbrs) Py.KeyError g) ;;
           Py.modify (fun g => with_edge_data (<[dst_ref := popped]> (edge_data g)) g)
         else Py.ret tt) ;;;
        row <- deref src_ref ;;
        weight <- (fun g => Py.or_raise (Row.get dst_idx row) Py.KeyError g) ;;
        Py.ret (src_node_id, dst_node_id, weight))) ;;
  Py.ret (concat per_src).

(** The edges the archive writer walks through:
    [for i, nbrs in enumerate(self._edge_data): for nbr, weight in nbrs.items()] *)
Definition entries (ed : list Row.t) : list (nat * nat * float) :=
  concat (imap (fun i nbrs => (fun '(nbr, weight) => (i, nbr, weight)) <$> nbrs) ed).

(** The same walk, written by recursion on the rows from index [k] on. *)
Fixpoint entries_from (k : nat) (ed : list Row.t) : list (nat * nat * float) :=
  match ed with
  | [] => []
  | nbrs :: ed' =>
      ((fun '(nbr, weight) => (k, nbr, weight)) <$> nbrs) ++ entries_from (S k) ed'
  end.

(** [save_npz]: the arrays handed to [np.savez]. *)
Definition save_npz (self : t) (weighted : bool) : Np.npz :=
  let es := entries (edge_data self) in
  Np.mk_npz
    (IDmap.lst (idmap self))
    ((fun '(i, nbr, _) => (Np.uint32 i, Np.uint32 nbr)) <$> es)
    (if weighted then Some ((fun '(_, _, weight) => Np.float32 weight) <$> es)
     else None).

Section with_float.
Context `{Py.Float}.

(** [read_npz]; [files] is what [np.load(path)] returns.  A missing
    ["edge_weight"] array is the [KeyError] of [files["edge_weight"]]. *)
Definition read_npz (files : Np.npz) : Py.M t unit :=
  let node_ids := Np.node_ids files in
  let edge_index := Np.edge_index files in
  idmap <- (fun g => match IDmap.from_list node_ids with
                     | Py.Ok m => (Py.Ok m, g)
                     | Py.Raise e => (Py.Raise e, g)
                     end) ;;
  Py.modify (with_idmap idmap) ;;;
  Py.modify (with_edge_data (replicate (length node_ids) [])) ;;;
  self <- Py.get ;;
  if weighted self then
    edge_weight <- (fun g => Py.or_raise (Np.edge_weight files) Py.KeyError g) ;;
    Py.for_each (zip edge_index edge_weight) (fun '((i, j), w) =>
      setitem Forward i j w)
  else
    Py.for_each edge_index (fun '(i, j) => setitem Forward i j 1).

(** [SparseGraph.from_npz] *)
Definition from_npz (files : Np.npz) (weighted directed : bool)
  : Py.result t :=
  match read_npz files (new weighted directed false) with
  | (Py.Ok _, graph) => Py.Ok graph
  | (Py.Raise e, _) => Py.Raise e
  end.

(** *** Graphs as values: stored edges, the invariant, call sequences *)

(** The weight stored for the pair of IDs in one of the adjacency lists:
[edge_data[idmap[id1]][idmap[id2]]], when both IDs are mapped and the
entry is there. *)
Definition edge (s : store) (g : t) (node_id1 node_id2 : string)
: option float :=
i ← IDmap.data (idmap g) !! node_id1;
j ← IDmap.data (idmap g) !! node_id2;
lookup (get_store s g) i j.

(** The weight [_add_edge] commits when the entry held [old] before. *)
Definition committed (reduction : option string) (old : option float)
(weight : float) : float :=
match old with
| Some old_weight =>
if Py.ne old_weight weight then
match reduction with
| None => weight
| Some r =>
if String.eqb r "max" then Py.max old_weight weight
else if String.eqb r "min" then Py.min old_weight weight
else weight
end
else weight
| None => weight
end.

(** What [_add_edge] logs in that case. *)
Definition warnings (reduction : option string) (old : option float)
(node_id1 node_id2 : string) (weight : float) : list log_record :=
match old, reduction with
| Some old_weight, None =>
if Py.ne old_weight weight then [Overwrite node_id1 node_id2 old_weight weight]
else []
| _, _ => []
end.

(** The invariant of the data model: the map is consistent and holds
IDs in the form [addID] stores them, there is one row per node, rows
are dicts over node indices, an undirected graph stores both directions
of an edge, self loops appear only where they are allowed, and a
[DirectedSparseGraph] is directed and has one reversed row per node. *)
Record wf (g : t) : Prop := {
wf_idmap : IDmap.wf (idmap g);
wf_canon : Forall (fun ID => IDmap.canon ID = ID) (IDmap.lst (idmap g));
wf_rows : length (edge_data g) = length (IDmap.lst (idmap g));
wf_keys : Forall Row.wf (edge_data g);
wf_bound : ∀ i j w, lookup (edge_data g) i j = Some w → j < length (edge_data g);
wf_mirror : directed g = false →
∀ i j w, lookup (edge_data g) i j = Some w → lookup (edge_data g) j i = Some w;
wf_loops : self_loops g = false → ∀ i, lookup (edge_data g) i i = None;
wf_rev : class g = DirectedSparseGraph →
directed g = true ∧ length (rev_edge_data g) = length (edge_data g)
}.

(** A decision procedure for the invariant, over the stored entries. *)
Definition check (g : t) : bool :=
let m := idmap g in
let ed := edge_data g in
IDmap.check m
&& forallb (fun ID => bool_decide (IDmap.canon ID = ID)) (IDmap.lst m)
&& bool_decide (length ed = length (IDmap.lst m))
&& forallb (fun r => bool_decide (NoDup (Row.keys r))) ed
&& forallb (fun '(i, j, w) =>
bool_decide (j < length ed)
&& (directed g || bool_decide (lookup ed j i = Some w))
&& (self_loops g || negb (bool_decide (i = j)))) (entries ed)
&& match class g with
| SparseGraph => true
| DirectedSparseGraph =>
directed g && bool_decide (length (rev_edge_data g) = length ed)
end.

(** The graph [induced_subgraph] has built when its first loop ends:
the nodes [node_ids] in that order, each with an empty row. *)
Definition skeleton (self : t) (node_ids : list string) : t :=
mk SparseGraph
(IDmap.mk (list_to_map (zip node_ids (seq 0 (length node_ids)))) node_ids)
(replicate (length node_ids) []) []
(weighted self) (directed self) (self_loops self) [].

(** The mutating calls of the public interface. *)
Inductive call : Type :=
| Add_id (node_id : string)
| Add_ids (node_ids : list string)
| Add_edge (node_id1 node_id2 : string) (weight : float)
(reduction : option string).

Definition do_call (c : call) : Py.M t unit :=
match c with
| Add_id node_id => add_id node_id
| Add_ids node_ids => add_ids node_ids
| Add_edge node_id1 node_id2 weight reduction =>
add_edge node_id1 node_id2 weight reduction
end.

(** A client making the calls one after the other, going on with the
graph as it is when a call raises. *)
Fixpoint run (cs : list call) (g : t) : t :=
match cs with
| [] => g
| c :: cs' => run cs' (Py.state (do_call c g))
end.

End with_float.

(** [construct_adj_vec]; [self] is only read, the array [fvec] is the
    state of the loop.  [src_idx] is any [int]. *)
Definition construct_adj_vec (src_idx : Z) (self : t) : Py.result (list float) :=
  let fvec := Np.zeros (size self) in
  match Py.index (edge_data self) src_idx with
  | None => Py.Raise Py.IndexError
  | Some nbrs =>
      match Py.for_each nbrs (fun '(nbr_idx, weight) => Np.setitem nbr_idx weight) fvec with
      | (Py.Ok _, fvec) => Py.Ok fvec
      | (Py.Raise e, _) => Py.Raise e
      end
  end.

(** [__getitem__] for a [str] key: [self.idmap[key]] is an [int]. *)
Definition getitem (key : string) (self : t) : Py.result (list float) :=
  match IDmap.getitem key (idmap self) with
  | (Py.Ok idx, _) => construct_adj_vec (Z.of_nat idx) self
  | (Py.Raise e, _) => Py.Raise e
  end.

(** [__getitem__] for a [list] key: [self.idmap[key]] is an array of
    indices and the result has one row per index. *)
Definition getitem_list (key : list string) (self : t)
  : Py.result (list (list float)) :=
  match IDmap.getitem_list key (idmap self) with
  | (Py.Ok idx, _) => Py.collect (fun i => construct_adj_vec (Z.of_nat i) self) idx
  | (Py.Raise e, _) => Py.Raise e
  end.

(** Modelled from the spec: [num_nodes] is a property of the base class,
    which is not among the sources.  The spec has the dense conversion
    give the "full [size x size] densification". *)
Definition num_nodes (self : t) : nat := size self.

(** [to_adjmat]; [self] is only read, the array [mat] is the state of the
    loops.  [np.ones((n, n)) * default_val] holds [1.0 * default_val]
    everywhere. *)
Definition to_adjmat (default_val : float) (self : t)
  : Py.result (list (list float)) :=
  let mat :=
    replicate (num_nodes self) (replicate (num_nodes self) (1 * default_val)%float) in
  match Py.for_each (Py.enumerate (edge_data self)) (fun '(src_node, src_nbrs) =>
          Py.for_each (Row.keys src_nbrs) (fun dst_node =>
            weight <- (fun mat => Py.or_raise (Row.get dst_node src_nbrs) Py.KeyError mat) ;;
            Np.setitem2 src_node dst_node weight)) mat with
  | (Py.Ok _, mat) => Py.Ok mat
  | (Py.Raise e, _) => Py.Raise e
  end.

(** The loop of [to_pyg_edges]; the three arrays ([edge_index[0]],
    [edge_index[1]] and [edge_weight]) and [start_pos] are its state.
    [nbrs.get] returns [None] for a missing key. *)
Fixpoint to_pyg_loop (rows : list (nat * Row.t)) (start_pos : nat)
    (arrays : list nat * list nat * list float)
  : Np.error + (list nat * list nat * list float) :=
  match rows with
  | [] => inr arrays
  | (node1, nbrs) :: rows' =>
      let '(edge_index0, edge_index1, edge_weight) := arrays in
      let end_pos := start_pos + length nbrs in
      let edge_index0 := Np.setslice_scalar start_pos end_pos node1 edge_index0 in
      let nbr_idx := Py.sorted (Row.keys nbrs) in
      match Np.setslice start_pos end_pos nbr_idx edge_index1 with
      | inl e => inl e
      | inr edge_index1 =>
          match Np.setslice_float32 start_pos end_pos
                  ((fun k => Row.get k nbrs) <$> nbr_idx) edge_weight with
          | inl e => inl e
          | inr edge_weight =>
              to_pyg_loop rows' end_pos (edge_index0, edge_index1, edge_weight)
          end
      end
  end.

(** [to_pyg_edges]: the two rows of [edge_index], and [edge_weight]
    ([None] for a graph that is not weighted). *)
Definition to_pyg_edges (self : t)
  : Np.error + (list nat * list nat) * option (list float) :=
  let num_edges := num_edges self in
  let edge_index := (replicate num_edges 0, replicate num_edges 0) in
  let edge_weight := replicate num_edges 0%float in
  match to_pyg_loop (Py.enumerate (edge_data self)) 0
          (edge_index.1, edge_index.2, edge_weight) with
  | inl e => inl e
  | inr (edge_index0, edge_index1, edge_weight) =>
      inr ((edge_index0, edge_index1),
           if weighted self then Some edge_weight else None)
  end.

Section with_float.
Context `{Py.Float}.

(** [SparseGraph.from_mat]; [ids] is a list of IDs or [None]. *)
Definition from_mat (mat : list (list float)) (ids : option (list string))
  : Py.result t :=
  let ids :=
    match ids with
    | Some ids => ids
    | None => (fun i => Py.str_int (Z.of_nat i)) <$> seq 0 (length mat)
    end in
  let graph := new true true false in
  let body : Py.M t unit :=
    Py.for_each ids add_id ;;;
    Py.for_each (Np.where_ne0 mat) (fun '(i, j) =>
      graph <- Py.get ;;
      node_id1 <- (fun g => Py.or_raise (IDmap.lst (idmap graph) !! i) Py.IndexError g) ;;
      node_id2 <- (fun g => Py.or_raise (IDmap.lst (idmap graph) !! j) Py.IndexError g) ;;
      weight <- (fun g => Py.or_raise (Np.getitem2 mat i j) Py.IndexError g) ;;
      add_edge node_id1 node_id2 weight None) in
  match body graph with
  | (Py.Ok _, graph) => Py.Ok graph
  | (Py.Raise e, _) => Py.Raise e
  end.

End with_float.

(** The part of the invariant that does not depend on how [float] and
    [str] spell an ID: the map is consistent, there is one row per node,
    rows are dicts over node indices, an undirected graph stores both
    directions of an edge, self loops appear only where they are allowed,
    and a [DirectedSparseGraph] is directed and has one reversed row per
    node. *)
Record consistent (g : t) : Prop := {
  consistent_idmap : IDmap.wf (idmap g);
  consistent_rows : length (edge_data g) = length (IDmap.lst (idmap g));
  consistent_keys : Forall Row.wf (edge_data g);
  consistent_bound :
    ∀ i j w, lookup (edge_data g) i j = Some w → j < length (edge_data g);
  consistent_mirror : directed g = false →
    ∀ i j w, lookup (edge_data g) i j = Some w → lookup (edge_data g) j i = Some w;
  consistent_loops : self_loops g = false → ∀ i, lookup (edge_data g) i i = None;
  consistent_rev : class g = DirectedSparseGraph →
    directed g = true ∧ length (rev_edge_data g) = length (edge_data g)
}.

(** Graphs of the same class and configuration ([weighted], [directed],
    [self_loops]): what the constructor fixes. *)
Definition same_config (g g' : t) : Prop :=
  class g' = class g ∧ weighted g' = weighted g ∧
  directed g' = directed g ∧ self_loops g' = self_loops g.

(** What is left of the rows of an undirected graph when [edge_gen] is
    exhausted: row [i] keeps its entries for the neighbours [j > i]. *)
Definition upper (ed : list Row.t) : list Row.t :=
  imap (fun i row => filter (fun kv => i < kv.1) row) ed.

(** The shape of a graph, with nothing asked of the entries its rows
    hold: the map is consistent, there is one row per node, and a
    [DirectedSparseGraph] is directed and has one reversed row per
    node. *)
Record shaped (g : t) : Prop := {
  shaped_idmap : IDmap.wf (idmap g);
  shaped_rows : length (edge_data g) = length (IDmap.lst (idmap g));
  shaped_rev : class g = DirectedSparseGraph →
    directed g = true ∧ length (rev_edge_data g) = length (edge_data g)
}.

(** The graph over the map of [util/idhandler]. *)
Module Idhandler.

(** [get_edge] of [sparse.py] with the two lookups [self.idmap[...]]
    read as [IDmap.index_of]: the handler [except KeyError] is left with
    the [KeyError] of a row that has no entry for the neighbour. *)
Definition get_edge (node_id1 node_id2 : string) : Py.M t float :=
  Py.try_except
    (node_idx1 <- on_idmap (IDmap.index_of node_id1) ;;
     nbrs <- getrow Forward node_idx1 ;;
     node_idx2 <- on_idmap (IDmap.index_of node_id2) ;;
     fun g => Py.or_raise (Row.get node_idx2 nbrs) Py.KeyError g)
    Py.KeyError
    (Py.ret 0%float).

End Idhandler.

End Graph.

(** ** Plain decimal numerals

    An instance of [Py.Float] for the concrete scenarios.  It reads the
    spellings [digits], [digits.digits], [digits.] and [.digits] with an
    optional sign, surrounded by whitespace and of at most 15 digits: for
    those the quotient of the two exactly representable integers is the
    correctly rounded value, which is the one [float] returns.  It
    prints a float that is not whole with the fewest fractional digits
    (at most 15) that read back as that float, which is what [str] gives
    for values of magnitude at least 1e-4 written with at most 15 digits.
    Other spellings that Python accepts (exponents, [inf], [nan],
    underscores, longer numerals) are not read by this instance. *)

Module Decimal.

Definition digit (c : ascii) : option Z :=
  let n := Z.of_nat (nat_of_ascii c) in
  if ((48 <=? n) && (n <=? 57))%Z then Some (n - 48)%Z else None.

Fixpoint digits (acc : Z) (s : string) : option Z :=
  match s with
  | EmptyString => Some acc
  | String c s' =>
      match digit c with
      | Some d => digits (10 * acc + d)%Z s'
      | None => None
      end
  end.

Definition of_Z (n : Z) : float := PrimFloat.of_uint63 (Uint63.of_Z n).

Definition quotient (n : Z) (p : nat) : float :=
  (of_Z n / of_Z (10 ^ Z.of_nat p))%float.

Definition unsigned (s : string) : option float :=
  match Py.split "." s with
  | [whole] =>
      if bool_decide (0 < String.length whole <= 15) then
        n ← digits 0 whole; Some (of_Z n)
      else None
  | [whole; frac] =>
      let all := whole +:+ frac in
      if bool_decide (0 < String.length all <= 15) then
        n ← digits 0 all; Some (quotient n (String.length frac))
      else None
  | _ => None
  end.

Definition parse (s : string) : option float :=
  match Py.strip s with
  | String "-" s' => PrimFloat.opp <$> unsigned s'
  | String "+" s' => unsigned s'
  | s' => unsigned s'
  end.

(** The integer nearest to [m * 2^e * 10^p], ties to even. *)
Definition scaled (m : positive) (e : Z) (p : nat) : Z :=
  let num := (Z.pos m * 10 ^ Z.of_nat p)%Z in
  if (0 <=? e)%Z then (num * 2 ^ e)%Z
  else
    let den := (2 ^ (- e))%Z in
    let q := (num / den)%Z in
    let r := (num mod den)%Z in
    if (2 * r <? den)%Z then q
    else if (den <? 2 * r)%Z then (q + 1)%Z
    else if Z.even q then q else (q + 1)%Z.

Fixpoint zeros (n : nat) : string :=
  match n with
  | O => EmptyString
  | S n' => String "0" (zeros n')
  end.

(** [n / 10^p] written with [p] fractional digits. *)
Definition render (neg : bool) (n : Z) (p : nat) : string :=
  let frac := pretty (n mod 10 ^ Z.of_nat p)%Z in
  (if neg then "-" else "") +:+ pretty (n / 10 ^ Z.of_nat p)%Z +:+ "."
    +:+ zeros (p - String.length frac) +:+ frac.

Definition print (x : float) : string :=
  match Prim2SF x with
  | S754_zero s => if s then "-0.0" else "0.0"
  | S754_infinity s => if s then "-inf" else "inf"
  | S754_nan => "nan"
  | S754_finite s m e =>
      let reads_back (p : nat) : bool :=
        PrimFloat.eqb (quotient (scaled m e p) p) (PrimFloat.abs x) in
      match List.find reads_back (seq 1 15) with
      | Some p => render s (scaled m e p) p
      | None => render s (scaled m e 17) 17
      end
  end.

#[global] Instance float : Py.Float := {|
  Py.float := parse;
  Py.str := print
|}.

End Decimal.



(** ** [AdjLst] ([NLEval/Graph.py])

    The adjacency-list class of [Graph.py], over the [IDmap] of
    [NLEval/util/IDmap.py].  The attribute [IDmap] of an object is the
    field [idmap] here; what the method [addEdge] prints is kept in
    [stdout]. *)

Module AdjLst.

(** The arguments of the warning [addEdge] prints:
    [self.IDmap[ID1]], [self.IDmap[ID2]], [old_weight], [weight]. *)
Inductive printed : Type :=
| Warning (idx1 idx2 : nat) (old_weight weight : float).

#[projections(primitive)]
Record t : Type := mk {
  idmap : IDmap.t;
  edge_data : list Row.t;        (* [_edge_data] *)
  weighted : bool;
  directed : bool;
  stdout : list printed
}.

Definition with_idmap (m : IDmap.t) (g : t) : t :=
  mk m (edge_data g) (weighted g) (directed g) (stdout g).
Definition with_edge_data (ed : list Row.t) (g : t) : t :=
  mk (idmap g) ed (weighted g) (directed g) (stdout g).
Definition with_stdout (out : list printed) (g : t) : t :=
  mk (idmap g) (edge_data g) (weighted g) (directed g) out.

(** [AdjLst(weighted, directed)] *)
Definition new (weighted directed : bool) : t :=
  mk IDmap.empty [] weighted directed [].

(** A method of [self.IDmap] run on the graph. *)
Definition on_idmap {A} (c : Py.M IDmap.t A) : Py.M t A :=
  fun g => let (r, m) := c (idmap g) in (r, with_idmap m g).

(** [self._edge_data[i]] *)
Definition getrow (i : nat) : Py.M t Row.t :=
  fun g => Py.or_raise (edge_data g !! i) Py.IndexError g.

(** [size] *)
Definition size (g : t) : nat := IDmap.size (idmap g).

Section with_float.
Context `{Py.Float}.

Definition addID (ID : string) : Py.M t unit :=
  on_idmap (IDmap.addID ID) ;;;
  Py.modify (fun g => with_edge_data (edge_data g ++ [[]]) g).

(** [self._edge_data[self.IDmap[ID1]][self.IDmap[ID2]] = weight]: the
    row is fetched before the second index is looked up. *)
Definition store (ID1 ID2 : string) (weight : float) : Py.M t unit :=
  idx1 <- on_idmap (IDmap.getitem ID1) ;;
  row <- getrow idx1 ;;
  idx2 <- on_idmap (IDmap.getitem ID2) ;;
  Py.modify (fun g => with_edge_data (<[idx1 := Row.set idx2 weight row]> (edge_data g)) g).

Definition addEdge (ID1 ID2 : string) (weight : float) : Py.M t unit :=
  Py.for_each [ID1; ID2] (fun ID =>
    self <- Py.get ;;
    if negb (IDmap.contains ID (idmap self)) then addID ID else Py.ret tt) ;;;
  Py.try_except
    (idx1 <- on_idmap (IDmap.getitem ID1) ;;
     row <- getrow idx1 ;;
     idx2 <- on_idmap (IDmap.getitem ID2) ;;
     old_weight <- (fun g => Py.or_raise (Row.get idx2 row) Py.KeyError g) ;;
     if Py.ne old_weight weight then
       idx1 <- on_idmap (IDmap.getitem ID1) ;;
       idx2 <- on_idmap (IDmap.getitem ID2) ;;
       Py.modify (fun g => with_stdout (stdout g ++ [Warning idx1 idx2 old_weight weight]) g)
     else Py.ret tt)
    Py.KeyError
    (store ID1 ID2 weight ;;;
     self <- Py.get ;;
     if negb (directed self) then store ID2 ID1 weight else Py.ret tt).

(** A client making [addEdge] calls one after the other, going on with
    the graph as it is when a call raises. *)
Fixpoint run (cs : list (string * string * float)) (g : t) : t :=
  match cs with
  | [] => g
  | (ID1, ID2, weight) :: cs' => run cs' (Py.state (addEdge ID1 ID2 weight g))
  end.

End with_float.

(** [self._edge_data[i][j]] when present *)
Definition lookup (g : t) (i j : nat) : option float :=
  Graph.lookup (edge_data g) i j.

(** [to_adjmat]; the array [mat] is the state of the loops. *)
Definition to_adjmat (self : t) : Py.result (list (list float)) :=
  let Nnodes := size self in
  let mat := replicate Nnodes (Np.zeros Nnodes) in
  match Py.for_each (Py.enumerate (edge_data self)) (fun '(src_node, src_nbrs) =>
          Py.for_each (Row.keys src_nbrs) (fun dst_node =>
            weight <- (fun mat => Py.or_raise (Row.get dst_node src_nbrs) Py.KeyError mat) ;;
            Np.setitem2 src_node dst_node weight)) mat with
  | (Py.Ok _, mat) => Py.Ok mat
  | (Py.Raise e, _) => Py.Raise e
  end.

(** The invariant of the data model: the map is consistent, there is one
    row per node, rows are dicts over node indices, and an undirected graph
    stores both directions of an edge. *)
Record consistent (g : t) : Prop := {
  consistent_idmap : IDmap.wf (idmap g);
  consistent_rows : length (edge_data g) = length (IDmap.lst (idmap g));
  consistent_keys : Forall Row.wf (edge_data g);
  consistent_bound :
    ∀ i j w, lookup g i j = Some w → j < length (edge_data g);
  consistent_mirror : directed g = false →
    ∀ i j w, lookup g i j = Some w → lookup g j i = Some w
}.

End AdjLst.

(** ** Data of the worked examples *)

Module Example.

(** The map after [addID] of ["a"], ["b"] and ["c"]. *)
Definition abc : IDmap.t :=
IDmap.mk (<["a" := 0]> (<["b" := 1]> (<["c" := 2]> ∅))) ["a"; "b"; "c"].

(** The map after [addID("1")]. *)
Definition one : IDmap.t := IDmap.mk {["1" := 0]} ["1"].

(** The undirected graph after [add_edge("a", "b", 1.0)]. *)
Definition ab : Graph.t :=
  Graph.mk Graph.SparseGraph
    (IDmap.mk (<["a" := 0]> (<["b" := 1]> ∅)) ["a"; "b"])
    [[(1, 1%float)]; [(0, 1%float)]] [] true false false [].

(** The undirected graph after [add_edge("a", "b", 1e39)]. *)
Definition big : Graph.t :=
  Graph.mk Graph.SparseGraph
    (IDmap.mk (<["a" := 0]> (<["b" := 1]> ∅)) ["a"; "b"])
    [[(1, 1e39%float)]; [(0, 1e39%float)]] [] true false false [].

(** The graph of the edge-list scenario. *)
Definition toy : Graph.t :=
  Graph.mk Graph.SparseGraph
    (IDmap.mk (<["1" := 0]> (<["3" := 1]> (<["2" := 2]> (<["4" := 3]> ∅))))
       ["1"; "3"; "2"; "4"])
    [[(1, 0.4%float); (2, 1%float)]; [(0, 0.4%float); (3, 0.1%float)];
     [(0, 1%float)]; [(1, 0.1%float)]]
    [] true false false [].

(** The edge list of the scenario: three lines [id1 TAB id2 TAB weight]. *)
Definition line (id1 id2 weight : string) : string :=
  id1 +:+ String Py.TAB (id2 +:+ String Py.TAB (weight +:+ String Py.NL "")).
Definition toy_edglst : string :=
  line "1" "3" "0.4" +:+ line "1" "2" "1" +:+ line "3" "4" "0.1".

(** The map after [addID] of ["b"] and ["d"]. *)
Definition bd : IDmap.t := IDmap.mk (<["b" := 0]> (<["d" := 1]> ∅)) ["b"; "d"].

(** The undirected graph with self loops after [add_edge("a", "a", 1.0)]. *)
Definition loop : Graph.t :=
  Graph.mk Graph.SparseGraph (IDmap.mk {["a" := 0]} ["a"])
    [[(0, 1%float)]] [] true false true [].

(** That graph after [save_npz] and [from_npz]: [from_npz] builds its
    graph with [self_loops] off and [read_npz] stores the entries of the
    archive as they are. *)
Definition reloaded : Graph.t :=
  Graph.mk Graph.SparseGraph (IDmap.mk {["a" := 0]} ["a"])
    [[(0, 1%float)]] [] true false false [].

(** The graph [ab] after [edge_gen] has run to its end: the generator
    has popped the entry of the second row. *)
Definition ab_spent : Graph.t :=
  Graph.mk Graph.SparseGraph
    (IDmap.mk (<["a" := 0]> (<["b" := 1]> ∅)) ["a"; "b"])
    [[(1, 1%float)]; []] [] true false false [].

End Example.

(** * Properties *)

(** ** The identifier map *)

Section idmap_facts.
Implicit Types (m : IDmap.t) (ID : string) (i idx : nat).

Lemma idmap_wf_lt m ID i :
  IDmap.wf m → IDmap.data m !! ID = Some i → i < length (IDmap.lst m).
Proof. intros Hwf Hi. apply Hwf in Hi. by eapply lookup_lt_Some. Qed.

Lemma idmap_wf_NoDup m : IDmap.wf m → NoDup (IDmap.lst m).
Proof.
  intros Hwf. apply NoDup_alt. intros i j ID Hi Hj.
  apply Hwf in Hi, Hj. congruence.
Qed.

Lemma idmap_wf_contains m ID :
  IDmap.wf m → IDmap.contains ID m = true ↔ ID ∈ IDmap.lst m.
Proof.
  intros Hwf. unfold IDmap.contains. rewrite bool_decide_eq_true.
  rewrite list_elem_of_lookup. split.
  - intros [i Hi]. exists i. by apply Hwf.
  - intros [i Hi]. exists i. by apply Hwf.
Qed.

(** The number of keys is the length of the list: the next free index. *)
Lemma idmap_wf_size m : IDmap.wf m → IDmap.size m = length (IDmap.lst m).
Proof.
  intros Hwf. unfold IDmap.size.
  rewrite <- (size_dom (D := gset string)).
  rewrite <- (size_list_to_set (C := gset string)) by by apply idmap_wf_NoDup.
  f_equal. apply set_eq. intros ID.
  rewrite elem_of_dom, elem_of_list_to_set, list_elem_of_lookup.
  split; intros [i Hi]; exists i; by apply Hwf.
Qed.

Lemma idmap_wf_empty : IDmap.wf IDmap.empty.
Proof. intros ID i. simpl. by rewrite lookup_empty, lookup_nil. Qed.

(** A consistent map is determined by its list. *)
Lemma idmap_wf_ext m1 m2 :
  IDmap.wf m1 → IDmap.wf m2 → IDmap.lst m1 = IDmap.lst m2 → m1 = m2.
Proof.
  intros H1 H2 Hl. destruct m1 as [d1 l1], m2 as [d2 l2]. simpl in *. subst l2.
  f_equal. apply map_eq. intros ID. apply option_eq. intros i.
  specialize (H1 ID i). specialize (H2 ID i). simpl in *. tauto.
Qed.

Lemma reindex_notin (ids : list string) idx (d : gmap string nat) ID :
  ID ∉ ids → IDmap.reindex idx ids d !! ID = d !! ID.
Proof.
  revert idx d. induction ids as [|x ids IH]; intros idx d Hn; simpl; [done|].
  apply not_elem_of_cons in Hn as [Hne Hn].
  rewrite IH by done. by rewrite lookup_insert_ne.
Qed.

Lemma reindex_in (ids : list string) idx (d : gmap string nat) ID i :
  NoDup ids → ids !! i = Some ID → IDmap.reindex idx ids d !! ID = Some (idx + i).
Proof.
  revert idx d i. induction ids as [|x ids IH]; intros idx d i Hnd Hi; [done|].
  apply NoDup_cons in Hnd as [Hx Hnd]. destruct i as [|i]; simpl in *.
  - simplify_eq. rewrite reindex_notin by done.
    rewrite lookup_insert_eq. f_equal. lia.
  - rewrite (IH _ _ i) by done. f_equal. lia.
Qed.

Lemma idmap_pop_wf m ID idx :
  IDmap.wf m → IDmap.data m !! ID = Some idx →
  IDmap.wf (Py.state (IDmap.pop ID m)).
Proof.
  intros Hwf Hidx. pose proof (idmap_wf_NoDup _ Hwf) as Hnd.
  pose proof (idmap_wf_lt _ _ _ Hwf Hidx) as Hlt.
  pose proof (proj1 (Hwf _ _) Hidx) as Hl.
  unfold IDmap.pop. rewrite Hidx. rewrite decide_True by done.
  unfold Py.state; simpl.
  set (l' := delete idx (IDmap.lst m)).
  assert (Hnd' : NoDup l').
  { eapply sublist_NoDup; [|apply sublist_delete]; done. }
  assert (Hnd'' : NoDup (drop idx l')).
  { eapply sublist_NoDup; [|apply sublist_drop]; done. }
  intros ID' i; simpl.
  destruct (decide (ID' ∈ drop idx l')) as [Hin|Hout].
  - apply list_elem_of_lookup in Hin as [i0 Hi0].
    rewrite (reindex_in _ _ _ _ i0) by done.
    rewrite lookup_drop in Hi0. split.
    + intros [= <-]. done.
    + intros Hi. f_equal. exact (NoDup_lookup l' _ _ ID' Hnd' Hi0 Hi).
  - rewrite reindex_notin by done. split.
    + intros Hd. apply lookup_delete_Some in Hd as [Hne Hd].
      apply Hwf in Hd. destruct (decide (i < idx)) as [Hi|Hi].
      * unfold l'. by rewrite list_lookup_delete_lt.
      * assert (i ≠ idx) by (intros ->; congruence).
        exfalso. apply Hout. apply list_elem_of_lookup. exists (i - 1 - idx).
        rewrite lookup_drop. unfold l'. rewrite list_lookup_delete_ge by lia.
        by replace (S (idx + (i - 1 - idx))) with i by lia.
    + intros Hi. destruct (decide (i < idx)) as [Hlt'|Hge].
      * unfold l' in Hi. rewrite list_lookup_delete_lt in Hi by done.
        rewrite lookup_delete_ne.
        { by apply Hwf. }
        intros ->. pose proof (NoDup_lookup _ _ _ _ Hnd Hi Hl). lia.
      * exfalso. apply Hout. apply list_elem_of_lookup. exists (i - idx).
        rewrite lookup_drop. by replace (idx + (i - idx)) with i by lia.
Qed.

End idmap_facts.

Lemma zip_seq_lookup {A} (l : list A) (k : nat) (x : A) (i : nat) :
  (x, i) ∈ zip l (seq k (length l)) ↔ (k ≤ i)%nat ∧ l !! (i - k)%nat = Some x.
Proof.
  revert k. induction l as [|y l IH]; intros k; simpl.
  - rewrite elem_of_nil. split; [done|]. intros [_ Hl]. by rewrite lookup_nil in Hl.
  - rewrite elem_of_cons, IH. split.
    + intros [[= -> ->]|[Hle Hl]].
      * split; [lia|]. by replace (k - k) with 0 by lia.
      * split; [lia|]. by replace (i - k) with (S (i - S k)) by lia.
    + intros [Hle Hl]. destruct (decide (i = k)) as [->|Hne].
      * left. replace (k - k) with 0 in Hl by lia. by simplify_eq/=.
      * right. split; [lia|]. by replace (i - k) with (S (i - S k)) in Hl by lia.
Qed.

Lemma zip_seq_fst {A} (l : list A) (k : nat) : (zip l (seq k (length l))).*1 = l.
Proof. apply fst_zip. by rewrite length_seq. Qed.

Lemma idmap_check_wf (m : IDmap.t) : IDmap.check m = true → IDmap.wf m.
Proof.
  unfold IDmap.check. rewrite andb_true_iff, !bool_decide_eq_true.
  intros [Hd Hnd] ID i. rewrite Hd.
  rewrite <- elem_of_list_to_map by by rewrite zip_seq_fst.
  rewrite zip_seq_lookup. replace (i - 0) with i by lia. intuition lia.
Qed.

(** ** [addID] *)

Section addID_facts.
Context `{Py.Float}.

Lemma addID_fresh (ID : string) (m : IDmap.t) :
  IDmap.wf m → IDmap.contains (IDmap.canon ID) m = false →
  ∃ m', IDmap.addID ID m = (Py.Ok None, m') ∧
    IDmap.lst m' = IDmap.lst m ++ [IDmap.canon ID] ∧
    IDmap.data m' !! IDmap.canon ID = Some (length (IDmap.lst m)) ∧
    (∀ ID', ID' ≠ IDmap.canon ID → IDmap.data m' !! ID' = IDmap.data m !! ID') ∧
    IDmap.wf m'.
Proof.
  intros Hwf Hc. unfold IDmap.addID. rewrite Hc. eexists. split; [done|]. simpl.
  rewrite idmap_wf_size by done.
  apply bool_decide_eq_false in Hc. rewrite <- eq_None_not_Some in Hc.
  split_and!.
  - done.
  - by rewrite lookup_insert_eq.
  - intros ID' Hne. by rewrite lookup_insert_ne.
  - intros ID' i; simpl. destruct (decide (ID' = IDmap.canon ID)) as [->|Hne].
    + rewrite lookup_insert_eq. split.
      * intros [= <-]. by rewrite list_lookup_middle.
      * intros Hi. f_equal. apply lookup_app_Some in Hi as [Hi|[Hle Hi]].
        { apply Hwf in Hi. congruence. }
        apply list_lookup_singleton_Some in Hi as [Hi _]. lia.
    + rewrite lookup_insert_ne by done. rewrite (Hwf ID' i). split.
      * intros Hi. by apply lookup_app_l_Some.
      * intros Hi. apply lookup_app_Some in Hi as [Hi|[Hle Hi]]; [done|].
        apply list_lookup_singleton_Some in Hi as [_ Hi]. congruence.
Qed.

Lemma addID_present (ID : string) (m : IDmap.t) :
  IDmap.contains (IDmap.canon ID) m = true →
  IDmap.addID ID m = (Py.Raise Py.AssertionError, m).
Proof. intros Hc. unfold IDmap.addID. by rewrite Hc. Qed.

Lemma addID_wf (ID : string) (m : IDmap.t) :
  IDmap.wf m → IDmap.wf (Py.state (IDmap.addID ID m)).
Proof.
  intros Hwf. destruct (IDmap.contains (IDmap.canon ID) m) eqn:Hc.
  - by rewrite addID_present.
  - destruct (addID_fresh ID m Hwf Hc) as (m' & -> & _ & _ & _ & Hwf'). done.
Qed.

End addID_facts.

(** C7, as the code has it.  [addID] first rewrites the ID: when
    [float] reads it as a whole number it becomes the decimal spelling of
    that integer, and when [float] rejects it the ID is unchanged.  If the
    rewritten ID is already in the map the call fails ([AssertionError])
    and the map is as before; otherwise the ID is appended at the next
    index, the length of the list, every other entry is kept, the
    invariant holds again, and the call returns [None], not the index.
    With plain decimal numerals, ["1.0"] and ["1"] are the same node. *)
Theorem addID_spec :
  (∀ (F : Py.Float) (ID : string) (m : IDmap.t),
     (∀ num, Py.float ID = Some num → Py.is_whole num = true →
        IDmap.canon ID = Py.str_int (Py.int num)) ∧
     (Py.float ID = None → IDmap.canon ID = ID) ∧
     (IDmap.contains (IDmap.canon ID) m = true →
        IDmap.addID ID m = (Py.Raise Py.AssertionError, m)) ∧
     (IDmap.wf m → IDmap.contains (IDmap.canon ID) m = false →
        ∃ m', IDmap.addID ID m = (Py.Ok None, m') ∧
          IDmap.lst m' = IDmap.lst m ++ [IDmap.canon ID] ∧
          IDmap.data m' !! IDmap.canon ID = Some (length (IDmap.lst m)) ∧
          (∀ ID', ID' ≠ IDmap.canon ID →
             IDmap.data m' !! ID' = IDmap.data m !! ID') ∧
          IDmap.wf m')) ∧
  IDmap.canon (H := Decimal.float) "1.0" = "1" ∧
  IDmap.canon (H := Decimal.float) "1" = "1".
Proof.
  split; [|split; vm_compute; reflexivity].
  intros F ID m. split_and!.
  - intros num Hf Hw. unfold IDmap.canon. by rewrite Hf, Hw.
  - intros Hf. unfold IDmap.canon. by rewrite Hf.
  - apply addID_present.
  - apply addID_fresh.
Qed.

Lemma addID_spec_witness :
  IDmap.wf Example.one ∧
  IDmap.contains (IDmap.canon (H := Decimal.float) "1.0") Example.one = true ∧
  IDmap.contains (IDmap.canon (H := Decimal.float) "2.0") Example.one = false ∧
  IDmap.addID (H := Decimal.float) "1.0" Example.one
    = (Py.Raise Py.AssertionError, Example.one) ∧
  ∃ m', IDmap.addID (H := Decimal.float) "2.0" Example.one = (Py.Ok None, m') ∧
    IDmap.lst m' = ["1"; "2"] ∧ IDmap.data m' !! "2" = Some 1 ∧ IDmap.wf m'.
Proof.
  assert (Hwf : IDmap.wf Example.one) by (apply idmap_check_wf; vm_compute; reflexivity).
  split; [exact Hwf|]. split; [vm_compute; reflexivity|].
  split; [vm_compute; reflexivity|].
  destruct addID_spec as [Hspec _].
  destruct (Hspec Decimal.float "1.0" Example.one) as (_ & _ & Hdup & _).
  destruct (Hspec Decimal.float "2.0" Example.one) as (_ & _ & _ & Hnew).
  split; [apply Hdup; vm_compute; reflexivity|].
  destruct (Hnew Hwf) as (m' & Hm' & Hl & Hd & _ & Hwf'); [vm_compute; reflexivity|].
  exists m'. split_and!; [exact Hm'|exact Hl|exact Hd|exact Hwf'].
Defined.

(** C7, as the claim has it, fails: on the empty map [addID("a")] does not
    return the new index 0; it returns [None]. *)
Lemma addID_returns_no_index :
  IDmap.contains (IDmap.canon (H := Decimal.float) "a") IDmap.empty = false ∧
  Py.value (IDmap.addID (H := Decimal.float) "a" IDmap.empty)
    ≠ Py.Ok (Some (IDmap.size IDmap.empty)) ∧
  Py.value (IDmap.addID (H := Decimal.float) "a" IDmap.empty) = Py.Ok None.
Proof. split_and!; [vm_compute; reflexivity|vm_compute; discriminate|vm_compute; reflexivity]. Qed.

(** ** [pop] *)

(** C8.  [pop] of an ID that is not in the map fails ([KeyError], the
    unknown-ID error of a [dict]) and changes nothing.  On a consistent
    map, [pop] of an ID at index [idx] succeeds: the ID is gone from both
    directions, the list is the old one without position [idx], every
    other ID above [idx] has its index lowered by one and every ID below
    keeps it, and the invariant [data[lst[i]] == i] holds again with the
    indices exactly [0 .. size - 1]. *)
Theorem idmap_pop_spec (m : IDmap.t) (ID : string) :
  (IDmap.data m !! ID = None → IDmap.pop ID m = (Py.Raise Py.KeyError, m)) ∧
  (IDmap.wf m → ∀ idx, IDmap.data m !! ID = Some idx →
     ∃ m', IDmap.pop ID m = (Py.Ok tt, m') ∧
       IDmap.lst m' = delete idx (IDmap.lst m) ∧
       IDmap.data m' !! ID = None ∧
       (∀ ID' j, ID' ≠ ID → IDmap.data m !! ID' = Some j →
          IDmap.data m' !! ID' = Some (if decide (idx < j) then j - 1 else j)) ∧
       IDmap.wf m' ∧
       IDmap.size m' = IDmap.size m - 1 ∧
       (∀ ID' j, IDmap.data m' !! ID' = Some j → j < IDmap.size m')).
Proof.
  split.
  - intros Hn. unfold IDmap.pop. by rewrite Hn.
  - intros Hwf idx Hidx.
    pose proof (idmap_pop_wf m ID idx Hwf Hidx) as Hwf'.
    pose proof (idmap_wf_lt _ _ _ Hwf Hidx) as Hlt.
    pose proof (idmap_wf_NoDup _ Hwf) as Hnd.
    pose proof (proj1 (Hwf _ _) Hidx) as Hl.
    revert Hwf'. unfold IDmap.pop. rewrite Hidx, decide_True by done.
    unfold Py.state; simpl. intros Hwf'.
    eexists. split; [done|]. simpl.
    assert (Hgone : ID ∉ delete idx (IDmap.lst m)).
    { intros Hin. apply list_elem_of_lookup in Hin as [i Hi].
      destruct (decide (i < idx)).
      - rewrite list_lookup_delete_lt in Hi by done.
        pose proof (NoDup_lookup _ _ _ _ Hnd Hi Hl). lia.
      - rewrite list_lookup_delete_ge in Hi by lia.
        pose proof (NoDup_lookup _ _ _ _ Hnd Hi Hl). lia. }
    split_and!.
    + done.
    + apply eq_None_not_Some. intros [j Hj]. apply Hwf' in Hj. simpl in Hj.
      apply Hgone. by eapply list_elem_of_lookup_2.
    + intros ID' j Hne Hj. apply Hwf'. simpl. apply Hwf in Hj.
      case_decide.
      * rewrite list_lookup_delete_ge by lia. by replace (S (j - 1)) with j by lia.
      * assert (j ≠ idx) by (intros ->; congruence).
        by rewrite list_lookup_delete_lt by lia.
    + done.
    + pose proof (idmap_wf_size _ Hwf') as Hs'.
      pose proof (idmap_wf_size _ Hwf) as Hs.
      etrans; [exact Hs'|]. simpl. rewrite length_delete by eauto.
      f_equal. symmetry. exact Hs.
    + intros ID' j Hj. pose proof (idmap_wf_size _ Hwf') as Hs'.
      eapply Nat.lt_le_trans; [exact (idmap_wf_lt _ _ _ Hwf' Hj)|].
      rewrite <- Hs'. done.
Qed.

Lemma idmap_pop_spec_witness :
  IDmap.wf Example.abc ∧ IDmap.data Example.abc !! "b" = Some 1 ∧
  ∃ m', IDmap.pop "b" Example.abc = (Py.Ok tt, m') ∧
    IDmap.lst m' = ["a"; "c"] ∧ IDmap.data m' !! "c" = Some 1 ∧ IDmap.wf m'.
Proof.
  assert (Hwf : IDmap.wf Example.abc) by (apply idmap_check_wf; vm_compute; reflexivity).
  split; [exact Hwf|]. split; [vm_compute; reflexivity|].
  destruct (idmap_pop_spec Example.abc "b") as [_ Hpop].
  destruct (Hpop Hwf 1) as (m' & Hm' & Hl & _ & Hshift & Hwf' & _);
    [vm_compute; reflexivity|].
  exists m'. split_and!; [exact Hm'|exact Hl| |exact Hwf'].
  apply (Hshift "c" 2); [discriminate|vm_compute; reflexivity].
Defined.

(** ** Running the monad *)

Ltac run_step :=
  unfold Py.bind, Py.ret, Py.raise, Py.get, Py.gets, Py.modify, Py.or_raise,
    Graph.on_idmap, Graph.getrow, Graph.setitem, IDmap.getitem, IDmap.idx2ID;
  simpl.

Ltac run_rewrite :=
  match goal with
  | H : ?m !! ?k = _ |- context [?m !! ?k] => rewrite H
  | H : Row.get ?k ?r = _ |- context [Row.get ?k ?r] => rewrite H
  | H : IDmap.contains ?k ?m = _ |- context [IDmap.contains ?k ?m] => rewrite H
  end.

Ltac run := repeat first [progress run_step | run_rewrite].

Lemma for_each_app {S A} (xs ys : list A) (body : A → Py.M S unit) (s : S) :
  Py.for_each (xs ++ ys) body s =
  (Py.for_each xs body ;;; Py.for_each ys body) s.
Proof.
  revert s. induction xs as [|x xs IH]; intros s; simpl.
  - done.
  - unfold Py.bind in *. destruct (body x s) as [[[]|e] s']; [|done].
    apply IH.
Qed.

(** ** [add_edge] with an unknown reduction *)

(** C9.  Whatever the graph, [add_edge] with a reduction other than
    [None], ["max"] and ["min"] raises [ValueError] (the invalid-argument
    error) and leaves the graph as it was: no node is created and no
    entry is written. *)
Theorem add_edge_unknown_reduction `{Py.Float} (g : Graph.t)
    (node_id1 node_id2 : string) (weight : float) (reduction : option string) :
  reduction ∉ [None; Some "max"; Some "min"] →
  Graph.add_edge node_id1 node_id2 weight reduction g
    = (Py.Raise Py.ValueError, g).
Proof.
  intros Hr.
  assert (Hk : Graph.known_reduction reduction = false)
    by (by apply bool_decide_eq_false_2).
  unfold Graph.add_edge, Graph.DirectedSparseGraph_add_edge,
    Graph.SparseGraph_add_edge.
  run_step. rewrite Hk. by destruct (Graph.class g).
Qed.

Lemma add_edge_unknown_reduction_witness :
  (Some "sum" ∉ [None; Some "max"; Some "min"]) ∧
  Graph.add_edge (H := Decimal.float) "a" "c" 2 (Some "sum") Example.ab
    = (Py.Raise Py.ValueError, Example.ab).
Proof.
  assert (Hr : Some "sum" ∉ [None; Some "max"; Some "min"]).
  { apply (bool_decide_eq_false_1 (Some "sum" ∈ [None; Some "max"; Some "min"])).
    vm_compute. reflexivity. }
  split; [exact Hr|].
  exact (add_edge_unknown_reduction Example.ab "a" "c" 2 (Some "sum") Hr).
Defined.

(** ** [get_edge] *)



(** ** The edge-list scenario *)

(** C1, as the code has it.  Reading the three-line edge list as a
    weighted, undirected graph with threshold 0 gives a graph of 4 nodes
    whose [num_edges], the sum of the sizes of the rows, is 6: each of the
    3 edges is stored in both directions.  [get_edge("1", "3")] is 0.4 and
    [get_edge("2", "1")] is 1.0. *)
Theorem from_edglst_toy :
  ∃ g, Graph.from_edglst (H := Decimal.float) Example.toy_edglst true false 0
         = Py.Ok g ∧
    Graph.size g = 4 ∧
    Graph.num_edges g = sum_list (length <$> Graph.edge_data g) ∧
    Graph.num_edges g = 6 ∧
    Graph.get_edge "1" "3" g = (Py.Ok 0.4%float, g) ∧
    Graph.get_edge "2" "1" g = (Py.Ok 1%float, g).
Proof.
  eexists. split; [vm_compute; reflexivity|].
  split_and!; vm_compute; reflexivity.
Qed.

(** C1, as the claim has it, fails: [num_edges] of the graph read is not 3. *)
Lemma from_edglst_toy_num_edges :
  ∃ g, Graph.from_edglst (H := Decimal.float) Example.toy_edglst true false 0
         = Py.Ok g ∧
    Graph.num_edges g ≠ 3.
Proof. eexists. split; [vm_compute; reflexivity|]. vm_compute. discriminate. Qed.

(** ** The edge generator *)

(** C10 at the undirected graph with the single edge a - b: the generator
    yields the edge once, and when it is exhausted the row of ["b"] has
    lost its entry for ["a"], so the graph stores the edge in one
    direction only. *)
Theorem edge_gen_pops_mirrored_entries :
  Graph.edge_data Example.ab = [[(1, 1%float)]; [(0, 1%float)]] ∧
  Graph.edge_gen Example.ab
    = (Py.Ok [("a", "b", 1%float)],
       Graph.with_edge_data [[(1, 1%float)]; []] Example.ab) ∧
  Graph.edge Graph.Forward Example.ab "b" "a" = Some 1%float ∧
  Graph.edge Graph.Forward (Py.state (Graph.edge_gen Example.ab)) "b" "a" = None.
Proof. split_and!; vm_compute; reflexivity. Qed.

(** ** Rows and adjacency lists *)

Section row_facts.
Implicit Types (r : Row.t) (k : nat) (v : float) (ed : list Row.t).

Lemma row_get_set_eq r k v : Row.get k (Row.set k v r) = Some v.
Proof.
  induction r as [|[k' v'] r IH]; simpl.
  - by rewrite decide_True.
  - destruct (decide (k' = k)) as [->|Hne]; simpl.
    + by rewrite decide_True.
    + by rewrite decide_False.
Qed.

Lemma row_get_set_ne r k k' v : k ≠ k' → Row.get k' (Row.set k v r) = Row.get k' r.
Proof.
  intros Hne. induction r as [|[k0 v0] r IH]; simpl.
  - by rewrite decide_False.
  - destruct (decide (k0 = k)) as [->|Hne0]; simpl.
    + by rewrite !decide_False.
    + destruct (decide (k0 = k')); [done|apply IH].
Qed.

Lemma row_get_None r k : Row.get k r = None ↔ k ∉ Row.keys r.
Proof.
  unfold Row.keys. induction r as [|[k' v'] r IH]; simpl.
  - split; [intros _; apply not_elem_of_nil|done].
  - rewrite not_elem_of_cons. destruct (decide (k' = k)) as [->|Hne].
    + split; [done|]. intros [? _]. done.
    + rewrite IH. naive_solver.
Qed.

Lemma row_get_elem r k v : Row.get k r = Some v → (k, v) ∈ r.
Proof.
  induction r as [|[k' v'] r IH]; simpl; [done|].
  destruct (decide (k' = k)) as [->|Hne].
  - intros [= ->]. left.
  - intros Hg. right. by apply IH.
Qed.

Lemma row_elem_get r k v : Row.wf r → (k, v) ∈ r → Row.get k r = Some v.
Proof.
  unfold Row.wf, Row.keys. induction r as [|[k' v'] r IH]; simpl.
  - intros _ Hin. by apply elem_of_nil in Hin.
  - intros Hnd Hin. apply NoDup_cons in Hnd as [Hk Hnd].
    apply elem_of_cons in Hin as [[= -> ->]|Hin].
    + by rewrite decide_True.
    + rewrite decide_False; [by apply IH|].
      intros ->. apply Hk. apply list_elem_of_fmap. by exists (k, v).
Qed.

Lemma row_set_fresh r k v : k ∉ Row.keys r → Row.set k v r = r ++ [(k, v)].
Proof.
  unfold Row.keys. induction r as [|[k' v'] r IH]; simpl; [done|].
  rewrite not_elem_of_cons. intros [Hne Hk].
  rewrite decide_False by done. by rewrite IH.
Qed.

Lemma lookup_write ed i j w x y :
  i < length ed →
  Graph.lookup (Graph.write ed i j w) x y
  = if decide (x = i ∧ y = j) then Some w else Graph.lookup ed x y.
Proof.
  intros Hlt. unfold Graph.write, Graph.lookup.
  destruct (lookup_lt_is_Some_2 _ _ Hlt) as [row Hrow]. rewrite Hrow.
  destruct (decide (x = i)) as [->|Hx].
  - rewrite list_lookup_insert_eq by done. rewrite Hrow. simpl.
    destruct (decide (y = j)) as [->|Hy].
    + rewrite decide_True by done. apply row_get_set_eq.
    + rewrite decide_False by naive_solver. by apply row_get_set_ne.
  - rewrite list_lookup_insert_ne by done. by rewrite decide_False by naive_solver.
Qed.

Lemma length_write ed i j w : length (Graph.write ed i j w) = length ed.
Proof.
  unfold Graph.write. destruct (ed !! i); [|done]. by rewrite length_insert.
Qed.

Lemma lookup_lt ed i j w : Graph.lookup ed i j = Some w → i < length ed.
Proof.
  unfold Graph.lookup. destruct (ed !! i) eqn:Hi; [|done].
  intros _. by eapply lookup_lt_Some.
Qed.

Lemma lookup_snoc_empty ed i j :
  Graph.lookup (ed ++ [[]]) i j = Graph.lookup ed i j.
Proof.
  unfold Graph.lookup. destruct (decide (i < length ed)) as [Hlt|Hge].
  - by rewrite lookup_app_l.
  - rewrite (lookup_ge_None_2 ed) by lia.
    destruct ((ed ++ [[]]) !! i) as [row|] eqn:Hrow; [|done].
    apply lookup_app_Some in Hrow as [Hrow|[_ Hrow]].
    + apply lookup_lt_Some in Hrow. lia.
    + apply list_lookup_singleton_Some in Hrow as [_ <-]. done.
Qed.

End row_facts.

(** ** One call of [_add_edge] *)

Lemma _add_edge_run (g : Graph.t) (a b : string) (i j : nat) (w : float)
    (red : option string) (s : Graph.store) :
  IDmap.data (Graph.idmap g) !! a = Some i →
  IDmap.data (Graph.idmap g) !! b = Some j →
  (Graph.self_loops g = true ∨ i ≠ j) →
  i < length (Graph.get_store s g) →
  (Graph.directed g = false → j < length (Graph.get_store s g)) →
  let old := Graph.lookup (Graph.get_store s g) i j in
  let w' := Graph.committed red old w in
  let ed1 := Graph.write (Graph.get_store s g) i j w' in
  let ed2 := if Graph.directed g then ed1 else Graph.write ed1 j i w' in
  Graph._add_edge a b w red s g
  = (Py.Ok tt,
     Graph.set_store s ed2
       (Graph.with_logger (Graph.logger g ++ Graph.warnings red old a b w) g)).
Proof.
  intros Ha Hb Hloop Hi Hj old w' ed1 ed2.
  destruct (lookup_lt_is_Some_2 _ _ Hi) as [row Hrow].
  assert (Hold : old = Row.get j row).
  { unfold old, Graph.lookup. by rewrite Hrow. }
  assert (Hsl : negb (Graph.self_loops g) && bool_decide (i = j) = false).
  { destruct Hloop as [->|Hne]; [done|].
    by rewrite bool_decide_eq_false_2, andb_false_r. }
  assert (Hed1 : ed1 = <[i := Row.set j w' row]> (Graph.get_store s g)).
  { unfold ed1, Graph.write. by rewrite Hrow. }
  assert (Hed2 : Graph.directed g = false →
    ∃ row', ed1 !! j = Some row' ∧ ed2 = <[j := Row.set i w' row']> ed1).
  { intros Hd. unfold ed2, Graph.write. rewrite Hd.
    destruct (lookup_lt_is_Some_2 ed1 j) as [row' Hrow'].
    { rewrite Hed1, length_insert. auto. }
    exists row'. by rewrite Hrow'. }
  unfold Graph._add_edge. run. rewrite Hsl.
  destruct s; simpl in *; rewrite Hrow.
  all: unfold w', Graph.committed, Graph.warnings in *; rewrite Hold in *.
  all: destruct (Row.get j row) as [old_weight|]; simpl.
  all: try destruct (Py.ne old_weight w); simpl.
  all: try destruct red as [r|]; simpl.
  all: try destruct (String.eqb r "max"); simpl.
  all: try destruct (String.eqb r "min"); simpl.
  all: rewrite ?Hrow, ?app_nil_r; simpl.
  all: destruct (Graph.directed g) eqn:Hd; simpl.
  all: try (rewrite <- Hed1; reflexivity).
  all: destruct (Hed2 eq_refl) as (row' & Hrow' & ->).
  all: rewrite <- Hed1, Hrow'; reflexivity.
Qed.

Lemma _add_edge_unmapped (g : Graph.t) (a b : string) (w : float)
    (red : option string) (s : Graph.store) :
  IDmap.data (Graph.idmap g) !! a = None ∨ IDmap.data (Graph.idmap g) !! b = None →
  Graph._add_edge a b w red s g = (Py.Raise Py.KeyError, g).
Proof.
  intros Hn. unfold Graph._add_edge.
  destruct (IDmap.data (Graph.idmap g) !! a) as [i|] eqn:Ha.
  - destruct Hn as [?|Hb]; [done|]. by run.
  - by run.
Qed.

Lemma _add_edge_self_loop (g : Graph.t) (a b : string) (i : nat) (w : float)
    (red : option string) (s : Graph.store) :
  IDmap.data (Graph.idmap g) !! a = Some i →
  IDmap.data (Graph.idmap g) !! b = Some i →
  Graph.self_loops g = false →
  Graph._add_edge a b w red s g = (Py.Ok tt, g).
Proof.
  intros Ha Hb Hs. unfold Graph._add_edge. run.
  by rewrite Hs, bool_decide_eq_true_2.
Qed.

(** ** Sequencing *)

Lemma bind_assoc {S A B C} (c : Py.M S A) (k : A → Py.M S B)
    (k' : B → Py.M S C) (s : S) :
  Py.bind (Py.bind c k) k' s = Py.bind c (fun a => Py.bind (k a) k') s.
Proof.
  unfold Py.bind. destruct (c s) as [[a|e] s']; [|done].
  by destruct (k a s') as [[b|e] s''].
Qed.

(** A property of the receiver that every step keeps, whatever the
    outcome of the step, holds when the sequence ends or is left. *)
Lemma bind_keeps {S A B} (I : S → Prop) (c : Py.M S A) (k : A → Py.M S B) (s : S) :
  I (Py.state (c s)) →
  (∀ a s', I s' → I (Py.state (k a s'))) →
  I (Py.state (Py.bind c k s)).
Proof.
  unfold Py.bind, Py.state. destruct (c s) as [[a|e] s']; simpl; auto.
Qed.

Lemma for_each_keeps {S A} (I : S → Prop) (xs : list A)
    (body : A → Py.M S unit) (s : S) :
  (∀ x s', I s' → I (Py.state (body x s'))) →
  I s → I (Py.state (Py.for_each xs body s)).
Proof.
  intros Hbody. revert s. induction xs as [|x xs IH]; intros s Hs; simpl.
  - done.
  - apply bind_keeps; [by apply Hbody|]. intros _ s' Hs'. by apply IH.
Qed.

(** ** [add_id] *)

Section add_id_facts.
Context `{Py.Float}.

Lemma add_id_run (g : Graph.t) (a : string) :
  Graph.add_id a g =
  match IDmap.addID a (Graph.idmap g) with
  | (Py.Ok _, m) =>
      (Py.Ok tt,
       match Graph.class g with
       | Graph.SparseGraph =>
           Graph.with_edge_data (Graph.edge_data g ++ [[]]) (Graph.with_idmap m g)
       | Graph.DirectedSparseGraph =>
           Graph.with_rev_edge_data (Graph.rev_edge_data g ++ [[]])
             (Graph.with_edge_data (Graph.edge_data g ++ [[]]) (Graph.with_idmap m g))
       end)
  | (Py.Raise e, m) => (Py.Raise e, Graph.with_idmap m g)
  end.
Proof.
  unfold Graph.add_id. run.
  destruct (IDmap.addID a (Graph.idmap g)) as [[r|e] m]; simpl; [|done].
  by destruct (Graph.class g).
Qed.

Lemma mirrored_new (weighted : bool) : Graph.mirrored (Graph.new_directed weighted).
Proof.
  split; simpl; try done. all: apply idmap_wf_empty.
Qed.

Lemma mirrored_add_id (g : Graph.t) (a : string) :
  Graph.mirrored g → Graph.mirrored (Py.state (Graph.add_id a g)).
Proof.
  intros [Hc Hd Hwf Hr Hrr He]. rewrite add_id_run.
  destruct (IDmap.contains (IDmap.canon a) (Graph.idmap g)) eqn:Hin.
  - rewrite addID_present by done. by split.
  - destruct (addID_fresh a _ Hwf Hin) as (m & -> & Hl & _ & _ & Hwf').
    rewrite Hc. unfold Py.state; simpl. split; simpl; try done.
    + rewrite Hl, !length_app. simpl. lia.
    + rewrite Hl, !length_app. simpl. lia.
    + intros i j. by rewrite !lookup_snoc_empty.
Qed.

Lemma mirrored_default_add_id (g : Graph.t) (a : string) :
  Graph.mirrored g → Graph.mirrored (Py.state (Graph._default_add_id a g)).
Proof.
  intros Hg. unfold Graph._default_add_id. run.
  destruct (IDmap.contains a (Graph.idmap g)); [done|].
  by apply mirrored_add_id.
Qed.

End add_id_facts.

(** ** The reversed adjacency list of a [DirectedSparseGraph] *)

Section directed_facts.
Context `{Py.Float}.

(** The forward write and the reversed write of one [add_edge]. *)
Lemma mirrored_writes (g : Graph.t) (a b : string) (w : float)
    (red : option string) :
  Graph.mirrored g →
  Graph.mirrored
    (Py.state ((Graph._add_edge a b w red Graph.Forward ;;;
                Graph._add_edge b a w red Graph.Reverse) g)).
Proof.
  intros Hg. pose proof Hg as [Hc Hd Hwf Hr Hrr He].
  destruct (IDmap.data (Graph.idmap g) !! a) as [i|] eqn:Ha; cycle 1.
  { unfold Py.bind. rewrite _add_edge_unmapped by auto. done. }
  destruct (IDmap.data (Graph.idmap g) !! b) as [j|] eqn:Hb; cycle 1.
  { unfold Py.bind. rewrite _add_edge_unmapped by auto. done. }
  pose proof (idmap_wf_lt _ _ _ Hwf Ha) as Hi.
  pose proof (idmap_wf_lt _ _ _ Hwf Hb) as Hj.
  destruct (decide (Graph.self_loops g = false ∧ i = j)) as [[Hs <-]|Hloop].
  { unfold Py.bind. rewrite (_add_edge_self_loop g a b i) by done.
    rewrite (_add_edge_self_loop g b a i) by done. done. }
  assert (Hloop' : Graph.self_loops g = true ∨ i ≠ j).
  { destruct (Graph.self_loops g); [by left|right]. naive_solver. }
  unfold Py.bind.
  rewrite (_add_edge_run g a b i j) by (simpl; (done || lia || congruence)).
  rewrite Hd. simpl.
  rewrite (_add_edge_run _ b a j i); simpl; try (done || lia || congruence).
  2:{ destruct Hloop' as [?|?]; [by left|right; congruence]. }
  rewrite Hd. unfold Py.state; simpl.
  rewrite (He i j).
  split; simpl; try done.
  - by rewrite length_write.
  - by rewrite length_write.
  - intros x y. rewrite !lookup_write by lia. rewrite He.
    destruct (decide (x = i ∧ y = j)) as [[-> ->]|Hxy].
    + by rewrite decide_True.
    + rewrite decide_False by naive_solver. done.
Qed.

Lemma mirrored_add_edge (g : Graph.t) (a b : string) (w : float)
    (red : option string) :
  Graph.mirrored g → Graph.mirrored (Py.state (Graph.add_edge a b w red g)).
Proof.
  intros Hg. unfold Graph.add_edge. unfold Py.bind at 1, Py.get.
  rewrite (Graph.mirrored_class _ Hg).
  unfold Graph.DirectedSparseGraph_add_edge, Graph.SparseGraph_add_edge.
  destruct (Graph.known_reduction red); cbn [negb]; [|done].
  rewrite bind_assoc.
  apply bind_keeps; [by apply mirrored_default_add_id|]. intros _ g1 Hg1.
  rewrite bind_assoc.
  apply bind_keeps; [by apply mirrored_default_add_id|]. intros _ g2 Hg2.
  by apply mirrored_writes.
Qed.

Lemma mirrored_run (cs : list Graph.call) (g : Graph.t) :
  Graph.mirrored g → Graph.mirrored (Graph.run cs g).
Proof.
  revert g. induction cs as [|c cs IH]; intros g Hg; simpl; [done|].
  apply IH. destruct c as [a|ids|a b w red]; simpl.
  - by apply mirrored_add_id.
  - unfold Graph.add_ids. apply for_each_keeps; [|done].
    intros x g' Hg'. by apply mirrored_add_id.
  - by apply mirrored_add_edge.
Qed.

End directed_facts.

(** C4.  After any sequence of [add_id] and [add_edge] calls on a fresh
    [DirectedSparseGraph], failed calls included, the reversed adjacency
    list holds at [j][i] exactly what the forward one holds at [i][j]:
    the same weight where an entry is stored and nothing where none is.
    After [add_edge("a", "b", 2.0)] on a fresh graph the forward entry
    a -> b and the reversed entry b -> a are 2.0 and there is no forward
    entry b -> a. *)
Theorem directed_reverse_mirrors_forward :
  (∀ (F : Py.Float) (weighted : bool) (cs : list Graph.call) (i j : nat),
     Graph.lookup (Graph.rev_edge_data (Graph.run cs (Graph.new_directed weighted))) j i
     = Graph.lookup (Graph.edge_data (Graph.run cs (Graph.new_directed weighted))) i j) ∧
  (∀ (F : Py.Float) (weighted : bool) (cs : list Graph.call) (a b : string),
     Graph.edge Graph.Reverse (Graph.run cs (Graph.new_directed weighted)) b a
     = Graph.edge Graph.Forward (Graph.run cs (Graph.new_directed weighted)) a b) ∧
  Graph.edge Graph.Forward
    (Graph.run (H := Decimal.float) [Graph.Add_edge "a" "b" 2 None] (Graph.new_directed true))
    "a" "b" = Some 2%float ∧
  Graph.edge Graph.Reverse
    (Graph.run (H := Decimal.float) [Graph.Add_edge "a" "b" 2 None] (Graph.new_directed true))
    "b" "a" = Some 2%float ∧
  Graph.edge Graph.Forward
    (Graph.run (H := Decimal.float) [Graph.Add_edge "a" "b" 2 None] (Graph.new_directed true))
    "b" "a" = None.
Proof.
  split; [|split; [|split_and!; vm_compute; reflexivity]].
  - intros F weighted cs i j.
    apply (Graph.mirrored_entries _ (mirrored_run cs _ (mirrored_new weighted))).
  - intros F weighted cs a b. unfold Graph.edge; simpl.
    pose proof (mirrored_run cs _ (mirrored_new weighted)) as Hg.
    destruct (IDmap.data (Graph.idmap (Graph.run cs (Graph.new_directed weighted))) !! a);
      destruct (IDmap.data (Graph.idmap (Graph.run cs (Graph.new_directed weighted))) !! b);
      simpl; try done.
    apply (Graph.mirrored_entries _ Hg).
Qed.

(** ** [add_edge] between two nodes of the graph *)

Section add_edge_facts.
Context `{Py.Float}.

Lemma default_add_id_present (g : Graph.t) (a : string) (i : nat) :
  IDmap.data (Graph.idmap g) !! a = Some i →
  Graph._default_add_id a g = (Py.Ok tt, g).
Proof.
  intros Ha. unfold Graph._default_add_id, IDmap.contains. by run.
Qed.

Lemma SparseGraph_add_edge_present (g : Graph.t) (a b : string) (i j : nat)
    (w : float) (red : option string) :
  Graph.known_reduction red = true →
  IDmap.data (Graph.idmap g) !! a = Some i →
  IDmap.data (Graph.idmap g) !! b = Some j →
  (Graph.self_loops g = true ∨ i ≠ j) →
  i < length (Graph.edge_data g) →
  (Graph.directed g = false → j < length (Graph.edge_data g)) →
  let old := Graph.lookup (Graph.edge_data g) i j in
  let w' := Graph.committed red old w in
  let ed1 := Graph.write (Graph.edge_data g) i j w' in
  let ed2 := if Graph.directed g then ed1 else Graph.write ed1 j i w' in
  Graph.SparseGraph_add_edge a b w red g
  = (Py.Ok tt,
     Graph.with_edge_data ed2
       (Graph.with_logger (Graph.logger g ++ Graph.warnings red old a b w) g)).
Proof.
  intros Hk Ha Hb Hloop Hi Hj old w' ed1 ed2.
  unfold Graph.SparseGraph_add_edge. rewrite Hk. simpl.
  unfold Py.bind. rewrite (default_add_id_present g a i) by done.
  rewrite (default_add_id_present g b j) by done.
  by rewrite (_add_edge_run g a b i j w red Graph.Forward).
Qed.

(** [add_edge] on a graph with one row per node, between two IDs of its
    map that are not a suppressed self loop. *)
Lemma add_edge_present_shaped (g : Graph.t) (a b : string) (i j : nat)
    (w : float) (red : option string) :
  Graph.shaped g →
  Graph.known_reduction red = true →
  IDmap.data (Graph.idmap g) !! a = Some i →
  IDmap.data (Graph.idmap g) !! b = Some j →
  (Graph.self_loops g = true ∨ i ≠ j) →
  let old := Graph.lookup (Graph.edge_data g) i j in
  let w' := Graph.committed red old w in
  let ed1 := Graph.write (Graph.edge_data g) i j w' in
  let ed2 := if Graph.directed g then ed1 else Graph.write ed1 j i w' in
  ∃ g', Graph.add_edge a b w red g = (Py.Ok tt, g') ∧
    Graph.edge_data g' = ed2 ∧
    Graph.idmap g' = Graph.idmap g ∧
    Graph.class g' = Graph.class g ∧
    Graph.directed g' = Graph.directed g ∧
    Graph.self_loops g' = Graph.self_loops g ∧
    Graph.weighted g' = Graph.weighted g ∧
    (∃ extra, Graph.logger g'
              = Graph.logger g ++ Graph.warnings red old a b w ++ extra) ∧
    (Graph.class g = Graph.SparseGraph →
       Graph.rev_edge_data g' = Graph.rev_edge_data g ∧
       Graph.logger g' = Graph.logger g ++ Graph.warnings red old a b w).
Proof.
  intros Hsh Hk Ha Hb Hloop old w' ed1 ed2.
  pose proof (idmap_wf_lt _ _ _ (Graph.shaped_idmap _ Hsh) Ha) as Hi.
  pose proof (idmap_wf_lt _ _ _ (Graph.shaped_idmap _ Hsh) Hb) as Hj.
  rewrite <- (Graph.shaped_rows _ Hsh) in Hi, Hj.
  unfold Graph.add_edge. run.
  destruct (Graph.class g) eqn:Hc.
  - rewrite (SparseGraph_add_edge_present g a b i j) by auto.
    eexists. split; [done|]. simpl. split_and!; try done.
    exists []. by rewrite app_nil_r.
  - destruct (Graph.shaped_rev _ Hsh Hc) as [Hd Hrev].
    unfold Graph.DirectedSparseGraph_add_edge, Py.bind.
    rewrite (SparseGraph_add_edge_present g a b i j) by auto.
    rewrite (_add_edge_run _ b a j i); simpl; try (done || lia || congruence).
    2:{ destruct Hloop as [?|?]; [by left|right; congruence]. }
    eexists. split; [done|]. simpl. rewrite Hd. split_and!; try done.
    + unfold ed2. by rewrite Hd.
    + rewrite <- app_assoc. eauto.
Qed.

Lemma wf_shaped (g : Graph.t) : Graph.wf g → Graph.shaped g.
Proof. intros Hwf. split; apply Hwf. Qed.

(** [add_edge] on a graph that satisfies the invariant, between two IDs
    of its map that are not a suppressed self loop. *)
Lemma add_edge_present (g : Graph.t) (a b : string) (i j : nat)
    (w : float) (red : option string) :
  Graph.wf g →
  Graph.known_reduction red = true →
  IDmap.data (Graph.idmap g) !! a = Some i →
  IDmap.data (Graph.idmap g) !! b = Some j →
  (Graph.self_loops g = true ∨ i ≠ j) →
  let old := Graph.lookup (Graph.edge_data g) i j in
  let w' := Graph.committed red old w in
  let ed1 := Graph.write (Graph.edge_data g) i j w' in
  let ed2 := if Graph.directed g then ed1 else Graph.write ed1 j i w' in
  ∃ g', Graph.add_edge a b w red g = (Py.Ok tt, g') ∧
    Graph.edge_data g' = ed2 ∧
    Graph.idmap g' = Graph.idmap g ∧
    Graph.class g' = Graph.class g ∧
    Graph.directed g' = Graph.directed g ∧
    Graph.self_loops g' = Graph.self_loops g ∧
    Graph.weighted g' = Graph.weighted g ∧
    (∃ extra, Graph.logger g'
              = Graph.logger g ++ Graph.warnings red old a b w ++ extra) ∧
    (Graph.class g = Graph.SparseGraph →
       Graph.rev_edge_data g' = Graph.rev_edge_data g ∧
       Graph.logger g' = Graph.logger g ++ Graph.warnings red old a b w).
Proof. intros Hwf. by apply add_edge_present_shaped, wf_shaped. Qed.

End add_edge_facts.

(** ** Comparisons of floats *)

Lemma SFcompare_swap (x y : SpecFloat.spec_float) :
  SpecFloat.SFcompare y x = CompOpp <$> SpecFloat.SFcompare x y.
Proof.
  destruct x as [sx|sx| |sx mx ex], y as [sy|sy| |sy my ey]; simpl;
    try reflexivity; try (by destruct sx); try (by destruct sy);
    try (by destruct sx, sy).
  destruct sx, sy; simpl; try reflexivity; f_equal;
    rewrite (Z.compare_antisym ex ey); destruct (ex ?= ey)%Z; simpl; try reflexivity;
    rewrite (Pos.compare_cont_antisym mx my Eq); simpl; try reflexivity.
Qed.

Lemma float_ltb_swap (x y : float) :
  PrimFloat.ltb x y = true → PrimFloat.ltb y x = false ∧ PrimFloat.eqb x y = false.
Proof.
  rewrite !FloatAxioms.ltb_spec, FloatAxioms.eqb_spec.
  unfold SpecFloat.SFltb, SpecFloat.SFeqb.
  rewrite (SFcompare_swap (Prim2SF x) (Prim2SF y)).
  by destruct (SpecFloat.SFcompare (Prim2SF x) (Prim2SF y)) as [[]|].
Qed.

Lemma float_eqb_ltb (x y : float) :
  PrimFloat.eqb x y = true → PrimFloat.ltb x y = false ∧ PrimFloat.ltb y x = false.
Proof.
  rewrite !FloatAxioms.ltb_spec, FloatAxioms.eqb_spec.
  unfold SpecFloat.SFltb, SpecFloat.SFeqb.
  rewrite (SFcompare_swap (Prim2SF x) (Prim2SF y)).
  by destruct (SpecFloat.SFcompare (Prim2SF x) (Prim2SF y)) as [[]|].
Qed.

Lemma float_ltb_irrefl (x : float) : PrimFloat.ltb x x = false.
Proof.
  destruct (PrimFloat.ltb x x) eqn:Hx; [|done].
  destruct (float_ltb_swap x x Hx) as [Hx' _]. by rewrite Hx in Hx'.
Qed.

(** What [_add_edge] commits over an entry, reduction by reduction. *)
Lemma committed_max (old new : float) :
  Graph.committed (Some "max") (Some old) new
  = if PrimFloat.eqb old new then new
    else if PrimFloat.ltb old new then new else old.
Proof.
  unfold Graph.committed, Py.ne, Py.max; simpl.
  by destruct (PrimFloat.eqb old new).
Qed.

Lemma committed_min (old new : float) :
  Graph.committed (Some "min") (Some old) new
  = if PrimFloat.eqb old new then new
    else if PrimFloat.ltb new old then new else old.
Proof.
  unfold Graph.committed, Py.ne, Py.min; simpl.
  by destruct (PrimFloat.eqb old new).
Qed.

Lemma committed_none (old : option float) (w : float) :
  Graph.committed None old w = w.
Proof. unfold Graph.committed. destruct old as [o|]; [|done]. by destruct (Py.ne o w). Qed.

Lemma max_bounds (old new : float) :
  let w := if PrimFloat.eqb old new then new
           else if PrimFloat.ltb old new then new else old in
  (w = old ∨ w = new) ∧ PrimFloat.ltb w old = false ∧ PrimFloat.ltb w new = false.
Proof.
  simpl. destruct (PrimFloat.eqb old new) eqn:He.
  { destruct (float_eqb_ltb _ _ He) as [_ Hlt].
    split_and!; [by right|done|apply float_ltb_irrefl]. }
  destruct (PrimFloat.ltb old new) eqn:Hl.
  - destruct (float_ltb_swap _ _ Hl) as [Hlt _].
    split_and!; [by right|done|apply float_ltb_irrefl].
  - split_and!; [by left|apply float_ltb_irrefl|done].
Qed.

Lemma min_bounds (old new : float) :
  let w := if PrimFloat.eqb old new then new
           else if PrimFloat.ltb new old then new else old in
  (w = old ∨ w = new) ∧ PrimFloat.ltb old w = false ∧ PrimFloat.ltb new w = false.
Proof.
  simpl. destruct (PrimFloat.eqb old new) eqn:He.
  { destruct (float_eqb_ltb _ _ He) as [Hlt _].
    split_and!; [by right|done|apply float_ltb_irrefl]. }
  destruct (PrimFloat.ltb new old) eqn:Hl.
  - destruct (float_ltb_swap _ _ Hl) as [Hlt _].
    split_and!; [by right|done|apply float_ltb_irrefl].
  - split_and!; [by left|apply float_ltb_irrefl|done].
Qed.

(** C2, as the code has it.  Take a graph with a consistent map and one
    row per node (a [DirectedSparseGraph] being directed, with one
    reversed row per node), in which the entry a, b holds [w_old].

    When the graph has self loops off and [a] is [b] (an entry only
    [read_npz] stores), [add_edge(a, a, w_new)] returns for each of the
    three reductions and changes nothing.

    Otherwise [add_edge(a, b, w_new)] returns for each of the three
    reductions and the entry a, b (and, in an undirected graph, the
    entry b, a) afterwards holds:
    with ["max"], [w_new] when [w_old == w_new] or [w_old < w_new], and
    [w_old] if not: one of the two weights, and less than neither;
    with ["min"], [w_new] when [w_old == w_new] or [w_new < w_old], and
    [w_old] if not: one of the two weights, and greater than neither;
    with [None], [w_new], and when [w_old != w_new] the log receives the
    overwrite warning.

    On a fresh graph, [add_edge(a, b, 1.0)] followed by
    [add_edge(a, b, 3.0, reduction)] gives [get_edge(a, b)] 3.0 for
    ["max"], 1.0 for ["min"] and 3.0 for [None]; with the weights 3.0
    and then 1.0 it gives 3.0, 1.0 and 1.0.  With [None] the second call
    returns and the log holds the one warning. *)
Theorem add_edge_reduction :
  (∀ (F : Py.Float) (g : Graph.t) (a b : string) (w_old w_new : float),
     Graph.shaped g →
     Graph.edge Graph.Forward g a b = Some w_old →
     (Graph.self_loops g = false → a = b →
        ∀ reduction, Graph.known_reduction reduction = true →
          Graph.add_edge a b w_new reduction g = (Py.Ok tt, g)) ∧
     (Graph.self_loops g = true ∨ a ≠ b →
        (∃ g' w', Graph.add_edge a b w_new (Some "max") g = (Py.Ok tt, g') ∧
           Graph.edge Graph.Forward g' a b = Some w' ∧
           (Graph.directed g = false → Graph.edge Graph.Forward g' b a = Some w') ∧
           w' = (if PrimFloat.eqb w_old w_new then w_new
                 else if PrimFloat.ltb w_old w_new then w_new else w_old) ∧
           (w' = w_old ∨ w' = w_new) ∧
           PrimFloat.ltb w' w_old = false ∧ PrimFloat.ltb w' w_new = false) ∧
        (∃ g' w', Graph.add_edge a b w_new (Some "min") g = (Py.Ok tt, g') ∧
           Graph.edge Graph.Forward g' a b = Some w' ∧
           (Graph.directed g = false → Graph.edge Graph.Forward g' b a = Some w') ∧
           w' = (if PrimFloat.eqb w_old w_new then w_new
                 else if PrimFloat.ltb w_new w_old then w_new else w_old) ∧
           (w' = w_old ∨ w' = w_new) ∧
           PrimFloat.ltb w_old w' = false ∧ PrimFloat.ltb w_new w' = false) ∧
        (∃ g', Graph.add_edge a b w_new None g = (Py.Ok tt, g') ∧
           Graph.edge Graph.Forward g' a b = Some w_new ∧
           (Graph.directed g = false → Graph.edge Graph.Forward g' b a = Some w_new) ∧
           (PrimFloat.eqb w_old w_new = false →
              ∃ extra, Graph.logger g'
                       = Graph.logger g ++ Graph.Overwrite a b w_old w_new :: extra)))) ∧
  (∀ first second reduction expected,
     (first, second, reduction, expected)
     ∈ [(1%float, 3%float, Some "max", 3%float); (3%float, 1%float, Some "max", 3%float);
        (1%float, 3%float, Some "min", 1%float); (3%float, 1%float, Some "min", 1%float);
        (1%float, 3%float, None, 3%float); (3%float, 1%float, None, 1%float)] →
     Py.value (Graph.get_edge "a" "b"
       (Graph.run (H := Decimal.float)
          [Graph.Add_edge "a" "b" first None; Graph.Add_edge "a" "b" second reduction]
          (Graph.new true false false)))
     = Py.Ok expected) ∧
  Py.value (Graph.add_edge (H := Decimal.float) "a" "b" 3 None
    (Graph.run (H := Decimal.float) [Graph.Add_edge "a" "b" 1 None]
       (Graph.new true false false)))
  = Py.Ok tt ∧
  Graph.logger (Graph.run (H := Decimal.float)
    [Graph.Add_edge "a" "b" 1 None; Graph.Add_edge "a" "b" 3 None]
    (Graph.new true false false))
  = [Graph.Overwrite "a" "b" 1 3].
Proof.
  split; [|split; [|split; vm_compute; reflexivity]].
  - intros F g a b w_old w_new Hsh Hedge.
    unfold Graph.edge in Hedge. simpl in Hedge.
    destruct (IDmap.data (Graph.idmap g) !! a) as [i|] eqn:Ha; [|done].
    destruct (IDmap.data (Graph.idmap g) !! b) as [j|] eqn:Hb; [|done].
    simpl in Hedge. split.
    { intros Hs -> reduction Hk. assert (j = i) as -> by congruence.
      unfold Graph.add_edge. run.
      assert (Hsp : Graph.SparseGraph_add_edge b b w_new reduction g = (Py.Ok tt, g)).
      { unfold Graph.SparseGraph_add_edge. rewrite Hk. simpl. unfold Py.bind.
        rewrite (default_add_id_present g b i) by done.
        rewrite (default_add_id_present g b i) by done.
        by rewrite (_add_edge_self_loop g b b i). }
      destruct (Graph.class g); [done|].
      unfold Graph.DirectedSparseGraph_add_edge, Py.bind. rewrite Hsp.
      by rewrite (_add_edge_self_loop g b b i). }
    intros Hloop'.
    assert (Hloop : Graph.self_loops g = true ∨ i ≠ j).
    { destruct Hloop' as [?|Hab]; [by left|right]. intros ->. apply Hab.
      apply (Graph.shaped_idmap _ Hsh) in Ha, Hb. congruence. }
    pose proof (idmap_wf_lt _ _ _ (Graph.shaped_idmap _ Hsh) Ha) as Hi.
    pose proof (idmap_wf_lt _ _ _ (Graph.shaped_idmap _ Hsh) Hb) as Hj.
    rewrite <- (Graph.shaped_rows _ Hsh) in Hi, Hj.
    assert (Hstored : ∀ red g',
      Graph.edge_data g'
        = (let w' := Graph.committed red (Some w_old) w_new in
           let ed1 := Graph.write (Graph.edge_data g) i j w' in
           if Graph.directed g then ed1 else Graph.write ed1 j i w') →
      Graph.idmap g' = Graph.idmap g →
      Graph.edge Graph.Forward g' a b = Some (Graph.committed red (Some w_old) w_new) ∧
      (Graph.directed g = false →
         Graph.edge Graph.Forward g' b a = Some (Graph.committed red (Some w_old) w_new))).
    { intros red g' Hed Hid. unfold Graph.edge. simpl. rewrite Hid, Ha, Hb, Hed. simpl.
      destruct (Graph.directed g); simpl.
      - split; [|done]. rewrite lookup_write by done. by rewrite decide_True.
      - rewrite !lookup_write by (rewrite ?length_write; done).
        split; [|intros _].
        + destruct (decide (i = j ∧ j = i)); [done|]. by rewrite decide_True.
        + by rewrite decide_True. }
    split_and!.
    + destruct (add_edge_present_shaped g a b i j w_new (Some "max") Hsh eq_refl Ha Hb Hloop)
        as (g' & Hrun & Hed & Hid & _).
      rewrite Hedge in Hed. destruct (Hstored _ _ Hed Hid) as [H1 H2].
      exists g', (Graph.committed (Some "max") (Some w_old) w_new).
      split_and!; [done|done|done|apply committed_max|..];
        rewrite committed_max; apply max_bounds.
    + destruct (add_edge_present_shaped g a b i j w_new (Some "min") Hsh eq_refl Ha Hb Hloop)
        as (g' & Hrun & Hed & Hid & _).
      rewrite Hedge in Hed. destruct (Hstored _ _ Hed Hid) as [H1 H2].
      exists g', (Graph.committed (Some "min") (Some w_old) w_new).
      split_and!; [done|done|done|apply committed_min|..];
        rewrite committed_min; apply min_bounds.
    + destruct (add_edge_present_shaped g a b i j w_new None Hsh eq_refl Ha Hb Hloop)
        as (g' & Hrun & Hed & Hid & _ & _ & _ & _ & [extra Hlog] & _).
      rewrite Hedge in Hed, Hlog. destruct (Hstored _ _ Hed Hid) as [H1 H2].
      rewrite committed_none in H1, H2.
      exists g'. split_and!; [done|done|done|].
      intros Hne. exists extra. rewrite Hlog. unfold Graph.warnings, Py.ne.
      by rewrite Hne.
  - intros first second reduction expected Hin.
    repeat (apply elem_of_cons in Hin as [[= -> -> -> ->]|Hin]; [vm_compute; reflexivity|]).
    by apply elem_of_nil in Hin.
Qed.

(** ** The stored entries and the decision procedure for the invariant *)

Lemma lookup_entries (ed : list Row.t) (i j : nat) (w : float) :
  Graph.lookup ed i j = Some w → (i, j, w) ∈ Graph.entries ed.
Proof.
  unfold Graph.lookup, Graph.entries. intros Hl.
  destruct (ed !! i) as [row|] eqn:Hrow; [|done]. simpl in Hl.
  apply list_elem_of_In, in_concat. eexists. rewrite <- !list_elem_of_In. split.
  - apply elem_of_lookup_imap. by exists i, row.
  - apply list_elem_of_fmap. exists (j, w). split; [done|]. by apply row_get_elem.
Qed.

Lemma entries_lookup (ed : list Row.t) (i j : nat) (w : float) :
  Forall Row.wf ed → (i, j, w) ∈ Graph.entries ed → Graph.lookup ed i j = Some w.
Proof.
  unfold Graph.lookup, Graph.entries. intros Hwf Hin.
  apply list_elem_of_In, in_concat in Hin as (l & Hl & Hin).
  apply list_elem_of_In in Hl, Hin.
  apply elem_of_lookup_imap in Hl as (i' & row & -> & Hrow).
  apply list_elem_of_fmap in Hin as ([j' w'] & [= -> -> ->] & Hin).
  replace (ed !! i') with (Some row) by (symmetry; exact Hrow). simpl. apply row_elem_get; [|done].
  by eapply Forall_lookup_1.
Qed.

Lemma check_wf `{Py.Float} (g : Graph.t) : Graph.check g = true → Graph.wf g.
Proof.
  unfold Graph.check. rewrite !andb_true_iff, !forallb_forall, !bool_decide_eq_true.
  intros (((((Hm & Hcanon) & Hrows) & Hkeys) & Hentries) & Hrev).
  assert (He : ∀ i j w, Graph.lookup (Graph.edge_data g) i j = Some w →
    j < length (Graph.edge_data g) ∧
    (Graph.directed g = false → Graph.lookup (Graph.edge_data g) j i = Some w) ∧
    (Graph.self_loops g = false → i ≠ j)).
  { intros i j w Hl. apply lookup_entries, list_elem_of_In, Hentries in Hl.
    rewrite !andb_true_iff, orb_true_iff, orb_true_iff in Hl.
    rewrite negb_true_iff, !bool_decide_eq_true, bool_decide_eq_false in Hl.
    destruct Hl as ((Hb & Hd) & Hs). split_and!.
    - done.
    - intros Hdir. destruct Hd as [Hd|Hd]; [congruence|done].
    - intros Hsl. destruct Hs as [Hs|Hs]; [congruence|done]. }
  split.
  - by apply idmap_check_wf.
  - apply Forall_forall. intros ID HID. apply list_elem_of_In, Hcanon in HID.
    by apply bool_decide_eq_true in HID.
  - done.
  - apply Forall_forall. intros r Hr. apply list_elem_of_In, Hkeys in Hr.
    by apply bool_decide_eq_true in Hr.
  - intros i j w Hl. by destruct (He _ _ _ Hl) as (? & _).
  - intros Hdir i j w Hl. destruct (He _ _ _ Hl) as (_ & Hm' & _). by apply Hm'.
  - intros Hsl i. destruct (Graph.lookup (Graph.edge_data g) i i) as [w|] eqn:Hl; [|done].
    destruct (He _ _ _ Hl) as (_ & _ & Hne). exfalso. by apply Hne.
  - intros Hc. rewrite Hc in Hrev. apply andb_true_iff in Hrev as [Hd Hl].
    by apply bool_decide_eq_true in Hl.
Qed.

Lemma wf_ab : Graph.wf (H := Decimal.float) Example.ab.
Proof. apply check_wf. vm_compute. reflexivity. Qed.

Lemma shaped_ab : Graph.shaped Example.ab.
Proof. split; [apply idmap_check_wf; vm_compute; reflexivity|reflexivity|done]. Qed.

Lemma shaped_reloaded : Graph.shaped Example.reloaded.
Proof. split; [apply idmap_check_wf; vm_compute; reflexivity|reflexivity|done]. Qed.

Lemma add_edge_reduction_witness :
  Graph.shaped Example.ab ∧
  Graph.edge Graph.Forward Example.ab "a" "b" = Some 1%float ∧
  (∃ g' w',
     Graph.add_edge (H := Decimal.float) "a" "b" 3 (Some "max") Example.ab
       = (Py.Ok tt, g') ∧
     Graph.edge Graph.Forward g' "a" "b" = Some w' ∧
     w' = 3%float) ∧
  (∃ g' w',
     Graph.add_edge (H := Decimal.float) "a" "b" 3 (Some "min") Example.ab
       = (Py.Ok tt, g') ∧
     Graph.edge Graph.Forward g' "a" "b" = Some w' ∧
     w' = 1%float) ∧
  Graph.shaped Example.reloaded ∧
  Graph.edge Graph.Forward Example.reloaded "a" "a" = Some 1%float ∧
  Graph.add_edge (H := Decimal.float) "a" "a" 3 (Some "max") Example.reloaded
    = (Py.Ok tt, Example.reloaded) ∧
  Py.value (Graph.get_edge "a" "b"
    (Graph.run (H := Decimal.float)
       [Graph.Add_edge "a" "b" 3 None; Graph.Add_edge "a" "b" 1 (Some "max")]
       (Graph.new true false false)))
  = Py.Ok 3%float.
Proof.
  destruct add_edge_reduction as (Hgen & Hex & _).
  assert (Hedge : Graph.edge Graph.Forward Example.ab "a" "b" = Some 1%float)
    by (vm_compute; reflexivity).
  assert (Hloop : Graph.edge Graph.Forward Example.reloaded "a" "a" = Some 1%float)
    by (vm_compute; reflexivity).
  destruct (Hgen Decimal.float Example.ab "a" "b" 1%float 3%float shaped_ab Hedge)
    as (_ & Hab).
  destruct Hab as ((g1 & w1 & Hrun1 & Hst1 & _ & Hw1 & _) &
                   (g2 & w2 & Hrun2 & Hst2 & _ & Hw2 & _) & _).
  { right. discriminate. }
  destruct (Hgen Decimal.float Example.reloaded "a" "a" 1%float 3%float
              shaped_reloaded Hloop) as (Hsame & _).
  split; [exact shaped_ab|]. split; [exact Hedge|].
  split; [exists g1, w1; split_and!; [exact Hrun1|exact Hst1|rewrite Hw1; vm_compute; reflexivity]|].
  split; [exists g2, w2; split_and!; [exact Hrun2|exact Hst2|rewrite Hw2; vm_compute; reflexivity]|].
  split; [exact shaped_reloaded|]. split; [exact Hloop|].
  split; [apply Hsame; [reflexivity|reflexivity|vm_compute; reflexivity]|].
  apply (Hex 3%float 1%float (Some "max") 3%float). right. left.
Defined.

(** C2, as the claim has it, fails.  The undirected graph with self
    loops that stores the edge a, a with weight 1.0 is saved and read
    back: [from_npz] gives a graph with self loops off in which the entry
    a, a is stored.  There [add_edge("a", "a", 3.0, "max")] returns and
    changes nothing, and so does the call with reduction [None], which
    logs no warning: [get_edge("a", "a")] is still 1.0, where the maximum
    of the two weights, and the last weight written, is 3.0. *)
Lemma add_edge_stored_self_loop_kept :
  Graph.run (H := Decimal.float) [Graph.Add_edge "a" "a" 1 None]
    (Graph.new true false true) = Example.loop ∧
  Graph.from_npz (H := Decimal.float) (Graph.save_npz Example.loop true) true false
    = Py.Ok Example.reloaded ∧
  Graph.self_loops Example.reloaded = false ∧
  Graph.get_edge "a" "a" Example.reloaded = (Py.Ok 1%float, Example.reloaded) ∧
  Graph.add_edge (H := Decimal.float) "a" "a" 3 (Some "max") Example.reloaded
    = (Py.Ok tt, Example.reloaded) ∧
  Graph.add_edge (H := Decimal.float) "a" "a" 3 None Example.reloaded
    = (Py.Ok tt, Example.reloaded) ∧
  PrimFloat.ltb 1 3 = true.
Proof. split_and!; vm_compute; reflexivity. Qed.

(** ** Loops over lists *)

Lemma for_each_fmap {S A B} (f : A → B) (xs : list A)
    (body : B → Py.M S unit) (s : S) :
  Py.for_each (f <$> xs) body s = Py.for_each xs (fun x => body (f x)) s.
Proof.
  revert s. induction xs as [|x xs IH]; intros s; simpl; [done|].
  unfold Py.bind. destruct (body (f x) s) as [[[]|e] s']; [apply IH|done].
Qed.

Lemma for_each_ext {S A} (xs : list A) (body body' : A → Py.M S unit) (s : S) :
  (∀ x s', x ∈ xs → body x s' = body' x s') →
  Py.for_each xs body s = Py.for_each xs body' s.
Proof.
  revert s. induction xs as [|x xs IH]; intros s Hext; simpl; [done|].
  unfold Py.bind. rewrite (Hext x s) by left.
  destruct (body' x s) as [[[]|e] s']; [|done].
  apply IH. intros y s'' Hy. apply Hext. by right.
Qed.

Lemma zip_fmap_same {A B C} (f : A → B) (h : A → C) (l : list A) :
  zip (f <$> l) (h <$> l) = (fun x => (f x, h x)) <$> l.
Proof. induction l as [|x l IH]; simpl; [done|]. f_equal. exact IH. Qed.

(** ** Replaying the stored entries into empty rows *)

Section replay.
Implicit Types (ed done rest : list Row.t) (row acc : Row.t) (g : Graph.t).

Lemma with_edge_data_id g ed :
  Graph.edge_data g = ed → (Py.Ok tt, g) = (Py.Ok tt, Graph.with_edge_data ed g).
Proof. by intros <-. Qed.

Lemma setitem_run g i j w row :
  Graph.edge_data g !! i = Some row →
  Graph.setitem Graph.Forward i j w g
  = (Py.Ok tt, Graph.with_edge_data (<[i := Row.set j w row]> (Graph.edge_data g)) g).
Proof. intros Hrow. unfold Graph.setitem. by run. Qed.

Lemma replay_row row acc done rest g :
  NoDup (Row.keys (acc ++ row)) →
  Graph.edge_data g = done ++ acc :: rest →
  Py.for_each ((fun '(nbr, w) => (length done, nbr, w)) <$> row)
    (fun '(i, j, w) => Graph.setitem Graph.Forward i j w) g
  = (Py.Ok tt, Graph.with_edge_data (done ++ (acc ++ row) :: rest) g).
Proof.
  revert acc g. induction row as [|[nbr w] row IH]; intros acc g Hnd Hed; simpl.
  - apply with_edge_data_id. by rewrite app_nil_r.
  - unfold Py.bind. rewrite (setitem_run g _ _ _ acc); cycle 1.
    { rewrite Hed. by rewrite list_lookup_middle. }
    assert (Hfresh : nbr ∉ Row.keys acc).
    { unfold Row.keys in *. rewrite fmap_app in Hnd.
      apply NoDup_app in Hnd as (_ & Hdis & _). intros Hin.
      apply (Hdis nbr Hin). simpl. left. }
    rewrite row_set_fresh by done.
    rewrite Hed, insert_app_r_alt by done.
    replace (length done - length done) with 0 by lia. simpl.
    rewrite (IH (acc ++ [(nbr, w)])); simpl.
    + by rewrite <- app_assoc.
    + by rewrite <- app_assoc.
    + done.
Qed.

Lemma replay ed done g :
  Forall Row.wf ed →
  Graph.edge_data g = done ++ replicate (length ed) [] →
  Py.for_each (Graph.entries_from (length done) ed)
    (fun '(i, j, w) => Graph.setitem Graph.Forward i j w) g
  = (Py.Ok tt, Graph.with_edge_data (done ++ ed) g).
Proof.
  revert done g. induction ed as [|row ed IH]; intros done g Hwf Hed; simpl in *.
  - apply with_edge_data_id. by rewrite app_nil_r in *.
  - apply Forall_cons in Hwf as [Hrow Hwf].
    rewrite for_each_app. unfold Py.bind.
    rewrite (replay_row row [] done (replicate (length ed) [])) by done.
    simpl. specialize (IH (done ++ [row])). rewrite length_app in IH. simpl in IH.
    replace (length done + 1) with (S (length done)) in IH by lia.
    rewrite IH; simpl.
    + by rewrite <- app_assoc.
    + done.
    + by rewrite <- app_assoc.
Qed.

Lemma entries_from_eq ed k :
  concat (imap (fun i nbrs => (fun '(nbr, weight) => (k + i, nbr, weight)) <$> nbrs) ed)
  = Graph.entries_from k ed.
Proof.
  revert k. induction ed as [|row ed IH]; intros k; simpl; [done|].
  f_equal.
  - replace (k + 0) with k by lia. done.
  - rewrite <- IH. f_equal. apply imap_ext. intros i x _. simpl.
    by replace (k + S i) with (S k + i) by lia.
Qed.

Lemma entries_eq ed : Graph.entries ed = Graph.entries_from 0 ed.
Proof. by rewrite <- entries_from_eq. Qed.

Lemma entries_from_fmap (f : float → float) ed k :
  Graph.entries_from k (Row.map_weights f <$> ed)
  = (fun '(i, j, w) => (i, j, f w)) <$> Graph.entries_from k ed.
Proof.
  revert k. induction ed as [|row ed IH]; intros k; simpl; [done|].
  rewrite fmap_app, IH. f_equal. unfold Row.map_weights.
  rewrite <- !list_fmap_compose. apply list_fmap_ext. by intros _ [nbr w] _.
Qed.

Lemma map_weights_keys (f : float → float) row :
  Row.keys (Row.map_weights f row) = Row.keys row.
Proof.
  unfold Row.keys, Row.map_weights. rewrite <- list_fmap_compose.
  apply list_fmap_ext. by intros _ [nbr w] _.
Qed.

Lemma map_weights_get (f : float → float) row k :
  Row.get k (Row.map_weights f row) = f <$> Row.get k row.
Proof.
  induction row as [|[k' w] row IH]; simpl; [done|].
  destruct (decide (k' = k)); [done|apply IH].
Qed.

Lemma map_weights_wf (f : float → float) ed :
  Forall Row.wf ed → Forall Row.wf (Row.map_weights f <$> ed).
Proof.
  intros Hwf. apply Forall_fmap. eapply Forall_impl; [exact Hwf|].
  intros row Hrow. unfold Row.wf in *. simpl. by rewrite map_weights_keys.
Qed.

End replay.

(** ** The archive round trip *)

Section npz_facts.
Context `{Py.Float}.

Lemma from_list_grow (l : list string) (m0 : IDmap.t) :
  IDmap.wf m0 →
  Forall (fun ID => IDmap.canon ID = ID) l →
  NoDup (IDmap.lst m0 ++ l) →
  ∃ m1, Py.for_each l (fun ID => IDmap.addID ID ;;; Py.ret tt) m0 = (Py.Ok tt, m1) ∧
    IDmap.wf m1 ∧ IDmap.lst m1 = IDmap.lst m0 ++ l.
Proof.
  revert m0. induction l as [|ID l IH]; intros m0 Hwf Hcanon Hnd; simpl.
  - exists m0. by rewrite app_nil_r.
  - apply Forall_cons in Hcanon as [HID Hcanon].
    assert (Hfresh : IDmap.contains (IDmap.canon ID) m0 = false).
    { rewrite HID. apply not_true_is_false. rewrite idmap_wf_contains by done.
      apply NoDup_app in Hnd as (_ & Hdis & _). intros Hin.
      apply (Hdis ID Hin). left. }
    destruct (addID_fresh ID m0 Hwf Hfresh) as (m' & Hrun & Hl & _ & _ & Hwf').
    rewrite HID in Hl. unfold Py.bind at 1. unfold Py.bind at 1. rewrite Hrun. simpl.
    destruct (IH m' Hwf' Hcanon) as (m1 & Hrun1 & Hwf1 & Hl1).
    { rewrite Hl, <- app_assoc. done. }
    exists m1. split_and!; [done|done|]. by rewrite Hl1, Hl, <- app_assoc.
Qed.

Lemma from_list_wf (m : IDmap.t) :
  IDmap.wf m → Forall (fun ID => IDmap.canon ID = ID) (IDmap.lst m) →
  IDmap.from_list (IDmap.lst m) = Py.Ok m.
Proof.
  intros Hwf Hcanon. unfold IDmap.from_list.
  destruct (from_list_grow (IDmap.lst m) IDmap.empty idmap_wf_empty Hcanon)
    as (m1 & -> & Hwf1 & Hl1).
  { simpl. by apply idmap_wf_NoDup. }
  f_equal. by apply idmap_wf_ext.
Qed.

End npz_facts.

Lemma uint32_small (n : nat) : (N.of_nat n < 2 ^ 32)%N → Np.uint32 n = n.
Proof.
  intros Hn. unfold Np.uint32. rewrite N.mod_small by done. apply Nat2N.id.
Qed.

Lemma lookup_map_weights (f : float → float) (ed : list Row.t) (i j : nat) :
  Graph.lookup (Row.map_weights f <$> ed) i j = f <$> Graph.lookup ed i j.
Proof.
  unfold Graph.lookup. rewrite list_lookup_fmap.
  destruct (ed !! i) as [row|]; simpl; [|done]. apply map_weights_get.
Qed.

(** Reading back what [save_npz] walked through, with the weight [f w]
    in place of each stored [w]. *)
Lemma npz_replay (f : float → float) (g g0 : Graph.t) :
  Forall Row.wf (Graph.edge_data g) →
  (∀ i j w, Graph.lookup (Graph.edge_data g) i j = Some w →
     j < length (Graph.edge_data g)) →
  (N.of_nat (length (Graph.edge_data g)) < 2 ^ 32)%N →
  Graph.edge_data g0 = replicate (length (Graph.edge_data g)) [] →
  Py.for_each (Graph.entries (Graph.edge_data g))
    (fun '(i, nbr, w) =>
       Graph.setitem Graph.Forward (Np.uint32 i) (Np.uint32 nbr) (f w)) g0
  = (Py.Ok tt,
     Graph.with_edge_data (Row.map_weights f <$> Graph.edge_data g) g0).
Proof.
  intros Hwf Hbound Hsize Hed.
  transitivity
    (Py.for_each ((fun '(i, j, w) => (i, j, f w)) <$> Graph.entries (Graph.edge_data g))
       (fun '(i, j, w) => Graph.setitem Graph.Forward i j w) g0).
  - rewrite for_each_fmap. apply for_each_ext.
    intros [[i nbr] w] s' Hin. apply entries_lookup in Hin; [|done].
    pose proof (lookup_lt _ _ _ _ Hin) as Hi. pose proof (Hbound _ _ _ Hin) as Hj.
    rewrite !uint32_small by lia. done.
  - rewrite entries_eq, <- entries_from_fmap.
    apply (replay _ []).
    + by apply map_weights_wf.
    + simpl. by rewrite length_fmap.
Qed.

(** C6, as the code has it.  For a graph that satisfies the invariant and
    has fewer than 2^32 nodes, saving with weights and loading as weighted
    succeeds and gives the same identifier map (the same IDs in the same
    order), rows with the same neighbour indices in the same order, and
    for each stored weight [w] the weight [np.float32(w)], its rounding to
    single precision.  Loading as unweighted, whether or not the weights
    were saved, gives the same map and the same entries, each with weight
    1.0. *)
Theorem npz_round_trip (F : Py.Float) (g : Graph.t) :
  Graph.wf g →
  (N.of_nat (length (Graph.edge_data g)) < 2 ^ 32)%N →
  (∀ directed, ∃ g2,
     Graph.from_npz (Graph.save_npz g true) true directed = Py.Ok g2 ∧
     Graph.idmap g2 = Graph.idmap g ∧
     Graph.edge_data g2 = Row.map_weights Np.float32 <$> Graph.edge_data g ∧
     ∀ i j, Graph.lookup (Graph.edge_data g2) i j
            = Np.float32 <$> Graph.lookup (Graph.edge_data g) i j) ∧
  (∀ saved directed, ∃ g2,
     Graph.from_npz (Graph.save_npz g saved) false directed = Py.Ok g2 ∧
     Graph.idmap g2 = Graph.idmap g ∧
     Graph.edge_data g2 = Row.map_weights (fun _ => 1%float) <$> Graph.edge_data g ∧
     ∀ i j, Graph.lookup (Graph.edge_data g2) i j
            = (fun _ => 1%float) <$> Graph.lookup (Graph.edge_data g) i j).
Proof.
  intros Hwf Hsize.
  pose proof (Graph.wf_keys _ Hwf) as Hkeys.
  pose proof (Graph.wf_bound _ Hwf) as Hbound.
  pose proof (Graph.wf_rows _ Hwf) as Hrows.
  split.
  - intros directed. unfold Graph.from_npz, Graph.read_npz, Graph.save_npz.
    cbn [Np.node_ids Np.edge_index Np.edge_weight].
    rewrite (from_list_wf _ (Graph.wf_idmap _ Hwf) (Graph.wf_canon _ Hwf)).
    unfold Py.bind, Py.modify, Py.get, Py.or_raise, Py.ret.
    cbn [Graph.weighted Graph.with_idmap Graph.with_edge_data Graph.new].
    rewrite zip_fmap_same, for_each_fmap.
    rewrite (for_each_ext _ _ (fun '(i, nbr, w) =>
      Graph.setitem Graph.Forward (Np.uint32 i) (Np.uint32 nbr) (Np.float32 w)));
      [|by intros [[i nbr] w] s' _].
    rewrite (npz_replay Np.float32) by (simpl; congruence || done).
    eexists. split; [done|]. simpl. split_and!; [done|done|].
    intros i j. apply lookup_map_weights.
  - intros saved directed. unfold Graph.from_npz, Graph.read_npz, Graph.save_npz.
    cbn [Np.node_ids Np.edge_index Np.edge_weight].
    rewrite (from_list_wf _ (Graph.wf_idmap _ Hwf) (Graph.wf_canon _ Hwf)).
    unfold Py.bind, Py.modify, Py.get, Py.or_raise, Py.ret.
    cbn [Graph.weighted Graph.with_idmap Graph.with_edge_data Graph.new].
    rewrite for_each_fmap.
    rewrite (for_each_ext _ _ (fun '(i, nbr, w) =>
      Graph.setitem Graph.Forward (Np.uint32 i) (Np.uint32 nbr) 1));
      [|by intros [[i nbr] w] s' _].
    rewrite (npz_replay (fun _ => 1%float)) by (simpl; congruence || done).
    eexists. split; [done|]. simpl. split_and!; [done|done|].
    intros i j. apply lookup_map_weights.
Qed.

Lemma wf_toy : Graph.wf (H := Decimal.float) Example.toy.
Proof. apply check_wf. vm_compute. reflexivity. Qed.

Lemma wf_big : Graph.wf (H := Decimal.float) Example.big.
Proof. apply check_wf. vm_compute. reflexivity. Qed.

Lemma npz_round_trip_witness :
  Graph.wf (H := Decimal.float) Example.toy ∧
  (N.of_nat (length (Graph.edge_data Example.toy)) < 2 ^ 32)%N ∧
  ∃ g2,
    Graph.from_npz (H := Decimal.float) (Graph.save_npz Example.toy true) true false
      = Py.Ok g2 ∧
    Graph.idmap g2 = Graph.idmap Example.toy ∧
    Graph.lookup (Graph.edge_data g2) 0 1 = Some (Np.float32 0.4).
Proof.
  assert (Hsize : (N.of_nat (length (Graph.edge_data Example.toy)) < 2 ^ 32)%N)
    by (vm_compute; reflexivity).
  split; [exact wf_toy|]. split; [exact Hsize|].
  destruct (npz_round_trip Decimal.float Example.toy wf_toy Hsize) as [Hw _].
  destruct (Hw false) as (g2 & Hrun & Hid & _ & Hlook).
  exists g2. split; [exact Hrun|]. split; [exact Hid|].
  exact (Hlook 0 1).
Defined.

(** C6, as the claim has it, fails: the graph with the single edge a - b of
    weight 1e39 comes back from the archive with the weight infinity,
    which no tolerance relates to 1e39 ([np.isclose] with NumPy's default
    tolerances is false). *)
Lemma npz_round_trip_overflow :
  Graph.wf (H := Decimal.float) Example.big ∧
  Graph.edge Graph.Forward Example.big "a" "b" = Some 1e39%float ∧
  ∃ g2,
    Graph.from_npz (H := Decimal.float) (Graph.save_npz Example.big true) true false
      = Py.Ok g2 ∧
    Graph.edge Graph.Forward g2 "a" "b" = Some infinity ∧
    Np.isclose 1e-5 1e-8 infinity 1e39 = false.
Proof.
  split; [exact wf_big|]. split; [vm_compute; reflexivity|].
  eexists. split; [vm_compute; reflexivity|].
  split; vm_compute; reflexivity.
Qed.

(** ** [induced_subgraph] *)

Section induced_facts.
Context `{Py.Float}.
Implicit Types (g h : Graph.t) (ids pre : list string) (ID a b : string).

(** The body of the first loop. *)
Local Notation induced_pick g :=
  (fun node => if IDmap.contains node (Graph.idmap g) then Graph.add_id node
               else Py.raise Py.IDNotExistError).

Lemma skeleton_idmap_wf g ids :
  NoDup ids → IDmap.wf (Graph.idmap (Graph.skeleton g ids)).
Proof.
  intros Hnd. apply idmap_check_wf. unfold IDmap.check. simpl.
  by rewrite !bool_decide_eq_true_2.
Qed.

Lemma skeleton_snoc g pre ID :
  NoDup (pre ++ [ID]) → IDmap.canon ID = ID →
  Graph.add_id ID (Graph.skeleton g pre)
  = (Py.Ok tt, Graph.skeleton g (pre ++ [ID])).
Proof.
  intros Hnd HID. pose proof Hnd as Hnd'.
  apply NoDup_app in Hnd' as (Hpre & Hdis & _).
  pose proof (skeleton_idmap_wf g pre Hpre) as Hwf.
  assert (Hfresh : IDmap.contains (IDmap.canon ID)
                     (Graph.idmap (Graph.skeleton g pre)) = false).
  { rewrite HID. apply not_true_is_false. rewrite idmap_wf_contains by done.
    simpl. intros Hin. apply (Hdis ID Hin). left. }
  destruct (addID_fresh ID _ Hwf Hfresh) as (m' & Hrun & Hl & _ & _ & Hwf').
  rewrite add_id_run, Hrun. simpl. rewrite HID in Hl. simpl in Hl.
  assert (Hm' : m' = Graph.idmap (Graph.skeleton g (pre ++ [ID]))).
  { apply idmap_wf_ext; [done| |done]. by apply skeleton_idmap_wf. }
  rewrite Hm'. unfold Graph.skeleton, Graph.with_edge_data, Graph.with_idmap. simpl.
  rewrite length_app. simpl. replace (length pre + 1) with (S (length pre)) by lia.
  by rewrite replicate_S_end.
Qed.

Lemma skeleton_dup g pre ID :
  NoDup pre → ID ∈ pre → IDmap.canon ID = ID →
  Graph.add_id ID (Graph.skeleton g pre)
  = (Py.Raise Py.AssertionError, Graph.skeleton g pre).
Proof.
  intros Hnd Hin HID. rewrite add_id_run, addID_present; [done|].
  rewrite HID. rewrite idmap_wf_contains by by apply skeleton_idmap_wf. done.
Qed.

Lemma present_canon g ID :
  Graph.wf g → IDmap.contains ID (Graph.idmap g) = true → IDmap.canon ID = ID.
Proof.
  intros Hwf Hin. apply (idmap_wf_contains _ _ (Graph.wf_idmap _ Hwf)) in Hin.
  pose proof (Graph.wf_canon _ Hwf) as Hc. rewrite Forall_forall in Hc. by apply Hc.
Qed.

(** The first loop, started after the nodes [pre]. *)
Lemma induced_first_loop_ok g pre ids :
  Graph.wf g → NoDup (pre ++ ids) →
  Forall (fun ID => IDmap.contains ID (Graph.idmap g) = true) ids →
  Py.for_each ids (induced_pick g) (Graph.skeleton g pre)
  = (Py.Ok tt, Graph.skeleton g (pre ++ ids)).
Proof.
  intros Hwf. revert pre. induction ids as [|ID ids IH]; intros pre Hnd Hin; simpl.
  - by rewrite app_nil_r.
  - apply Forall_cons in Hin as [HID Hin].
    unfold Py.bind. rewrite HID.
    rewrite skeleton_snoc; cycle 1.
    { rewrite cons_middle, app_assoc in Hnd. by apply NoDup_app in Hnd as (? & _). }
    { by eapply present_canon. }
    rewrite IH; [|by rewrite <- app_assoc|done]. by rewrite <- app_assoc.
Qed.

Lemma induced_first_loop_absent g pre ids ID post :
  Graph.wf g → NoDup (pre ++ ids) →
  Forall (fun ID => IDmap.contains ID (Graph.idmap g) = true) ids →
  IDmap.contains ID (Graph.idmap g) = false →
  Py.value (Py.for_each (ids ++ ID :: post) (induced_pick g) (Graph.skeleton g pre))
  = Py.Raise Py.IDNotExistError.
Proof.
  intros Hwf Hnd Hin HID. rewrite for_each_app. unfold Py.bind.
  rewrite induced_first_loop_ok by done. simpl.
  unfold Py.bind. by rewrite HID.
Qed.

Lemma induced_first_loop_dup g pre ids ID post :
  Graph.wf g → NoDup (pre ++ ids) →
  Forall (fun ID => IDmap.contains ID (Graph.idmap g) = true) ids →
  IDmap.contains ID (Graph.idmap g) = true → ID ∈ pre ++ ids →
  Py.value (Py.for_each (ids ++ ID :: post) (induced_pick g) (Graph.skeleton g pre))
  = Py.Raise Py.AssertionError.
Proof.
  intros Hwf Hnd Hin HID Hdup. rewrite for_each_app. unfold Py.bind.
  rewrite induced_first_loop_ok by done. simpl.
  unfold Py.bind. rewrite HID.
  rewrite skeleton_dup; [done|done|done|by eapply present_canon].
Qed.

(** When the first loop ends normally, the IDs were distinct and known. *)
Lemma induced_first_loop_inv g pre ids h :
  Graph.wf g → NoDup pre →
  Py.for_each ids (induced_pick g) (Graph.skeleton g pre) = (Py.Ok tt, h) →
  NoDup (pre ++ ids) ∧
  Forall (fun ID => IDmap.contains ID (Graph.idmap g) = true) ids.
Proof.
  intros Hwf. revert pre. induction ids as [|ID ids IH]; intros pre Hpre Hrun.
  - by rewrite app_nil_r.
  - simpl in Hrun. unfold Py.bind in Hrun.
    destruct (IDmap.contains ID (Graph.idmap g)) eqn:HID; [|done].
    destruct (decide (ID ∈ pre)) as [Hin|Hout].
    + rewrite skeleton_dup in Hrun; [done|done|done|by eapply present_canon].
    + assert (Hnd : NoDup (pre ++ [ID])).
      { apply NoDup_app. split_and!; [done| |apply NoDup_singleton].
        intros x Hx Hx'. apply list_elem_of_singleton in Hx'. by subst. }
      rewrite skeleton_snoc in Hrun; [|done|by eapply present_canon].
      destruct (IH _ Hnd Hrun) as [Hnd' Hin']. rewrite <- app_assoc in Hnd'.
      split; [done|]. by apply Forall_cons.
Qed.

End induced_facts.

(** A loop whose steps all succeed: [I] is kept, the receiver only moves
    along the preorder [R], and what a step establishes survives the
    later steps. *)
Lemma for_each_inv {S A} (I : S → Prop) (R : S → S → Prop) (Q : A → S → Prop)
    (xs : list A) (body : A → Py.M S unit) (s : S) :
  (∀ s, R s s) →
  (∀ s1 s2 s3, R s1 s2 → R s2 s3 → R s1 s3) →
  (∀ x s1 s2, Q x s1 → R s1 s2 → Q x s2) →
  (∀ x s1, x ∈ xs → I s1 →
     ∃ s2, body x s1 = (Py.Ok tt, s2) ∧ I s2 ∧ R s1 s2 ∧ Q x s2) →
  I s →
  ∃ s', Py.for_each xs body s = (Py.Ok tt, s') ∧ I s' ∧ R s s' ∧
    ∀ x, x ∈ xs → Q x s'.
Proof.
  intros Hrefl Htrans Hstable. revert s.
  induction xs as [|x xs IH]; intros s Hbody HI; simpl.
  - exists s. split_and!; [done|done|done|]. intros x Hx. by apply elem_of_nil in Hx.
  - destruct (Hbody x s) as (s1 & Hrun & HI1 & HR1 & HQ1); [left|done|].
    destruct (IH s1) as (s2 & Hrun2 & HI2 & HR2 & HQ2); [|done|].
    { intros y s' Hy. apply Hbody. by right. }
    exists s2. unfold Py.bind. rewrite Hrun. split_and!; [done|done|by eauto|].
    intros y Hy. apply elem_of_cons in Hy as [->|Hy]; [by eauto|by apply HQ2].
Qed.

Lemma idmap_wf_inj (m : IDmap.t) (a b : string) (i : nat) :
  IDmap.wf m → IDmap.data m !! a = Some i → IDmap.data m !! b = Some i → a = b.
Proof. intros Hwf Ha Hb. apply Hwf in Ha, Hb. congruence. Qed.

Lemma idmap_wf_index (m : IDmap.t) (a : string) :
  IDmap.wf m → a ∈ IDmap.lst m →
  ∃ i, IDmap.data m !! a = Some i ∧ i < length (IDmap.lst m).
Proof.
  intros Hwf Hin. apply list_elem_of_lookup in Hin as [i Hi].
  exists i. split; [by apply Hwf|by eapply lookup_lt_Some].
Qed.

Lemma edge_mirror `{Py.Float} (g : Graph.t) (a b : string) (w : float) :
  Graph.wf g → Graph.directed g = false →
  Graph.edge Graph.Forward g a b = Some w → Graph.edge Graph.Forward g b a = Some w.
Proof.
  intros Hwf Hd. unfold Graph.edge. simpl.
  destruct (IDmap.data (Graph.idmap g) !! a) as [i|]; [|done].
  destruct (IDmap.data (Graph.idmap g) !! b) as [j|]; [|done]. simpl.
  by apply (Graph.wf_mirror _ Hwf Hd).
Qed.

Lemma edge_no_loop `{Py.Float} (g : Graph.t) (a : string) (w : float) :
  Graph.wf g → Graph.self_loops g = false →
  Graph.edge Graph.Forward g a a = Some w → False.
Proof.
  intros Hwf Hs. unfold Graph.edge. simpl.
  destruct (IDmap.data (Graph.idmap g) !! a) as [i|]; [|done]. simpl.
  by rewrite (Graph.wf_loops _ Hwf Hs).
Qed.

(** The entries of a graph after the writes of one [add_edge(a, b, w)]. *)
Lemma edge_written (h h' : Graph.t) (a b : string) (i j : nat) (w : float) :
  IDmap.wf (Graph.idmap h) →
  IDmap.data (Graph.idmap h) !! a = Some i →
  IDmap.data (Graph.idmap h) !! b = Some j →
  i < length (Graph.edge_data h) → j < length (Graph.edge_data h) →
  Graph.idmap h' = Graph.idmap h →
  Graph.edge_data h'
    = (let ed1 := Graph.write (Graph.edge_data h) i j w in
       if Graph.directed h then ed1 else Graph.write ed1 j i w) →
  ∀ x y, Graph.edge Graph.Forward h' x y
    = if decide ((x = a ∧ y = b) ∨ (Graph.directed h = false ∧ x = b ∧ y = a))
      then Some w else Graph.edge Graph.Forward h x y.
Proof.
  intros Hwf Ha Hb Hi Hj Hid Hed x y. unfold Graph.edge. simpl. rewrite Hid, Hed.
  destruct (IDmap.data (Graph.idmap h) !! x) as [ix|] eqn:Hx; simpl; cycle 1.
  { rewrite decide_False; [done|]. intros [[-> _]|(_ & -> & _)]; congruence. }
  destruct (IDmap.data (Graph.idmap h) !! y) as [iy|] eqn:Hy; simpl; cycle 1.
  { rewrite decide_False; [done|]. intros [[_ ->]|(_ & _ & ->)]; congruence. }
  assert (Hxa : ix = i ↔ x = a).
  { split; [intros ->; by eapply idmap_wf_inj|intros ->; congruence]. }
  assert (Hxb : ix = j ↔ x = b).
  { split; [intros ->; by eapply idmap_wf_inj|intros ->; congruence]. }
  assert (Hya : iy = i ↔ y = a).
  { split; [intros ->; by eapply idmap_wf_inj|intros ->; congruence]. }
  assert (Hyb : iy = j ↔ y = b).
  { split; [intros ->; by eapply idmap_wf_inj|intros ->; congruence]. }
  destruct (Graph.directed h); simpl.
  - rewrite lookup_write by done.
    destruct (decide (ix = i ∧ iy = j)) as [Hc|Hc].
    + rewrite decide_True; [done|]. left. tauto.
    + rewrite decide_False; [done|]. intros [?|(? & _)]; [tauto|done].
  - rewrite !lookup_write by (rewrite ?length_write; done).
    destruct (decide (ix = j ∧ iy = i)) as [Hc|Hc].
    + rewrite decide_True; [done|]. right. tauto.
    + destruct (decide (ix = i ∧ iy = j)) as [Hc'|Hc'].
      * rewrite decide_True; [done|]. left. tauto.
      * rewrite decide_False; [done|]. tauto.
Qed.

Section induced_second_loop.
Context `{Py.Float}.
Implicit Types (g h : Graph.t) (ids : list string) (a b : string).

(** The new graph during the second loop: the nodes are those of the
    first loop, and every entry is an entry of the source graph. *)
Local Notation partial g ids h :=
  (Graph.class h = Graph.SparseGraph ∧
   Graph.idmap h = Graph.idmap (Graph.skeleton g ids) ∧
   length (Graph.edge_data h) = length ids ∧
   Graph.directed h = Graph.directed g ∧
   Graph.self_loops h = Graph.self_loops g ∧
   ∀ x y v, Graph.edge Graph.Forward h x y = Some v →
            Graph.edge Graph.Forward g x y = Some v).

Local Notation grows h h' :=
  (∀ x y v, Graph.edge Graph.Forward h x y = Some v →
            Graph.edge Graph.Forward h' x y = Some v).

Lemma induced_add_edge g ids h a b w :
  Graph.wf g → NoDup ids → partial g ids h →
  a ∈ ids → b ∈ ids → Graph.edge Graph.Forward g a b = Some w →
  ∃ h', Graph.add_edge a b w None h = (Py.Ok tt, h') ∧
    partial g ids h' ∧ grows h h' ∧ Graph.edge Graph.Forward h' a b = Some w.
Proof.
  intros Hwf Hnd (Hc & Hid & Hlen & Hd & Hs & Hsound) Ha Hb Hedge.
  assert (Hwfh : IDmap.wf (Graph.idmap h)).
  { rewrite Hid. by apply skeleton_idmap_wf. }
  assert (Hlst : IDmap.lst (Graph.idmap h) = ids) by (by rewrite Hid).
  destruct (idmap_wf_index _ a Hwfh) as (i & Hi & Hilt); [by rewrite Hlst|].
  destruct (idmap_wf_index _ b Hwfh) as (j & Hj & Hjlt); [by rewrite Hlst|].
  rewrite Hlst, <- Hlen in Hilt, Hjlt.
  assert (Hloop : Graph.self_loops h = true ∨ i ≠ j).
  { rewrite Hs. destruct (Graph.self_loops g) eqn:Hsg; [by left|right].
    intros ->. assert (a = b) as -> by (by eapply idmap_wf_inj).
    by eapply edge_no_loop. }
  unfold Graph.add_edge, Py.bind, Py.get. rewrite Hc.
  rewrite (SparseGraph_add_edge_present h a b i j) by auto.
  rewrite !committed_none.
  eexists. split; [done|].
  match goal with |- context [Graph.with_edge_data ?ed (Graph.with_logger ?l h)] =>
    set (h' := Graph.with_edge_data ed (Graph.with_logger l h)) end.
  pose proof (edge_written h h' a b i j w Hwfh Hi Hj Hilt Hjlt eq_refl eq_refl) as Hew.
  assert (Hcases : ∀ x y,
    (x = a ∧ y = b) ∨ (Graph.directed h = false ∧ x = b ∧ y = a) →
    Graph.edge Graph.Forward g x y = Some w).
  { intros x y [[-> ->]|(Hdir & -> & ->)]; [done|].
    apply edge_mirror; [done|congruence|done]. }
  split_and!.
  - done.
  - done.
  - unfold h'. simpl. destruct (Graph.directed h); by rewrite !length_write.
  - done.
  - done.
  - intros x y v Hv. rewrite Hew in Hv.
    destruct (decide (x = a ∧ y = b ∨ Graph.directed h = false ∧ x = b ∧ y = a))
      as [Hxy|Hxy].
    + injection Hv as Hv. rewrite <- Hv. by apply Hcases.
    + by apply Hsound.
  - intros x y v Hv. rewrite Hew.
    destruct (decide (x = a ∧ y = b ∨ Graph.directed h = false ∧ x = b ∧ y = a))
      as [Hxy|Hxy]; [|done].
    apply Hsound in Hv. apply Hcases in Hxy. congruence.
  - rewrite Hew. rewrite decide_True; [done|]. by left.
Qed.

End induced_second_loop.

Section induced_spec.
Context `{Py.Float}.
Implicit Types (g h : Graph.t) (ids : list string) (a b : string).

Local Notation present g := (fun ID => IDmap.contains ID (Graph.idmap g) = true).

Local Notation partial g ids h :=
  (Graph.class h = Graph.SparseGraph ∧
   Graph.idmap h = Graph.idmap (Graph.skeleton g ids) ∧
   length (Graph.edge_data h) = length ids ∧
   Graph.directed h = Graph.directed g ∧
   Graph.self_loops h = Graph.self_loops g ∧
   ∀ x y v, Graph.edge Graph.Forward h x y = Some v →
            Graph.edge Graph.Forward g x y = Some v).

Local Notation grows h h' :=
  (∀ x y v, Graph.edge Graph.Forward h x y = Some v →
            Graph.edge Graph.Forward h' x y = Some v).

(** The body of the second loop. *)
Local Notation induced_copy g ids :=
  (fun node1 =>
     node1_idx <- (fun s => Py.or_raise (IDmap.data (Graph.idmap g) !! node1) Py.KeyError s) ;;
     nbrs <- (fun s => Py.or_raise (Graph.edge_data g !! node1_idx) Py.IndexError s) ;;
     Py.for_each nbrs (fun '(node2_idx, weight) =>
       node2 <- (fun s => Py.or_raise (IDmap.lst (Graph.idmap g) !! node2_idx) Py.IndexError s) ;;
       if bool_decide (node2 ∈ ids)
       then Graph.add_edge node1 node2 weight None
       else Py.ret tt)).

Lemma induced_second_loop g ids h :
  Graph.wf g → NoDup ids → Forall (present g) ids → partial g ids h →
  ∃ h', Py.for_each ids (induced_copy g ids) h = (Py.Ok tt, h') ∧
    partial g ids h' ∧
    ∀ a b w, a ∈ ids → b ∈ ids →
      Graph.edge Graph.Forward g a b = Some w →
      Graph.edge Graph.Forward h' a b = Some w.
Proof.
  intros Hwf Hnd Hpres Hpart.
  destruct (for_each_inv
    (fun h => partial g ids h) (fun h h' => grows h h')
    (fun a h => ∀ b w, b ∈ ids → Graph.edge Graph.Forward g a b = Some w →
                       Graph.edge Graph.Forward h a b = Some w)
    ids (induced_copy g ids) h) as (h' & Hrun & Hpart' & _ & HQ); try done.
  - intros s1 s2 s3 H12 H23 x y v Hv. by apply H23, H12.
  - intros a s1 s2 HQ H12 b w Hb Hedge. by apply H12, HQ.
  - intros a s1 Ha Hs1.
    rewrite Forall_forall in Hpres. pose proof (Hpres a Ha) as Hpa.
    apply bool_decide_eq_true in Hpa as [i Hi].
    pose proof (idmap_wf_lt _ _ _ (Graph.wf_idmap _ Hwf) Hi) as Hilt.
    rewrite <- (Graph.wf_rows _ Hwf) in Hilt.
    destruct (lookup_lt_is_Some_2 _ _ Hilt) as [row Hrow].
    unfold Py.bind at 1. rewrite Hi. simpl.
    unfold Py.bind at 1.
    replace (Graph.edge_data g !! i) with (Some row) by (symmetry; exact Hrow).
    simpl.
    assert (Hrowwf : Row.wf row).
    { eapply Forall_lookup_1; [apply (Graph.wf_keys _ Hwf)|done]. }
    destruct (for_each_inv
      (fun h => partial g ids h) (fun h h' => grows h h')
      (fun (e : nat * float) h => ∀ b, IDmap.lst (Graph.idmap g) !! e.1 = Some b →
         b ∈ ids → Graph.edge Graph.Forward h a b = Some e.2)
      row
      (fun '(node2_idx, weight) =>
         node2 <- (fun s => Py.or_raise (IDmap.lst (Graph.idmap g) !! node2_idx) Py.IndexError s) ;;
         if bool_decide (node2 ∈ ids)
         then Graph.add_edge a node2 weight None
         else Py.ret tt) s1) as (s2 & Hrun2 & Hs2 & H12 & HQ2); try done.
    + intros s s' s'' H1 H2 x y v Hv. by apply H2, H1.
    + intros e s s' HQ Hg b Hb Hin. by apply Hg, HQ.
    + intros [j w] s Hjw Hs.
      assert (Hl : Graph.lookup (Graph.edge_data g) i j = Some w).
      { unfold Graph.lookup. rewrite Hrow. simpl. by apply row_elem_get. }
      pose proof (Graph.wf_bound _ Hwf _ _ _ Hl) as Hjlt.
      rewrite (Graph.wf_rows _ Hwf) in Hjlt.
      destruct (lookup_lt_is_Some_2 _ _ Hjlt) as [b Hb].
      assert (Hedge : Graph.edge Graph.Forward g a b = Some w).
      { unfold Graph.edge. simpl. rewrite Hi. simpl.
        rewrite (proj2 (Graph.wf_idmap _ Hwf b j) Hb). simpl. exact Hl. }
      unfold Py.bind at 1. rewrite Hb. simpl.
      destruct (decide (b ∈ ids)) as [Hin|Hout].
      * rewrite (bool_decide_eq_true_2 (b ∈ ids) Hin).
        destruct (induced_add_edge g ids s a b w Hwf Hnd Hs Ha Hin Hedge)
          as (s' & Hrun' & Hs' & Hg & Hab).
        exists s'. split; [done|]. split; [exact Hs'|]. split; [exact Hg|].
        intros b' Hb' _. simpl in Hb'. congruence.
      * rewrite (bool_decide_eq_false_2 (b ∈ ids) Hout).
        exists s. split; [done|]. split; [exact Hs|]. split; [done|].
        intros b' Hb' Hin'. simpl in Hb'. congruence.
    + exists s2. split; [done|]. split; [exact Hs2|]. split; [exact H12|].
      intros b w Hb Hedge. unfold Graph.edge in Hedge. simpl in Hedge.
      rewrite Hi in Hedge. simpl in Hedge.
      destruct (IDmap.data (Graph.idmap g) !! b) as [j|] eqn:Hj; [|done].
      simpl in Hedge. unfold Graph.lookup in Hedge. rewrite Hrow in Hedge.
      simpl in Hedge. apply row_get_elem in Hedge.
      apply (HQ2 (j, w) Hedge b); [|done]. simpl.
      by apply (Graph.wf_idmap _ Hwf).
  - exists h'. split; [done|]. split; [exact Hpart'|].
    intros a b w Ha Hb Hedge. by apply (HQ a Ha).
Qed.

End induced_spec.

Lemma lookup_replicate_empty (n i j : nat) :
  Graph.lookup (replicate n ([] : Row.t)) i j = None.
Proof.
  unfold Graph.lookup. destruct (replicate n ([] : Row.t) !! i) as [row|] eqn:Hrow; [|done].
  apply lookup_replicate in Hrow as [-> _]. done.
Qed.

Section induced_result.
Context `{Py.Float}.
Implicit Types (g h : Graph.t) (ids : list string) (a b : string).

Local Notation present g := (fun ID => IDmap.contains ID (Graph.idmap g) = true).

Lemma induced_ok g ids :
  Graph.wf g → NoDup ids → Forall (present g) ids →
  ∃ h, Graph.induced_subgraph g ids = Py.Ok h ∧
    IDmap.lst (Graph.idmap h) = ids ∧
    IDmap.wf (Graph.idmap h) ∧
    ∀ a b w, Graph.edge Graph.Forward h a b = Some w ↔
      a ∈ ids ∧ b ∈ ids ∧ Graph.edge Graph.Forward g a b = Some w.
Proof.
  intros Hwf Hnd Hpres. unfold Graph.induced_subgraph.
  change (Graph.new (Graph.weighted g) (Graph.directed g) (Graph.self_loops g))
    with (Graph.skeleton g []).
  unfold Py.bind at 1. rewrite (induced_first_loop_ok g [] ids) by done. simpl.
  destruct (induced_second_loop g ids (Graph.skeleton g ids) Hwf Hnd Hpres)
    as (h & -> & (Hc & Hid & Hlen & Hd & Hs & Hsound) & Hcomplete).
  { simpl. rewrite length_replicate. split_and!; try done.
    intros x y v. unfold Graph.edge. simpl.
    destruct (_ !! x); simpl; [|done]. destruct (_ !! y); simpl; [|done].
    by rewrite lookup_replicate_empty. }
  assert (Hwfh : IDmap.wf (Graph.idmap h)).
  { rewrite Hid. by apply skeleton_idmap_wf. }
  exists h. split_and!; [done|by rewrite Hid|done|].
  intros a b w. split.
  - intros Hedge. split_and!; [| |by apply Hsound].
    + unfold Graph.edge in Hedge. simpl in Hedge.
      destruct (IDmap.data (Graph.idmap h) !! a) as [i|] eqn:Hi; [|done].
      apply Hwfh in Hi. rewrite Hid in Hi. simpl in Hi.
      by eapply list_elem_of_lookup_2.
    + unfold Graph.edge in Hedge. simpl in Hedge.
      destruct (IDmap.data (Graph.idmap h) !! a) as [i|]; [|done].
      destruct (IDmap.data (Graph.idmap h) !! b) as [j|] eqn:Hj; [|done].
      apply Hwfh in Hj. rewrite Hid in Hj. simpl in Hj.
      by eapply list_elem_of_lookup_2.
  - intros (Ha & Hb & Hedge). by apply Hcomplete.
Qed.

Lemma induced_ok_inv g ids h :
  Graph.wf g → Graph.induced_subgraph g ids = Py.Ok h →
  NoDup ids ∧ Forall (present g) ids.
Proof.
  intros Hwf. unfold Graph.induced_subgraph.
  change (Graph.new (Graph.weighted g) (Graph.directed g) (Graph.self_loops g))
    with (Graph.skeleton g []).
  unfold Py.bind at 1.
  destruct (Py.for_each ids _ (Graph.skeleton g [])) as [[[]|e] h1] eqn:Hrun; [|done].
  intros _. apply (induced_first_loop_inv g [] ids h1 Hwf); [constructor|done].
Qed.

Lemma induced_fault g ids pre ID post (e : Py.exn) :
  Graph.wf g → ids = pre ++ ID :: post →
  Py.value (Py.for_each (pre ++ ID :: post)
     (fun node => if IDmap.contains node (Graph.idmap g) then Graph.add_id node
                  else Py.raise Py.IDNotExistError) (Graph.skeleton g []))
  = Py.Raise e →
  Graph.induced_subgraph g ids = Py.Raise e.
Proof.
  intros Hwf -> Hrun. unfold Graph.induced_subgraph.
  change (Graph.new (Graph.weighted g) (Graph.directed g) (Graph.self_loops g))
    with (Graph.skeleton g []).
  unfold Py.bind at 1. unfold Py.value in Hrun.
  destruct (Py.for_each (pre ++ ID :: post) _ (Graph.skeleton g [])) as [r h1].
  simpl in Hrun. by subst r.
Qed.

End induced_result.

(** C5, as the code has it.  Let the source graph satisfy the invariant
    of the data model: its map is consistent and holds IDs in the form
    [addID] stores them, there is one row per node, the neighbours in the
    rows are node indices, an undirected graph stores both directions of
    an edge, no self loop is stored when self loops are off, and a
    [DirectedSparseGraph] is directed with one reversed row per node.
    [induced_subgraph] goes through the requested IDs in order.  It raises
    [IDNotExistError] when it reaches an ID that is not in the source
    graph, and [AssertionError] (the duplicate-ID error of [add_id]) when
    it reaches an ID requested before, whichever comes first.  When the
    IDs are distinct and all known it succeeds; and whenever it succeeds
    the new graph has exactly the requested IDs in the requested order
    and stores weight [w] for [a], [b] if and only if both were requested
    and the source graph stores [w] for them. *)
Theorem induced_subgraph_spec (F : Py.Float) (g : Graph.t) (ids : list string) :
  Graph.wf g →
  (∀ pre ID post,
     ids = pre ++ ID :: post → NoDup pre →
     Forall (fun x => IDmap.contains x (Graph.idmap g) = true) pre →
     IDmap.contains ID (Graph.idmap g) = false →
     Graph.induced_subgraph g ids = Py.Raise Py.IDNotExistError) ∧
  (∀ pre ID post,
     ids = pre ++ ID :: post → NoDup pre →
     Forall (fun x => IDmap.contains x (Graph.idmap g) = true) pre →
     ID ∈ pre →
     Graph.induced_subgraph g ids = Py.Raise Py.AssertionError) ∧
  (NoDup ids →
   Forall (fun x => IDmap.contains x (Graph.idmap g) = true) ids →
   ∃ h, Graph.induced_subgraph g ids = Py.Ok h) ∧
  (∀ h, Graph.induced_subgraph g ids = Py.Ok h →
     IDmap.lst (Graph.idmap h) = ids ∧
     IDmap.wf (Graph.idmap h) ∧
     ∀ a b w, Graph.edge Graph.Forward h a b = Some w ↔
       a ∈ ids ∧ b ∈ ids ∧ Graph.edge Graph.Forward g a b = Some w).
Proof.
  intros Hwf. split_and!.
  - intros pre ID post Hids Hnd Hpres Habs.
    apply (induced_fault g ids pre ID post _ Hwf Hids).
    by apply (induced_first_loop_absent g [] pre ID post).
  - intros pre ID post Hids Hnd Hpres Hdup.
    apply (induced_fault g ids pre ID post _ Hwf Hids).
    apply (induced_first_loop_dup g [] pre ID post); try done.
    rewrite Forall_forall in Hpres. by apply Hpres.
  - intros Hnd Hpres. destruct (induced_ok g ids Hwf Hnd Hpres) as (h & Hrun & _).
    by exists h.
  - intros h Hrun. destruct (induced_ok_inv g ids h Hwf Hrun) as [Hnd Hpres].
    destruct (induced_ok g ids Hwf Hnd Hpres) as (h' & Hrun' & Hprops).
    rewrite Hrun in Hrun'. injection Hrun' as <-. exact Hprops.
Qed.

Lemma induced_subgraph_spec_witness :
  Graph.wf (H := Decimal.float) Example.toy ∧
  NoDup ["1"; "3"] ∧
  Forall (fun x => IDmap.contains x (Graph.idmap Example.toy) = true) ["1"; "3"] ∧
  IDmap.contains "9" (Graph.idmap Example.toy) = false ∧
  Graph.induced_subgraph (H := Decimal.float) Example.toy ["1"; "3"; "9"]
    = Py.Raise Py.IDNotExistError ∧
  ∃ h, Graph.induced_subgraph (H := Decimal.float) Example.toy ["1"; "3"] = Py.Ok h ∧
    IDmap.lst (Graph.idmap h) = ["1"; "3"] ∧
    Graph.edge Graph.Forward h "3" "1" = Some 0.4%float.
Proof.
  assert (Hnd : NoDup ["1"; "3"]) by (apply (bool_decide_unpack _); vm_compute; exact I).
  assert (Hpres : Forall (fun x => IDmap.contains x (Graph.idmap Example.toy) = true)
                    ["1"; "3"]).
  { repeat constructor. }
  assert (Habs : IDmap.contains "9" (Graph.idmap Example.toy) = false)
    by (vm_compute; reflexivity).
  split; [exact wf_toy|]. split; [exact Hnd|]. split; [exact Hpres|].
  split; [exact Habs|]. split.
  - destruct (induced_subgraph_spec Decimal.float Example.toy ["1"; "3"; "9"] wf_toy)
      as (Hfail & _).
    exact (Hfail ["1"; "3"] "9" [] eq_refl Hnd Hpres Habs).
  - destruct (induced_subgraph_spec Decimal.float Example.toy ["1"; "3"] wf_toy)
      as (_ & _ & Hok & Hprops).
    destruct (Hok Hnd Hpres) as [h Hrun]. exists h.
    destruct (Hprops h Hrun) as (Hl & _ & Hedges).
    split; [exact Hrun|]. split; [exact Hl|].
    apply Hedges. split_and!.
    + right. left.
    + left.
    + vm_compute. reflexivity.
Defined.

(** C5, as the claim has it, fails: ["9"] is not in the graph of the
    scenario, yet [induced_subgraph(["1", "1", "9"])] does not raise the
    unknown-ID error; the repeated ["1"] comes first and [add_id] raises
    its duplicate-ID error. *)
Lemma induced_subgraph_duplicate_first :
  Graph.wf (H := Decimal.float) Example.toy ∧
  IDmap.contains "9" (Graph.idmap Example.toy) = false ∧
  Graph.induced_subgraph (H := Decimal.float) Example.toy ["1"; "1"; "9"]
    = Py.Raise Py.AssertionError ∧
  Graph.induced_subgraph (H := Decimal.float) Example.toy ["1"; "1"; "9"]
    ≠ Py.Raise Py.IDNotExistError.
Proof.
  split; [exact wf_toy|]. split; [vm_compute; reflexivity|].
  split; [vm_compute; reflexivity|]. vm_compute. discriminate.
Qed.

(** Outside the invariant the edges of the new graph are not those of
    the source.  The graph read back from the archive of a graph with a
    self loop stores the entry a, a with self loops off: the subgraph on
    ["a"] has no edge.  The undirected graph [ab] after [edge_gen] has
    run to its end stores a, b and not b, a: the subgraph on ["a", "b"]
    stores both. *)
Lemma induced_subgraph_outside_invariant :
  Graph.from_npz (H := Decimal.float) (Graph.save_npz Example.loop true) true false
    = Py.Ok Example.reloaded ∧
  Graph.check (H := Decimal.float) Example.reloaded = false ∧
  Graph.edge Graph.Forward Example.reloaded "a" "a" = Some 1%float ∧
  (∃ h, Graph.induced_subgraph (H := Decimal.float) Example.reloaded ["a"] = Py.Ok h ∧
     Graph.edge Graph.Forward h "a" "a" = None) ∧
  Py.state (Graph.edge_gen Example.ab) = Example.ab_spent ∧
  Graph.check (H := Decimal.float) Example.ab_spent = false ∧
  Graph.edge Graph.Forward Example.ab_spent "a" "b" = Some 1%float ∧
  Graph.edge Graph.Forward Example.ab_spent "b" "a" = None ∧
  (∃ h, Graph.induced_subgraph (H := Decimal.float) Example.ab_spent ["a"; "b"] = Py.Ok h ∧
     Graph.edge Graph.Forward h "b" "a" = Some 1%float).
Proof.
  split_and!; try (vm_compute; reflexivity);
    eexists; split; vm_compute; reflexivity.
Qed.

(** * Further properties *)

(** ** Batch lookup in the identifier map *)

Lemma getitem_list_run (keys : list string) (m : IDmap.t) :
  IDmap.getitem_list keys m
  = (match mapM (fun k => IDmap.data m !! k) keys with
     | Some idx => Py.Ok idx
     | None => Py.Raise Py.KeyError
     end, m).
Proof.
  induction keys as [|k keys IH]; simpl; [done|].
  unfold Py.bind, IDmap.getitem, Py.or_raise.
  destruct (IDmap.data m !! k) as [i|]; simpl; [|done].
  rewrite IH. by destruct (mapM _ keys).
Qed.

(** [IDmap.__getitem__] with a list of keys.  When every key is in the
    map the call returns one index per key, in the order of the keys, and
    changes nothing; on a consistent map [idx2ID] of each returned index
    is the key again.  When some key is not in the map the call raises
    [KeyError] and returns no partial result. *)
Theorem idmap_getitem_list_spec (m : IDmap.t) (keys : list string) :
  ((∀ k, k ∈ keys → is_Some (IDmap.data m !! k)) →
     ∃ idx, IDmap.getitem_list keys m = (Py.Ok idx, m) ∧
       Forall2 (fun k i => IDmap.data m !! k = Some i) keys idx ∧
       (IDmap.wf m →
          Forall2 (fun k i => IDmap.idx2ID i m = (Py.Ok k, m)) keys idx)) ∧
  ((∃ k, k ∈ keys ∧ IDmap.data m !! k = None) →
     IDmap.getitem_list keys m = (Py.Raise Py.KeyError, m)).
Proof.
  rewrite getitem_list_run. split.
  - intros Hall.
    destruct (mapM (fun k => IDmap.data m !! k) keys) as [idx|] eqn:Hm.
    + exists idx. split; [done|]. apply mapM_Some in Hm.
      split; [done|]. intros Hwf.
      eapply Forall2_impl; [exact Hm|]. intros k i Hk. simpl in Hk.
      apply Hwf in Hk. unfold IDmap.idx2ID. by rewrite Hk.
    + apply mapM_None in Hm. apply Exists_exists in Hm as (k & Hk & Hn).
      destruct (Hall k Hk) as [i Hi]. congruence.
  - intros (k & Hk & Hn).
    destruct (mapM (fun k => IDmap.data m !! k) keys) as [idx|] eqn:Hm; [|done].
    apply mapM_Some in Hm.
    apply list_elem_of_lookup in Hk as [n Hk].
    destruct (Forall2_lookup_l _ _ _ _ _ Hm Hk) as (i & _ & Hi). congruence.
Qed.

Lemma idmap_getitem_list_spec_witness :
  ∃ idx, IDmap.getitem_list ["c"; "a"] Example.abc = (Py.Ok idx, Example.abc) ∧
    Forall2 (fun k i => IDmap.data Example.abc !! k = Some i) ["c"; "a"] idx ∧
    IDmap.getitem_list ["c"; "x"; "a"] Example.abc
      = (Py.Raise Py.KeyError, Example.abc).
Proof.
  destruct (idmap_getitem_list_spec Example.abc ["c"; "a"]) as [Hok _].
  destruct (idmap_getitem_list_spec Example.abc ["c"; "x"; "a"]) as [_ Hbad].
  destruct Hok as (idx & Hrun & Hidx & _).
  { intros k Hk.
    repeat (apply elem_of_cons in Hk as [->|Hk]; [vm_compute; eauto|]).
    by apply elem_of_nil in Hk. }
  exists idx. split; [exact Hrun|]. split; [exact Hidx|].
  apply Hbad. exists "x". split; [|vm_compute; reflexivity].
  apply (bool_decide_unpack _). vm_compute. exact I.
Defined.

(** ** Union and difference of identifier maps *)

Lemma filter_ext_in {A} (P Q : A → Prop) `{∀ x, Decision (P x)}
    `{∀ x, Decision (Q x)} (l : list A) :
  (∀ x, x ∈ l → P x ↔ Q x) → filter P l = filter Q l.
Proof.
  induction l as [|x l IH]; intros Hpq; [done|].
  rewrite !filter_cons. rewrite IH by (intros y Hy; apply Hpq; by right).
  destruct (decide (P x)) as [Hp|Hp], (decide (Q x)) as [Hq|Hq]; try done.
  - exfalso. apply Hq. apply Hpq; [left|done].
  - exfalso. apply Hp. apply Hpq; [left|done].
Qed.

Lemma bind_ok {S A B} (c : Py.M S A) (k : A → Py.M S B) (s s' : S) (a : A) :
  c s = (Py.Ok a, s') → Py.bind c k s = k a s'.
Proof. intros Hc. unfold Py.bind. by rewrite Hc. Qed.

Lemma bind_raise {S A B} (c : Py.M S A) (k : A → Py.M S B) (s s' : S)
    (e : Py.exn) :
  c s = (Py.Raise e, s') → Py.bind c k s = (Py.Raise e, s').
Proof. intros Hc. unfold Py.bind. by rewrite Hc. Qed.

Lemma bind_ret {S A B} (a : A) (k : A → Py.M S B) (s : S) :
  Py.bind (Py.ret a) k s = k a s.
Proof. done. Qed.

Lemma bind_get {S B} (k : S → Py.M S B) (s : S) : Py.bind Py.get k s = k s s.
Proof. done. Qed.

Section idmap_algebra.
Context `{Py.Float}.
Implicit Types (m self other : IDmap.t) (ID : string) (l : list string).

Local Notation canonical l := (Forall (fun ID => IDmap.canon ID = ID) l).

Lemma addID_canonical_fresh ID m :
  IDmap.wf m → IDmap.canon ID = ID → ID ∉ IDmap.lst m →
  ∃ m', IDmap.addID ID m = (Py.Ok None, m') ∧
    IDmap.lst m' = IDmap.lst m ++ [ID] ∧ IDmap.wf m' ∧
    (∀ ID' i, IDmap.data m !! ID' = Some i → IDmap.data m' !! ID' = Some i).
Proof.
  intros Hwf Hc Hn.
  assert (Hf : IDmap.contains (IDmap.canon ID) m = false).
  { rewrite Hc. apply not_true_is_false. by rewrite idmap_wf_contains. }
  destruct (addID_fresh ID m Hwf Hf) as (m' & Hrun & Hl & _ & Hold & Hwf').
  rewrite Hc in *. exists m'. split_and!; try done.
  intros ID' i Hi. rewrite Hold; [done|]. intros ->.
  apply Hn. apply idmap_wf_contains; [done|].
  unfold IDmap.contains. apply bool_decide_eq_true. eauto.
Qed.

Lemma sub_loop other l m :
  IDmap.wf m → canonical l → NoDup l → (∀ ID, ID ∈ l → ID ∉ IDmap.lst m) →
  ∃ m', Py.for_each l (fun ID =>
          if negb (IDmap.contains ID other) then IDmap.addID ID ;;; Py.ret tt
          else Py.ret tt) m = (Py.Ok tt, m') ∧
    IDmap.lst m'
      = IDmap.lst m ++ filter (fun ID => IDmap.contains ID other = false) l ∧
    IDmap.wf m'.
Proof.
  revert m. induction l as [|x l IH]; intros m Hwf Hc Hnd Hfresh; simpl.
  - exists m. by rewrite filter_nil, app_nil_r.
  - apply Forall_cons in Hc as [Hx Hc]. apply NoDup_cons in Hnd as [Hxl Hnd].
    destruct (IDmap.contains x other) eqn:Hin; simpl.
    + rewrite filter_cons_False by (by rewrite Hin).
      rewrite bind_ret. apply IH; try done.
      intros ID HID. apply Hfresh. by right.
    + rewrite filter_cons_True by done.
      destruct (addID_canonical_fresh x m) as (m1 & Hrun & Hl & Hwf1 & _);
        [done|done|apply Hfresh; left|].
      rewrite bind_assoc, (bind_ok _ _ _ _ _ Hrun), bind_ret.
      destruct (IH m1) as (m' & Hrun' & Hl' & Hwf'); try done.
      { intros ID HID. rewrite Hl, not_elem_of_app, not_elem_of_cons.
        split_and!; [apply Hfresh; by right| |apply not_elem_of_nil].
        intros ->. done. }
      exists m'. rewrite Hrun'. split_and!; [done| |done].
      rewrite Hl', Hl. by rewrite <- app_assoc.
Qed.

Lemma add_loop l m :
  IDmap.wf m → canonical l → NoDup l →
  ∃ m', Py.for_each l (fun ID =>
          new <- Py.get ;;
          if negb (IDmap.contains ID new) then IDmap.addID ID ;;; Py.ret tt
          else Py.ret tt) m = (Py.Ok tt, m') ∧
    IDmap.lst m'
      = IDmap.lst m ++ filter (fun ID => IDmap.contains ID m = false) l ∧
    IDmap.wf m' ∧
    (∀ ID i, IDmap.data m !! ID = Some i → IDmap.data m' !! ID = Some i).
Proof.
  revert m. induction l as [|x l IH]; intros m Hwf Hc Hnd; simpl.
  - exists m. by rewrite filter_nil, app_nil_r.
  - apply Forall_cons in Hc as [Hx Hc]. apply NoDup_cons in Hnd as [Hxl Hnd].
    rewrite bind_assoc, bind_get.
    destruct (IDmap.contains x m) eqn:Hin; cbn [negb].
    + rewrite filter_cons_False by (by rewrite Hin).
      rewrite bind_ret. by apply IH.
    + rewrite filter_cons_True by done.
      destruct (addID_canonical_fresh x m) as (m1 & Hrun & Hl & Hwf1 & Hold);
        [done|done| |].
      { rewrite <- idmap_wf_contains by done. by rewrite Hin. }
      rewrite bind_assoc, (bind_ok _ _ _ _ _ Hrun), bind_ret.
      destruct (IH m1) as (m' & Hrun' & Hl' & Hwf' & Hold'); try done.
      exists m'. split_and!; [done| |done|by auto].
      rewrite Hl', Hl, <- app_assoc. simpl. do 2 f_equal.
      apply filter_ext_in. intros ID HID.
      assert (ID ≠ x) by (by intros ->).
      rewrite <- !not_true_iff_false, !idmap_wf_contains by done.
      rewrite Hl, elem_of_app, list_elem_of_singleton. tauto.
Qed.

End idmap_algebra.

(** [IDmap.__sub__].  For a consistent map [self] whose IDs are in the
    form [addID] stores them, [self - other] never fails: it is a new
    consistent map that holds the IDs of [self] that are not in [other], in
    the order they have in [self]. *)
Theorem idmap_sub_spec (F : Py.Float) (self other : IDmap.t) :
  IDmap.wf self →
  Forall (fun ID => IDmap.canon ID = ID) (IDmap.lst self) →
  ∃ new, IDmap.__sub__ self other = Py.Ok new ∧
    IDmap.lst new
      = filter (fun ID => IDmap.contains ID other = false) (IDmap.lst self) ∧
    IDmap.wf new ∧
    (∀ ID, IDmap.contains ID new = true ↔
       IDmap.contains ID self = true ∧ IDmap.contains ID other = false).
Proof.
  intros Hwf Hc.
  destruct (sub_loop other (IDmap.lst self) IDmap.empty) as (new & Hrun & Hl & Hwf').
  { apply idmap_wf_empty. }
  { done. }
  { by apply idmap_wf_NoDup. }
  { intros ID _. apply not_elem_of_nil. }
  exists new. unfold IDmap.__sub__, IDmap.__iter__. rewrite Hrun.
  split_and!; [done|done|done|].
  intros ID. rewrite !idmap_wf_contains by done.
  rewrite Hl. simpl. rewrite list_elem_of_filter. tauto.
Qed.

Lemma idmap_add_elem (F : Py.Float) (self other : IDmap.t) :
  IDmap.wf self → IDmap.wf other →
  Forall (fun ID => IDmap.canon ID = ID) (IDmap.lst other) →
  ∃ new, IDmap.__add__ self other = Py.Ok new ∧ IDmap.wf new ∧
    (∀ ID, ID ∈ IDmap.lst new ↔ ID ∈ IDmap.lst self ∨ ID ∈ IDmap.lst other).
Proof.
  intros Hwf Hwfo Hc.
  destruct (add_loop (IDmap.lst other) self) as (new & Hrun & Hl & Hwf' & _);
    [done|done|by apply idmap_wf_NoDup|].
  exists new. unfold IDmap.__add__, IDmap.__iter__, IDmap.copy. rewrite Hrun.
  split_and!; [done|done|]. intros ID.
  rewrite Hl, elem_of_app, list_elem_of_filter.
  rewrite <- not_true_iff_false, idmap_wf_contains by done.
  destruct (decide (ID ∈ IDmap.lst self)); tauto.
Qed.

(** [IDmap.__add__].  For consistent maps whose IDs are in the form
    [addID] stores them, [self + other] never fails: it is a new
    consistent map that holds the IDs of [self] followed by the IDs of
    [other] that are not in [self], in the order they have in [other];
    every ID of [self] keeps its index. *)
Theorem idmap_add_spec (F : Py.Float) (self other : IDmap.t) :
  IDmap.wf self → IDmap.wf other →
  Forall (fun ID => IDmap.canon ID = ID) (IDmap.lst other) →
  ∃ new, IDmap.__add__ self other = Py.Ok new ∧
    IDmap.lst new
      = IDmap.lst self
        ++ filter (fun ID => IDmap.contains ID self = false) (IDmap.lst other) ∧
    IDmap.wf new ∧
    (∀ ID i, IDmap.data self !! ID = Some i → IDmap.data new !! ID = Some i) ∧
    (∀ ID, IDmap.contains ID new = true ↔
       IDmap.contains ID self = true ∨ IDmap.contains ID other = true).
Proof.
  intros Hwf Hwfo Hc.
  destruct (add_loop (IDmap.lst other) self) as (new & Hrun & Hl & Hwf' & Hold);
    [done|done|by apply idmap_wf_NoDup|].
  exists new. unfold IDmap.__add__, IDmap.__iter__, IDmap.copy. rewrite Hrun.
  split_and!; [done|done|done|done|].
  intros ID. rewrite !idmap_wf_contains by done.
  rewrite Hl, elem_of_app, list_elem_of_filter.
  rewrite <- not_true_iff_false, idmap_wf_contains by done.
  destruct (decide (ID ∈ IDmap.lst self)); tauto.
Qed.

Lemma canonical_abc :
  Forall (fun ID => IDmap.canon (H := Decimal.float) ID = ID) (IDmap.lst Example.abc).
Proof. repeat constructor. Qed.

Lemma canonical_bd :
  Forall (fun ID => IDmap.canon (H := Decimal.float) ID = ID) (IDmap.lst Example.bd).
Proof. repeat constructor. Qed.

Lemma wf_abc : IDmap.wf Example.abc.
Proof. apply idmap_check_wf. vm_compute. reflexivity. Qed.

Lemma wf_bd : IDmap.wf Example.bd.
Proof. apply idmap_check_wf. vm_compute. reflexivity. Qed.

Lemma idmap_sub_spec_witness :
  ∃ new, IDmap.__sub__ (H := Decimal.float) Example.abc Example.bd = Py.Ok new ∧
    IDmap.lst new = ["a"; "c"] ∧ IDmap.wf new.
Proof.
  destruct (idmap_sub_spec Decimal.float Example.abc Example.bd wf_abc canonical_abc)
    as (new & Hrun & Hl & Hwf & _).
  exists new. split; [exact Hrun|]. split; [|exact Hwf].
  rewrite Hl. vm_compute. reflexivity.
Defined.

Lemma idmap_add_spec_witness :
  ∃ new, IDmap.__add__ (H := Decimal.float) Example.abc Example.bd = Py.Ok new ∧
    IDmap.lst new = ["a"; "b"; "c"; "d"] ∧ IDmap.wf new ∧
    IDmap.data new !! "b" = Some 1.
Proof.
  destruct (idmap_add_spec Decimal.float Example.abc Example.bd
              wf_abc wf_bd canonical_bd) as (new & Hrun & Hl & Hwf & Hold & _).
  exists new. split; [exact Hrun|]. split; [|split; [exact Hwf|]].
  - rewrite Hl. vm_compute. reflexivity.
  - apply Hold. vm_compute. reflexivity.
Defined.

(** ** Equality of identifier maps *)

Lemma idmap_eq_elem (a b : IDmap.t) :
  IDmap.__eq__ a b = true ↔ ∀ ID, ID ∈ IDmap.lst a ↔ ID ∈ IDmap.lst b.
Proof.
  unfold IDmap.__eq__. rewrite bool_decide_eq_true, set_eq.
  by setoid_rewrite elem_of_list_to_set.
Qed.

(** [IDmap.__eq__] holds exactly when the two maps list the same IDs,
    whatever their order; for consistent maps that is when [in] gives the
    same answer on both for every ID, and the two then have the same
    size.  A map whose list is a permutation of another's is equal to
    it. *)
Theorem idmap_eq_spec (a b : IDmap.t) :
  (IDmap.__eq__ a b = true ↔ ∀ ID, ID ∈ IDmap.lst a ↔ ID ∈ IDmap.lst b) ∧
  (IDmap.lst a ≡ₚ IDmap.lst b → IDmap.__eq__ a b = true) ∧
  (IDmap.wf a → IDmap.wf b →
     (IDmap.__eq__ a b = true ↔
        ∀ ID, IDmap.contains ID a = IDmap.contains ID b) ∧
     (IDmap.__eq__ a b = true → IDmap.size a = IDmap.size b)).
Proof.
  pose proof (idmap_eq_elem a b) as Heq.
  split; [exact Heq|]. split.
  - intros Hp. apply Heq. intros ID. by rewrite Hp.
  - intros Ha Hb. split.
    + rewrite Heq. split.
      * intros Hl ID. apply eq_true_iff_eq.
        rewrite !idmap_wf_contains by done. apply Hl.
      * intros Hc ID. rewrite <- !idmap_wf_contains by done. by rewrite Hc.
    + intros He. rewrite !idmap_wf_size by done.
      apply Permutation_length, NoDup_Permutation; try by apply idmap_wf_NoDup.
      by apply Heq.
Qed.

Lemma idmap_eq_spec_witness :
  IDmap.__eq__ Example.abc
    (IDmap.mk (<["c" := 0]> (<["a" := 1]> (<["b" := 2]> ∅))) ["c"; "a"; "b"]) = true ∧
  IDmap.__eq__ Example.abc Example.bd = false.
Proof.
  split.
  - destruct (idmap_eq_spec Example.abc
      (IDmap.mk (<["c" := 0]> (<["a" := 1]> (<["b" := 2]> ∅))) ["c"; "a"; "b"]))
      as (_ & Hperm & _).
    apply Hperm. simpl. apply (bool_decide_unpack _). vm_compute. exact I.
  - vm_compute. reflexivity.
Defined.

(** The union is commutative up to [__eq__]: for consistent maps whose
    IDs are in the form [addID] stores them, [a + b] and [b + a] both
    succeed and compare equal, although their index orders differ. *)
Theorem idmap_add_comm (F : Py.Float) (a b : IDmap.t) :
  IDmap.wf a → IDmap.wf b →
  Forall (fun ID => IDmap.canon ID = ID) (IDmap.lst a) →
  Forall (fun ID => IDmap.canon ID = ID) (IDmap.lst b) →
  ∃ ab ba, IDmap.__add__ a b = Py.Ok ab ∧ IDmap.__add__ b a = Py.Ok ba ∧
    IDmap.__eq__ ab ba = true ∧ IDmap.size ab = IDmap.size ba.
Proof.
  intros Ha Hb Hca Hcb.
  destruct (idmap_add_elem F a b Ha Hb Hcb) as (ab & Hab & Hwab & Hinab).
  destruct (idmap_add_elem F b a Hb Ha Hca) as (ba & Hba & Hwba & Hinba).
  exists ab, ba. split; [done|]. split; [done|].
  assert (He : ∀ ID, ID ∈ IDmap.lst ab ↔ ID ∈ IDmap.lst ba).
  { intros ID. rewrite Hinab, Hinba. tauto. }
  split; [by apply idmap_eq_elem|].
  rewrite !idmap_wf_size by done.
  apply Permutation_length, NoDup_Permutation; try by apply idmap_wf_NoDup.
  done.
Qed.

Lemma idmap_add_comm_witness :
  ∃ ab ba, IDmap.__add__ (H := Decimal.float) Example.abc Example.bd = Py.Ok ab ∧
    IDmap.__add__ (H := Decimal.float) Example.bd Example.abc = Py.Ok ba ∧
    IDmap.__eq__ ab ba = true.
Proof.
  destruct (idmap_add_comm Decimal.float Example.abc Example.bd
              wf_abc wf_bd canonical_abc canonical_bd)
    as (ab & ba & Hab & Hba & He & _).
  exists ab, ba. split; [exact Hab|]. split; [exact Hba|exact He].
Defined.

(** ** [addID] followed by [pop] *)

(** On a consistent map, adding an ID that is not yet there and popping
    it again gives back the map exactly as it was: both calls succeed and
    neither direction of the mapping keeps a trace of the ID. *)
Theorem addID_pop_round_trip (F : Py.Float) (m : IDmap.t) (ID : string) :
  IDmap.wf m → IDmap.contains (IDmap.canon ID) m = false →
  (IDmap.addID ID ;;; IDmap.pop (IDmap.canon ID)) m = (Py.Ok tt, m).
Proof.
  intros Hwf Hc. unfold Py.bind, IDmap.addID. rewrite Hc.
  apply bool_decide_eq_false in Hc. rewrite <- eq_None_not_Some in Hc.
  unfold IDmap.pop. simpl. rewrite lookup_insert_eq.
  rewrite idmap_wf_size by done.
  rewrite decide_True by (rewrite length_app; simpl; lia).
  rewrite delete_insert_id by done.
  rewrite delete_middle, app_nil_r, drop_all. simpl. done.
Qed.

Lemma addID_pop_round_trip_witness :
  IDmap.contains (IDmap.canon (H := Decimal.float) "4.0") Example.abc = false ∧
  (IDmap.addID (H := Decimal.float) "4.0" ;;; IDmap.pop "4") Example.abc
    = (Py.Ok tt, Example.abc).
Proof.
  split; [vm_compute; reflexivity|].
  apply (addID_pop_round_trip Decimal.float Example.abc "4.0" wf_abc).
  vm_compute. reflexivity.
Defined.

(** ** The maps a client can build *)

Lemma idmap_do_call_wf `{Py.Float} (c : IDmap.call) (m : IDmap.t) :
  IDmap.wf m → IDmap.wf (Py.state (IDmap.do_call c m)).
Proof.
  intros Hwf. destruct c as [ID|ID]; simpl.
  - pose proof (addID_wf ID m Hwf) as Hwf'. unfold Py.bind, Py.state in *.
    by destruct (IDmap.addID ID m) as [[r|e] m'].
  - destruct (IDmap.data m !! ID) as [idx|] eqn:Hidx.
    + by eapply idmap_pop_wf.
    + unfold IDmap.pop. by rewrite Hidx.
Qed.

Lemma idmap_run_wf `{Py.Float} (cs : list IDmap.call) (m : IDmap.t) :
  IDmap.wf m → IDmap.wf (IDmap.run cs m).
Proof.
  revert m. induction cs as [|c cs IH]; intros m Hwf; simpl; [done|].
  by apply IH, idmap_do_call_wf.
Qed.

(** Whatever sequence of [addID] and [pop] calls a client makes on a new
    map, failed calls included, the two directions of the map agree
    afterwards: [data[lst[i]] == i] and nothing else is in [data].  So
    no ID is listed twice, distinct IDs have distinct indices, the indices
    are exactly [0 .. size - 1], and [size] is the length of the list. *)
Theorem idmap_reachable_consistent (F : Py.Float) (cs : list IDmap.call) :
  let m := IDmap.run cs IDmap.empty in
  IDmap.wf m ∧
  NoDup (IDmap.lst m) ∧
  IDmap.size m = length (IDmap.lst m) ∧
  (∀ a b i, IDmap.data m !! a = Some i → IDmap.data m !! b = Some i → a = b) ∧
  (∀ ID i, IDmap.data m !! ID = Some i → i < IDmap.size m) ∧
  (∀ i, i < IDmap.size m → ∃ ID, IDmap.data m !! ID = Some i).
Proof.
  intros m. assert (Hwf : IDmap.wf m) by apply idmap_run_wf, idmap_wf_empty.
  split_and!.
  - done.
  - by apply idmap_wf_NoDup.
  - by apply idmap_wf_size.
  - intros a b i. by apply idmap_wf_inj.
  - intros ID i Hi. rewrite idmap_wf_size by done. by eapply idmap_wf_lt.
  - intros i Hi. rewrite idmap_wf_size in Hi by done.
    apply lookup_lt_is_Some_2 in Hi as [ID Hi]. exists ID. by apply Hwf.
Qed.

(** * The graphs a client can build *)

Section consistent_facts.
Context `{Py.Float}.
Implicit Types (g : Graph.t) (a b : string) (w : float) (red : option string).

Lemma row_set_keys_in (r : Row.t) (k : nat) (v : float) :
  k ∈ Row.keys r → Row.keys (Row.set k v r) = Row.keys r.
Proof.
  unfold Row.keys. induction r as [|[k' v'] r IH]; simpl.
  - intros Hk. by apply elem_of_nil in Hk.
  - destruct (decide (k' = k)) as [->|Hne]; simpl; [done|].
    intros Hk. apply elem_of_cons in Hk as [->|Hk]; [done|]. f_equal. by apply IH.
Qed.

Lemma row_set_keys_notin (r : Row.t) (k : nat) (v : float) :
  k ∉ Row.keys r → Row.keys (Row.set k v r) = Row.keys r ++ [k].
Proof. intros Hk. rewrite row_set_fresh by done. unfold Row.keys. by rewrite fmap_app. Qed.

Lemma row_set_wf (r : Row.t) (k : nat) (v : float) :
  Row.wf r → Row.wf (Row.set k v r).
Proof.
  unfold Row.wf. intros Hnd. destruct (decide (k ∈ Row.keys r)) as [Hin|Hout].
  - by rewrite row_set_keys_in.
  - rewrite row_set_keys_notin by done.
    apply NoDup_app. split_and!; [done| |apply NoDup_singleton].
    intros x Hx Hk. apply list_elem_of_singleton in Hk as ->. done.
Qed.

Lemma write_wf (ed : list Row.t) (i j : nat) (w : float) :
  Forall Row.wf ed → Forall Row.wf (Graph.write ed i j w).
Proof.
  intros Hwf. unfold Graph.write. destruct (ed !! i) as [row|] eqn:Hrow; [|done].
  apply Forall_insert; [done|]. apply row_set_wf. by eapply Forall_lookup_1.
Qed.

Lemma consistent_new (weighted directed self_loops : bool) :
  Graph.consistent (Graph.new weighted directed self_loops).
Proof. split; simpl; try done; apply idmap_wf_empty. Qed.

Lemma consistent_new_directed (weighted : bool) :
  Graph.consistent (Graph.new_directed weighted).
Proof. split; simpl; try done; apply idmap_wf_empty. Qed.

Lemma consistent_add_id g a :
  Graph.consistent g → Graph.consistent (Py.state (Graph.add_id a g)).
Proof.
  intros [Hwf Hr Hk Hb Hm Hl Hrev]. rewrite add_id_run.
  destruct (IDmap.contains (IDmap.canon a) (Graph.idmap g)) eqn:Hin.
  - rewrite addID_present by done. by split.
  - destruct (addID_fresh a _ Hwf Hin) as (m & -> & Hlst & _ & _ & Hwf').
    unfold Py.state; simpl.
    assert (Hr' : length (Graph.edge_data g ++ [[]]) = length (IDmap.lst m)).
    { rewrite Hlst, !length_app. simpl. lia. }
    assert (Hk' : Forall Row.wf (Graph.edge_data g ++ [[]])).
    { apply Forall_app. split; [done|]. repeat constructor. }
    assert (Hb' : ∀ i j w, Graph.lookup (Graph.edge_data g ++ [[]]) i j = Some w →
      j < length (Graph.edge_data g ++ [[]])).
    { intros i j w. rewrite lookup_snoc_empty, length_app. intros Hw.
      apply Hb in Hw. lia. }
    assert (Hm' : Graph.directed g = false → ∀ i j w,
      Graph.lookup (Graph.edge_data g ++ [[]]) i j = Some w →
      Graph.lookup (Graph.edge_data g ++ [[]]) j i = Some w).
    { intros Hd i j w. rewrite !lookup_snoc_empty. by apply Hm. }
    assert (Hl' : Graph.self_loops g = false → ∀ i,
      Graph.lookup (Graph.edge_data g ++ [[]]) i i = None).
    { intros Hs i. rewrite lookup_snoc_empty. by apply Hl. }
    destruct (Graph.class g) eqn:Hc; split; simpl; try done.
    + intros Hc'. congruence.
    + intros _. destruct (Hrev eq_refl) as [Hd Hlen].
      split; [done|]. rewrite !length_app, Hlen. done.
Qed.

Lemma consistent_default_add_id g a :
  Graph.consistent g → Graph.consistent (Py.state (Graph._default_add_id a g)).
Proof.
  intros Hg. unfold Graph._default_add_id. rewrite bind_get.
  destruct (IDmap.contains a (Graph.idmap g)); [done|].
  by apply consistent_add_id.
Qed.

(** The three outcomes of [_add_edge]. *)
Lemma _add_edge_cases g a b w red (s : Graph.store) :
  IDmap.wf (Graph.idmap g) →
  length (Graph.get_store s g) = length (IDmap.lst (Graph.idmap g)) →
  (Graph._add_edge a b w red s g = (Py.Raise Py.KeyError, g) ∧
   (IDmap.data (Graph.idmap g) !! a = None ∨ IDmap.data (Graph.idmap g) !! b = None))
  ∨ (Graph._add_edge a b w red s g = (Py.Ok tt, g) ∧ Graph.self_loops g = false ∧
     ∃ i, IDmap.data (Graph.idmap g) !! a = Some i ∧
          IDmap.data (Graph.idmap g) !! b = Some i)
  ∨ (∃ i j, IDmap.data (Graph.idmap g) !! a = Some i ∧
       IDmap.data (Graph.idmap g) !! b = Some j ∧
       (Graph.self_loops g = true ∨ i ≠ j) ∧
       i < length (Graph.get_store s g) ∧ j < length (Graph.get_store s g) ∧
       let old := Graph.lookup (Graph.get_store s g) i j in
       let w' := Graph.committed red old w in
       let ed1 := Graph.write (Graph.get_store s g) i j w' in
       let ed2 := if Graph.directed g then ed1 else Graph.write ed1 j i w' in
       Graph._add_edge a b w red s g
       = (Py.Ok tt,
          Graph.set_store s ed2
            (Graph.with_logger (Graph.logger g ++ Graph.warnings red old a b w) g))).
Proof.
  intros Hwf Hlen.
  destruct (IDmap.data (Graph.idmap g) !! a) as [i|] eqn:Ha; cycle 1.
  { left. split; [|by left]. apply _add_edge_unmapped. by left. }
  destruct (IDmap.data (Graph.idmap g) !! b) as [j|] eqn:Hb; cycle 1.
  { left. split; [|by right]. apply _add_edge_unmapped. by right. }
  pose proof (idmap_wf_lt _ _ _ Hwf Ha) as Hi.
  pose proof (idmap_wf_lt _ _ _ Hwf Hb) as Hj.
  rewrite <- Hlen in Hi, Hj.
  destruct (decide (Graph.self_loops g = false ∧ i = j)) as [[Hs <-]|Hloop].
  { right. left. split; [by eapply _add_edge_self_loop|]. eauto. }
  assert (Hloop' : Graph.self_loops g = true ∨ i ≠ j).
  { destruct (Graph.self_loops g); [by left|right]. naive_solver. }
  right. right. exists i, j. split_and!; try done.
  by apply _add_edge_run.
Qed.

Lemma consistent_writes g i j w :
  Graph.consistent g →
  (Graph.self_loops g = true ∨ i ≠ j) →
  i < length (Graph.edge_data g) → j < length (Graph.edge_data g) →
  ∀ l,
  Graph.consistent
    (Graph.with_edge_data
       (let ed1 := Graph.write (Graph.edge_data g) i j w in
        if Graph.directed g then ed1 else Graph.write ed1 j i w)
       (Graph.with_logger l g)).
Proof.
  intros [Hwf Hr Hk Hb Hm Hl Hrev] Hloop Hi Hj l.
  assert (Hlen : length (let ed1 := Graph.write (Graph.edge_data g) i j w in
        if Graph.directed g then ed1 else Graph.write ed1 j i w)
      = length (Graph.edge_data g)).
  { simpl. destruct (Graph.directed g); by rewrite ?length_write. }
  split; simpl in *.
  - done.
  - by rewrite Hlen.
  - destruct (Graph.directed g); by repeat apply write_wf.
  - rewrite Hlen. intros x y v. destruct (Graph.directed g).
    + rewrite lookup_write by done. case_decide as Hxy; [|by apply Hb].
      destruct Hxy as [-> ->]. done.
    + rewrite !lookup_write by (by rewrite ?length_write).
      case_decide as Hxy; [by destruct Hxy as [-> ->]|].
      case_decide as Hxy'; [by destruct Hxy' as [-> ->]|]. by apply Hb.
  - intros Hd x y v. rewrite Hd.
    rewrite !lookup_write by (by rewrite ?length_write).
    destruct (decide (x = j ∧ y = i)) as [[-> ->]|Hxy].
    + intros [= <-]. destruct (decide (i = j ∧ j = i)); [done|].
      by rewrite decide_True.
    + destruct (decide (x = i ∧ y = j)) as [[-> ->]|Hxy'].
      * intros [= <-]. by rewrite decide_True.
      * intros Hv. rewrite !decide_False by naive_solver. by apply Hm.
  - intros Hs x. destruct Hloop as [?|Hne]; [congruence|].
    destruct (Graph.directed g).
    + rewrite lookup_write by done. rewrite decide_False by naive_solver. by apply Hl.
    + rewrite !lookup_write by (by rewrite ?length_write).
      rewrite !decide_False by naive_solver. by apply Hl.
  - intros Hc. destruct (Hrev Hc) as [Hd Hlr]. by rewrite Hlen.
Qed.

Lemma consistent_rev_writes g (ed : list Row.t) l :
  Graph.consistent g → length ed = length (Graph.rev_edge_data g) →
  Graph.consistent (Graph.with_rev_edge_data ed (Graph.with_logger l g)).
Proof.
  intros [Hwf Hr Hk Hb Hm Hl Hrev] Hlen. split; simpl; try done.
  intros Hc. destruct (Hrev Hc) as [Hd Hlr]. split; [done|congruence].
Qed.

Lemma consistent__add_edge_forward g a b w red :
  Graph.consistent g →
  Graph.consistent (Py.state (Graph._add_edge a b w red Graph.Forward g)).
Proof.
  intros Hg.
  destruct (_add_edge_cases g a b w red Graph.Forward)
    as [[-> _]|[[-> _]|(i & j & _ & _ & Hloop & Hi & Hj & ->)]];
    [apply Hg|apply Hg|done|done|].
  by apply consistent_writes.
Qed.

Lemma consistent__add_edge_reverse g a b w red :
  Graph.consistent g → Graph.class g = Graph.DirectedSparseGraph →
  Graph.consistent (Py.state (Graph._add_edge a b w red Graph.Reverse g)).
Proof.
  intros Hg Hc. destruct (Graph.consistent_rev _ Hg Hc) as [Hd Hlen].
  destruct (_add_edge_cases g a b w red Graph.Reverse)
    as [[-> _]|[[-> _]|(i & j & _ & _ & Hloop & Hi & Hj & ->)]];
    [apply Hg|simpl; rewrite Hlen; apply Hg|done|done|].
  unfold Py.state; simpl. rewrite Hd.
  apply consistent_rev_writes; [done|]. by rewrite length_write.
Qed.

End consistent_facts.

Section reachable_facts.
Context `{Py.Float}.
Implicit Types (g : Graph.t) (a b : string) (w : float) (red : option string).

(** What every call keeps: the invariant and the configuration. *)
Local Notation kept g0 :=
  (fun g => Graph.consistent g ∧ Graph.same_config g0 g).

Lemma kept_add_id g0 g a : kept g0 g → kept g0 (Py.state (Graph.add_id a g)).
Proof.
  intros [Hg Hc]. split; [by apply consistent_add_id|].
  rewrite add_id_run.
  destruct (IDmap.addID a (Graph.idmap g)) as [[r|e] m]; [|done].
  unfold Py.state; simpl. by destruct (Graph.class g) eqn:Hcl.
Qed.

Lemma kept_default_add_id g0 g a :
  kept g0 g → kept g0 (Py.state (Graph._default_add_id a g)).
Proof.
  intros Hg. unfold Graph._default_add_id. rewrite bind_get.
  destruct (IDmap.contains a (Graph.idmap g)); [done|].
  by apply kept_add_id.
Qed.

Lemma kept__add_edge_forward g0 g a b w red :
  kept g0 g → kept g0 (Py.state (Graph._add_edge a b w red Graph.Forward g)).
Proof.
  intros [Hg Hc]. split; [by apply consistent__add_edge_forward|].
  destruct (_add_edge_cases g a b w red Graph.Forward)
    as [[-> _]|[[-> _]|(i & j & _ & _ & Hloop & Hi & Hj & ->)]];
    [apply Hg|apply Hg|done|done|done].
Qed.

Lemma kept__add_edge_reverse g0 g a b w red :
  kept g0 g → Graph.class g = Graph.DirectedSparseGraph →
  kept g0 (Py.state (Graph._add_edge a b w red Graph.Reverse g)).
Proof.
  intros [Hg Hc] Hcl. split; [by apply consistent__add_edge_reverse|].
  destruct (Graph.consistent_rev _ Hg Hcl) as [Hd Hlen].
  destruct (_add_edge_cases g a b w red Graph.Reverse)
    as [[-> _]|[[-> _]|(i & j & _ & _ & Hloop & Hi & Hj & ->)]];
    [apply Hg|simpl; rewrite Hlen; apply Hg|done|done|done].
Qed.

Lemma kept_SparseGraph_add_edge g0 g a b w red :
  kept g0 g → kept g0 (Py.state (Graph.SparseGraph_add_edge a b w red g)).
Proof.
  intros Hg. unfold Graph.SparseGraph_add_edge.
  destruct (Graph.known_reduction red); cbn [negb]; [|done].
  apply (bind_keeps (kept g0)); [by apply kept_default_add_id|]. intros _ g1 Hg1.
  apply (bind_keeps (kept g0)); [by apply kept_default_add_id|]. intros _ g2 Hg2.
  by apply kept__add_edge_forward.
Qed.

Lemma kept_add_edge g0 g a b w red :
  kept g0 g → kept g0 (Py.state (Graph.add_edge a b w red g)).
Proof.
  intros Hg. unfold Graph.add_edge. rewrite bind_get.
  destruct (Graph.class g) eqn:Hcl.
  - by apply kept_SparseGraph_add_edge.
  - unfold Graph.DirectedSparseGraph_add_edge.
    apply (bind_keeps (kept g0)); [by apply kept_SparseGraph_add_edge|].
    intros _ g1 Hg1. apply kept__add_edge_reverse; [done|].
    destruct Hg as [_ (Hc & _)], Hg1 as [_ (Hc1 & _)]. congruence.
Qed.

Lemma kept_do_call g0 g (c : Graph.call) :
  kept g0 g → kept g0 (Py.state (Graph.do_call c g)).
Proof.
  intros Hg. destruct c as [a|ids|a b w red]; simpl.
  - by apply kept_add_id.
  - unfold Graph.add_ids. apply (for_each_keeps (kept g0)); [|done].
    intros x g' Hg'. by apply kept_add_id.
  - by apply kept_add_edge.
Qed.

Lemma kept_run g0 g (cs : list Graph.call) :
  kept g0 g → kept g0 (Graph.run cs g).
Proof.
  revert g. induction cs as [|c cs IH]; intros g Hg; simpl; [done|].
  by apply IH, kept_do_call.
Qed.

Lemma kept_refl g : Graph.consistent g → kept g g.
Proof. intros Hg. by split. Qed.

(** [get_edge] on a graph that satisfies the invariant. *)
Lemma get_edge_value g a b :
  Graph.consistent g →
  Graph.get_edge a b g
  = (Py.Ok (default 0%float (Graph.edge Graph.Forward g a b)), g).
Proof.
  intros Hg. unfold Graph.get_edge, Py.try_except, Graph.edge, Graph.lookup.
  destruct (IDmap.data (Graph.idmap g) !! a) as [i|] eqn:Ha; [|by run].
  pose proof (idmap_wf_lt _ _ _ (Graph.consistent_idmap _ Hg) Ha) as Hi.
  rewrite <- (Graph.consistent_rows _ Hg) in Hi.
  apply lookup_lt_is_Some_2 in Hi as [nbrs Hnbrs].
  destruct (IDmap.data (Graph.idmap g) !! b) as [j|] eqn:Hb; simpl.
  - rewrite Hnbrs. simpl. destruct (Row.get j nbrs) as [v|] eqn:Hv; by run.
  - by run.
Qed.

End reachable_facts.

(** The invariant of the data model holds for every graph a client can
    build.  A new [SparseGraph] and a new [DirectedSparseGraph] satisfy
    it, and every sequence of [add_id] and [add_edge] calls, failed calls
    included, keeps it together with the configuration the constructor
    fixed.  So there is always exactly one row per node, every stored
    neighbour index is the index of a node, and a [DirectedSparseGraph]
    has one reversed row per node. *)
Theorem graph_reachable_consistent (F : Py.Float) :
  (∀ weighted directed self_loops,
     Graph.consistent (Graph.new weighted directed self_loops)) ∧
  (∀ weighted, Graph.consistent (Graph.new_directed weighted)) ∧
  (∀ (g0 : Graph.t) (cs : list Graph.call),
     Graph.consistent g0 →
     let g := Graph.run cs g0 in
     Graph.consistent g ∧ Graph.same_config g0 g ∧
     length (Graph.edge_data g) = Graph.size g ∧
     (∀ i j w, Graph.lookup (Graph.edge_data g) i j = Some w →
        i < Graph.size g ∧ j < Graph.size g) ∧
     (Graph.class g = Graph.DirectedSparseGraph →
        length (Graph.rev_edge_data g) = Graph.size g)).
Proof.
  split; [apply consistent_new|]. split; [apply consistent_new_directed|].
  intros g0 cs Hg0 g.
  destruct (kept_run g0 g0 cs (kept_refl g0 Hg0)) as [Hg Hc]. fold g in Hg, Hc.
  pose proof (Graph.consistent_rows _ Hg) as Hrows.
  pose proof (idmap_wf_size _ (Graph.consistent_idmap _ Hg)) as Hsize.
  assert (Hlen : length (Graph.edge_data g) = Graph.size g).
  { unfold Graph.size. by rewrite Hsize. }
  split_and!; try done.
  - intros i j w Hw. rewrite <- Hlen. split.
    + by eapply lookup_lt.
    + by eapply Graph.consistent_bound.
  - intros Hcl. destruct (Graph.consistent_rev _ Hg Hcl) as [_ Hr]. congruence.
Qed.

Lemma graph_reachable_consistent_witness :
  let g := Graph.run (H := Decimal.float)
             [Graph.Add_edge "a" "b" 1 None; Graph.Add_id "a";
              Graph.Add_edge "b" "c" 2 (Some "sum")]
             (Graph.new true false false) in
  Graph.consistent g ∧ length (Graph.edge_data g) = Graph.size g.
Proof.
  destruct (graph_reachable_consistent Decimal.float) as (Hnew & _ & Hrun).
  destruct (Hrun (Graph.new true false false)
              [Graph.Add_edge "a" "b" 1 None; Graph.Add_id "a";
               Graph.Add_edge "b" "c" 2 (Some "sum")]
              (Hnew true false false)) as (Hg & _ & Hlen & _).
  split; [exact Hg|exact Hlen].
Defined.

(** Symmetry.  In every undirected graph a client can build,
    [get_edge(a, b)] and [get_edge(b, a)] return the same value, for all
    [a] and [b], whether or not they are nodes of the graph. *)
Theorem undirected_get_edge_symmetric (F : Py.Float) (g0 : Graph.t)
    (cs : list Graph.call) (a b : string) :
  Graph.consistent g0 → Graph.directed g0 = false →
  Graph.get_edge a b (Graph.run cs g0) = Graph.get_edge b a (Graph.run cs g0).
Proof.
  intros Hg0 Hd0.
  destruct (kept_run g0 g0 cs (kept_refl g0 Hg0)) as [Hg (_ & _ & Hd & _)].
  rewrite Hd0 in Hd. rewrite !get_edge_value by done. do 2 f_equal.
  unfold Graph.edge. simpl.
  destruct (IDmap.data (Graph.idmap (Graph.run cs g0)) !! a) as [i|];
    destruct (IDmap.data (Graph.idmap (Graph.run cs g0)) !! b) as [j|];
    simpl; try done.
  pose proof (Graph.consistent_mirror _ Hg Hd) as Hm.
  destruct (Graph.lookup (Graph.edge_data (Graph.run cs g0)) i j) as [v|] eqn:Hij.
  - by rewrite (Hm _ _ _ Hij).
  - destruct (Graph.lookup (Graph.edge_data (Graph.run cs g0)) j i) as [v|] eqn:Hji;
      [|done].
    apply Hm in Hji. congruence.
Qed.

Lemma undirected_get_edge_symmetric_witness :
  let g := Graph.run (H := Decimal.float)
             [Graph.Add_edge "a" "b" 1 None; Graph.Add_edge "c" "a" 2 None]
             (Graph.new true false false) in
  Graph.get_edge "a" "c" g = Graph.get_edge "c" "a" g ∧
  Graph.get_edge "a" "c" g = (Py.Ok 2%float, g).
Proof.
  split; [|vm_compute; reflexivity].
  apply (undirected_get_edge_symmetric Decimal.float (Graph.new true false false)).
  - apply consistent_new.
  - reflexivity.
Defined.

(** ** Self loops *)

Section self_loop_facts.
Context `{Py.Float}.
Implicit Types (g : Graph.t) (a b : string) (w : float) (red : option string).

Lemma num_edges_snoc_empty (ed : list Row.t) :
  sum_list (length <$> ed ++ [[]]) = sum_list (length <$> ed).
Proof. rewrite fmap_app, sum_list_with_app. simpl. lia. Qed.

Lemma num_edges_add_id g a :
  Graph.num_edges (Py.state (Graph.add_id a g)) = Graph.num_edges g.
Proof.
  rewrite add_id_run. unfold Graph.num_edges.
  destruct (IDmap.addID a (Graph.idmap g)) as [[r|e] m]; [|done].
  unfold Py.state; simpl.
  destruct (Graph.class g); simpl; apply num_edges_snoc_empty.
Qed.

Lemma _add_edge_same_id g a w red (s : Graph.store) :
  Graph.self_loops g = false →
  Py.state (Graph._add_edge a a w red s g) = g.
Proof.
  intros Hs. destruct (IDmap.data (Graph.idmap g) !! a) as [i|] eqn:Ha.
  - by rewrite (_add_edge_self_loop g a a i).
  - rewrite _add_edge_unmapped; [done|by left].
Qed.

Local Notation unloaded n :=
  (fun g => Graph.num_edges g = n ∧ Graph.self_loops g = false).

Lemma unloaded_add_edge g a w red :
  Graph.self_loops g = false →
  unloaded (Graph.num_edges g) (Py.state (Graph.add_edge a a w red g)).
Proof.
  intros Hs. set (n := Graph.num_edges g).
  assert (Hid : ∀ g', unloaded n g' →
    unloaded n (Py.state (Graph._default_add_id a g'))).
  { intros g' [Hn Hs']. unfold Graph._default_add_id. rewrite bind_get.
    destruct (IDmap.contains a (Graph.idmap g')); [done|].
    split; [by rewrite num_edges_add_id|].
    rewrite add_id_run.
    destruct (IDmap.addID a (Graph.idmap g')) as [[r|e] m]; [|done].
    unfold Py.state; simpl. by destruct (Graph.class g'). }
  assert (Hsp : unloaded n (Py.state (Graph.SparseGraph_add_edge a a w red g))).
  { unfold Graph.SparseGraph_add_edge.
    destruct (Graph.known_reduction red); cbn [negb]; [|done].
    apply (bind_keeps (unloaded n)); [by apply Hid|]. intros _ g1 Hg1.
    apply (bind_keeps (unloaded n)); [by apply Hid|]. intros _ g2 [Hn2 Hs2].
    by rewrite _add_edge_same_id. }
  unfold Graph.add_edge. rewrite bind_get. destruct (Graph.class g); [done|].
  unfold Graph.DirectedSparseGraph_add_edge.
  apply (bind_keeps (unloaded n)); [done|]. intros _ g1 [Hn1 Hs1].
  by rewrite _add_edge_same_id.
Qed.

End self_loop_facts.

(** Self-loop exclusion.  In a graph that satisfies the invariant and
    does not allow self loops, [add_edge(a, a, w)] stores nothing,
    whatever the reduction and whether or not [a] was a node: [num_edges]
    is unchanged and [get_edge(a, a)] is 0 afterwards. *)
Theorem self_loop_excluded (F : Py.Float) (g : Graph.t) (a : string)
    (w : float) (red : option string) :
  Graph.consistent g → Graph.self_loops g = false →
  let g' := Py.state (Graph.add_edge a a w red g) in
  Graph.num_edges g' = Graph.num_edges g ∧
  Graph.get_edge a a g' = (Py.Ok 0%float, g').
Proof.
  intros Hg Hs g'.
  destruct (unloaded_add_edge g a w red Hs) as [Hn Hs']. fold g' in Hn, Hs'.
  destruct (kept_add_edge g g a a w red (kept_refl g Hg)) as [Hg' _]. fold g' in Hg'.
  split; [done|]. rewrite get_edge_value by done. do 2 f_equal.
  unfold Graph.edge. simpl.
  destruct (IDmap.data (Graph.idmap g') !! a) as [i|]; simpl; [|done].
  by rewrite (Graph.consistent_loops _ Hg' Hs').
Qed.

Lemma self_loop_excluded_witness :
  let g' := Py.state (Graph.add_edge (H := Decimal.float) "c" "c" 5 None Example.ab) in
  Graph.num_edges g' = 2 ∧ Graph.size g' = 3 ∧
  Graph.get_edge "c" "c" g' = (Py.Ok 0%float, g').
Proof.
  assert (Hg : Graph.consistent Example.ab).
  { destruct wf_ab. by split. }
  destruct (self_loop_excluded Decimal.float Example.ab "c" 5 None Hg eq_refl)
    as [Hn He].
  split; [exact Hn|]. split; [vm_compute; reflexivity|exact He].
Defined.

(** ** Repeating an [add_edge] *)

Lemma bind_ok_inv {S A B} (c : Py.M S A) (k : A → Py.M S B) (s s2 : S) (b : B) :
  Py.bind c k s = (Py.Ok b, s2) →
  ∃ a s1, c s = (Py.Ok a, s1) ∧ k a s1 = (Py.Ok b, s2).
Proof.
  unfold Py.bind. destruct (c s) as [[a|e] s1]; [|done]. intros Hk. by exists a, s1.
Qed.

Lemma known_reduction_cases (red : option string) :
  Graph.known_reduction red = true →
  red = None ∨ red = Some "max" ∨ red = Some "min".
Proof.
  unfold Graph.known_reduction. rewrite bool_decide_eq_true.
  rewrite !elem_of_cons, elem_of_nil. tauto.
Qed.

Lemma committed_idem (red : option string) (old : option float) (w : float) :
  Graph.known_reduction red = true →
  Graph.committed red (Some (Graph.committed red old w)) w
  = Graph.committed red old w.
Proof.
  intros Hk. apply known_reduction_cases in Hk as [-> | [-> | ->]].
  - by rewrite !committed_none.
  - unfold Graph.committed, Py.max; simpl.
    destruct old as [o|]; [destruct (Py.ne o w) eqn:Hne|].
    + destruct (PrimFloat.ltb o w) eqn:Hlt.
      * by destruct (Py.ne w w), (PrimFloat.ltb w w).
      * by rewrite Hne, Hlt.
    + by destruct (Py.ne w w), (PrimFloat.ltb w w).
    + by destruct (Py.ne w w), (PrimFloat.ltb w w).
  - unfold Graph.committed, Py.min; simpl.
    destruct old as [o|]; [destruct (Py.ne o w) eqn:Hne|].
    + destruct (PrimFloat.ltb w o) eqn:Hlt.
      * by destruct (Py.ne w w), (PrimFloat.ltb w w).
      * by rewrite Hne, Hlt.
    + by destruct (Py.ne w w), (PrimFloat.ltb w w).
    + by destruct (Py.ne w w), (PrimFloat.ltb w w).
Qed.

Lemma warnings_idem (red : option string) (old : option float) (a b : string)
    (w : float) :
  PrimFloat.eqb w w = true →
  Graph.warnings red (Some (Graph.committed red old w)) a b w = [].
Proof.
  intros Hw. destruct red as [r|]; [done|].
  rewrite committed_none. unfold Graph.warnings, Py.ne. by rewrite Hw.
Qed.

Lemma row_set_same (r : Row.t) (k : nat) (v : float) :
  Row.get k r = Some v → Row.set k v r = r.
Proof.
  induction r as [|[k' v'] r IH]; simpl; [done|].
  destruct (decide (k' = k)) as [->|Hne].
  - by intros [= ->].
  - intros Hg. f_equal. by apply IH.
Qed.

Lemma write_same (ed : list Row.t) (i j : nat) (v : float) :
  Graph.lookup ed i j = Some v → Graph.write ed i j v = ed.
Proof.
  unfold Graph.lookup, Graph.write. destruct (ed !! i) as [row|] eqn:Hrow; [|done].
  simpl. intros Hg. rewrite row_set_same by done. by apply list_insert_id.
Qed.

Section idempotent_facts.
Context `{Py.Float}.
Implicit Types (g : Graph.t) (a b : string) (w : float) (red : option string).

Local Notation kept g0 :=
  (fun g => Graph.consistent g ∧ Graph.same_config g0 g).

(** An edge [a], [b] with weight [w] under [red] is settled in a store
    when both IDs are nodes and either the pair is a suppressed self loop
    or the entries the call writes already hold the weight it commits. *)
Local Notation settled s g a b w red :=
  (∃ i j, IDmap.data (Graph.idmap g) !! a = Some i ∧
     IDmap.data (Graph.idmap g) !! b = Some j ∧
     i < length (Graph.get_store s g) ∧ j < length (Graph.get_store s g) ∧
     ((Graph.self_loops g = false ∧ i = j) ∨
      ((Graph.self_loops g = true ∨ i ≠ j) ∧
       ∃ old, Graph.lookup (Graph.get_store s g) i j
                = Some (Graph.committed red old w) ∧
         (Graph.directed g = false →
          Graph.lookup (Graph.get_store s g) j i
            = Some (Graph.committed red old w))))).

Lemma _add_edge_settles g g1 a b w red (s : Graph.store) :
  IDmap.wf (Graph.idmap g) →
  length (Graph.get_store s g) = length (IDmap.lst (Graph.idmap g)) →
  Graph._add_edge a b w red s g = (Py.Ok tt, g1) →
  settled s g1 a b w red ∧
  Graph.idmap g1 = Graph.idmap g ∧
  (∀ s', s' ≠ s → Graph.get_store s' g1 = Graph.get_store s' g).
Proof.
  intros Hwf Hlen Hrun.
  destruct (_add_edge_cases g a b w red s Hwf Hlen)
    as [[Hr _]|[[Hr (Hs & i & Ha & Hb)]|(i & j & Ha & Hb & Hloop & Hi & Hj & Hr)]].
  - congruence.
  - assert (g1 = g) as -> by congruence. split; [|done].
    pose proof (idmap_wf_lt _ _ _ Hwf Ha) as Hi. rewrite <- Hlen in Hi.
    exists i, i. split_and!; try done. by left.
  - cbv zeta in Hr. rewrite Hrun in Hr. injection Hr as Hg1.
    set (old := Graph.lookup (Graph.get_store s g) i j) in *.
    set (w1 := Graph.committed red old w) in *.
    set (ed1 := Graph.write (Graph.get_store s g) i j w1) in *.
    set (ed2 := if Graph.directed g then ed1 else Graph.write ed1 j i w1) in *.
    assert (Hlen2 : length ed2 = length (Graph.get_store s g)).
    { unfold ed2, ed1. destruct (Graph.directed g); by rewrite ?length_write. }
    assert (Hij : Graph.lookup ed2 i j = Some w1).
    { unfold ed2, ed1. destruct (Graph.directed g).
      - rewrite lookup_write by done. by rewrite decide_True.
      - rewrite !lookup_write by (by rewrite ?length_write).
        destruct (decide (i = j ∧ j = i)); [done|]. by rewrite decide_True. }
    assert (Hji : Graph.directed g = false → Graph.lookup ed2 j i = Some w1).
    { intros Hd. unfold ed2, ed1. rewrite Hd.
      rewrite !lookup_write by (by rewrite ?length_write).
      by rewrite decide_True. }
    assert (Hst : Graph.get_store s g1 = ed2) by (rewrite Hg1; by destruct s).
    assert (Hid : Graph.idmap g1 = Graph.idmap g) by (rewrite Hg1; by destruct s).
    assert (Hdir : Graph.directed g1 = Graph.directed g) by (rewrite Hg1; by destruct s).
    assert (Hsl : Graph.self_loops g1 = Graph.self_loops g) by (rewrite Hg1; by destruct s).
    split_and!; [|done|].
    + exists i, j. rewrite Hid, Hst, Hsl, Hdir, Hlen2. split_and!; try done.
      right. split; [done|]. by exists old.
    + intros s' Hs'. rewrite Hg1. by destruct s, s'.
Qed.

Lemma _add_edge_settled g a b w red (s : Graph.store) :
  Graph.known_reduction red = true →
  settled s g a b w red →
  ∃ l, Graph._add_edge a b w red s g
       = (Py.Ok tt, Graph.with_logger (Graph.logger g ++ l) g) ∧
    (PrimFloat.eqb w w = true → l = []).
Proof.
  intros Hk (i & j & Ha & Hb & Hi & Hj & [[Hs ->]|[Hloop (old & Hij & Hji)]]).
  - exists []. rewrite app_nil_r. split; [|done].
    by rewrite (_add_edge_self_loop g a b j).
  - set (w1 := Graph.committed red old w) in *.
    rewrite (_add_edge_run g a b i j w red s) by done.
    rewrite Hij.
    assert (Hc : Graph.committed red (Some w1) w = w1) by (by apply committed_idem).
    rewrite Hc.
    assert (He : (let ed1' := Graph.write (Graph.get_store s g) i j w1 in
              if Graph.directed g then ed1' else Graph.write ed1' j i w1)
             = Graph.get_store s g).
    { cbv zeta. rewrite (write_same _ i j w1 Hij).
      destruct (Graph.directed g) eqn:Hd; [done|]. by rewrite write_same by auto. }
    cbv zeta in He. rewrite He.
    exists (Graph.warnings red (Some w1) a b w). split.
    + f_equal. by destruct s.
    + intros Hw. by apply warnings_idem.
Qed.

Lemma SparseGraph_add_edge_settled g a b w red :
  Graph.known_reduction red = true →
  settled Graph.Forward g a b w red →
  ∃ l, Graph.SparseGraph_add_edge a b w red g
       = (Py.Ok tt, Graph.with_logger (Graph.logger g ++ l) g) ∧
    (PrimFloat.eqb w w = true → l = []).
Proof.
  intros Hk Hset. pose proof Hset as (i & j & Ha & Hb & _).
  unfold Graph.SparseGraph_add_edge. rewrite Hk. cbn [negb].
  rewrite (bind_ok _ _ _ _ _ (default_add_id_present g a i Ha)).
  rewrite (bind_ok _ _ _ _ _ (default_add_id_present g b j Hb)).
  by apply _add_edge_settled.
Qed.

Lemma SparseGraph_add_edge_settles g g1 a b w red :
  Graph.consistent g →
  Graph.SparseGraph_add_edge a b w red g = (Py.Ok tt, g1) →
  Graph.known_reduction red = true ∧ kept g g1 ∧
  settled Graph.Forward g1 a b w red.
Proof.
  intros Hg Hrun.
  pose proof (kept_SparseGraph_add_edge g g a b w red (kept_refl g Hg)) as Hk1.
  rewrite Hrun in Hk1. unfold Py.state in Hk1; simpl in Hk1.
  unfold Graph.SparseGraph_add_edge in Hrun.
  destruct (Graph.known_reduction red); cbn [negb] in Hrun; [|done].
  apply bind_ok_inv in Hrun as ([] & ga & Hga & Hrun).
  apply bind_ok_inv in Hrun as ([] & gb & Hgb & Hrun).
  pose proof (kept_default_add_id g g a (kept_refl g Hg)) as Hka.
  rewrite Hga in Hka. unfold Py.state in Hka; simpl in Hka.
  pose proof (kept_default_add_id g ga b Hka) as Hkb.
  rewrite Hgb in Hkb. unfold Py.state in Hkb; simpl in Hkb.
  destruct Hkb as [Hcb _].
  destruct (_add_edge_settles gb g1 a b w red Graph.Forward) as (Hset & _);
    [apply Hcb|apply Hcb|done|].
  done.
Qed.

End idempotent_facts.

(** Idempotence.  When [add_edge(a, b, w, reduction)] has succeeded on a
    graph that satisfies the invariant, making the same call again succeeds
    and changes nothing but the log: nodes, rows, stored weights and
    [num_edges] are as after the first call.  Unless [w] is a NaN the
    log is unchanged too. *)
Theorem add_edge_idempotent (F : Py.Float) (g g1 : Graph.t) (a b : string)
    (w : float) (red : option string) :
  Graph.consistent g →
  Graph.add_edge a b w red g = (Py.Ok tt, g1) →
  ∃ l, Graph.add_edge a b w red g1
       = (Py.Ok tt, Graph.with_logger (Graph.logger g1 ++ l) g1) ∧
    (PrimFloat.eqb w w = true → l = []).
Proof.
  intros Hg Hrun. unfold Graph.add_edge in *. rewrite bind_get in *.
  destruct (Graph.class g) eqn:Hcl.
  - destruct (SparseGraph_add_edge_settles g g1 a b w red Hg Hrun)
      as (Hk & [_ (Hcl1 & _)] & Hset).
    rewrite Hcl1, Hcl. by apply SparseGraph_add_edge_settled.
  - unfold Graph.DirectedSparseGraph_add_edge in Hrun.
    apply bind_ok_inv in Hrun as ([] & gm & Hgm & Hrun).
    destruct (SparseGraph_add_edge_settles g gm a b w red Hg Hgm)
      as (Hk & [Hcm (Hclm & _)] & Hset).
    rewrite Hcl in Hclm. destruct (Graph.consistent_rev _ Hcm Hclm) as [_ Hrev].
    destruct (_add_edge_settles gm g1 b a w red Graph.Reverse)
      as (Hsetr & Hid & Hother);
      [apply Hcm|simpl; rewrite Hrev; apply Hcm|done|].
    pose proof (kept__add_edge_reverse g gm b a w red) as Hk1.
    rewrite Hrun in Hk1. destruct Hk1 as [Hc1 (Hcl1 & _ & Hd1 & Hs1)].
    { split; [done|]. pose proof (kept_SparseGraph_add_edge g g a b w red) as Hkm.
      rewrite Hgm in Hkm. apply Hkm. by split. }
    { done. }
    unfold Py.state in *; simpl in *.
    rewrite Hcl1, Hcl. unfold Graph.DirectedSparseGraph_add_edge.
    destruct (SparseGraph_add_edge_settled g1 a b w red Hk) as (l1 & Hrun1 & Hl1).
    { destruct Hset as (i & j & Ha & Hb & Hi & Hj & Hcase).
      pose proof (kept_SparseGraph_add_edge g g a b w red) as Hkm.
      rewrite Hgm in Hkm. destruct Hkm as [_ (_ & _ & Hdm & Hsm)]; [by split|].
      unfold Py.state in *; simpl in *.
      pose proof (Hother Graph.Forward ltac:(done)) as Hfw. simpl in Hfw.
      exists i, j. rewrite Hid, Hfw.
      replace (Graph.self_loops g1) with (Graph.self_loops gm) by congruence.
      replace (Graph.directed g1) with (Graph.directed gm) by congruence.
      done. }
    rewrite (bind_ok _ _ _ _ _ Hrun1).
    destruct (_add_edge_settled (Graph.with_logger (Graph.logger g1 ++ l1) g1)
                b a w red Graph.Reverse Hk) as (l2 & Hrun2 & Hl2).
    { destruct Hsetr as (i & j & Ha & Hb & Hi & Hj & Hcase). by exists i, j. }
    rewrite Hrun2. exists (l1 ++ l2). simpl. rewrite app_assoc. split; [done|].
    intros Hw. by rewrite Hl1, Hl2.
Qed.

Lemma add_edge_idempotent_witness :
  let g1 := Graph.with_edge_data [[(1, 3%float)]; [(0, 3%float)]] Example.ab in
  Graph.add_edge (H := Decimal.float) "a" "b" 3 (Some "max") Example.ab
    = (Py.Ok tt, g1) ∧
  Graph.add_edge (H := Decimal.float) "a" "b" 3 (Some "max") g1 = (Py.Ok tt, g1) ∧
  Graph.get_edge "a" "b" g1 = (Py.Ok 3%float, g1) ∧
  Graph.num_edges g1 = 2.
Proof.
  intros g1.
  assert (Hg : Graph.consistent Example.ab).
  { destruct wf_ab. by split. }
  assert (Hfirst : Graph.add_edge (H := Decimal.float) "a" "b" 3 (Some "max") Example.ab
                   = (Py.Ok tt, g1)) by (vm_compute; reflexivity).
  split; [exact Hfirst|].
  split; [|split; vm_compute; reflexivity].
  destruct (add_edge_idempotent Decimal.float Example.ab g1 "a" "b" 3 (Some "max")
              Hg Hfirst) as (l & Hrun & Hl).
  rewrite Hl in Hrun by (vm_compute; reflexivity).
  exact Hrun.
Defined.

(** * Dense rows and the dense matrix *)

Section dense_facts.
Implicit Types (g : Graph.t) (nbrs : Row.t) (fvec : list float).

(** Writing the items of a row into an array. *)
Lemma scatter_run nbrs fvec :
  Row.wf nbrs → (∀ k, k ∈ Row.keys nbrs → k < length fvec) →
  ∃ v, Py.for_each nbrs (fun '(nbr_idx, weight) => Np.setitem nbr_idx weight) fvec
       = (Py.Ok tt, v) ∧
    length v = length fvec ∧
    ∀ j, v !! j = match Row.get j nbrs with
                  | Some w => Some w
                  | None => fvec !! j
                  end.
Proof.
  revert fvec. induction nbrs as [|[k w] nbrs IH]; intros fvec Hwf Hb; simpl.
  - by exists fvec.
  - unfold Row.wf, Row.keys in Hwf. simpl in Hwf.
    apply NoDup_cons in Hwf as [Hk Hwf].
    assert (Hlt : k < length fvec) by (apply Hb; left).
    unfold Py.bind, Np.setitem at 1. rewrite decide_True by done.
    destruct (IH (<[k := w]> fvec)) as (v & Hrun & Hlen & Hv).
    { done. }
    { intros k' Hk'. rewrite length_insert. apply Hb. by right. }
    exists v. split; [done|]. split; [by rewrite Hlen, length_insert|].
    intros j. rewrite Hv. destruct (decide (k = j)) as [<-|Hne].
    + assert (Hn : Row.get k nbrs = None) by (by apply row_get_None).
      rewrite Hn. by rewrite list_lookup_insert_eq.
    + destruct (Row.get j nbrs); [done|]. by rewrite list_lookup_insert_ne.
Qed.

Lemma index_of_nat {A} (l : list A) (i : nat) : Py.index l (Z.of_nat i) = l !! i.
Proof.
  unfold Py.index. rewrite (proj2 (Z.leb_le _ _)) by lia. by rewrite Nat2Z.id.
Qed.

Lemma construct_adj_vec_row g (i : nat) :
  Graph.consistent g → i < Graph.size g →
  ∃ v, Graph.construct_adj_vec (Z.of_nat i) g = Py.Ok v ∧
    length v = Graph.size g ∧
    ∀ j, j < Graph.size g →
      v !! j = Some (default 0%float (Graph.lookup (Graph.edge_data g) i j)).
Proof.
  intros Hg Hi.
  pose proof (idmap_wf_size _ (Graph.consistent_idmap _ Hg)) as Hsize.
  pose proof (Graph.consistent_rows _ Hg) as Hrows.
  assert (Hlen : length (Graph.edge_data g) = Graph.size g).
  { unfold Graph.size. by rewrite Hsize. }
  destruct (lookup_lt_is_Some_2 (Graph.edge_data g) i) as [nbrs Hnbrs]; [lia|].
  unfold Graph.construct_adj_vec. rewrite index_of_nat, Hnbrs.
  destruct (scatter_run nbrs (Np.zeros (Graph.size g))) as (v & Hrun & Hlv & Hv).
  { by eapply Forall_lookup_1; [apply Hg|]. }
  { intros k Hk. unfold Np.zeros. rewrite length_replicate, <- Hlen.
    destruct (Row.get k nbrs) as [w|] eqn:Hw.
    - apply (Graph.consistent_bound _ Hg i k w). unfold Graph.lookup.
      by rewrite Hnbrs.
    - by apply row_get_None in Hw. }
  rewrite Hrun. exists v. split; [done|].
  unfold Np.zeros in *. rewrite length_replicate in Hlv. split; [done|].
  intros j Hj. rewrite Hv. unfold Graph.lookup. rewrite Hnbrs. simpl.
  destruct (Row.get j nbrs); [done|]. simpl. by rewrite lookup_replicate_2.
Qed.

End dense_facts.

(** [SparseGraph.__getitem__] with one ID and [construct_adj_vec].  In a
    graph that satisfies the invariant, [graph[a]] for a node [a] is an
    array with one entry per node; the entry at the index of a node [b] is
    the stored weight of the edge from [a] to [b], and 0 when there is
    none, which is the value of [get_edge(a, b)].  For an ID that is not
    a node the call raises [KeyError].  [construct_adj_vec] itself accepts
    a negative row index, which counts from the last row, and raises
    [IndexError] for an index outside [-size .. size - 1]. *)
Theorem getitem_row_spec (g : Graph.t) (a : string) :
  Graph.consistent g →
  (IDmap.data (Graph.idmap g) !! a = None →
     Graph.getitem a g = Py.Raise Py.KeyError) ∧
  (∀ i, IDmap.data (Graph.idmap g) !! a = Some i →
     ∃ fvec, Graph.getitem a g = Py.Ok fvec ∧
       length fvec = Graph.size g ∧
       ∀ b j, IDmap.data (Graph.idmap g) !! b = Some j →
         Graph.get_edge a b g = (Py.Ok (default 0%float (fvec !! j)), g) ∧
         fvec !! j = Some (default 0%float (Graph.edge Graph.Forward g a b))) ∧
  (∀ k : nat, 0 < k ≤ Graph.size g →
     Graph.construct_adj_vec (- Z.of_nat k) g
     = Graph.construct_adj_vec (Z.of_nat (Graph.size g - k)) g) ∧
  (∀ z : Z, (z < - Z.of_nat (Graph.size g) ∨ Z.of_nat (Graph.size g) <= z)%Z →
     Graph.construct_adj_vec z g = Py.Raise Py.IndexError).
Proof.
  intros Hg.
  pose proof (idmap_wf_size _ (Graph.consistent_idmap _ Hg)) as Hsize.
  pose proof (Graph.consistent_rows _ Hg) as Hrows.
  assert (Hlen : length (Graph.edge_data g) = Graph.size g).
  { unfold Graph.size. by rewrite Hsize. }
  split_and!.
  - intros Hn. unfold Graph.getitem, IDmap.getitem. by rewrite Hn.
  - intros i Hi.
    assert (Hlt : i < Graph.size g).
    { unfold Graph.size. rewrite Hsize.
      by eapply idmap_wf_lt; [apply Hg|]. }
    destruct (construct_adj_vec_row g i Hg Hlt) as (fvec & Hrun & Hlv & Hv).
    exists fvec. unfold Graph.getitem, IDmap.getitem. rewrite Hi. simpl.
    split; [done|]. split; [done|]. intros b j Hj.
    assert (Hjlt : j < Graph.size g).
    { unfold Graph.size. rewrite Hsize.
      by eapply idmap_wf_lt; [apply Hg|]. }
    assert (He : Graph.edge Graph.Forward g a b
                 = Graph.lookup (Graph.edge_data g) i j).
    { unfold Graph.edge. by rewrite Hi, Hj. }
    rewrite get_edge_value, He, Hv by done. done.
  - intros k Hk. unfold Graph.construct_adj_vec.
    rewrite index_of_nat. unfold Py.index.
    rewrite (proj2 (Z.leb_gt _ _)) by lia.
    rewrite (proj2 (Z.leb_le _ _)) by lia.
    replace (Z.to_nat (Z.of_nat (length (Graph.edge_data g)) + - Z.of_nat k))
      with (Graph.size g - k) by lia.
    done.
  - intros z Hz. unfold Graph.construct_adj_vec, Py.index. rewrite Hlen.
    destruct Hz as [Hz|Hz].
    + rewrite (proj2 (Z.leb_gt _ _)) by lia.
      by rewrite (proj2 (Z.leb_gt _ _)) by lia.
    + rewrite (proj2 (Z.leb_le _ _)) by lia.
      rewrite lookup_ge_None_2; [done|]. lia.
Qed.

Lemma consistent_wf `{Py.Float} (g : Graph.t) : Graph.wf g → Graph.consistent g.
Proof. intros []. by split. Qed.

Lemma getitem_row_spec_witness :
  Graph.getitem "1" Example.toy = Py.Ok [0; 0.4; 1; 0]%float ∧
  Graph.get_edge "1" "3" Example.toy = (Py.Ok 0.4%float, Example.toy) ∧
  Graph.getitem "9" Example.toy = Py.Raise Py.KeyError ∧
  Graph.construct_adj_vec (-1) Example.toy = Graph.construct_adj_vec 3 Example.toy.
Proof.
  destruct (getitem_row_spec Example.toy "1" (consistent_wf _ wf_toy))
    as (_ & Hrow & _ & _).
  destruct (getitem_row_spec Example.toy "9" (consistent_wf _ wf_toy))
    as (Habsent & _ & Hneg & _).
  destruct (Hrow 0 eq_refl) as (fvec & Hrun & _ & Hv).
  split; [vm_compute; reflexivity|]. split; [|split].
  - destruct (Hv "3" 1 eq_refl) as [Hedge _]. rewrite Hedge.
    assert (Hf : fvec = [0; 0.4; 1; 0]%float).
    { assert (Hc : Graph.getitem "1" Example.toy = Py.Ok [0; 0.4; 1; 0]%float)
        by (vm_compute; reflexivity).
      congruence. }
    rewrite Hf. reflexivity.
  - apply Habsent. reflexivity.
  - apply (Hneg 1). vm_compute. lia.
Defined.

(** [SparseGraph.__getitem__] with a list of IDs.  In a graph that
    satisfies the invariant, when every ID of the list is a node the result
    has one row per ID, in the order of the list, and each row is what
    [graph[ID]] returns for that ID alone; when some ID is not a node the
    call raises [KeyError]. *)
Theorem getitem_list_spec (g : Graph.t) (keys : list string) :
  Graph.consistent g →
  ((∀ k, k ∈ keys → is_Some (IDmap.data (Graph.idmap g) !! k)) →
     ∃ rows, Graph.getitem_list keys g = Py.Ok rows ∧
       Forall2 (fun k row => Graph.getitem k g = Py.Ok row) keys rows) ∧
  ((∃ k, k ∈ keys ∧ IDmap.data (Graph.idmap g) !! k = None) →
     Graph.getitem_list keys g = Py.Raise Py.KeyError).
Proof.
  intros Hg.
  pose proof (idmap_wf_size _ (Graph.consistent_idmap _ Hg)) as Hsize.
  unfold Graph.getitem_list. rewrite getitem_list_run. split.
  - intros Hall.
    destruct (mapM (fun k => IDmap.data (Graph.idmap g) !! k) keys) as [idx|] eqn:Hm;
      cycle 1.
    { apply mapM_None in Hm. apply Exists_exists in Hm as (k & Hk & Hn).
      destruct (Hall k Hk) as [i Hi]. congruence. }
    apply mapM_Some in Hm. clear Hall.
    induction Hm as [|k i keys idx Hk Hm IH]; simpl.
    + exists []. split; [done|constructor].
    + assert (Hlt : i < Graph.size g).
      { unfold Graph.size. rewrite Hsize. by eapply idmap_wf_lt; [apply Hg|]. }
      destruct (construct_adj_vec_row g i Hg Hlt) as (v & Hv & _).
      destruct IH as (rows & Hrows & Hall).
      rewrite Hv, Hrows. exists (v :: rows). split; [done|].
      constructor; [|done]. unfold Graph.getitem, IDmap.getitem. by rewrite Hk.
  - intros (k & Hk & Hn).
    destruct (mapM (fun k => IDmap.data (Graph.idmap g) !! k) keys) as [idx|] eqn:Hm;
      [|done].
    apply mapM_Some in Hm. apply list_elem_of_lookup in Hk as [n Hk].
    destruct (Forall2_lookup_l _ _ _ _ _ Hm Hk) as (i & _ & Hi). congruence.
Qed.

Lemma getitem_list_spec_witness :
  Graph.getitem_list ["4"; "1"] Example.toy
    = Py.Ok [[0; 0.1; 0; 0]; [0; 0.4; 1; 0]]%float ∧
  Graph.getitem_list ["4"; "9"; "1"] Example.toy = Py.Raise Py.KeyError.
Proof.
  destruct (getitem_list_spec Example.toy ["4"; "9"; "1"] (consistent_wf _ wf_toy))
    as [_ Hbad].
  split; [vm_compute; reflexivity|].
  apply Hbad. exists "9". split; [|reflexivity].
  apply (bool_decide_unpack _). vm_compute. exact I.
Defined.

Section adjmat_facts.
Implicit Types (g : Graph.t) (nbrs : Row.t) (mat : list (list float)).

(** The writes into one row of the matrix are the writes into that row
    as an array. *)
Lemma setitem2_row (src : nat) nbrs mat (r0 r : list float) :
  mat !! src = Some r0 →
  Py.for_each nbrs (fun '(k, w) => Np.setitem k w) r0 = (Py.Ok tt, r) →
  Py.for_each nbrs (fun '(k, w) => Np.setitem2 src k w) mat
  = (Py.Ok tt, <[src := r]> mat).
Proof.
  revert mat r0. induction nbrs as [|[k w] nbrs IH]; intros mat r0 Hr0; simpl.
  - intros [= <-]. by rewrite list_insert_id.
  - unfold Py.bind, Np.setitem at 1, Np.setitem2 at 1. rewrite Hr0.
    destruct (decide (k < length r0)) as [Hk|Hk]; [|done].
    intros Hrun. rewrite (IH _ (<[k := w]> r0)); [|by rewrite list_lookup_insert_eq by (by eapply lookup_lt_Some)|done].
    by rewrite list_insert_insert_eq.
Qed.

(** The inner loop of [to_adjmat] looks every key up in the row it
    iterates over. *)
Lemma adjmat_inner_loop (src : nat) nbrs mat :
  Row.wf nbrs →
  Py.for_each (Row.keys nbrs) (fun dst_node =>
    weight <- (fun mat => Py.or_raise (Row.get dst_node nbrs) Py.KeyError mat) ;;
    Np.setitem2 src dst_node weight) mat
  = Py.for_each nbrs (fun '(k, w) => Np.setitem2 src k w) mat.
Proof.
  intros Hwf. unfold Row.keys. rewrite for_each_fmap.
  apply for_each_ext. intros [k w] mat' Hin. simpl.
  by rewrite (row_elem_get nbrs k w).
Qed.

Lemma adjmat_outer_loop (n : nat) (d0 : float) (rest : list Row.t) (k : nat) mat :
  length mat = n → k + length rest ≤ n →
  (∀ i, k ≤ i < k + length rest → mat !! i = Some (replicate n d0)) →
  Forall Row.wf rest →
  (∀ row j, row ∈ rest → j ∈ Row.keys row → j < n) →
  ∃ mat', Py.for_each (zip (seq k (length rest)) rest) (fun '(src_node, src_nbrs) =>
            Py.for_each (Row.keys src_nbrs) (fun dst_node =>
              weight <- (fun mat => Py.or_raise (Row.get dst_node src_nbrs) Py.KeyError mat) ;;
              Np.setitem2 src_node dst_node weight)) mat
          = (Py.Ok tt, mat') ∧
    length mat' = n ∧
    (∀ i, i < k ∨ k + length rest ≤ i → mat' !! i = mat !! i) ∧
    (∀ i row, rest !! i = Some row →
       ∃ r, mat' !! (k + i) = Some r ∧ length r = n ∧
         ∀ j, j < n → r !! j = Some (default d0 (Row.get j row))).
Proof.
  revert k mat. induction rest as [|row rest IH]; intros k mat Hlen Hk Hinit Hwf Hb;
    simpl in *.
  - exists mat. split_and!; try done.
  - apply Forall_cons in Hwf as [Hrow Hwf].
    assert (Hr0 : mat !! k = Some (replicate n d0)) by (apply Hinit; lia).
    destruct (scatter_run row (replicate n d0)) as (r & Hrun & Hlr & Hr).
    { done. }
    { intros j Hj. rewrite length_replicate. apply (Hb row); [left|done]. }
    rewrite length_replicate in Hlr.
    unfold Py.bind at 1.
    rewrite adjmat_inner_loop by done.
    rewrite (setitem2_row k row mat _ r Hr0 Hrun).
    destruct (IH (S k) (<[k := r]> mat)) as (mat' & Hrun' & Hlen' & Hout & Hin).
    { by rewrite length_insert. }
    { lia. }
    { intros i Hi. rewrite list_lookup_insert_ne by lia. apply Hinit. lia. }
    { done. }
    { intros row' j Hrow' Hj. apply (Hb row'); [by right|done]. }
    exists mat'. split; [done|]. split; [done|]. split.
    + intros i Hi. rewrite Hout by lia. apply list_lookup_insert_ne. lia.
    + intros [|i] row'; simpl.
      * intros [= <-]. exists r. replace (k + 0) with k by lia.
        rewrite Hout by lia. rewrite list_lookup_insert_eq by lia.
        split; [done|]. split; [done|]. intros j Hj. rewrite Hr.
        destruct (Row.get j row); [done|]. simpl. by rewrite lookup_replicate_2.
      * intros Hrow'. replace (k + S i) with (S k + i) by lia. by apply Hin.
Qed.

Lemma to_adjmat_run g (default_val : float) :
  Graph.consistent g →
  ∃ mat, Graph.to_adjmat default_val g = Py.Ok mat ∧
    length mat = Graph.size g ∧
    ∀ i, i < Graph.size g →
      ∃ r, mat !! i = Some r ∧ length r = Graph.size g ∧
        ∀ j, j < Graph.size g →
          r !! j = Some (default (1 * default_val)%float
                           (Graph.lookup (Graph.edge_data g) i j)).
Proof.
  intros Hg.
  pose proof (idmap_wf_size _ (Graph.consistent_idmap _ Hg)) as Hsize.
  pose proof (Graph.consistent_rows _ Hg) as Hrows.
  assert (Hlen : length (Graph.edge_data g) = Graph.size g).
  { unfold Graph.size. by rewrite Hsize. }
  unfold Graph.to_adjmat, Graph.num_nodes, Py.enumerate.
  destruct (adjmat_outer_loop (Graph.size g) (1 * default_val)%float
              (Graph.edge_data g) 0
              (replicate (Graph.size g) (replicate (Graph.size g) (1 * default_val)%float)))
    as (mat & Hrun & Hlm & _ & Hin).
  { by rewrite length_replicate. }
  { lia. }
  { intros i Hi. apply lookup_replicate_2. lia. }
  { apply Hg. }
  { intros row j Hrow Hj. apply list_elem_of_lookup in Hrow as [i Hrow].
    rewrite <- Hlen. destruct (Row.get j row) as [w|] eqn:Hw.
    - apply (Graph.consistent_bound _ Hg i j w). unfold Graph.lookup.
      by rewrite Hrow.
    - by apply row_get_None in Hw. }
  rewrite Hrun. exists mat. split; [done|]. split; [done|].
  intros i Hi. destruct (lookup_lt_is_Some_2 (Graph.edge_data g) i) as [row Hrow];
    [lia|].
  destruct (Hin i row Hrow) as (r & Hr & Hlr & Hrj).
  exists r. split; [done|]. split; [done|]. intros j Hj.
  rewrite (Hrj j Hj). unfold Graph.lookup. by rewrite Hrow.
Qed.

End adjmat_facts.

(** [to_adjmat].  In a graph that satisfies the invariant the call
    succeeds and returns a square array with one row and one column per
    node; the entry at [i, j] is the stored weight of the edge from node
    [i] to node [j], and [1.0 * default_val] where none is stored.  For
    an undirected graph the array is symmetric. *)
Theorem to_adjmat_spec (g : Graph.t) (default_val : float) :
  Graph.consistent g →
  ∃ mat, Graph.to_adjmat default_val g = Py.Ok mat ∧
    length mat = Graph.size g ∧
    Forall (fun row => length row = Graph.size g) mat ∧
    (∀ i j, i < Graph.size g → j < Graph.size g →
       mat !! i ≫= (.!! j)
       = Some (default (1 * default_val)%float
                 (Graph.lookup (Graph.edge_data g) i j))) ∧
    (Graph.directed g = false →
     ∀ i j, i < Graph.size g → j < Graph.size g →
       mat !! i ≫= (.!! j) = mat !! j ≫= (.!! i)).
Proof.
  intros Hg. destruct (to_adjmat_run g default_val Hg) as (mat & Hrun & Hlen & Hmat).
  assert (Hentry : ∀ i j, i < Graph.size g → j < Graph.size g →
    mat !! i ≫= (.!! j)
    = Some (default (1 * default_val)%float (Graph.lookup (Graph.edge_data g) i j))).
  { intros i j Hi Hj. destruct (Hmat i Hi) as (r & -> & _ & Hr). simpl. by apply Hr. }
  exists mat. split_and!; try done.
  - apply Forall_lookup. intros i r Hr.
    assert (Hi : i < Graph.size g) by (rewrite <- Hlen; by eapply lookup_lt_Some).
    destruct (Hmat i Hi) as (r' & Hr' & Hlr & _). congruence.
  - intros Hd i j Hi Hj. rewrite !Hentry by done. f_equal.
    pose proof (Graph.consistent_mirror _ Hg Hd) as Hm.
    destruct (Graph.lookup (Graph.edge_data g) i j) as [v|] eqn:Hij.
    + by rewrite (Hm _ _ _ Hij).
    + destruct (Graph.lookup (Graph.edge_data g) j i) as [v|] eqn:Hji; [|done].
      apply Hm in Hji. congruence.
Qed.

Lemma to_adjmat_spec_witness :
  Graph.to_adjmat 0 Example.toy
  = Py.Ok [[0; 0.4; 1; 0]; [0.4; 0; 0; 0.1]; [1; 0; 0; 0]; [0; 0.1; 0; 0]]%float ∧
  ∃ mat, Graph.to_adjmat 0 Example.toy = Py.Ok mat ∧
    mat !! 1 ≫= (.!! 3) = mat !! 3 ≫= (.!! 1).
Proof.
  split; [vm_compute; reflexivity|].
  destruct (to_adjmat_spec Example.toy 0 (consistent_wf _ wf_toy))
    as (mat & Hrun & _ & _ & _ & Hsym).
  exists mat. split; [exact Hrun|].
  apply Hsym; [reflexivity|vm_compute; lia|vm_compute; lia].
Defined.

(** The rows of the dense matrix are the dense rows: in a graph that
    satisfies the invariant, row [i] of [to_adjmat()] (default 0) is the
    array [graph[a]] for the node [a] of index [i]. *)
Theorem to_adjmat_rows (g : Graph.t) (mat : list (list float)) :
  Graph.consistent g → Graph.to_adjmat 0 g = Py.Ok mat →
  ∀ a i, IDmap.data (Graph.idmap g) !! a = Some i →
    ∃ row, mat !! i = Some row ∧ Graph.getitem a g = Py.Ok row.
Proof.
  intros Hg Hrun a i Ha.
  pose proof (idmap_wf_size _ (Graph.consistent_idmap _ Hg)) as Hsize.
  assert (Hi : i < Graph.size g).
  { unfold Graph.size. rewrite Hsize. by eapply idmap_wf_lt; [apply Hg|]. }
  destruct (to_adjmat_run g 0 Hg) as (mat' & Hrun' & _ & Hmat).
  assert (mat' = mat) as -> by congruence.
  destruct (Hmat i Hi) as (r & Hr & Hlr & Hrj).
  destruct (construct_adj_vec_row g i Hg Hi) as (v & Hv & Hlv & Hvj).
  exists r. split; [done|].
  unfold Graph.getitem, IDmap.getitem. rewrite Ha. simpl. rewrite Hv. f_equal.
  apply (list_eq_same_length _ _ (Graph.size g)); [done|done|].
  intros j x y Hj Hx Hy. rewrite Hvj in Hx by done. rewrite Hrj in Hy by done.
  assert (H10 : (1 * 0)%float = 0%float) by (vm_compute; reflexivity).
  rewrite H10 in Hy. congruence.
Qed.

Lemma to_adjmat_rows_witness :
  ∃ mat row, Graph.to_adjmat 0 Example.toy = Py.Ok mat ∧
    mat !! 1 = Some row ∧ Graph.getitem "3" Example.toy = Py.Ok row.
Proof.
  eexists. 
  destruct (to_adjmat_rows Example.toy
              [[0; 0.4; 1; 0]; [0.4; 0; 0; 0.1]; [1; 0; 0; 0]; [0; 0.1; 0; 0]]%float
              (consistent_wf _ wf_toy)) with (a := "3") (i := 1)
    as (row & Hrow & Hget); [vm_compute; reflexivity|reflexivity|].
  exists row. split; [vm_compute; reflexivity|]. split; [exact Hrow|exact Hget].
Defined.

(** * [add_id] with a list *)

(** [add_id] with a list adds the IDs one by one and does not roll back:
    when the IDs of [pre] have been added and the next ID is already a
    node (in its stored form), the call raises the duplicate-ID error
    ([AssertionError]) and the graph is left with the nodes of [pre]
    added; the IDs after the duplicate are not looked at. *)
Theorem add_ids_no_rollback (F : Py.Float) (g g1 : Graph.t)
    (pre post : list string) (ID : string) :
  Graph.add_ids pre g = (Py.Ok tt, g1) →
  IDmap.contains (IDmap.canon ID) (Graph.idmap g1) = true →
  Graph.add_ids (pre ++ ID :: post) g = (Py.Raise Py.AssertionError, g1).
Proof.
  intros Hpre Hdup. unfold Graph.add_ids in *.
  rewrite for_each_app, (bind_ok _ _ _ _ _ Hpre). simpl.
  apply bind_raise. rewrite add_id_run. by rewrite addID_present.
Qed.

Lemma add_ids_no_rollback_witness :
  ∃ g1, Graph.add_ids (H := Decimal.float) ["c"; "d"] Example.ab = (Py.Ok tt, g1) ∧
    Graph.size g1 = 4 ∧
    Graph.add_ids (H := Decimal.float) ["c"; "d"; "a"; "e"] Example.ab
      = (Py.Raise Py.AssertionError, g1).
Proof.
  eexists. split; [vm_compute; reflexivity|]. split; [vm_compute; reflexivity|].
  apply (add_ids_no_rollback Decimal.float Example.ab _ ["c"; "d"] ["e"] "a").
  - vm_compute. reflexivity.
  - vm_compute. reflexivity.
Defined.

(** * The edge generator *)

Lemma yield_each_pure {S A B} (f : A → B) (xs : list A) (body : A → Py.M S B) (s : S) :
  (∀ x, x ∈ xs → body x s = (Py.Ok (f x), s)) →
  Graph.yield_each xs body s = (Py.Ok (f <$> xs), s).
Proof.
  induction xs as [|x xs IH]; intros Hbody; simpl; [done|].
  rewrite (bind_ok _ _ _ _ _ (Hbody x ltac:(left))).
  rewrite (bind_ok _ _ _ _ _ (IH (fun y Hy => Hbody y ltac:(by right)))).
  done.
Qed.

Lemma yield_each_fmap {S A B C} (f : A → B) (xs : list A) (body : B → Py.M S C) (s : S) :
  Graph.yield_each (f <$> xs) body s = Graph.yield_each xs (fun x => body (f x)) s.
Proof.
  revert s. induction xs as [|x xs IH]; intros s; simpl; [done|].
  unfold Py.bind. destruct (body (f x) s) as [[y|e] s']; [|done].
  by rewrite IH.
Qed.

Section edge_gen_directed.
Implicit Types (g : Graph.t).

(** The ID of a node index, for the statement of what is yielded. *)
Local Notation idof g := (fun i : nat => default "" (IDmap.lst (Graph.idmap g) !! i)).

Lemma idx2ID_run g (i : nat) :
  i < length (IDmap.lst (Graph.idmap g)) →
  Graph.on_idmap (IDmap.idx2ID i) g = (Py.Ok (idof g i), g).
Proof.
  intros Hi. apply lookup_lt_is_Some_2 in Hi as [ID HID].
  unfold Graph.on_idmap, IDmap.idx2ID. by rewrite HID.
Qed.

Lemma getrow_run g (s : Graph.store) (i : nat) (row : Row.t) :
  Graph.get_store s g !! i = Some row → Graph.getrow s i g = (Py.Ok row, g).
Proof. intros Hrow. unfold Graph.getrow. by rewrite Hrow. Qed.

Lemma edge_gen_directed_run g :
  Graph.consistent g → Graph.directed g = true →
  Graph.edge_gen g
  = (Py.Ok ((fun '(i, j, w) => (idof g i, idof g j, w))
              <$> Graph.entries (Graph.edge_data g)), g).
Proof.
  intros Hg Hd.
  pose proof (Graph.consistent_rows _ Hg) as Hrows.
  unfold Graph.edge_gen. rewrite bind_get. rewrite length_seq.
  set (body := fun src_idx : nat => _).
  assert (Houter : ∀ rest pre, Graph.edge_data g = pre ++ rest →
    Graph.yield_each (seq (length pre) (length rest)) body g
    = (Py.Ok ((fun k => (fun '(j, w) => (idof g k, idof g j, w))
                          <$> default ([] : Row.t) (Graph.edge_data g !! k))
                <$> seq (length pre) (length rest)), g)).
  { intros rest pre Hed. apply yield_each_pure. intros src Hsrc.
    apply elem_of_seq in Hsrc.
    assert (Hlt : src < length (Graph.edge_data g)).
    { rewrite Hed, length_app. lia. }
    destruct (lookup_lt_is_Some_2 _ _ Hlt) as [row Hrow].
    unfold body. rewrite lookup_seq_lt by done. simpl.
    rewrite bind_ret || (unfold Py.bind at 1, Py.or_raise, Py.ret; simpl).
    rewrite (bind_ok _ _ _ _ _ (getrow_run g Graph.Forward src row Hrow)).
    rewrite (bind_ok _ _ _ _ _ (idx2ID_run g src ltac:(lia))).
    rewrite Hrow. simpl. unfold Row.keys. rewrite yield_each_fmap.
    apply yield_each_pure. intros [j w] Hjw. simpl.
    assert (Hj : j < length (IDmap.lst (Graph.idmap g))).
    { rewrite <- Hrows. apply (Graph.consistent_bound _ Hg src j w).
      unfold Graph.lookup. rewrite Hrow. simpl. apply row_elem_get; [|done].
      by eapply Forall_lookup_1; [apply Hg|]. }
    rewrite (bind_ok _ _ _ _ _ (idx2ID_run g j Hj)).
    rewrite Hd. cbn [negb]. rewrite bind_ret.
    rewrite (bind_ok _ _ _ _ _ (getrow_run g Graph.Forward src row Hrow)).
    rewrite (row_elem_get row j w); [done| |done].
    by eapply Forall_lookup_1; [apply Hg|]. }
  rewrite (bind_ok _ _ _ _ _ (Houter (Graph.edge_data g) [] eq_refl)).
  unfold Py.ret. do 2 f_equal. simpl.
  rewrite entries_eq.
  assert (Hgen : ∀ rest pre, Graph.edge_data g = pre ++ rest →
    concat ((fun k => (fun '(j, w) => (idof g k, idof g j, w))
                        <$> default ([] : Row.t) (Graph.edge_data g !! k))
              <$> seq (length pre) (length rest))
    = (fun '(i, j, w) => (idof g i, idof g j, w))
        <$> Graph.entries_from (length pre) rest).
  { intros rest. induction rest as [|row rest IH]; intros pre Hed; simpl; [done|].
    rewrite fmap_app, <- list_fmap_compose. f_equal.
    - rewrite Hed, list_lookup_middle by done. simpl.
      apply list_fmap_ext. by intros _ [j w] _.
    - specialize (IH (pre ++ [row])). rewrite length_app in IH. simpl in IH.
      replace (length pre + 1) with (S (length pre)) in IH by lia.
      apply IH. by rewrite <- app_assoc. }
  exact (Hgen (Graph.edge_data g) [] eq_refl).
Qed.

End edge_gen_directed.

(** [edge_gen] on a directed graph.  In a directed graph that satisfies
    the invariant the generator runs to its end without an error, leaves
    the graph exactly as it was, and yields one triple per stored entry,
    row by row in storage order: the IDs of the two nodes and the stored
    weight.  So it yields [num_edges] edges, and [get_edge] of each
    yielded pair is the yielded weight. *)
Theorem edge_gen_directed (g : Graph.t) :
  Graph.consistent g → Graph.directed g = true →
  ∃ edges, Graph.edge_gen g = (Py.Ok edges, g) ∧
    Forall2 (fun '(a, b, w) '(i, j, w') =>
               IDmap.lst (Graph.idmap g) !! i = Some a ∧
               IDmap.lst (Graph.idmap g) !! j = Some b ∧ w = w')
            edges (Graph.entries (Graph.edge_data g)) ∧
    length edges = Graph.num_edges g ∧
    (∀ a b w, (a, b, w) ∈ edges → Graph.get_edge a b g = (Py.Ok w, g)).
Proof.
  intros Hg Hd. rewrite (edge_gen_directed_run g Hg Hd).
  pose proof (Graph.consistent_rows _ Hg) as Hrows.
  pose proof (Graph.consistent_idmap _ Hg) as Hwf.
  assert (Hentry : ∀ i j w, (i, j, w) ∈ Graph.entries (Graph.edge_data g) →
    Graph.lookup (Graph.edge_data g) i j = Some w ∧
    ∃ a b, IDmap.lst (Graph.idmap g) !! i = Some a ∧
           IDmap.lst (Graph.idmap g) !! j = Some b).
  { intros i j w Hin. apply entries_lookup in Hin; [|apply Hg].
    split; [done|].
    pose proof (lookup_lt _ _ _ _ Hin) as Hi.
    pose proof (Graph.consistent_bound _ Hg _ _ _ Hin) as Hj.
    rewrite Hrows in Hi, Hj.
    destruct (lookup_lt_is_Some_2 _ _ Hi) as [a Ha].
    destruct (lookup_lt_is_Some_2 _ _ Hj) as [b Hb]. eauto. }
  eexists. split; [done|]. split_and!.
  - apply Forall2_fmap_l, Forall_Forall2_diag, Forall_forall.
    intros [[i j] w] Hin. destruct (Hentry i j w Hin) as (_ & a & b & Ha & Hb).
    simpl. by rewrite Ha, Hb.
  - rewrite length_fmap. unfold Graph.entries, Graph.num_edges.
    clear. generalize (Graph.edge_data g). intros ed.
    assert (Hgen : ∀ (f : nat → Row.t → list (nat * nat * float)),
      (∀ i row, length (f i row) = length row) →
      length (concat (imap f ed)) = sum_list (length <$> ed)).
    { induction ed as [|row ed IH]; intros f Hf; simpl; [done|].
      rewrite length_app, Hf. f_equal. apply IH. intros i r. apply Hf. }
    apply Hgen. intros i row. by rewrite length_fmap.
  - intros a b w Hin. apply list_elem_of_fmap in Hin as ([[i j] w'] & [= -> -> ->] & Hin).
    destruct (Hentry i j w' Hin) as (Hl & a & b & Ha & Hb).
    rewrite Ha, Hb. simpl. rewrite get_edge_value by done. do 2 f_equal.
    unfold Graph.edge. apply Hwf in Ha, Hb. rewrite Ha, Hb. simpl. by rewrite Hl.
Qed.

Lemma edge_gen_directed_witness :
  let g := Graph.run (H := Decimal.float)
             [Graph.Add_edge "a" "b" 2 None; Graph.Add_edge "b" "c" 1 None]
             (Graph.new true true false) in
  Graph.edge_gen g = (Py.Ok [("a", "b", 2%float); ("b", "c", 1%float)], g) ∧
  ∃ edges, Graph.edge_gen g = (Py.Ok edges, g) ∧ length edges = Graph.num_edges g.
Proof.
  intros g. split; [vm_compute; reflexivity|].
  destruct (edge_gen_directed g) as (edges & Hrun & _ & Hlen & _).
  - apply (kept_run (H := Decimal.float) _ _ _ (kept_refl _ (consistent_new true true false))).
  - reflexivity.
  - exists edges. split; [exact Hrun|exact Hlen].
Defined.

(** ** Rows under a filter *)

Section row_filter.
Implicit Types (r : list (nat * float)) (k : nat).

Lemma row_get_filter (Q : nat * float → Prop) `{∀ x, Decision (Q x)} r k :
  (∀ v v', Q (k, v) ↔ Q (k, v')) →
  Row.get k (filter Q r)
  = match Row.get k r with
    | Some v => if decide (Q (k, v)) then Some v else None
    | None => None
    end.
Proof.
  intros Hq. induction r as [|[k' v'] r IH]; [done|].
  rewrite filter_cons. cbn [Row.get].
  destruct (decide (Q (k', v'))) as [Hy|Hn]; cbn [Row.get].
  - destruct (decide (k' = k)) as [->|Hne]; [|done]. by rewrite decide_True.
  - rewrite IH. destruct (decide (k' = k)) as [->|Hne]; [|done].
    rewrite decide_False by done.
    destruct (Row.get k r) as [v|]; [|done].
    rewrite decide_False; [done|]. by rewrite (Hq v v').
Qed.

Lemma row_filter_wf (Q : nat * float → Prop) `{∀ x, Decision (Q x)} r :
  Row.wf r → Row.wf (filter Q r).
Proof.
  unfold Row.wf, Row.keys. intros Hnd.
  eapply sublist_NoDup; [exact Hnd|]. apply fmap_sublist, sublist_filter.
Qed.

Lemma row_filter_all (Q : nat * float → Prop) `{∀ x, Decision (Q x)} r :
  (∀ kv, kv ∈ r → Q kv) → filter Q r = r.
Proof.
  induction r as [|kv r IH]; intros Hall; [done|].
  rewrite filter_cons, decide_True by (apply Hall; left).
  f_equal. apply IH. intros kv' Hin. apply Hall. by right.
Qed.

Lemma row_pop_filter r k :
  Row.wf r → k ∈ Row.keys r →
  Row.pop k r = Some (filter (fun kv => kv.1 ≠ k) r).
Proof.
  unfold Row.wf, Row.keys. induction r as [|[k' v'] r IH].
  - intros _ Hk. by apply elem_of_nil in Hk.
  - intros Hnd Hk. rewrite fmap_cons in Hnd, Hk.
    apply NoDup_cons in Hnd as [Hk' Hnd].
    rewrite filter_cons. cbn [Row.pop fst]. destruct (decide (k' = k)) as [->|Hne].
    + rewrite decide_False by (intros Hc; by apply Hc). f_equal.
      symmetry. apply row_filter_all. intros [k0 v0] Hin Heq. simpl in Heq. subst k0.
      apply Hk'. apply list_elem_of_fmap. by exists (k, v0).
    + rewrite decide_True by done.
      apply elem_of_cons in Hk as [->|Hk]; [done|].
      by rewrite IH.
Qed.

End row_filter.

(** ** [edge_gen] on an undirected graph *)

Lemma filter_fmap_comm {A B} (f : A → B) (P : B → Prop) `{∀ x, Decision (P x)}
    (l : list A) :
  filter P (f <$> l) = f <$> filter (fun x => P (f x)) l.
Proof.
  induction l as [|x l IH]; [done|].
  rewrite fmap_cons, !filter_cons. simpl.
  destruct (decide (P (f x))); by rewrite IH.
Qed.

Lemma yield_each_stops {S A B} (xs zs : list A) (y : A) (body : A → Py.M S B)
    (s s1 s2 : S) (ys : list B) (e : Py.exn) :
  Graph.yield_each xs body s = (Py.Ok ys, s1) →
  body y s1 = (Py.Raise e, s2) →
  Graph.yield_each (xs ++ y :: zs) body s = (Py.Raise e, s2).
Proof.
  revert s ys. induction xs as [|x xs IH]; intros s ys Hxs Hy; simpl in *.
  - injection Hxs as _ ->. by rewrite (bind_raise _ _ _ _ _ Hy).
  - apply bind_ok_inv in Hxs as (b & s' & Hx & Hrest).
    apply bind_ok_inv in Hrest as (bs & s'' & Hrest & Hret).
    assert (s'' = s1) as -> by (unfold Py.ret in Hret; congruence).
    rewrite (bind_ok _ _ _ _ _ Hx). apply bind_raise. by eapply IH.
Qed.

Lemma least_index (Q : nat → Prop) `{∀ i, Decision (Q i)} (i : nat) :
  Q i → ∃ i0, Q i0 ∧ ∀ k, k < i0 → ¬ Q k.
Proof.
  induction i as [i IH] using lt_wf_ind. intros Hi.
  destruct (decide (Exists Q (seq 0 i))) as [Hsome|Hnone].
  - apply Exists_exists in Hsome as (k & Hk & HQ). apply elem_of_seq in Hk.
    apply (IH k); [lia|done].
  - exists i. split; [done|]. intros k Hk HQ. apply Hnone.
    apply Exists_exists. exists k. split; [|done]. apply elem_of_seq. lia.
Qed.

Section edge_gen_undirected.
Implicit Types (h : Graph.t) (P : list nat).

Local Notation idof g := (fun i : nat => default "" (IDmap.lst (Graph.idmap g) !! i)).

(** Row [i] keeps the entry for [j] in the state reached when the rows
    below [s] have been gone through, and in row [s] the neighbours [P]. *)
Local Notation keep s P i :=
  (fun kv : nat * float => (s ≤ kv.1 ∨ i < kv.1) ∧ ¬ (kv.1 = s ∧ i ∈ P)).

Local Notation reached g s P h :=
  (Graph.with_edge_data (Graph.edge_data h) g = h ∧
   length (Graph.edge_data h) = length (Graph.edge_data g) ∧
   ∀ i (row0 : list (nat * float)), Graph.edge_data g !! i = Some row0 →
     Graph.edge_data h !! i = Some (filter (keep s P i) row0)).

(* The body of the inner loop for the source row [s]. *)
Local Notation inner g s :=
  (fun dst_idx : nat =>
     dst_node_id <- Graph.on_idmap (IDmap.idx2ID dst_idx) ;;
     (if negb (Graph.directed g) then
        dst_ref <- (fun g0 : Graph.t =>
          Py.or_raise (seq 0 (length (Graph.edge_data g)) !! dst_idx) Py.IndexError g0) ;;
        dst_nbrs <- Graph.getrow Graph.Forward dst_ref ;;
        popped <- (fun g0 : Graph.t => Py.or_raise (Row.pop s dst_nbrs) Py.KeyError g0) ;;
        Py.modify (fun g0 =>
          Graph.with_edge_data (<[dst_ref := popped]> (Graph.edge_data g0)) g0)
      else Py.ret tt) ;;;
     row <- Graph.getrow Graph.Forward s ;;
     weight <- (fun g0 : Graph.t => Py.or_raise (Row.get dst_idx row) Py.KeyError g0) ;;
     Py.ret (idof g s, dst_node_id, weight)).

(* What the invariant says of a stored entry. *)
Lemma gen_entry g i (row0 : list (nat * float)) j w :
  Graph.consistent g → Graph.directed g = false →
  Graph.edge_data g !! i = Some row0 → (j, w) ∈ row0 →
  Row.wf row0 ∧ Row.get j row0 = Some w ∧ j < length (Graph.edge_data g) ∧
  Graph.lookup (Graph.edge_data g) i j = Some w ∧
  ∃ rowj : list (nat * float), Graph.edge_data g !! j = Some rowj ∧ (i, w) ∈ rowj.
Proof.
  intros Hg Hd Hrow Hin.
  assert (Hwf : Row.wf row0) by (by eapply Forall_lookup_1; [apply Hg|]).
  assert (Hget : Row.get j row0 = Some w) by (by apply row_elem_get).
  assert (Hl : Graph.lookup (Graph.edge_data g) i j = Some w).
  { unfold Graph.lookup. replace (Graph.edge_data g !! i) with (Some row0)
      by (symmetry; exact Hrow). done. }
  split; [done|]. split; [done|].
  split; [by eapply Graph.consistent_bound|]. split; [done|].
  apply (Graph.consistent_mirror _ Hg Hd) in Hl. unfold Graph.lookup in Hl.
  destruct (Graph.edge_data g !! j) as [rowj|] eqn:Hrowj; [|done].
  exists rowj. split; [done|]. by apply row_get_elem.
Qed.

(* The inner loop over neighbours other than [s] itself. *)
Lemma gen_inner g s (row_s : list (nat * float)) (todo pre post : list (nat * float)) h1 :
  Graph.consistent g → Graph.directed g = false →
  Graph.edge_data g !! s = Some row_s →
  filter (keep s ([] : list nat) s) row_s = pre ++ todo ++ post →
  (∀ dst w, (dst, w) ∈ todo → dst ≠ s) →
  reached g s (pre.*1) h1 →
  ∃ h2, Graph.yield_each (todo.*1) (inner g s) h1
        = (Py.Ok ((fun '(j, w) => (idof g s, idof g j, w)) <$> todo), h2) ∧
    reached g s ((pre ++ todo).*1) h2.
Proof.
  intros Hg Hd Hrow_s.
  pose proof (Graph.consistent_rows _ Hg) as Hrows.
  set (n := length (Graph.edge_data g)) in *.
  set (X := filter (keep s ([] : list nat) s) row_s).
  revert pre h1. induction todo as [|[dst w] todo IHt]; intros pre h1 HXeq Hnes Hh1.
  { simpl. exists h1. split; [done|]. rewrite app_nil_r. exact Hh1. }
  destruct Hh1 as (Hh1g & Hlen1 & Hrows1).
  assert (HinX : (dst, w) ∈ X).
  { rewrite HXeq. apply elem_of_app. right. left. }
  apply list_elem_of_filter in HinX as [[Hkeep _] Hin_s]. simpl in Hkeep.
  destruct (gen_entry g s row_s dst w Hg Hd Hrow_s Hin_s)
    as (Hwf_s & Hget_s & Hdst & _ & row_d & Hrow_d & Hin_d).
  assert (Hne : dst ≠ s) by (apply (Hnes dst w); left).
  assert (Hsd : s < dst) by lia.
  assert (HndX : NoDup (X.*1)).
  { apply (row_filter_wf _ row_s Hwf_s). }
  assert (Hfresh : dst ∉ pre.*1).
  { rewrite HXeq, fmap_app in HndX. apply NoDup_app in HndX as (_ & Hdis & _).
    intros Hin. apply (Hdis dst Hin). simpl. left. }
  destruct (gen_entry g dst row_d s w Hg Hd Hrow_d Hin_d) as (Hwf_d & Hget_d & _).
  pose proof (Hrows1 dst row_d Hrow_d) as HD.
  pose proof (Hrows1 s row_s Hrow_s) as HS.
  assert (Hididx : Graph.idmap h1 = Graph.idmap g) by (by rewrite <- Hh1g).
  set (h1' := Graph.with_edge_data
    (<[dst := filter (fun kv : nat * float => kv.1 ≠ s)
                (filter (keep s (pre.*1) dst) row_d)]> (Graph.edge_data h1)) h1).
  simpl.
  match goal with
  | |- ∃ _, Py.bind ?c _ _ = _ ∧ _ =>
      assert (Hstep : c h1 = (Py.Ok (idof g s, idof g dst, w), h1'))
  end.
  { rewrite (bind_ok _ _ _ h1 (idof g dst)); cycle 1.
    { rewrite <- Hididx. apply idx2ID_run. rewrite Hididx, <- Hrows. exact Hdst. }
    rewrite Hd. cbn [negb].
    rewrite bind_assoc.
    rewrite (bind_ok _ _ _ h1 dst); cycle 1.
    { by rewrite lookup_seq_lt. }
    rewrite bind_assoc.
    rewrite (bind_ok _ _ _ _ _ (getrow_run h1 Graph.Forward dst _ HD)).
    rewrite bind_assoc.
    rewrite (bind_ok _ _ _ h1
      (filter (fun kv : nat * float => kv.1 ≠ s) (filter (keep s (pre.*1) dst) row_d)));
      cycle 1.
    { rewrite row_pop_filter; [done|by apply row_filter_wf|].
      apply list_elem_of_fmap. exists (s, w). split; [done|].
      apply list_elem_of_filter. split; [|done]. simpl. split; [lia|].
      intros [_ Hc]. done. }
    rewrite (bind_ok _ _ _ h1' tt) by done.
    rewrite (bind_ok _ _ _ h1' (filter (keep s (pre.*1) s) row_s)); cycle 1.
    { apply getrow_run. simpl. rewrite list_lookup_insert_ne by lia. exact HS. }
    rewrite (bind_ok _ _ _ h1' w); [done|].
    rewrite (row_get_filter _ row_s dst) by (intros; simpl; tauto).
    rewrite Hget_s. simpl. rewrite decide_True; [done|].
    simpl. split; [lia|]. intros [Hc _]. lia. }
  destruct (IHt (pre ++ [(dst, w)]) h1') as (h2 & Hrun2 & Hh2).
  { by rewrite <- app_assoc. }
  { intros dst' w' Hin'. apply (Hnes dst' w'). by right. }
  { unfold h1'. split; [by rewrite <- Hh1g|]. split; [simpl; by rewrite length_insert|].
    intros i row0 Hrow0. simpl.
    destruct (decide (i = dst)) as [->|Hi].
    - assert (row0 = row_d) as -> by congruence.
      rewrite list_lookup_insert_eq
        by (change (dst < length (Graph.edge_data h1)); rewrite Hlen1; exact Hdst).
      f_equal.
      rewrite list_filter_filter. apply filter_ext_in. intros [j v] _. simpl.
      rewrite fmap_app, elem_of_app. simpl. rewrite list_elem_of_singleton.
      split.
      + intros (Hj & Hk & Hnp). split; [done|]. intros [-> _]. done.
      + intros (Hk & Hnp). split_and!; [|done|].
        * intros ->. apply Hnp. auto.
        * intros [-> Hp]. apply Hnp. auto.
    - rewrite list_lookup_insert_ne by done.
      etrans; [exact (Hrows1 i row0 Hrow0)|]. f_equal. apply filter_ext_in. intros [j v] _. simpl.
      rewrite fmap_app, elem_of_app. simpl. rewrite list_elem_of_singleton.
      split.
      + intros (Hk & Hnp). split; [done|]. intros [-> [Hp|Hp]]; [|done].
        apply Hnp. auto.
      + intros (Hk & Hnp). split; [done|]. intros [-> Hp]. apply Hnp. auto. }
  exists h2. split.
  - rewrite (bind_ok _ _ _ _ _ Hstep), (bind_ok _ _ _ _ _ Hrun2). done.
  - replace (pre ++ (dst, w) :: todo) with ((pre ++ [(dst, w)]) ++ todo)
      by (by rewrite <- app_assoc).
    exact Hh2.
Qed.

(* The inner loop at the neighbour [s] of row [s]: the entry is popped from
   the row, and then it is looked up. *)
Lemma gen_inner_fail g s (row_s : list (nat * float)) (pre post : list (nat * float))
    w h1 :
  Graph.consistent g → Graph.directed g = false →
  Graph.edge_data g !! s = Some row_s →
  filter (keep s ([] : list nat) s) row_s = pre ++ (s, w) :: post →
  reached g s (pre.*1) h1 →
  ∃ h2, inner g s s h1 = (Py.Raise Py.KeyError, h2) ∧
    Graph.lookup (Graph.edge_data h2) s s = None.
Proof.
  intros Hg Hd Hrow_s HXeq (Hh1g & Hlen1 & Hrows1).
  pose proof (Graph.consistent_rows _ Hg) as Hrows.
  assert (Hs : s < length (Graph.edge_data g)) by (by eapply lookup_lt_Some).
  assert (HinX : (s, w) ∈ filter (keep s ([] : list nat) s) row_s).
  { rewrite HXeq. apply elem_of_app. right. left. }
  apply list_elem_of_filter in HinX as [_ Hin_s].
  destruct (gen_entry g s row_s s w Hg Hd Hrow_s Hin_s) as (Hwf_s & Hget_s & _).
  assert (HndX : NoDup ((filter (keep s ([] : list nat) s) row_s).*1)).
  { apply (row_filter_wf _ row_s Hwf_s). }
  assert (Hfresh : s ∉ pre.*1).
  { rewrite HXeq, fmap_app in HndX. apply NoDup_app in HndX as (_ & Hdis & _).
    intros Hin. apply (Hdis s Hin). simpl. left. }
  pose proof (Hrows1 s row_s Hrow_s) as HS.
  assert (Hididx : Graph.idmap h1 = Graph.idmap g) by (by rewrite <- Hh1g).
  set (popped := filter (fun kv : nat * float => kv.1 ≠ s)
                   (filter (keep s (pre.*1) s) row_s)).
  set (h1' := Graph.with_edge_data (<[s := popped]> (Graph.edge_data h1)) h1).
  assert (Hpopped : Row.get s popped = None).
  { apply row_get_None. unfold popped, Row.keys. intros Hin.
    apply list_elem_of_fmap in Hin as ([k v] & Hk & Hin). simpl in Hk. subst k.
    apply list_elem_of_filter in Hin as [Hne _]. by apply Hne. }
  assert (Hrow' : Graph.edge_data h1' !! s = Some popped).
  { simpl. apply list_lookup_insert_eq.
    change (s < length (Graph.edge_data h1)). by rewrite Hlen1. }
  exists h1'. split.
  2: { unfold Graph.lookup, h1'. simpl.
       rewrite list_lookup_insert_eq
         by (change (s < length (Graph.edge_data h1)); by rewrite Hlen1).
       exact Hpopped. }
  rewrite (bind_ok _ _ _ h1 (idof g s)); cycle 1.
  { rewrite <- Hididx. apply idx2ID_run. rewrite Hididx, <- Hrows. exact Hs. }
  rewrite Hd. cbn [negb].
  rewrite bind_assoc.
  rewrite (bind_ok _ _ _ h1 s); cycle 1.
  { by rewrite lookup_seq_lt. }
  rewrite bind_assoc.
  rewrite (bind_ok _ _ _ _ _ (getrow_run h1 Graph.Forward s _ HS)).
  rewrite bind_assoc.
  rewrite (bind_ok _ _ _ h1 popped); cycle 1.
  { unfold popped. rewrite row_pop_filter; [done|by apply row_filter_wf|].
    apply list_elem_of_fmap. exists (s, w). split; [done|].
    apply list_elem_of_filter. split; [|done]. simpl. split; [lia|].
    intros [_ Hc]. done. }
  rewrite (bind_ok _ _ _ h1' tt) by done.
  rewrite (bind_ok _ _ _ h1' popped); cycle 1.
  { by apply getrow_run. }
  apply bind_raise. by rewrite Hpopped.
Qed.

(* The rows from [s] on, as long as none stores a self loop. *)
Lemma gen_outer g (m s : nat) h :
  Graph.consistent g → Graph.directed g = false →
  s + m ≤ length (Graph.edge_data g) →
  (∀ i, s ≤ i < s + m → Graph.lookup (Graph.edge_data g) i i = None) →
  reached g s ([] : list nat) h →
  ∃ h', Graph.yield_each (seq s m) (fun src_idx =>
      src_ref <- (fun g0 : Graph.t =>
        Py.or_raise (seq 0 (length (Graph.edge_data g)) !! src_idx) Py.IndexError g0) ;;
      src_nbrs <- Graph.getrow Graph.Forward src_ref ;;
      src_node_id <- Graph.on_idmap (IDmap.idx2ID src_idx) ;;
      Graph.yield_each (Row.keys src_nbrs) (fun dst_idx =>
        dst_node_id <- Graph.on_idmap (IDmap.idx2ID dst_idx) ;;
        (if negb (Graph.directed g) then
           dst_ref <- (fun g0 : Graph.t =>
             Py.or_raise (seq 0 (length (Graph.edge_data g)) !! dst_idx)
               Py.IndexError g0) ;;
           dst_nbrs <- Graph.getrow Graph.Forward dst_ref ;;
           popped <- (fun g0 : Graph.t =>
             Py.or_raise (Row.pop src_idx dst_nbrs) Py.KeyError g0) ;;
           Py.modify (fun g0 =>
             Graph.with_edge_data (<[dst_ref := popped]> (Graph.edge_data g0)) g0)
         else Py.ret tt) ;;;
        row <- Graph.getrow Graph.Forward src_ref ;;
        weight <- (fun g0 : Graph.t => Py.or_raise (Row.get dst_idx row) Py.KeyError g0) ;;
        Py.ret (src_node_id, dst_node_id, weight))) h
    = (Py.Ok ((fun k => (fun '(j, w) => (idof g k, idof g j, w))
                 <$> filter (fun kv => k < kv.1)
                       (default ([] : list (nat * float)) (Graph.edge_data g !! k)))
              <$> seq s m), h') ∧
    reached g (s + m) ([] : list nat) h'.
Proof.
  intros Hg Hd. pose proof (Graph.consistent_rows _ Hg) as Hrows.
  set (n := length (Graph.edge_data g)) in *.
  revert s h. induction m as [|m IH]; intros s h Hsm Hnl Hh.
  { simpl. exists h. split; [done|]. by replace (s + 0) with s by lia. }
  simpl.
  assert (Hs : s < n) by lia.
  destruct (lookup_lt_is_Some_2 (Graph.edge_data g) s Hs) as [row_s Hrow_s].
  assert (Hloop : ∀ j v, (j, v) ∈ row_s → j ≠ s).
  { intros j v Hin ->.
    destruct (gen_entry g s row_s s v Hg Hd Hrow_s Hin) as (_ & _ & _ & Hl & _).
    rewrite Hnl in Hl by lia. done. }
  destruct Hh as (Hhg & Hlen & Hrowsh).
  pose proof (Hrowsh s row_s Hrow_s) as HX.
  set (X := filter (keep s ([] : list nat) s) row_s) in *.
  destruct (gen_inner g s row_s X [] [] h Hg Hd Hrow_s) as (h1 & Hrun1 & Hh1).
  { by rewrite app_nil_r. }
  { intros dst w Hin. apply list_elem_of_filter in Hin as [_ Hin]. by eapply Hloop. }
  { split; [done|]. split; [done|exact Hrowsh]. }
  (* the state after row [s] *)
  assert (Hnext : reached g (S s) ([] : list nat) h1).
  { destruct Hh1 as (Hh1g & Hlen1 & Hrows1). split; [done|]. split; [done|].
    intros i row0 Hrow0. etrans; [exact (Hrows1 i row0 Hrow0)|]. f_equal.
    apply filter_ext_in. intros [j v] Hjv. simpl.
    destruct (gen_entry g i row0 j v Hg Hd Hrow0 Hjv)
      as (_ & _ & Hj & _ & rowj & Hrowj & Hin_j).
    rewrite elem_of_nil.
    destruct (decide (j = s)) as [->|Hjs].
    - assert (rowj = row_s) as ->
        by (apply (inj Some); etrans; [symmetry; exact Hrowj|exact Hrow_s]).
      assert (Hji : i ≠ s) by (by eapply Hloop).
      assert (HiX : i ∈ X.*1 ↔ s < i).
      { split.
        - intros Hi. apply list_elem_of_fmap in Hi as ([i' v'] & -> & Hi).
          apply list_elem_of_filter in Hi as [[Hk _] Hi]. simpl in *.
          pose proof (Hloop i' v' Hi). lia.
        - intros Hi. apply list_elem_of_fmap. exists (i, v). split; [done|].
          apply list_elem_of_filter. split; [|done]. simpl. split; [lia|].
          intros [_ Hc]. by apply elem_of_nil in Hc. }
      rewrite HiX. split.
      + intros (_ & Hn). split; [|tauto]. right.
        destruct (decide (i < s)); [done|]. exfalso. apply Hn. split; [done|]. lia.
      + intros ([Hc|Hc] & _); [lia|]. split; [by left|]. intros [_ Hc']. lia.
    - split.
      + intros ([Hc|Hc] & _); (split; [|tauto]); [left; lia|by right].
      + intros ([Hc|Hc] & _); (split; [|tauto]); [left; lia|by right]. }
  destruct (IH (S s) h1) as (h' & Hrun' & Hh'); [lia| |exact Hnext|].
  { intros i Hi. apply Hnl. lia. }
  match goal with
  | |- ∃ _, Py.bind ?c _ _ = _ ∧ _ =>
      assert (Hstep : c h
        = (Py.Ok ((fun '(j, w) => (idof g s, idof g j, w))
                    <$> filter (fun kv : nat * float => s < kv.1) row_s), h1))
  end.
  { rewrite (bind_ok _ _ _ h s); [|by rewrite lookup_seq_lt].
    rewrite (bind_ok _ _ _ _ _ (getrow_run h Graph.Forward s _ HX)).
    rewrite (bind_ok _ _ _ h (idof g s)); cycle 1.
    { assert (Hididx : Graph.idmap h = Graph.idmap g) by (by rewrite <- Hhg).
      rewrite <- Hididx. apply idx2ID_run. rewrite Hididx, <- Hrows. exact Hs. }
    etrans; [exact Hrun1|]. do 3 f_equal. unfold X.
    apply filter_ext_in. intros [j v] Hjv. simpl.
    pose proof (Hloop j v Hjv).
    rewrite elem_of_nil. split; [intros [[?|?] _]; lia|].
    intros Hlt. split; [lia|tauto]. }
  exists h'. split.
  - rewrite (bind_ok _ _ _ _ _ Hstep), (bind_ok _ _ _ _ _ Hrun'). unfold Py.ret.
    do 3 f_equal.
    replace (Graph.edge_data g !! s) with (Some row_s) by (symmetry; exact Hrow_s).
    done.
  - by replace (s + S m) with (S s + m) by lia.
Qed.

(* The row [s] when it stores a self loop. *)
Lemma gen_outer_fail g s w h :
  Graph.consistent g → Graph.directed g = false →
  Graph.lookup (Graph.edge_data g) s s = Some w →
  reached g s ([] : list nat) h →
  ∃ h', (src_ref <- (fun g0 : Graph.t =>
           Py.or_raise (seq 0 (length (Graph.edge_data g)) !! s) Py.IndexError g0) ;;
         src_nbrs <- Graph.getrow Graph.Forward src_ref ;;
         src_node_id <- Graph.on_idmap (IDmap.idx2ID s) ;;
         Graph.yield_each (Row.keys src_nbrs) (fun dst_idx =>
           dst_node_id <- Graph.on_idmap (IDmap.idx2ID dst_idx) ;;
           (if negb (Graph.directed g) then
              dst_ref <- (fun g0 : Graph.t =>
                Py.or_raise (seq 0 (length (Graph.edge_data g)) !! dst_idx)
                  Py.IndexError g0) ;;
              dst_nbrs <- Graph.getrow Graph.Forward dst_ref ;;
              popped <- (fun g0 : Graph.t =>
                Py.or_raise (Row.pop s dst_nbrs) Py.KeyError g0) ;;
              Py.modify (fun g0 =>
                Graph.with_edge_data (<[dst_ref := popped]> (Graph.edge_data g0)) g0)
            else Py.ret tt) ;;;
           row <- Graph.getrow Graph.Forward src_ref ;;
           weight <- (fun g0 : Graph.t =>
             Py.or_raise (Row.get dst_idx row) Py.KeyError g0) ;;
           Py.ret (src_node_id, dst_node_id, weight))) h
        = (Py.Raise Py.KeyError, h') ∧
    Graph.lookup (Graph.edge_data h') s s = None.
Proof.
  intros Hg Hd Hloop Hh. pose proof (Graph.consistent_rows _ Hg) as Hrows.
  assert (Hs : s < length (Graph.edge_data g)) by (by eapply lookup_lt).
  unfold Graph.lookup in Hloop.
  destruct (Graph.edge_data g !! s) as [row_s|] eqn:Hrow_s; [|done]. simpl in Hloop.
  assert (Hwf_s : Row.wf row_s) by (by eapply Forall_lookup_1; [apply Hg|]).
  pose proof Hh as (Hhg & Hlen & Hrowsh).
  pose proof (Hrowsh s row_s Hrow_s) as HX.
  set (X := filter (keep s ([] : list nat) s) row_s) in *.
  assert (HinX : (s, w) ∈ X).
  { apply list_elem_of_filter. split; [|by apply row_get_elem]. simpl.
    split; [lia|]. intros [_ Hc]. by apply elem_of_nil in Hc. }
  apply list_elem_of_split in HinX as (pre & post & HXeq).
  assert (HndX : NoDup (X.*1)) by apply (row_filter_wf _ row_s Hwf_s).
  destruct (gen_inner g s row_s pre [] ((s, w) :: post) h Hg Hd Hrow_s)
    as (h1 & Hrun1 & Hh1).
  { by rewrite app_nil_l. }
  { intros dst v Hin ->. rewrite HXeq, fmap_app in HndX.
    apply NoDup_app in HndX as (_ & Hdis & _).
    apply (Hdis s); [|left]. apply list_elem_of_fmap. by exists (s, v). }
  { done. }
  destruct (gen_inner_fail g s row_s pre post w h1 Hg Hd Hrow_s HXeq Hh1)
    as (h2 & Hfail & Hgone).
  exists h2. split; [|done].
  rewrite (bind_ok _ _ _ h s); [|by rewrite lookup_seq_lt].
  rewrite (bind_ok _ _ _ _ _ (getrow_run h Graph.Forward s _ HX)).
  rewrite (bind_ok _ _ _ h (idof g s)); cycle 1.
  { assert (Hididx : Graph.idmap h = Graph.idmap g) by (by rewrite <- Hhg).
    rewrite <- Hididx. apply idx2ID_run. rewrite Hididx, <- Hrows. exact Hs. }
  unfold Row.keys.
  match goal with
  | |- Graph.yield_each ?l _ _ = _ =>
      replace l with (pre.*1 ++ s :: post.*1)
        by (change (pre.*1 ++ s :: post.*1 = X.*1); by rewrite HXeq, fmap_app)
  end.
  eapply yield_each_stops; [exact Hrun1|exact Hfail].
Qed.

Lemma edge_gen_undirected_run (g : Graph.t) :
  Graph.consistent g → Graph.directed g = false →
  (∀ i, Graph.lookup (Graph.edge_data g) i i = None) →
  Graph.edge_gen g
  = (Py.Ok (concat ((fun k => (fun '(j, w) => (idof g k, idof g j, w))
                       <$> filter (fun kv => k < kv.1)
                             (default ([] : list (nat * float)) (Graph.edge_data g !! k)))
              <$> seq 0 (length (Graph.edge_data g)))),
     Graph.with_edge_data (Graph.upper (Graph.edge_data g)) g).
Proof.
  intros Hg Hd Hnl.
  pose proof (Graph.consistent_rows _ Hg) as Hrows.
  set (n := length (Graph.edge_data g)) in *.
  unfold Graph.edge_gen. rewrite bind_get, length_seq. fold n.
  destruct (gen_outer g n 0 g Hg Hd) as (h' & Hrun & Hfinal); [done| | |].
  { intros i _. apply Hnl. }
  { split; [done|]. split; [done|]. intros i row0 Hrow0.
    replace (Graph.edge_data g !! i) with (Some row0) by (symmetry; exact Hrow0).
    f_equal. symmetry. apply row_filter_all. intros [j v] _. simpl.
    split; [lia|]. intros [_ Hc]. by apply elem_of_nil in Hc. }
  rewrite (bind_ok _ _ _ _ _ Hrun). unfold Py.ret. f_equal.
  destruct Hfinal as (Hhg & Hlen & Hrowsh). rewrite <- Hhg. f_equal.
  apply list_eq. intros i. unfold Graph.upper. rewrite list_lookup_imap.
  destruct (Graph.edge_data g !! i) as [row0|] eqn:Hrow0; simpl.
  - etrans; [exact (Hrowsh i row0 Hrow0)|]. f_equal. apply filter_ext_in.
    intros [j v] Hjv. simpl.
    destruct (gen_entry g i row0 j v Hg Hd Hrow0 Hjv) as (_ & _ & Hj & _).
    rewrite elem_of_nil. fold n. split; [intros [[?|?] _]; [lia|done]|].
    intros Hlt. split; [by right|tauto].
  - apply lookup_ge_None_2. rewrite Hlen. by apply lookup_ge_None_1.
Qed.

End edge_gen_undirected.

Section entries_facts.
Implicit Types (ed : list Row.t) (e : nat * nat * float).

Lemma entries_from_ge (k : nat) ed e : e ∈ Graph.entries_from k ed → k ≤ e.1.1.
Proof.
  revert k. induction ed as [|row ed IH]; intros k; simpl.
  - intros He. by apply elem_of_nil in He.
  - rewrite elem_of_app. intros [He|He].
    + apply list_elem_of_fmap in He as ([j w] & -> & _). done.
    + apply IH in He. lia.
Qed.

Lemma entries_NoDup ed : Forall Row.wf ed → NoDup (Graph.entries ed).
Proof.
  rewrite entries_eq. generalize 0. induction ed as [|row ed IH]; intros k Hwf; simpl.
  - apply NoDup_nil_2.
  - apply Forall_cons in Hwf as [Hrow Hwf]. apply NoDup_app. split_and!.
    + apply NoDup_fmap_2.
      * intros [j w] [j' w'] [= -> ->]. done.
      * by eapply NoDup_fmap_1.
    + intros e He He'. apply list_elem_of_fmap in He as ([j w] & -> & _).
      apply entries_from_ge in He'. simpl in He'. lia.
    + by apply IH.
Qed.

Lemma length_entries ed : length (Graph.entries ed) = sum_list (length <$> ed).
Proof.
  rewrite entries_eq. generalize 0. induction ed as [|row ed IH]; intros k; simpl; [done|].
  by rewrite length_app, length_fmap, IH.
Qed.

Lemma length_filter_complement {A} (P : A → Prop) `{∀ x, Decision (P x)} (l : list A) :
  length (filter P l) + length (filter (fun x => ¬ P x) l) = length l.
Proof. rewrite <- length_app. apply Permutation_length, filter_app_complement. Qed.

End entries_facts.

(** [edge_gen] on an undirected graph.  In an undirected graph that
    satisfies the invariant and stores no self loop, the generator runs
    to its end without an error and yields every edge once: one triple for
    each stored entry [i, j] with [i < j], row by row in storage order,
    with the IDs of the two nodes and the stored weight; that is half of
    [num_edges].  It does not leave the graph as it was: when it is
    exhausted every row [i] has lost its entries for the neighbours below
    [i], so the entry [i, j] is still stored exactly when [i < j]. *)
Theorem edge_gen_undirected (g : Graph.t) :
  Graph.consistent g → Graph.directed g = false →
  (∀ i, Graph.lookup (Graph.edge_data g) i i = None) →
  ∃ edges,
    Graph.edge_gen g
      = (Py.Ok edges, Graph.with_edge_data (Graph.upper (Graph.edge_data g)) g) ∧
    Forall2 (fun '(a, b, w) '(i, j, w') =>
               IDmap.lst (Graph.idmap g) !! i = Some a ∧
               IDmap.lst (Graph.idmap g) !! j = Some b ∧ w = w')
            edges
            (filter (fun e => e.1.1 < e.1.2) (Graph.entries (Graph.edge_data g))) ∧
    2 * length edges = Graph.num_edges g ∧
    (∀ i j, Graph.lookup (Graph.upper (Graph.edge_data g)) i j
            = if decide (i < j) then Graph.lookup (Graph.edge_data g) i j
              else None).
Proof.
  intros Hg Hd Hnl. rewrite (edge_gen_undirected_run g Hg Hd Hnl).
  pose proof (Graph.consistent_rows _ Hg) as Hrows.
  set (idof := fun i : nat => default "" (IDmap.lst (Graph.idmap g) !! i)).
  set (E := Graph.entries (Graph.edge_data g)).
  assert (Hyield :
    concat ((fun k => (fun '(j, w) => (idof k, idof j, w))
               <$> filter (fun kv => k < kv.1)
                     (default ([] : list (nat * float)) (Graph.edge_data g !! k)))
              <$> seq 0 (length (Graph.edge_data g)))
    = (fun '(i, j, w) => (idof i, idof j, w)) <$> filter (fun e => e.1.1 < e.1.2) E).
  { unfold E. rewrite entries_eq.
    assert (Hgen : ∀ rest pre, Graph.edge_data g = pre ++ rest →
      concat ((fun k => (fun '(j, w) => (idof k, idof j, w))
                 <$> filter (fun kv => k < kv.1)
                       (default ([] : list (nat * float)) (Graph.edge_data g !! k)))
                <$> seq (length pre) (length rest))
      = (fun '(i, j, w) => (idof i, idof j, w))
          <$> filter (fun e => e.1.1 < e.1.2) (Graph.entries_from (length pre) rest)).
    { intros rest. induction rest as [|row rest IH]; intros pre Hed; [done|].
      cbn [length seq fmap list_fmap concat Graph.entries_from].
      rewrite filter_app, fmap_app. f_equal.
      - replace (Graph.edge_data g !! length pre) with (Some row)
          by (rewrite Hed; symmetry; apply list_lookup_middle; done).
        cbn [default]. rewrite filter_fmap_comm, <- list_fmap_compose.
        symmetry.
        erewrite (filter_ext_in _ (fun kv : nat * float => length pre < kv.1) row)
          by (by intros [j w] _).
        apply list_fmap_ext. by intros ? [j w] ?.
      - specialize (IH (pre ++ [row])). rewrite length_app in IH. simpl in IH.
        replace (length pre + 1) with (S (length pre)) in IH by lia.
        apply IH. by rewrite <- app_assoc. }
    exact (Hgen (Graph.edge_data g) [] eq_refl). }
  assert (Hentry : ∀ i j w, (i, j, w) ∈ E →
    Graph.lookup (Graph.edge_data g) i j = Some w ∧ i ≠ j ∧
    ∃ a b, IDmap.lst (Graph.idmap g) !! i = Some a ∧
           IDmap.lst (Graph.idmap g) !! j = Some b).
  { intros i j w Hin. apply entries_lookup in Hin; [|apply Hg].
    split; [done|]. split; [intros ->; by rewrite Hnl in Hin|].
    pose proof (lookup_lt _ _ _ _ Hin) as Hi.
    pose proof (Graph.consistent_bound _ Hg _ _ _ Hin) as Hj.
    rewrite Hrows in Hi, Hj.
    destruct (lookup_lt_is_Some_2 _ _ Hi) as [a Ha].
    destruct (lookup_lt_is_Some_2 _ _ Hj) as [b Hb]. eauto. }
  exists ((fun '(i, j, w) => (idof i, idof j, w)) <$> filter (fun e => e.1.1 < e.1.2) E).
  split; [by rewrite <- Hyield|]. split_and!.
  - apply Forall2_fmap_l, Forall_Forall2_diag, Forall_forall.
    intros [[i j] w] Hin. apply list_elem_of_filter in Hin as [_ Hin].
    destruct (Hentry i j w Hin) as (_ & _ & a & b & Ha & Hb).
    simpl. unfold idof. by rewrite Ha, Hb.
  - rewrite length_fmap. unfold Graph.num_edges. rewrite <- length_entries. fold E.
    rewrite <- (length_filter_complement (fun e => e.1.1 < e.1.2) E).
    assert (Hperm : (fun '(i, j, w) => (j, i, w))
                      <$> filter (fun e : nat * nat * float => e.1.1 < e.1.2) E
                    ≡ₚ filter (fun e : nat * nat * float => ¬ e.1.1 < e.1.2) E).
    { apply NoDup_Permutation.
      - apply NoDup_fmap_2.
        + intros [[i j] w] [[i' j'] w'] [= -> -> ->]. done.
        + apply NoDup_filter, entries_NoDup, Hg.
      - apply NoDup_filter, entries_NoDup, Hg.
      - intros [[a b] w]. rewrite list_elem_of_fmap, list_elem_of_filter. simpl. split.
        + intros ([[i j] w'] & [= -> -> ->] & Hin).
          apply list_elem_of_filter in Hin as [Hlt Hin]. simpl in Hlt.
          split; [lia|]. destruct (Hentry i j w' Hin) as (Hl & _).
          apply lookup_entries. by apply (Graph.consistent_mirror _ Hg Hd).
        + intros [Hge Hin]. destruct (Hentry a b w Hin) as (Hl & Hne & _).
          exists (b, a, w). split; [done|]. apply list_elem_of_filter. simpl.
          split; [lia|]. apply lookup_entries.
          by apply (Graph.consistent_mirror _ Hg Hd). }
    apply Permutation_length in Hperm. rewrite length_fmap in Hperm. lia.
  - intros i j. unfold Graph.upper, Graph.lookup. rewrite list_lookup_imap.
    destruct (Graph.edge_data g !! i) as [row|]; simpl; [|by case_decide].
    rewrite (row_get_filter _ row j) by done. simpl.
    destruct (Row.get j row); by case_decide.
Qed.

Lemma edge_gen_undirected_witness :
  ∃ edges, Graph.edge_gen Example.toy
    = (Py.Ok edges, Graph.with_edge_data (Graph.upper (Graph.edge_data Example.toy))
                      Example.toy) ∧
    edges = [("1", "3", 0.4%float); ("1", "2", 1%float); ("3", "4", 0.1%float)] ∧
    2 * length edges = Graph.num_edges Example.toy ∧
    Graph.get_edge "3" "1" Example.toy = (Py.Ok 0.4%float, Example.toy) ∧
    Py.value (Graph.get_edge "3" "1" (Py.state (Graph.edge_gen Example.toy)))
      = Py.Ok 0%float.
Proof.
  destruct (edge_gen_undirected Example.toy (consistent_wf _ wf_toy) eq_refl)
    as (edges & Hrun & _ & Hlen & _).
  { intros i. apply (Graph.wf_loops _ wf_toy). reflexivity. }
  exists edges. split; [exact Hrun|]. split; [|split; [exact Hlen|]].
  - assert (Hc : Graph.edge_gen Example.toy
      = (Py.Ok [("1", "3", 0.4%float); ("1", "2", 1%float); ("3", "4", 0.1%float)],
         Graph.with_edge_data (Graph.upper (Graph.edge_data Example.toy)) Example.toy))
      by (vm_compute; reflexivity).
    congruence.
  - split; vm_compute; reflexivity.
Defined.

(** [edge_gen] and stored self loops.  On an undirected graph that
    satisfies the invariant and stores a self loop (possible when
    [self_loops] is on), the generator does not reach its end: it raises
    [KeyError], because it pops the entry of the self loop from the row and
    then looks it up.  The graph has lost that entry by then. *)
Theorem edge_gen_self_loop (g : Graph.t) (i : nat) (w : float) :
  Graph.consistent g → Graph.directed g = false →
  Graph.lookup (Graph.edge_data g) i i = Some w →
  ∃ h i0, Graph.edge_gen g = (Py.Raise Py.KeyError, h) ∧
    is_Some (Graph.lookup (Graph.edge_data g) i0 i0) ∧
    Graph.lookup (Graph.edge_data h) i0 i0 = None.
Proof.
  intros Hg Hd Hi.
  destruct (least_index (fun k => is_Some (Graph.lookup (Graph.edge_data g) k k)) i)
    as (i0 & [w0 Hw0] & Hleast); [by eexists|].
  assert (Hi0 : i0 < length (Graph.edge_data g)) by (by eapply lookup_lt).
  destruct (gen_outer g i0 0 g Hg Hd) as (h1 & Hrun & Hh1); [lia| | |].
  { intros k Hk. apply eq_None_not_Some. apply Hleast. lia. }
  { split; [done|]. split; [done|]. intros k row0 Hrow0.
    replace (Graph.edge_data g !! k) with (Some row0) by (symmetry; exact Hrow0).
    f_equal. symmetry. apply row_filter_all. intros [j v] _. simpl.
    split; [lia|]. intros [_ Hc]. by apply elem_of_nil in Hc. }
  destruct (gen_outer_fail g i0 w0 h1 Hg Hd Hw0 Hh1) as (h2 & Hfail & Hgone).
  exists h2, i0. split; [|split; [by eexists|done]].
  unfold Graph.edge_gen. rewrite bind_get, length_seq.
  replace (length (Graph.edge_data g))
    with (i0 + S (length (Graph.edge_data g) - S i0)) at 1 by lia.
  rewrite seq_app. cbn [seq]. apply bind_raise.
  eapply yield_each_stops; [exact Hrun|exact Hfail].
Qed.

Lemma edge_gen_self_loop_witness :
  let g := Graph.run (H := Decimal.float)
             [Graph.Add_edge "a" "b" 1 None; Graph.Add_edge "b" "b" 2 None]
             (Graph.new true false true) in
  Graph.lookup (Graph.edge_data g) 1 1 = Some 2%float ∧
  ∃ h, Graph.edge_gen g = (Py.Raise Py.KeyError, h).
Proof.
  intros g. split; [vm_compute; reflexivity|].
  destruct (edge_gen_self_loop g 1 2%float) as (h & i0 & Hrun & _).
  - apply (kept_run (Graph.new true false true)), kept_refl, consistent_new.
  - reflexivity.
  - vm_compute. reflexivity.
  - exists h. exact Hrun.
Defined.


(** * [from_mat] *)

Lemma where_ne0_elem (mat : list (list float)) (i j : nat) :
  (i, j) ∈ Np.where_ne0 mat ↔
  ∃ x, Np.getitem2 mat i j = Some x ∧ Py.ne x 0 = true.
Proof.
  unfold Np.where_ne0, Np.getitem2. split.
  - intros Hin. apply list_elem_of_In, in_concat in Hin as (l & Hl & Hin).
    apply list_elem_of_In in Hl, Hin.
    apply elem_of_lookup_imap in Hl as (i' & row & -> & Hrow).
    apply list_elem_of_In, in_concat in Hin as (l' & Hl' & Hin).
    apply list_elem_of_In in Hl', Hin.
    apply elem_of_lookup_imap in Hl' as (j' & x & -> & Hx).
    destruct (Py.ne x 0) eqn:Hne; [|by apply elem_of_nil in Hin].
    apply list_elem_of_singleton in Hin as [= -> ->].
    exists x. rewrite Hrow. simpl. by rewrite Hx.
  - intros (x & Hx & Hne). destruct (mat !! i) as [row|] eqn:Hrow; [|done].
    simpl in Hx. apply list_elem_of_In, in_concat. eexists. split.
    + apply list_elem_of_In, elem_of_lookup_imap. exists i, row. split; [reflexivity|done].
    + apply in_concat. eexists. split.
      * apply list_elem_of_In, elem_of_lookup_imap. exists j, x. split; [reflexivity|done].
      * rewrite Hne. by left.
Qed.

Section from_mat_facts.
Context `{Py.Float}.
Implicit Types (g : Graph.t) (mat : list (list float)) (ids : list string).

Lemma add_ids_skeleton g (pre l : list string) :
  NoDup (pre ++ l) → Forall (fun ID => IDmap.canon ID = ID) l →
  Graph.add_ids l (Graph.skeleton g pre) = (Py.Ok tt, Graph.skeleton g (pre ++ l)).
Proof.
  unfold Graph.add_ids.
  revert pre. induction l as [|ID l IH]; intros pre Hnd Hc; cbn [Py.for_each].
  - by rewrite app_nil_r.
  - apply Forall_cons in Hc as [HID Hc].
    assert (Hnd' : NoDup (pre ++ [ID])).
    { replace (pre ++ ID :: l) with ((pre ++ [ID]) ++ l) in Hnd
        by (by rewrite <- app_assoc).
      by apply NoDup_app in Hnd as (? & _). }
    rewrite (bind_ok _ _ _ _ _ (skeleton_snoc g pre ID Hnd' HID)).
    rewrite (IH (pre ++ [ID])); [by rewrite <- app_assoc| |done].
    by rewrite <- app_assoc.
Qed.

(** [add_edge] on a [SparseGraph] between two nodes that are not a
    suppressed self loop. *)
Lemma add_edge_mapped g (a b : string) (i j : nat) (w : float) (red : option string) :
  IDmap.wf (Graph.idmap g) →
  length (Graph.edge_data g) = length (IDmap.lst (Graph.idmap g)) →
  Graph.class g = Graph.SparseGraph →
  Graph.known_reduction red = true →
  IDmap.data (Graph.idmap g) !! a = Some i →
  IDmap.data (Graph.idmap g) !! b = Some j →
  (Graph.self_loops g = true ∨ i ≠ j) →
  ∃ g', Graph.add_edge a b w red g = (Py.Ok tt, g') ∧
    Graph.edge_data g'
      = (let w' := Graph.committed red (Graph.lookup (Graph.edge_data g) i j) w in
         let ed1 := Graph.write (Graph.edge_data g) i j w' in
         if Graph.directed g then ed1 else Graph.write ed1 j i w') ∧
    Graph.idmap g' = Graph.idmap g ∧ Graph.class g' = Graph.class g ∧
    Graph.directed g' = Graph.directed g ∧
    Graph.self_loops g' = Graph.self_loops g.
Proof.
  intros Hwf Hrows Hc Hk Ha Hb Hloop.
  pose proof (idmap_wf_lt _ _ _ Hwf Ha) as Hi.
  pose proof (idmap_wf_lt _ _ _ Hwf Hb) as Hj.
  rewrite <- Hrows in Hi, Hj.
  unfold Graph.add_edge. rewrite bind_get, Hc.
  rewrite (SparseGraph_add_edge_present g a b i j) by auto.
  eexists. split; [done|]. by simpl.
Qed.

(** A graph the second loop of [from_mat] can be in. *)
Local Notation filling ids g :=
  (Graph.consistent g ∧ Graph.class g = Graph.SparseGraph ∧
   Graph.weighted g = true ∧
   Graph.directed g = true ∧ Graph.self_loops g = false ∧
   IDmap.lst (Graph.idmap g) = ids).

Lemma add_edge_loop_suppressed g (a : string) (i : nat) (w : float) :
  Graph.class g = Graph.SparseGraph → Graph.self_loops g = false →
  IDmap.data (Graph.idmap g) !! a = Some i →
  Graph.add_edge a a w None g = (Py.Ok tt, g).
Proof.
  intros Hc Hs Ha. unfold Graph.add_edge. rewrite bind_get, Hc.
  unfold Graph.SparseGraph_add_edge. cbn [Graph.known_reduction negb].
  replace (Graph.known_reduction None) with true by (symmetry; by apply bool_decide_eq_true_2; left).
  cbn [negb].
  rewrite (bind_ok _ _ _ _ _ (default_add_id_present g a i Ha)).
  rewrite (bind_ok _ _ _ _ _ (default_add_id_present g a i Ha)).
  by apply (_add_edge_self_loop g a a i).
Qed.

Lemma from_mat_loop mat ids (L : list (nat * nat)) g :
  filling ids g →
  (∀ i j, (i, j) ∈ L →
     i < length ids ∧ j < length ids ∧ is_Some (Np.getitem2 mat i j)) →
  ∃ g', Py.for_each L (fun '(i, j) =>
          graph <- Py.get ;;
          node_id1 <- (fun g => Py.or_raise (IDmap.lst (Graph.idmap graph) !! i) Py.IndexError g) ;;
          node_id2 <- (fun g => Py.or_raise (IDmap.lst (Graph.idmap graph) !! j) Py.IndexError g) ;;
          weight <- (fun g => Py.or_raise (Np.getitem2 mat i j) Py.IndexError g) ;;
          Graph.add_edge node_id1 node_id2 weight None) g = (Py.Ok tt, g') ∧
    filling ids g' ∧
    ∀ x y, Graph.lookup (Graph.edge_data g') x y
           = if decide ((x, y) ∈ L ∧ x ≠ y) then Np.getitem2 mat x y
             else Graph.lookup (Graph.edge_data g) x y.
Proof.
  revert g. induction L as [|[i j] L IH]; intros g Hg HL; cbn [Py.for_each].
  - exists g. split; [done|]. split; [done|]. intros x y.
    rewrite decide_False; [done|]. intros [Hc _]. by apply elem_of_nil in Hc.
  - destruct Hg as (Hcons & Hcl & Hwt & Hd & Hs & Hl).
    destruct (HL i j ltac:(left)) as (Hi & Hj & [w Hw]).
    destruct (lookup_lt_is_Some_2 ids i Hi) as [a Ha].
    destruct (lookup_lt_is_Some_2 ids j Hj) as [b Hb].
    pose proof (Graph.consistent_idmap _ Hcons) as Hwf.
    assert (Hda : IDmap.data (Graph.idmap g) !! a = Some i) by (apply Hwf; by rewrite Hl).
    assert (Hdb : IDmap.data (Graph.idmap g) !! b = Some j) by (apply Hwf; by rewrite Hl).
    pose proof (Graph.consistent_rows _ Hcons) as Hrows. rewrite Hl in Hrows.
    assert (Hstep : ∃ g1,
      (graph <- Py.get ;;
       node_id1 <- (fun g => Py.or_raise (IDmap.lst (Graph.idmap graph) !! i) Py.IndexError g) ;;
       node_id2 <- (fun g => Py.or_raise (IDmap.lst (Graph.idmap graph) !! j) Py.IndexError g) ;;
       weight <- (fun g => Py.or_raise (Np.getitem2 mat i j) Py.IndexError g) ;;
       Graph.add_edge node_id1 node_id2 weight None) g = (Py.Ok tt, g1) ∧
      filling ids g1 ∧
      ∀ x y, Graph.lookup (Graph.edge_data g1) x y
             = if decide ((x = i ∧ y = j) ∧ x ≠ y) then Some w
               else Graph.lookup (Graph.edge_data g) x y).
    { rewrite bind_get, Hl, Ha, Hb, Hw. simpl. rewrite !bind_ret.
      destruct (decide (i = j)) as [->|Hne].
      - assert (b = a) as -> by congruence.
        exists g. split; [by apply (add_edge_loop_suppressed g a j)|].
        split; [done|]. intros x y. rewrite decide_False; [done|]. lia.
      - destruct (add_edge_mapped g a b i j w None)
          as (g1 & Hrun & Hed & Hid & Hc1 & Hd1 & Hs1);
          [apply Hcons|by rewrite Hrows, Hl|done|done|done|done|by right|].
        exists g1. split; [done|]. split.
        + pose proof (kept_add_edge g g a b w None (kept_refl g Hcons))
            as [Hk (_ & Hw1 & _)].
          rewrite Hrun in Hk, Hw1. unfold Py.state in Hk, Hw1. simpl in Hk, Hw1.
          split_and!; (done || congruence).
        + intros x y. rewrite Hed, Hd. cbv zeta.
          rewrite committed_none. rewrite lookup_write by (by rewrite Hrows).
          destruct (decide (x = i ∧ y = j)) as [[-> ->]|Hxy].
          * by rewrite decide_True.
          * rewrite decide_False; [done|]. tauto. }
    destruct Hstep as (g1 & Hrun1 & Hg1 & Hlook1).
    destruct (IH g1 Hg1) as (g' & Hrun' & Hg' & Hlook').
    { intros x y Hxy. apply HL. by right. }
    exists g'. rewrite (bind_ok _ _ _ _ _ Hrun1). split; [done|]. split; [done|].
    intros x y. rewrite Hlook', Hlook1.
    destruct (decide ((x, y) ∈ L ∧ x ≠ y)) as [[Hin Hxy]|Hn].
    + rewrite decide_True; [done|]. split; [by right|done].
    + destruct (decide ((x = i ∧ y = j) ∧ x ≠ y)) as [[[-> ->] Hxy]|Hn'].
      * rewrite decide_True; [done|]. split; [left|done].
      * rewrite decide_False; [done|]. intros [Hin Hxy].
        apply elem_of_cons in Hin as [[= -> ->]|Hin]; tauto.
Qed.

Lemma from_mat_run (mat : list (list float)) (ids : option (list string)) :
  let ids' := match ids with
              | Some l => l
              | None => (fun i => Py.str_int (Z.of_nat i)) <$> seq 0 (length mat)
              end in
  NoDup ids' → Forall (fun ID => IDmap.canon ID = ID) ids' →
  length mat ≤ length ids' → Forall (fun row => length row ≤ length ids') mat →
  ∃ g, Graph.from_mat mat ids = Py.Ok g ∧ filling ids' g ∧
    ∀ x y, Graph.lookup (Graph.edge_data g) x y
           = if decide ((x, y) ∈ Np.where_ne0 mat ∧ x ≠ y) then Np.getitem2 mat x y
             else None.
Proof.
  intros ids' Hnd Hcanon Hrows Hcols.
  set (g0 := Graph.skeleton (Graph.new true true false) ids').
  assert (Hfirst : Py.for_each ids' Graph.add_id (Graph.new true true false)
                   = (Py.Ok tt, g0)).
  { apply (add_ids_skeleton (Graph.new true true false) [] ids'); done. }
  assert (Hg0 : Graph.consistent g0).
  { split; simpl.
    - by apply (skeleton_idmap_wf (Graph.new true true false)).
    - by rewrite length_replicate.
    - apply Forall_forall. intros row Hrow.
      apply elem_of_replicate in Hrow as [-> _]. apply NoDup_nil_2.
    - intros i j w. by rewrite lookup_replicate_empty.
    - done.
    - intros _ i. apply lookup_replicate_empty.
    - done. }
  destruct (from_mat_loop mat ids' (Np.where_ne0 mat) g0) as (g & Hrun & Hg & Hlook).
  { by split_and!. }
  { intros i j Hin. apply where_ne0_elem in Hin as (x & Hx & _).
    unfold Np.getitem2 in *. destruct (mat !! i) as [row|] eqn:Hrow; [|done].
    simpl in Hx. split_and!.
    - apply lookup_lt_Some in Hrow. lia.
    - apply lookup_lt_Some in Hx.
      pose proof (Forall_lookup_1 _ _ _ _ Hcols Hrow) as Hlen. simpl in Hlen. lia.
    - simpl. eauto. }
  exists g. split.
  { unfold Graph.from_mat. fold ids'.
    rewrite (bind_ok _ _ _ _ _ Hfirst). by rewrite Hrun. }
  split; [done|]. intros x y. rewrite Hlook. case_decide; [done|].
  unfold g0. simpl. by rewrite lookup_replicate_empty.
Qed.

End from_mat_facts.

(** [SparseGraph.from_mat].  Let the IDs (those given, or the decimal
    spellings of the row numbers) be distinct and in the form [addID]
    stores them, and let the matrix have no more rows and columns than
    there are IDs.  Then the call succeeds and returns a weighted,
    directed graph whose nodes are the IDs in the given order, and which
    stores the entry [i, j] with weight [mat[i, j]] exactly when
    [mat[i, j] != 0] and [i] and [j] differ: the diagonal of the matrix is
    dropped, because the graph is built without self loops. *)
Theorem from_mat_spec (F : Py.Float) (mat : list (list float))
    (ids : option (list string)) :
  let ids' := match ids with
              | Some l => l
              | None => (fun i => Py.str_int (Z.of_nat i)) <$> seq 0 (length mat)
              end in
  NoDup ids' → Forall (fun ID => IDmap.canon ID = ID) ids' →
  length mat ≤ length ids' → Forall (fun row => length row ≤ length ids') mat →
  ∃ g, Graph.from_mat mat ids = Py.Ok g ∧
    IDmap.lst (Graph.idmap g) = ids' ∧ Graph.consistent g ∧
    Graph.weighted g = true ∧ Graph.directed g = true ∧
    (∀ i j x, i ≠ j → Np.getitem2 mat i j = Some x → Py.ne x 0 = true →
       Graph.lookup (Graph.edge_data g) i j = Some x) ∧
    (∀ i j w, Graph.lookup (Graph.edge_data g) i j = Some w →
       i ≠ j ∧ Np.getitem2 mat i j = Some w ∧ Py.ne w 0 = true).
Proof.
  intros ids' Hnd Hcanon Hrows Hcols.
  destruct (from_mat_run mat ids Hnd Hcanon Hrows Hcols) as (g & Hrun & Hg & Hlook).
  destruct Hg as (Hcons & Hcl & Hwt & Hd & Hs & Hl).
  exists g. split; [done|]. split; [done|]. split; [done|]. split; [done|].
  split; [done|]. split.
  - intros i j x Hne Hx Hnz. rewrite Hlook. rewrite decide_True; [done|].
    split; [|done]. apply where_ne0_elem. eauto.
  - intros i j w. rewrite Hlook. case_decide as Hc; [|done].
    intros Hw. destruct Hc as [Hin Hne]. apply where_ne0_elem in Hin as (x & Hx & Hnz).
    split; [done|]. split; [done|]. congruence.
Qed.

Lemma from_mat_spec_witness :
  ∃ g, Graph.from_mat (H := Decimal.float) [[0; 0.4]; [0.4; 5]]%float None = Py.Ok g ∧
    IDmap.lst (Graph.idmap g) = ["0"; "1"] ∧
    Graph.lookup (Graph.edge_data g) 0 1 = Some 0.4%float ∧
    Graph.lookup (Graph.edge_data g) 1 1 = None.
Proof.
  destruct (from_mat_spec Decimal.float [[0; 0.4]; [0.4; 5]]%float None)
    as (g & Hrun & Hl & _ & _ & _ & Hin & Hout).
  - apply (bool_decide_unpack _). vm_compute. exact I.
  - repeat constructor.
  - simpl. lia.
  - repeat constructor.
  - exists g. split; [exact Hrun|]. split; [exact Hl|]. split.
    + apply Hin; [lia|reflexivity|reflexivity].
    + destruct (Graph.lookup (Graph.edge_data g) 1 1) as [w|] eqn:Hw; [|reflexivity].
      destruct (Hout 1 1 w Hw) as [Hne _]. exfalso. apply Hne. reflexivity.
Defined.

(** [from_mat] followed by [to_adjmat].  Under the conditions above the
    dense matrix of the graph built from [mat] has one row and one column
    per ID, and it gives [mat] back off the diagonal: the entry at [i, j]
    is [mat[i, j]] when [i] and [j] differ and [mat[i, j] != 0], and [0.0]
    otherwise, that is on the diagonal, for a zero of either sign, and
    outside [mat]. *)
Theorem from_mat_to_adjmat (F : Py.Float) (mat : list (list float))
    (ids : option (list string)) :
  let ids' := match ids with
              | Some l => l
              | None => (fun i => Py.str_int (Z.of_nat i)) <$> seq 0 (length mat)
              end in
  NoDup ids' → Forall (fun ID => IDmap.canon ID = ID) ids' →
  length mat ≤ length ids' → Forall (fun row => length row ≤ length ids') mat →
  ∃ g adj, Graph.from_mat mat ids = Py.Ok g ∧
    Graph.to_adjmat 0 g = Py.Ok adj ∧
    length adj = length ids' ∧ Forall (fun row => length row = length ids') adj ∧
    ∀ i j, i < length ids' → j < length ids' →
      Np.getitem2 adj i j
      = Some (match Np.getitem2 mat i j with
              | Some x => if decide (i ≠ j) then if Py.ne x 0 then x else 0%float
                          else 0%float
              | None => 0%float
              end).
Proof.
  intros ids' Hnd Hcanon Hrows Hcols.
  destruct (from_mat_run mat ids Hnd Hcanon Hrows Hcols) as (g & Hrun & Hg & Hlook).
  destruct Hg as (Hcons & Hcl & Hwt & Hd & Hs & Hl).
  destruct (to_adjmat_run g 0%float Hcons) as (adj & Hadj & Hlen & Hentries).
  assert (Hsize : Graph.size g = length ids').
  { unfold Graph.size. rewrite (idmap_wf_size _ (Graph.consistent_idmap _ Hcons)).
    by rewrite Hl. }
  rewrite Hsize in Hlen, Hentries.
  exists g, adj. split; [done|]. split; [done|]. split; [done|]. split.
  { apply Forall_lookup. intros i r Hr.
    assert (Hi : i < length ids') by (rewrite <- Hlen; by eapply lookup_lt_Some).
    destruct (Hentries i Hi) as (r' & Hr' & Hlr & _). congruence. }
  intros i j Hi Hj. destruct (Hentries i Hi) as (r & Hr & _ & Hrj).
  unfold Np.getitem2 at 1. rewrite Hr. simpl. rewrite (Hrj j Hj), Hlook. f_equal.
  destruct (Np.getitem2 mat i j) as [x|] eqn:Hx.
  - destruct (decide (i ≠ j)) as [Hne|Heq].
    + destruct (Py.ne x 0) eqn:Hnz.
      * rewrite decide_True; [done|]. split; [|done]. apply where_ne0_elem. eauto.
      * rewrite decide_False; [done|]. intros [Hin _].
        apply where_ne0_elem in Hin as (x' & Hx' & Hnz'). congruence.
    + rewrite decide_False; [done|]. intros [_ Hc]. done.
  - rewrite decide_False; [done|]. intros [Hin _].
    apply where_ne0_elem in Hin as (x' & Hx' & _). congruence.
Qed.

Lemma from_mat_to_adjmat_witness :
  ∃ g adj,
    Graph.from_mat (H := Decimal.float) [[0; 0.4]; [(-0); 5]]%float None = Py.Ok g ∧
    Graph.to_adjmat 0 g = Py.Ok adj ∧
    Np.getitem2 adj 0 1 = Some 0.4%float ∧ Np.getitem2 adj 1 0 = Some 0%float ∧
    Np.getitem2 adj 1 1 = Some 0%float.
Proof.
  destruct (from_mat_to_adjmat Decimal.float [[0; 0.4]; [(-0); 5]]%float None)
    as (g & adj & Hrun & Hadj & _ & _ & Hent).
  - apply (bool_decide_unpack _). vm_compute. exact I.
  - repeat constructor.
  - simpl. lia.
  - repeat constructor.
  - exists g, adj. split; [exact Hrun|]. split; [exact Hadj|].
    split; [|split]; rewrite Hent by (simpl; lia); reflexivity.
Defined.

(** * The adjacency-list class of [Graph.py] *)

Section adjlst_facts.
Context `{Py.Float}.
Implicit Types (g : AdjLst.t) (ID : string) (w weight : float).

Lemma adjlst_addID_run g ID :
  AdjLst.addID ID g
  = if IDmap.contains (IDmap.canon ID) (AdjLst.idmap g)
    then (Py.Raise Py.AssertionError, g)
    else (Py.Ok tt,
          AdjLst.mk (IDmap.mk (<[IDmap.canon ID := IDmap.size (AdjLst.idmap g)]>
                                 (IDmap.data (AdjLst.idmap g)))
                              (IDmap.lst (AdjLst.idmap g) ++ [IDmap.canon ID]))
                    (AdjLst.edge_data g ++ [[]]) (AdjLst.weighted g)
                    (AdjLst.directed g) (AdjLst.stdout g)).
Proof.
  unfold AdjLst.addID, AdjLst.on_idmap, IDmap.addID, Py.bind, Py.modify.
  by destruct (IDmap.contains (IDmap.canon ID) (AdjLst.idmap g)).
Qed.

Lemma adjlst_store_run g (ID1 ID2 : string) w :
  AdjLst.store ID1 ID2 w g
  = match IDmap.data (AdjLst.idmap g) !! ID1 with
    | None => (Py.Raise Py.KeyError, g)
    | Some i =>
        match AdjLst.edge_data g !! i with
        | None => (Py.Raise Py.IndexError, g)
        | Some row =>
            match IDmap.data (AdjLst.idmap g) !! ID2 with
            | None => (Py.Raise Py.KeyError, g)
            | Some j =>
                (Py.Ok tt,
                 AdjLst.with_edge_data (Graph.write (AdjLst.edge_data g) i j w) g)
            end
        end
    end.
Proof.
  unfold AdjLst.store, AdjLst.on_idmap, AdjLst.getrow, IDmap.getitem, Py.bind,
    Py.modify, Graph.write.
  destruct (IDmap.data (AdjLst.idmap g) !! ID1) as [i|]; simpl; [|done].
  destruct (AdjLst.edge_data g !! i) as [row|] eqn:Hrow; simpl; [|done].
  destruct (IDmap.data (AdjLst.idmap g) !! ID2) as [j|]; simpl; [|done].
  done.
Qed.

Local Notation ensure ID :=
  (Py.bind Py.get (fun self : AdjLst.t =>
     if negb (IDmap.contains ID (AdjLst.idmap self)) then AdjLst.addID ID
     else Py.ret tt)).

(* The [try] statement of [addEdge]. *)
Local Notation edge_part ID1 ID2 weight :=
  (Py.try_except
    (Py.bind (AdjLst.on_idmap (IDmap.getitem ID1)) (fun idx1 =>
     Py.bind (AdjLst.getrow idx1) (fun row =>
     Py.bind (AdjLst.on_idmap (IDmap.getitem ID2)) (fun idx2 =>
     Py.bind (fun g : AdjLst.t => Py.or_raise (Row.get idx2 row) Py.KeyError g)
       (fun old_weight =>
     if Py.ne old_weight weight then
       Py.bind (AdjLst.on_idmap (IDmap.getitem ID1)) (fun idx1 =>
       Py.bind (AdjLst.on_idmap (IDmap.getitem ID2)) (fun idx2 =>
       Py.modify (fun g => AdjLst.with_stdout
         (AdjLst.stdout g ++ [AdjLst.Warning idx1 idx2 old_weight weight]) g)))
     else Py.ret tt)))))
    Py.KeyError
    (Py.bind (AdjLst.store ID1 ID2 weight) (fun _ =>
     Py.bind Py.get (fun self : AdjLst.t =>
     if negb (AdjLst.directed self) then AdjLst.store ID2 ID1 weight
     else Py.ret tt)))).

Lemma adjlst_addEdge_eq g (ID1 ID2 : string) w :
  AdjLst.addEdge ID1 ID2 w g
  = Py.bind (Py.for_each [ID1; ID2] (fun ID => ensure ID))
      (fun _ => edge_part ID1 ID2 w) g.
Proof. done. Qed.

Lemma ensure_run g ID :
  ensure ID g
  = if IDmap.contains ID (AdjLst.idmap g) then (Py.Ok tt, g) else AdjLst.addID ID g.
Proof. rewrite bind_get. by destruct (IDmap.contains ID (AdjLst.idmap g)). Qed.

(* What the [try] statement does, in a graph with a row for every index
   of the map. *)
Lemma edge_part_run g (ID1 ID2 : string) w :
  (∀ ID i, IDmap.data (AdjLst.idmap g) !! ID = Some i →
     i < length (AdjLst.edge_data g)) →
  edge_part ID1 ID2 w g
  = match IDmap.data (AdjLst.idmap g) !! ID1, IDmap.data (AdjLst.idmap g) !! ID2 with
    | Some i, Some j =>
        match AdjLst.lookup g i j with
        | Some old =>
            (Py.Ok tt,
             if Py.ne old w
             then AdjLst.with_stdout (AdjLst.stdout g ++ [AdjLst.Warning i j old w]) g
             else g)
        | None =>
            (Py.Ok tt,
             AdjLst.with_edge_data
               (if AdjLst.directed g then Graph.write (AdjLst.edge_data g) i j w
                else Graph.write (Graph.write (AdjLst.edge_data g) i j w) j i w) g)
        end
    | _, _ => (Py.Raise Py.KeyError, g)
    end.
Proof.
  intros Hrows. unfold AdjLst.lookup, Graph.lookup.
  unfold Py.try_except, Py.bind, AdjLst.on_idmap, AdjLst.getrow, IDmap.getitem.
  destruct (IDmap.data (AdjLst.idmap g) !! ID1) as [i|] eqn:H1; simpl;
    change (AdjLst.with_idmap (AdjLst.idmap g) g) with g.
  2: { rewrite adjlst_store_run. by rewrite H1. }
  destruct (AdjLst.edge_data g !! i) as [row|] eqn:Hrow; simpl.
  2: { apply lookup_ge_None in Hrow. apply Hrows in H1. lia. }
  destruct (IDmap.data (AdjLst.idmap g) !! ID2) as [j|] eqn:H2; simpl;
    change (AdjLst.with_idmap (AdjLst.idmap g) g) with g.
  2: { rewrite adjlst_store_run. by rewrite H1, Hrow, H2. }
  destruct (Row.get j row) as [old|] eqn:Hold; simpl.
  - destruct (Py.ne old w); simpl; [|done]. rewrite H1. simpl.
    change (AdjLst.with_idmap (AdjLst.idmap g) g) with g. by rewrite H2.
  - rewrite adjlst_store_run. rewrite H1, Hrow, H2. simpl.
    destruct (AdjLst.directed g); simpl; [done|].
    rewrite adjlst_store_run. simpl. rewrite H2.
    destruct (Graph.write (AdjLst.edge_data g) i j w !! j) as [row'|] eqn:Hrow'.
    2: { apply lookup_ge_None in Hrow'. rewrite length_write in Hrow'.
         apply Hrows in H2. lia. }
    by rewrite H1.
Qed.

Lemma adjlst_rows g ID i :
  AdjLst.consistent g → IDmap.data (AdjLst.idmap g) !! ID = Some i →
  i < length (AdjLst.edge_data g).
Proof.
  intros Hg Hi. rewrite (AdjLst.consistent_rows _ Hg).
  eapply idmap_wf_lt; [apply Hg|exact Hi].
Qed.

Lemma adjlst_consistent_new (weighted directed : bool) :
  AdjLst.consistent (AdjLst.new weighted directed).
Proof.
  split; simpl; [apply idmap_wf_empty|done..].
Qed.

Lemma adjlst_consistent_addID g ID :
  AdjLst.consistent g → AdjLst.consistent (Py.state (AdjLst.addID ID g)).
Proof.
  intros Hg. rewrite adjlst_addID_run.
  destruct (IDmap.contains (IDmap.canon ID) (AdjLst.idmap g)) eqn:Hc; [done|].
  destruct (addID_fresh ID (AdjLst.idmap g) (AdjLst.consistent_idmap _ Hg) Hc)
    as (m' & Hrun & _ & _ & _ & Hwf).
  unfold IDmap.addID in Hrun. rewrite Hc in Hrun. injection Hrun as <-.
  split; simpl.
  - exact Hwf.
  - rewrite !length_app. simpl. by rewrite (AdjLst.consistent_rows _ Hg).
  - apply Forall_app. split; [apply Hg|]. repeat constructor.
  - intros i j w. unfold AdjLst.lookup. simpl. rewrite lookup_snoc_empty.
    intros Hw. rewrite length_app.
    pose proof (AdjLst.consistent_bound _ Hg i j w Hw). lia.
  - intros Hd i j w. unfold AdjLst.lookup. simpl. rewrite !lookup_snoc_empty.
    by apply (AdjLst.consistent_mirror _ Hg).
Qed.

Lemma adjlst_consistent_stdout g (out : list AdjLst.printed) :
  AdjLst.consistent g → AdjLst.consistent (AdjLst.with_stdout out g).
Proof. intros [H1 H2 H3 H4 H5]. by split. Qed.

(* The writes of the [except] branch, made where no weight is stored. *)
Lemma adjlst_lookup_written g (i j : nat) w (x y : nat) :
  i < length (AdjLst.edge_data g) → j < length (AdjLst.edge_data g) →
  AdjLst.lookup
    (AdjLst.with_edge_data
       (if AdjLst.directed g then Graph.write (AdjLst.edge_data g) i j w
        else Graph.write (Graph.write (AdjLst.edge_data g) i j w) j i w) g) x y
  = if decide ((x = i ∧ y = j) ∨ (AdjLst.directed g = false ∧ x = j ∧ y = i))
    then Some w else AdjLst.lookup g x y.
Proof.
  intros Hi Hj. unfold AdjLst.lookup. simpl. destruct (AdjLst.directed g).
  - rewrite lookup_write by done. repeat case_decide; naive_solver.
  - rewrite !lookup_write by (by rewrite ?length_write).
    repeat case_decide; naive_solver.
Qed.

Lemma adjlst_consistent_written g (i j : nat) w :
  AdjLst.consistent g →
  i < length (AdjLst.edge_data g) → j < length (AdjLst.edge_data g) →
  AdjLst.consistent
    (AdjLst.with_edge_data
       (if AdjLst.directed g then Graph.write (AdjLst.edge_data g) i j w
        else Graph.write (Graph.write (AdjLst.edge_data g) i j w) j i w) g).
Proof.
  intros Hg Hi Hj.
  assert (Hlen : length (if AdjLst.directed g
                         then Graph.write (AdjLst.edge_data g) i j w
                         else Graph.write (Graph.write (AdjLst.edge_data g) i j w) j i w)
                 = length (AdjLst.edge_data g)).
  { destruct (AdjLst.directed g); by rewrite ?length_write. }
  split.
  - apply Hg.
  - simpl. rewrite Hlen. apply Hg.
  - simpl. destruct (AdjLst.directed g); repeat apply write_wf; apply Hg.
  - intros x y v. rewrite adjlst_lookup_written by done. simpl. rewrite Hlen.
    case_decide as Hc.
    + intros _. destruct Hc as [[-> ->]|(_ & -> & ->)]; done.
    + apply (AdjLst.consistent_bound _ Hg).
  - simpl. intros Hd x y v. rewrite !adjlst_lookup_written by done.
    pose proof (AdjLst.consistent_mirror _ Hg Hd) as Hm.
    repeat case_decide; first [done|apply Hm|naive_solver].
Qed.

Lemma adjlst_consistent_edge_part g (ID1 ID2 : string) w :
  AdjLst.consistent g →
  AdjLst.consistent (Py.state (edge_part ID1 ID2 w g)).
Proof.
  intros Hg. rewrite edge_part_run by (intros ??; by apply adjlst_rows).
  destruct (IDmap.data (AdjLst.idmap g) !! ID1) as [i|] eqn:H1; [|done].
  destruct (IDmap.data (AdjLst.idmap g) !! ID2) as [j|] eqn:H2; [|done].
  destruct (AdjLst.lookup g i j) as [old|] eqn:Hold; simpl.
  - destruct (Py.ne old w); [|done]. by apply adjlst_consistent_stdout.
  - apply adjlst_consistent_written; [done| |]; by eapply adjlst_rows.
Qed.

Lemma adjlst_consistent_addEdge g (ID1 ID2 : string) w :
  AdjLst.consistent g →
  AdjLst.consistent (Py.state (AdjLst.addEdge ID1 ID2 w g)).
Proof.
  intros Hg. rewrite adjlst_addEdge_eq. apply bind_keeps.
  - apply for_each_keeps; [|done]. intros ID g1 Hg1. rewrite ensure_run.
    destruct (IDmap.contains ID (AdjLst.idmap g1)); [done|].
    by apply adjlst_consistent_addID.
  - intros _ g1 Hg1. by apply adjlst_consistent_edge_part.
Qed.

Lemma adjlst_consistent_run (cs : list (string * string * float)) g :
  AdjLst.consistent g → AdjLst.consistent (AdjLst.run cs g).
Proof.
  revert g. induction cs as [|[[ID1 ID2] w] cs IH]; intros g Hg; simpl; [done|].
  apply IH. by apply adjlst_consistent_addEdge.
Qed.

(* The first loop on an ID that [addID] stores as it is. *)
Lemma ensure_canonical g ID :
  AdjLst.consistent g → IDmap.canon ID = ID →
  ∃ g', ensure ID g = (Py.Ok tt, g') ∧ AdjLst.consistent g' ∧
    is_Some (IDmap.data (AdjLst.idmap g') !! ID) ∧
    (∀ ID' i, IDmap.data (AdjLst.idmap g) !! ID' = Some i →
       IDmap.data (AdjLst.idmap g') !! ID' = Some i) ∧
    (∀ x y, AdjLst.lookup g' x y = AdjLst.lookup g x y) ∧
    AdjLst.directed g' = AdjLst.directed g ∧ AdjLst.stdout g' = AdjLst.stdout g.
Proof.
  intros Hg Hcanon. rewrite ensure_run.
  destruct (IDmap.contains ID (AdjLst.idmap g)) eqn:Hc.
  - exists g. split_and!; try done. by apply bool_decide_eq_true in Hc.
  - pose proof (adjlst_consistent_addID g ID Hg) as Hg'.
    rewrite adjlst_addID_run in Hg' |- *. rewrite Hcanon in Hg' |- *.
    rewrite Hc in Hg' |- *. eexists. split; [done|]. split; [exact Hg'|].
    apply bool_decide_eq_false in Hc. rewrite <- eq_None_not_Some in Hc.
    simpl. split_and!; try done.
    + rewrite lookup_insert_eq. by eexists.
    + intros ID' i Hi. rewrite lookup_insert_ne; [done|]. congruence.
    + intros x y. unfold AdjLst.lookup. simpl. by rewrite lookup_snoc_empty.
Qed.

(* The three outcomes of the first loop's body. *)
Lemma ensure_cases g ID :
  AdjLst.consistent g →
  (is_Some (IDmap.data (AdjLst.idmap g) !! ID) ∧ ensure ID g = (Py.Ok tt, g)) ∨
  (IDmap.data (AdjLst.idmap g) !! ID = None ∧
   ensure ID g = (Py.Raise Py.AssertionError, g)) ∨
  (IDmap.data (AdjLst.idmap g) !! ID = None ∧
   ∃ g' n, ensure ID g = (Py.Ok tt, g') ∧ AdjLst.consistent g' ∧
     (∀ x y, AdjLst.lookup g' x y = AdjLst.lookup g x y) ∧
     AdjLst.stdout g' = AdjLst.stdout g ∧
     IDmap.data (AdjLst.idmap g')
     = <[IDmap.canon ID := n]> (IDmap.data (AdjLst.idmap g))).
Proof.
  intros Hg. rewrite ensure_run.
  destruct (IDmap.contains ID (AdjLst.idmap g)) eqn:Hc.
  { left. split; [|done]. by apply bool_decide_eq_true in Hc. }
  right. apply bool_decide_eq_false in Hc. rewrite <- eq_None_not_Some in Hc.
  pose proof (adjlst_consistent_addID g ID Hg) as Hg'.
  rewrite adjlst_addID_run in Hg' |- *.
  destruct (IDmap.contains (IDmap.canon ID) (AdjLst.idmap g)); [by left|].
  right. split; [done|]. eexists _, _. split; [done|]. split; [exact Hg'|].
  simpl. split_and!; try done.
  intros x y. unfold AdjLst.lookup. simpl. by rewrite lookup_snoc_empty.
Qed.

(* After the first loop an ID that was not a node and that [addID]
   rewrites is still not a node, or the other ID is not. *)
Lemma adjlst_loop_rewritten g (ID1 ID2 : string) :
  AdjLst.consistent g →
  (IDmap.canon ID1 ≠ ID1 ∧ IDmap.data (AdjLst.idmap g) !! ID1 = None) ∨
  (IDmap.canon ID2 ≠ ID2 ∧ IDmap.data (AdjLst.idmap g) !! ID2 = None) →
  ∃ r g2, Py.for_each [ID1; ID2] (fun ID => ensure ID) g = (r, g2) ∧
    AdjLst.consistent g2 ∧
    (∀ x y, AdjLst.lookup g2 x y = AdjLst.lookup g x y) ∧
    AdjLst.stdout g2 = AdjLst.stdout g ∧
    (r = Py.Raise Py.AssertionError ∨
     r = Py.Ok tt ∧ (IDmap.data (AdjLst.idmap g2) !! ID1 = None ∨
                     IDmap.data (AdjLst.idmap g2) !! ID2 = None)).
Proof.
  intros Hg Hbad. cbn [Py.for_each].
  destruct (ensure_cases g ID1 Hg)
    as [(Hin1 & Hr1)|[(Hn1 & Hr1)|(Hn1 & g1 & n1 & Hr1 & Hg1 & Hl1 & Ho1 & Hd1)]].
  - rewrite (bind_ok _ _ _ _ _ Hr1).
    destruct (ensure_cases g ID2 Hg)
      as [(Hin2 & Hr2)|[(Hn2 & Hr2)|(Hn2 & g2 & n2 & Hr2 & Hg2 & Hl2 & Ho2 & Hd2)]].
    + destruct Hbad as [[_ Hb]|[_ Hb]]; rewrite Hb in *; by destruct Hin1, Hin2.
    + rewrite (bind_raise _ _ _ _ _ Hr2). exists (Py.Raise Py.AssertionError), g.
      split_and!; try done. by left.
    + rewrite (bind_ok _ _ _ _ _ Hr2). exists (Py.Ok tt), g2.
      split_and!; try done. right. split; [done|]. right. rewrite Hd2.
      destruct Hbad as [[_ Hb]|[Hc Hb]]; [rewrite Hb in Hin1; by destruct Hin1|].
      by rewrite lookup_insert_ne.
  - rewrite (bind_raise _ _ _ _ _ Hr1). exists (Py.Raise Py.AssertionError), g.
    split_and!; try done. by left.
  - rewrite (bind_ok _ _ _ _ _ Hr1).
    destruct (ensure_cases g1 ID2 Hg1)
      as [(Hin2 & Hr2)|[(Hn2 & Hr2)|(Hn2 & g2 & n2 & Hr2 & Hg2 & Hl2 & Ho2 & Hd2)]].
    + rewrite (bind_ok _ _ _ _ _ Hr2). exists (Py.Ok tt), g1.
      split_and!; try done. right. split; [done|]. left. rewrite Hd1.
      destruct Hbad as [[Hc Hb]|[Hc Hb]]; [by rewrite lookup_insert_ne|].
      rewrite Hd1 in Hin2. destruct Hin2 as [k Hk].
      apply lookup_insert_Some in Hk as [[Heq _]|[_ Hk]]; [|congruence].
      rewrite lookup_insert_ne; [done|]. intros Heq'. congruence.
    + rewrite (bind_raise _ _ _ _ _ Hr2). exists (Py.Raise Py.AssertionError), g1.
      split_and!; try done. by left.
    + rewrite (bind_ok _ _ _ _ _ Hr2). exists (Py.Ok tt), g2.
      split_and!; try done.
      { intros x y. by rewrite Hl2, Hl1. }
      { by rewrite Ho2, Ho1. }
      right. split; [done|]. rewrite Hd2.
      destruct Hbad as [[Hc Hb]|[Hc Hb]].
      * destruct (decide (IDmap.canon ID2 = ID1)) as [Heq|Hne].
        -- right. rewrite lookup_insert_ne; [done|]. intros Heq'. congruence.
        -- left. rewrite lookup_insert_ne by done. rewrite Hd1.
           by rewrite lookup_insert_ne.
      * right. by rewrite lookup_insert_ne.
Qed.

Lemma adjlst_flags_addEdge g (ID1 ID2 : string) w :
  AdjLst.consistent g →
  AdjLst.weighted (Py.state (AdjLst.addEdge ID1 ID2 w g)) = AdjLst.weighted g ∧
  AdjLst.directed (Py.state (AdjLst.addEdge ID1 ID2 w g)) = AdjLst.directed g.
Proof.
  intros Hg. rewrite adjlst_addEdge_eq.
  apply (bind_keeps (fun s => AdjLst.consistent s ∧
                      (AdjLst.weighted s = AdjLst.weighted g ∧
                       AdjLst.directed s = AdjLst.directed g))).
  - apply for_each_keeps; [|done]. intros ID g1 [Hg1 Hf1]. rewrite ensure_run.
    destruct (IDmap.contains ID (AdjLst.idmap g1)); [done|].
    split; [by apply adjlst_consistent_addID|]. rewrite adjlst_addID_run.
    by destruct (IDmap.contains (IDmap.canon ID) (AdjLst.idmap g1)).
  - intros _ g1 [Hg1 Hf1]. split; [by apply adjlst_consistent_edge_part|].
    rewrite edge_part_run by (intros ??; by apply adjlst_rows).
    destruct (IDmap.data (AdjLst.idmap g1) !! ID1) as [i|]; [|done].
    destruct (IDmap.data (AdjLst.idmap g1) !! ID2) as [j|]; [|done].
    destruct (AdjLst.lookup g1 i j) as [old|]; simpl; [|done].
    by destruct (Py.ne old w).
Qed.

Lemma adjlst_flags_run (cs : list (string * string * float)) g :
  AdjLst.consistent g →
  AdjLst.weighted (AdjLst.run cs g) = AdjLst.weighted g ∧
  AdjLst.directed (AdjLst.run cs g) = AdjLst.directed g.
Proof.
  revert g. induction cs as [|[[ID1 ID2] w] cs IH]; intros g Hg; simpl; [done|].
  destruct (adjlst_flags_addEdge g ID1 ID2 w Hg) as [<- <-].
  apply IH. by apply adjlst_consistent_addEdge.
Qed.

End adjlst_facts.

Lemma adjlst_to_adjmat_run (g : AdjLst.t) :
  AdjLst.consistent g →
  ∃ mat, AdjLst.to_adjmat g = Py.Ok mat ∧
    length mat = AdjLst.size g ∧
    ∀ i, i < AdjLst.size g →
      ∃ r, mat !! i = Some r ∧ length r = AdjLst.size g ∧
        ∀ j, j < AdjLst.size g →
          r !! j = Some (default 0%float (AdjLst.lookup g i j)).
Proof.
  intros Hg.
  pose proof (idmap_wf_size _ (AdjLst.consistent_idmap _ Hg)) as Hsize.
  pose proof (AdjLst.consistent_rows _ Hg) as Hrows.
  assert (Hlen : length (AdjLst.edge_data g) = AdjLst.size g).
  { unfold AdjLst.size. by rewrite Hsize. }
  unfold AdjLst.to_adjmat, Np.zeros, Py.enumerate.
  destruct (adjmat_outer_loop (AdjLst.size g) 0%float (AdjLst.edge_data g) 0
              (replicate (AdjLst.size g) (replicate (AdjLst.size g) 0%float)))
    as (mat & Hrun & Hlm & _ & Hin).
  { by rewrite length_replicate. }
  { lia. }
  { intros i Hi. apply lookup_replicate_2. lia. }
  { apply Hg. }
  { intros row j Hrow Hj. apply list_elem_of_lookup in Hrow as [i Hrow].
    rewrite <- Hlen. destruct (Row.get j row) as [w|] eqn:Hw.
    - apply (AdjLst.consistent_bound _ Hg i j w). unfold AdjLst.lookup, Graph.lookup.
      by rewrite Hrow.
    - by apply row_get_None in Hw. }
  rewrite Hrun. exists mat. split; [done|]. split; [done|].
  intros i Hi. destruct (lookup_lt_is_Some_2 (AdjLst.edge_data g) i) as [row Hrow];
    [lia|].
  destruct (Hin i row Hrow) as (r & Hr & Hlr & Hrj).
  exists r. split; [done|]. split; [done|]. intros j Hj.
  rewrite (Hrj j Hj). unfold AdjLst.lookup, Graph.lookup. by rewrite Hrow.
Qed.

(** [AdjLst.addEdge] keeps the first weight.  In a graph that satisfies
    the invariant, with two IDs that [addID] stores as they are, the call
    succeeds; afterwards both IDs are nodes and the entry for the pair
    holds the weight stored before the call when there was one, and the
    new weight otherwise (written in both directions in an undirected
    graph); no other entry changes.  When the stored weight differs from
    the new one the call prints the "overwriting" warning and stores
    nothing. *)
Theorem adjlst_addEdge_spec `{Py.Float} (g : AdjLst.t) (ID1 ID2 : string)
    (weight : float) :
  AdjLst.consistent g → IDmap.canon ID1 = ID1 → IDmap.canon ID2 = ID2 →
  ∃ g' i j, AdjLst.addEdge ID1 ID2 weight g = (Py.Ok tt, g') ∧
    AdjLst.consistent g' ∧
    IDmap.data (AdjLst.idmap g') !! ID1 = Some i ∧
    IDmap.data (AdjLst.idmap g') !! ID2 = Some j ∧
    (∀ x y, AdjLst.lookup g' x y
       = if decide ((x = i ∧ y = j) ∨ (AdjLst.directed g = false ∧ x = j ∧ y = i))
         then Some (default weight (AdjLst.lookup g i j))
         else AdjLst.lookup g x y) ∧
    AdjLst.stdout g'
    = AdjLst.stdout g ++
      match AdjLst.lookup g i j with
      | Some old_weight =>
          if Py.ne old_weight weight
          then [AdjLst.Warning i j old_weight weight] else []
      | None => []
      end.
Proof.
  intros Hg Hc1 Hc2.
  destruct (ensure_canonical g ID1 Hg Hc1)
    as (g1 & Hrun1 & Hg1 & [i Hi1] & Hkeep1 & Hlook1 & Hd1 & Hout1).
  destruct (ensure_canonical g1 ID2 Hg1 Hc2)
    as (g2 & Hrun2 & Hg2 & [j Hj] & Hkeep2 & Hlook2 & Hd2 & Hout2).
  apply Hkeep2 in Hi1 as Hi.
  assert (Hlook : ∀ x y, AdjLst.lookup g2 x y = AdjLst.lookup g x y).
  { intros x y. by rewrite Hlook2, Hlook1. }
  assert (Hloop : Py.for_each [ID1; ID2] (fun ID =>
      Py.bind Py.get (fun self : AdjLst.t =>
        if negb (IDmap.contains ID (AdjLst.idmap self)) then AdjLst.addID ID
        else Py.ret tt)) g = (Py.Ok tt, g2)).
  { cbn [Py.for_each]. rewrite (bind_ok _ _ _ _ _ Hrun1).
    by rewrite (bind_ok _ _ _ _ _ Hrun2). }
  rewrite adjlst_addEdge_eq, (bind_ok _ _ _ _ _ Hloop).
  rewrite edge_part_run by (intros ??; by apply adjlst_rows).
  rewrite Hi, Hj, Hlook.
  assert (Hri : i < length (AdjLst.edge_data g2)) by by eapply adjlst_rows.
  assert (Hrj : j < length (AdjLst.edge_data g2)) by by eapply adjlst_rows.
  destruct (AdjLst.lookup g i j) as [old|] eqn:Hold.
  - exists (if Py.ne old weight
            then AdjLst.with_stdout
                   (AdjLst.stdout g2 ++ [AdjLst.Warning i j old weight]) g2
            else g2), i, j.
    split; [done|]. split.
    { destruct (Py.ne old weight); [by apply adjlst_consistent_stdout|done]. }
    split; [by destruct (Py.ne old weight)|].
    split; [by destruct (Py.ne old weight)|]. split.
    + intros x y.
      assert (AdjLst.lookup (if Py.ne old weight
            then AdjLst.with_stdout
                   (AdjLst.stdout g2 ++ [AdjLst.Warning i j old weight]) g2
            else g2) x y = AdjLst.lookup g x y) as ->.
      { rewrite <- Hlook. by destruct (Py.ne old weight). }
      case_decide as Hc; [|done]. simpl.
      destruct Hc as [[-> ->]|(Hd & -> & ->)]; rewrite Hold; [done|].
      by apply (AdjLst.consistent_mirror _ Hg Hd).
    + rewrite Hold. destruct (Py.ne old weight); simpl; rewrite Hout2, Hout1; [done|].
      by rewrite app_nil_r.
  - eexists _, i, j. split; [done|]. split.
    { by apply adjlst_consistent_written. }
    split; [done|]. split; [done|]. split.
    + intros x y. rewrite adjlst_lookup_written by done.
      rewrite Hd2, Hd1, Hlook, Hold. done.
    + rewrite Hold. simpl. by rewrite Hout2, Hout1, app_nil_r.
Qed.

Lemma adjlst_addEdge_spec_witness :
  AdjLst.addEdge (H := Decimal.float) "b" "a" 0.9
    (AdjLst.run (H := Decimal.float) [("a", "b", 0.5%float)] (AdjLst.new true false))
  = (Py.Ok tt,
     AdjLst.mk (IDmap.mk (<["b" := 1]> (<["a" := 0]> ∅)) ["a"; "b"])
       [[(1, 0.5%float)]; [(0, 0.5%float)]] true false
       [AdjLst.Warning 1 0 0.5 0.9]) ∧
  ∃ g' i j,
    AdjLst.addEdge (H := Decimal.float) "b" "a" 0.9
      (AdjLst.run (H := Decimal.float) [("a", "b", 0.5%float)] (AdjLst.new true false))
    = (Py.Ok tt, g') ∧
    IDmap.data (AdjLst.idmap g') !! "b" = Some i ∧
    IDmap.data (AdjLst.idmap g') !! "a" = Some j ∧
    AdjLst.lookup g' i j
    = Some (default 0.9%float
        (AdjLst.lookup
           (AdjLst.run (H := Decimal.float) [("a", "b", 0.5%float)]
              (AdjLst.new true false)) i j)).
Proof.
  split; [vm_compute; reflexivity|].
  destruct (adjlst_addEdge_spec (H := Decimal.float)
              (AdjLst.run (H := Decimal.float) [("a", "b", 0.5%float)]
                 (AdjLst.new true false)) "b" "a" 0.9%float)
    as (g' & i & j & Hrun & _ & Hi & Hj & Hlook & _).
  - apply adjlst_consistent_run, adjlst_consistent_new.
  - reflexivity.
  - reflexivity.
  - exists g', i, j. split; [exact Hrun|]. split; [exact Hi|]. split; [exact Hj|].
    rewrite Hlook. rewrite decide_True; [reflexivity|]. left. split; reflexivity.
Defined.

(** [AdjLst.addEdge] with an ID that [addID] rewrites.  In a graph that
    satisfies the invariant, when one of the two IDs is not a node and is
    not stored as it is by [addID] (as ["1.0"], stored as ["1"]), the
    call raises [KeyError] or the [AssertionError] of [addID]; no weight
    is stored and nothing is printed, and the graph still satisfies the
    invariant. *)
Theorem adjlst_addEdge_rewritten_id `{Py.Float} (g : AdjLst.t) (ID1 ID2 : string)
    (weight : float) :
  AdjLst.consistent g →
  (IDmap.canon ID1 ≠ ID1 ∧ IDmap.data (AdjLst.idmap g) !! ID1 = None) ∨
  (IDmap.canon ID2 ≠ ID2 ∧ IDmap.data (AdjLst.idmap g) !! ID2 = None) →
  ∃ e g', AdjLst.addEdge ID1 ID2 weight g = (Py.Raise e, g') ∧
    (e = Py.KeyError ∨ e = Py.AssertionError) ∧
    AdjLst.consistent g' ∧
    (∀ x y, AdjLst.lookup g' x y = AdjLst.lookup g x y) ∧
    AdjLst.stdout g' = AdjLst.stdout g.
Proof.
  intros Hg Hbad.
  destruct (adjlst_loop_rewritten g ID1 ID2 Hg Hbad)
    as (r & g2 & Hloop & Hg2 & Hlook & Hout & Hr).
  unfold AdjLst.addEdge.
  destruct Hr as [->|[-> Hnone]].
  - rewrite (bind_raise _ _ _ _ _ Hloop). exists Py.AssertionError, g2.
    split_and!; try done. by right.
  - rewrite (bind_ok _ _ _ _ _ Hloop).
    rewrite edge_part_run by (intros ??; by apply adjlst_rows).
    exists Py.KeyError, g2. split_and!; try done; [|by left].
    destruct Hnone as [-> | Hn2]; [done|]. rewrite Hn2.
    by destruct (IDmap.data (AdjLst.idmap g2) !! ID1).
Qed.

Lemma adjlst_addEdge_rewritten_id_witness :
  AdjLst.addEdge (H := Decimal.float) "1.0" "2" 0.5 (AdjLst.new true false)
  = (Py.Raise Py.KeyError,
     AdjLst.mk (IDmap.mk (<["2" := 1]> (<["1" := 0]> ∅)) ["1"; "2"])
       [[]; []] true false []) ∧
  ∃ e g', AdjLst.addEdge (H := Decimal.float) "1.0" "2" 0.5 (AdjLst.new true false)
          = (Py.Raise e, g') ∧
    ∀ x y, AdjLst.lookup g' x y = None.
Proof.
  split; [vm_compute; reflexivity|].
  destruct (adjlst_addEdge_rewritten_id (H := Decimal.float)
              (AdjLst.new true false) "1.0" "2" 0.5%float)
    as (e & g' & Hrun & _ & _ & Hlook & _).
  - apply adjlst_consistent_new.
  - left. split; [|reflexivity]. vm_compute. discriminate.
  - exists e, g'. split; [exact Hrun|]. intros x y. rewrite Hlook.
    unfold AdjLst.lookup, Graph.lookup. simpl. reflexivity.
Defined.

(** The invariant of [AdjLst].  A new graph satisfies it, and every
    sequence of [addEdge] calls, failed calls included, keeps it and the
    two flags: there is one row per node, every stored index is the index
    of a node, and in an undirected graph the weight stored for [i, j] is
    the weight stored for [j, i]. *)
Theorem adjlst_reachable_consistent (F : Py.Float) :
  (∀ weighted directed, AdjLst.consistent (AdjLst.new weighted directed)) ∧
  (∀ (g0 : AdjLst.t) (cs : list (string * string * float)),
     AdjLst.consistent g0 →
     let g := AdjLst.run cs g0 in
     AdjLst.consistent g ∧
     AdjLst.weighted g = AdjLst.weighted g0 ∧
     AdjLst.directed g = AdjLst.directed g0 ∧
     length (AdjLst.edge_data g) = AdjLst.size g ∧
     (∀ i j w, AdjLst.lookup g i j = Some w →
        i < AdjLst.size g ∧ j < AdjLst.size g) ∧
     (AdjLst.directed g0 = false →
        ∀ i j, AdjLst.lookup g i j = AdjLst.lookup g j i)).
Proof.
  split; [apply adjlst_consistent_new|]. intros g0 cs Hg0 g.
  assert (Hg : AdjLst.consistent g) by by apply adjlst_consistent_run.
  destruct (adjlst_flags_run cs g0 Hg0) as [Hw Hd]. fold g in Hw, Hd.
  assert (Hlen : length (AdjLst.edge_data g) = AdjLst.size g).
  { unfold AdjLst.size. rewrite (idmap_wf_size _ (AdjLst.consistent_idmap _ Hg)).
    apply Hg. }
  split_and!; try done.
  - intros i j w Hw'. rewrite <- Hlen. split.
    + by eapply lookup_lt.
    + by eapply AdjLst.consistent_bound.
  - intros Hd0 i j. rewrite <- Hd in Hd0.
    pose proof (AdjLst.consistent_mirror _ Hg Hd0) as Hm.
    destruct (AdjLst.lookup g i j) as [v|] eqn:Hij.
    + symmetry. by apply Hm.
    + destruct (AdjLst.lookup g j i) as [v|] eqn:Hji; [|done].
      apply Hm in Hji. congruence.
Qed.

Lemma adjlst_reachable_consistent_witness :
  let g := AdjLst.run (H := Decimal.float)
             [("a", "b", 1%float); ("1.0", "b", 2%float); ("b", "c", 3%float)]
             (AdjLst.new true false) in
  AdjLst.consistent g ∧ AdjLst.lookup g 2 3 = AdjLst.lookup g 3 2.
Proof.
  destruct (adjlst_reachable_consistent Decimal.float) as (Hnew & Hrun).
  destruct (Hrun (AdjLst.new true false)
              [("a", "b", 1%float); ("1.0", "b", 2%float); ("b", "c", 3%float)]
              (Hnew true false)) as (Hg & _ & _ & _ & _ & Hsym).
  split; [exact Hg|]. apply Hsym. reflexivity.
Defined.

(** [AdjLst.to_adjmat].  In a graph that satisfies the invariant the
    call succeeds and returns a square array with one row and one column
    per node; the entry at [i, j] is the weight stored for [i, j], and [0]
    where none is stored.  For an undirected graph the array is
    symmetric. *)
Theorem adjlst_to_adjmat_spec (g : AdjLst.t) :
  AdjLst.consistent g →
  ∃ mat, AdjLst.to_adjmat g = Py.Ok mat ∧
    length mat = AdjLst.size g ∧
    Forall (fun row => length row = AdjLst.size g) mat ∧
    (∀ i j, i < AdjLst.size g → j < AdjLst.size g →
       mat !! i ≫= (.!! j) = Some (default 0%float (AdjLst.lookup g i j))) ∧
    (AdjLst.directed g = false →
     ∀ i j, i < AdjLst.size g → j < AdjLst.size g →
       mat !! i ≫= (.!! j) = mat !! j ≫= (.!! i)).
Proof.
  intros Hg. destruct (adjlst_to_adjmat_run g Hg) as (mat & Hrun & Hlen & Hmat).
  assert (Hentry : ∀ i j, i < AdjLst.size g → j < AdjLst.size g →
    mat !! i ≫= (.!! j) = Some (default 0%float (AdjLst.lookup g i j))).
  { intros i j Hi Hj. destruct (Hmat i Hi) as (r & -> & _ & Hr). simpl. by apply Hr. }
  exists mat. split_and!; try done.
  - apply Forall_lookup. intros i r Hr.
    assert (Hi : i < AdjLst.size g) by (rewrite <- Hlen; by eapply lookup_lt_Some).
    destruct (Hmat i Hi) as (r' & Hr' & Hlr & _). congruence.
  - intros Hd i j Hi Hj. rewrite !Hentry by done. f_equal.
    pose proof (AdjLst.consistent_mirror _ Hg Hd) as Hm.
    destruct (AdjLst.lookup g i j) as [v|] eqn:Hij.
    + by rewrite (Hm _ _ _ Hij).
    + destruct (AdjLst.lookup g j i) as [v|] eqn:Hji; [|done].
      apply Hm in Hji. congruence.
Qed.

Lemma adjlst_to_adjmat_spec_witness :
  let g := AdjLst.run (H := Decimal.float)
             [("a", "b", 0.4%float); ("a", "c", 1%float); ("b", "a", 7%float)]
             (AdjLst.new true false) in
  AdjLst.to_adjmat g = Py.Ok [[0; 0.4; 1]; [0.4; 0; 0]; [1; 0; 0]]%float ∧
  ∃ mat, AdjLst.to_adjmat g = Py.Ok mat ∧
    mat !! 0 ≫= (.!! 2) = mat !! 2 ≫= (.!! 0).
Proof.
  intros g. split; [vm_compute; reflexivity|].
  destruct (adjlst_to_adjmat_spec g) as (mat & Hrun & _ & _ & _ & Hsym).
  - apply adjlst_consistent_run, adjlst_consistent_new.
  - exists mat. split; [exact Hrun|].
    apply Hsym; [reflexivity|vm_compute; lia|vm_compute; lia].
Defined.

(** * [to_pyg_edges] *)

Section pyg_facts.
Implicit Types (rows : list (nat * Row.t)) (row : Row.t) (ed : list Row.t).

(* The triples of one row, neighbours in increasing order. *)
Local Notation cols i row :=
  ((fun k => (i, k, Np.float32 (default 0%float (Row.get k row))))
     <$> Py.sorted (Row.keys row)).
Local Notation total rows := (sum_list ((fun p : nat * Row.t => length p.2) <$> rows)).
Local Notation lex :=
  (fun p q : nat * nat => p.1 < q.1 ∨ p.1 = q.1 ∧ p.2 < q.2).

Lemma length_sorted (l : list nat) : length (Py.sorted l) = length l.
Proof. unfold Py.sorted. by rewrite merge_sort_Permutation. Qed.

Lemma elem_of_sorted (l : list nat) (x : nat) : x ∈ Py.sorted l ↔ x ∈ l.
Proof. unfold Py.sorted. by rewrite merge_sort_Permutation. Qed.

Lemma setslice_scalar_app {A} (pre z : list A) (n : nat) (x : A) :
  n ≤ length z →
  Np.setslice_scalar (length pre) (length pre + n) x (pre ++ z)
  = (pre ++ replicate n x) ++ drop n z.
Proof.
  intros Hn. unfold Np.setslice_scalar. rewrite length_app.
  rewrite take_app_length, drop_app_add.
  replace ((length pre + n) `min` (length pre + length z)
           - length pre `min` (length pre + length z)) with n by lia.
  by rewrite <- (assoc_L (++)).
Qed.

Lemma setslice_app {A} (pre z values : list A) :
  length values ≤ length z →
  Np.setslice (length pre) (length pre + length values) values (pre ++ z)
  = inr ((pre ++ values) ++ drop (length values) z).
Proof.
  intros Hn. unfold Np.setslice. rewrite length_app. rewrite decide_True by lia.
  rewrite take_app_length, drop_app_add. by rewrite <- (assoc_L (++)).
Qed.

Lemma mapM_get_sorted row :
  mapM id ((fun k => Row.get k row) <$> Py.sorted (Row.keys row))
  = Some ((fun k => default 0%float (Row.get k row)) <$> Py.sorted (Row.keys row)).
Proof.
  apply mapM_Some. apply Forall2_fmap. apply Forall_Forall2_diag.
  apply Forall_forall. intros k Hk. rewrite elem_of_sorted in Hk. simpl.
  destruct (Row.get k row) as [w|] eqn:Hw; [done|].
  apply row_get_None in Hw. done.
Qed.

Lemma to_pyg_loop_run rows (pre0 pre1 : list nat) (prew : list float)
    (z0 z1 : list nat) (zw : list float) :
  length pre1 = length pre0 → length prew = length pre0 →
  length z0 = total rows → length z1 = total rows → length zw = total rows →
  Graph.to_pyg_loop rows (length pre0) (pre0 ++ z0, pre1 ++ z1, prew ++ zw)
  = inr (pre0 ++ concat ((fun p => replicate (length p.2) p.1) <$> rows),
         pre1 ++ concat ((fun p => Py.sorted (Row.keys p.2)) <$> rows),
         prew ++ concat ((fun p : nat * Row.t =>
                   (fun k => Np.float32 (default 0%float (Row.get k p.2)))
                     <$> Py.sorted (Row.keys p.2)) <$> rows)).
Proof.
  revert pre0 pre1 prew z0 z1 zw.
  induction rows as [|[i row] rows IH]; intros pre0 pre1 prew z0 z1 zw H1 Hw L0 L1 Lw;
    simpl in *.
  - by destruct z0, z1, zw.
  - assert (Hn : length row = length (Py.sorted (Row.keys row))).
    { rewrite length_sorted. unfold Row.keys. by rewrite length_fmap. }
    rewrite setslice_scalar_app by lia.
    assert (E1 : Np.setslice (length pre0) (length pre0 + length row)
                   (Py.sorted (Row.keys row)) (pre1 ++ z1)
                 = inr ((pre1 ++ Py.sorted (Row.keys row)) ++ drop (length row) z1)).
    { rewrite <- H1, Hn. apply setslice_app. lia. }
    rewrite E1.
    assert (Ew : Np.setslice_float32 (length pre0) (length pre0 + length row)
                   ((fun k => Row.get k row) <$> Py.sorted (Row.keys row)) (prew ++ zw)
                 = inr ((prew ++ ((fun k => Np.float32 (default 0%float (Row.get k row)))
                                    <$> Py.sorted (Row.keys row)))
                        ++ drop (length row) zw)).
    { unfold Np.setslice_float32. rewrite mapM_get_sorted, <- list_fmap_compose.
      rewrite <- Hw, Hn.
      rewrite <- (length_fmap (Np.float32 ∘ (fun k => default 0%float (Row.get k row)))).
      apply setslice_app. rewrite length_fmap. lia. }
    rewrite Ew.
    replace (length pre0 + length row) with (length (pre0 ++ replicate (length row) i))
      by (by rewrite length_app, length_replicate).
    rewrite IH.
    + by rewrite <- !(assoc_L (++)).
    + rewrite !length_app, length_replicate. lia.
    + rewrite !length_app, length_replicate, length_fmap. lia.
    + rewrite length_drop, L0. unfold fmap. lia.
    + rewrite length_drop, L1. unfold fmap. lia.
    + rewrite length_drop, Lw. unfold fmap. lia.
Qed.

Lemma total_enumerate ed : total (Py.enumerate ed) = sum_list (length <$> ed).
Proof.
  unfold Py.enumerate. f_equal.
  transitivity (length <$> (zip (seq 0 (length ed)) ed).*2).
  - by rewrite <- list_fmap_compose.
  - rewrite snd_zip; [done|]. by rewrite length_seq.
Qed.

Lemma to_pyg_edges_run (g : Graph.t) :
  Graph.to_pyg_edges g
  = inr ((concat ((fun p => replicate (length p.2) p.1)
                    <$> Py.enumerate (Graph.edge_data g)),
          concat ((fun p => Py.sorted (Row.keys p.2))
                    <$> Py.enumerate (Graph.edge_data g))),
         if Graph.weighted g
         then Some (concat ((fun p : nat * Row.t =>
                      (fun k => Np.float32 (default 0%float (Row.get k p.2)))
                        <$> Py.sorted (Row.keys p.2))
                    <$> Py.enumerate (Graph.edge_data g)))
         else None).
Proof.
  unfold Graph.to_pyg_edges. cbn [fst snd].
  pose proof (to_pyg_loop_run (Py.enumerate (Graph.edge_data g)) [] [] []
                (replicate (Graph.num_edges g) 0) (replicate (Graph.num_edges g) 0)
                (replicate (Graph.num_edges g) 0%float)) as Hrun.
  cbn [app length] in Hrun. rewrite Hrun; [done..| | |];
    by rewrite length_replicate, total_enumerate.
Qed.

Lemma zip_replicate_fmap {B} (l : list nat) (i : nat) (f : nat → B) :
  zip (zip (replicate (length l) i) l) (f <$> l) = (fun k => (i, k, f k)) <$> l.
Proof. induction l as [|k l IH]; [done|]. cbn. f_equal. apply IH. Qed.

Lemma zip_cols rows :
  zip (zip (concat ((fun p => replicate (length p.2) p.1) <$> rows))
           (concat ((fun p => Py.sorted (Row.keys p.2)) <$> rows)))
      (concat ((fun p : nat * Row.t =>
                  (fun k => Np.float32 (default 0%float (Row.get k p.2)))
                    <$> Py.sorted (Row.keys p.2)) <$> rows))
  = concat ((fun p => cols p.1 p.2) <$> rows).
Proof.
  induction rows as [|[i row] rows IH]; simpl; [done|].
  assert (Hn : length row = length (Py.sorted (Row.keys row))).
  { rewrite length_sorted. unfold Row.keys. by rewrite length_fmap. }
  rewrite (zip_with_app pair (replicate (length row) i)) by (by rewrite length_replicate).
  rewrite zip_with_app.
  - f_equal; [|exact IH]. rewrite Hn. apply zip_replicate_fmap.
  - by rewrite length_zip_with, length_replicate, length_fmap, <- Hn, Nat.min_id.
Qed.

(* The triples of a row are its items, up to the order. *)
Lemma cols_Permutation (i : nat) row :
  Row.wf row →
  cols i row ≡ₚ (fun '(j, w) => (i, j, Np.float32 w)) <$> row.
Proof.
  intros Hwf. unfold Py.sorted. rewrite merge_sort_Permutation.
  unfold Row.keys. rewrite <- list_fmap_compose.
  apply reflexive_eq. apply list_fmap_ext. intros n [j w] Hjw. simpl.
  rewrite (row_elem_get row j w Hwf); [done|]. by eapply list_elem_of_lookup_2.
Qed.

Lemma cols_from_Permutation (k : nat) ed :
  Forall Row.wf ed →
  concat ((fun p => cols p.1 p.2) <$> zip (seq k (length ed)) ed)
  ≡ₚ (fun '(i, j, w) => (i, j, Np.float32 w)) <$> Graph.entries_from k ed.
Proof.
  revert k. induction ed as [|row ed IH]; intros k Hwf; simpl; [done|].
  apply Forall_cons in Hwf as [Hrow Hwf].
  rewrite fmap_app, <- list_fmap_compose. apply Permutation_app.
  - rewrite cols_Permutation by done. apply reflexive_eq.
    apply list_fmap_ext. by intros n [j w] _.
  - by apply IH.
Qed.

Lemma sorted_strict (l : list nat) :
  NoDup l → StronglySorted lt (Py.sorted l).
Proof.
  intros Hnd.
  assert (Hs : StronglySorted le (Py.sorted l)).
  { apply (StronglySorted_merge_sort (≤)). }
  assert (Hnd' : NoDup (Py.sorted l)).
  { unfold Py.sorted. by rewrite merge_sort_Permutation. }
  induction Hs as [|x l' Hl' IH Hall]; [constructor|].
  apply NoDup_cons in Hnd' as [Hx Hnd']. constructor; [by apply IH|].
  apply Forall_forall. intros y Hy.
  assert (x ≤ y) by (by eapply Forall_forall in Hall).
  assert (x ≠ y) by (by intros ->). lia.
Qed.

Lemma cols_from_sorted (k : nat) ed :
  Forall Row.wf ed →
  StronglySorted (fun p q : nat * nat * float => lex p.1 q.1)
    (concat ((fun p => cols p.1 p.2) <$> zip (seq k (length ed)) ed)) ∧
  Forall (fun p : nat * nat * float => k ≤ p.1.1)
    (concat ((fun p => cols p.1 p.2) <$> zip (seq k (length ed)) ed)).
Proof.
  revert k. induction ed as [|row ed IH]; intros k Hwf; simpl.
  { split; constructor. }
  apply Forall_cons in Hwf as [Hrow Hwf].
  destruct (IH (S k) Hwf) as [Hs Hge]. split.
  - apply StronglySorted_app_2.
    + intros p q Hp Hq. apply list_elem_of_fmap in Hp as (j & -> & _).
      eapply Forall_forall in Hge; [|exact Hq]. simpl. left. lia.
    + eapply StronglySorted_fmap; [|by apply sorted_strict, Hrow].
      intros x y Hxy. simpl. right. done.
    + done.
  - apply Forall_app. split.
    + apply Forall_fmap, Forall_forall. intros j Hj. simpl. lia.
    + eapply Forall_impl; [exact Hge|]. intros p Hp. simpl in *. lia.
Qed.

Lemma length_cols rows :
  length (concat ((fun p => replicate (length p.2) p.1) <$> rows)) = total rows ∧
  length (concat ((fun p => Py.sorted (Row.keys p.2)) <$> rows)) = total rows ∧
  length (concat ((fun p : nat * Row.t =>
            (fun k => Np.float32 (default 0%float (Row.get k p.2)))
              <$> Py.sorted (Row.keys p.2)) <$> rows)) = total rows.
Proof.
  induction rows as [|[i row] rows (IH0 & IH1 & IHw)]; [done|]. simpl.
  assert (Hk : length (Row.keys row) = length row).
  { unfold Row.keys. by rewrite length_fmap. }
  rewrite !length_app, length_replicate, length_fmap, length_sorted, Hk.
  split_and!; f_equal; [exact IH0|exact IH1|exact IHw].
Qed.

End pyg_facts.

(** [to_pyg_edges].  On a graph whose rows are dicts (no key twice) the
    call succeeds.  The two rows of [edge_index] and, for a weighted
    graph, [edge_weight] have one position per stored entry; the columns
    [(i, j)] with their weights are the stored entries with the weights
    rounded to [float32], each one once, and they come sorted by [i] and
    then by [j].  For a graph that is not weighted [edge_weight] is
    [None]. *)
Theorem to_pyg_edges_spec (g : Graph.t) :
  Forall Row.wf (Graph.edge_data g) →
  ∃ (src dst : list nat) (ws : list float),
    Graph.to_pyg_edges g
    = inr ((src, dst), if Graph.weighted g then Some ws else None) ∧
    length src = Graph.num_edges g ∧ length dst = Graph.num_edges g ∧
    length ws = Graph.num_edges g ∧
    zip (zip src dst) ws
    ≡ₚ (fun '(i, j, w) => (i, j, Np.float32 w)) <$> Graph.entries (Graph.edge_data g) ∧
    StronglySorted (fun p q : nat * nat => p.1 < q.1 ∨ p.1 = q.1 ∧ p.2 < q.2)
      (zip src dst).
Proof.
  intros Hwf. rewrite to_pyg_edges_run. eexists _, _, _. split; [done|].
  destruct (length_cols (Py.enumerate (Graph.edge_data g))) as (L0 & L1 & Lw).
  rewrite total_enumerate in L0, L1, Lw.
  split; [exact L0|]. split; [exact L1|]. split; [exact Lw|].
  destruct (cols_from_sorted 0 (Graph.edge_data g) Hwf) as [Hs _].
  rewrite zip_cols. split.
  - rewrite entries_eq. by apply cols_from_Permutation.
  - match goal with |- StronglySorted _ (zip ?a ?b) =>
      rewrite <- (fst_zip (zip a b)
        (concat ((fun p : nat * Row.t =>
            (fun k => Np.float32 (default 0%float (Row.get k p.2)))
              <$> Py.sorted (Row.keys p.2)) <$> Py.enumerate (Graph.edge_data g))))
    end.
    + rewrite zip_cols. eapply StronglySorted_fmap; [|exact Hs]. by intros p q.
    + rewrite length_zip_with, L0, L1, Lw. lia.
Qed.

Lemma to_pyg_edges_spec_witness :
  Graph.to_pyg_edges Example.toy
  = inr (([0; 0; 1; 1; 2; 3], [1; 2; 0; 3; 0; 1]),
         Some (Np.float32 <$> [0.4; 1; 0.4; 0.1; 1; 0.1]%float)) ∧
  ∃ src dst ws,
    Graph.to_pyg_edges Example.toy = inr ((src, dst), Some ws) ∧
    length src = 6 ∧
    StronglySorted (fun p q : nat * nat => p.1 < q.1 ∨ p.1 = q.1 ∧ p.2 < q.2)
      (zip src dst).
Proof.
  split; [vm_compute; reflexivity|].
  destruct (to_pyg_edges_spec Example.toy) as (src & dst & ws & Hrun & L0 & _ & _ & _ & Hs).
  - apply (Graph.wf_keys _ wf_toy).
  - exists src, dst, ws. split; [exact Hrun|]. split; [exact L0|exact Hs].
Defined.

(** * Reading an edge list *)

Section read_facts.
Context `{Py.Float}.
Implicit Types (g : Graph.t) (a b : string) (w : float).

(* Every stored weight satisfies [P]. *)
Local Notation weights P g :=
  (∀ i j v, Graph.lookup (Graph.edge_data g) i j = Some v → P v).

(* What the loop of [read] keeps, for weights that satisfy [P]. *)
Local Notation reading g0 P :=
  (fun g => (Graph.consistent g ∧ Graph.same_config g0 g) ∧ weights P g).

Lemma weights_add_id (P : float → Prop) g a :
  weights P g → weights P (Py.state (Graph.add_id a g)).
Proof.
  intros Hg. rewrite add_id_run.
  destruct (IDmap.addID a (Graph.idmap g)) as [[r|e] m]; [|done].
  unfold Py.state; simpl. intros i j v.
  destruct (Graph.class g); simpl; rewrite lookup_snoc_empty; apply Hg.
Qed.

Lemma weights_default_add_id (P : float → Prop) g a :
  weights P g → weights P (Py.state (Graph._default_add_id a g)).
Proof.
  intros Hg. unfold Graph._default_add_id. rewrite bind_get.
  destruct (IDmap.contains a (Graph.idmap g)); [done|].
  by apply weights_add_id.
Qed.

Lemma weights__add_edge (P : float → Prop) g a b w :
  Graph.consistent g → P w → weights P g →
  weights P (Py.state (Graph._add_edge a b w None Graph.Forward g)).
Proof.
  intros Hg Hw HP.
  destruct (_add_edge_cases g a b w None Graph.Forward)
    as [[-> _]|[[-> _]|(i & j & _ & _ & Hloop & Hi & Hj & ->)]];
    [apply Hg|apply Hg|done|done|].
  unfold Py.state; simpl. rewrite committed_none. intros x y v.
  destruct (Graph.directed g).
  - rewrite lookup_write by done. case_decide; [congruence|apply HP].
  - rewrite !lookup_write by (by rewrite ?length_write).
    repeat case_decide; try congruence. apply HP.
Qed.

Lemma reading_add_edge (P : float → Prop) g0 g a b w :
  Graph.class g0 = Graph.SparseGraph → P w →
  reading g0 P g → reading g0 P (Py.state (Graph.add_edge a b w None g)).
Proof.
  intros Hcl Hw [Hk HP]. split; [by apply kept_add_edge|].
  unfold Graph.add_edge. rewrite bind_get.
  destruct Hk as [Hg (Hc & _)]. rewrite Hc, Hcl.
  unfold Graph.SparseGraph_add_edge.
  replace (Graph.known_reduction None) with true
    by (symmetry; by apply bool_decide_eq_true_2; left).
  cbn [negb].
  apply (bind_keeps (fun g => Graph.consistent g ∧ weights P g)).
  { split; [by apply consistent_default_add_id|by apply weights_default_add_id]. }
  intros _ g1 [Hg1 HP1].
  apply (bind_keeps (fun g => Graph.consistent g ∧ weights P g)).
  { split; [by apply consistent_default_add_id|by apply weights_default_add_id]. }
  intros _ g2 [Hg2 HP2].
  split; [by apply consistent__add_edge_forward|by apply weights__add_edge].
Qed.

(* The weights the reader yields. *)
Lemma reader_yield_weight (weighted : bool) (cut_threshold : float)
    (line a b : string) w :
  Graph.edglst_reader_line weighted cut_threshold line = Graph.Yield a b w →
  w = 1%float ∨ (weighted = true ∧ PrimFloat.leb w cut_threshold = false).
Proof.
  unfold Graph.edglst_reader_line.
  destruct (Py.split Py.TAB line) as [|f1 [|f2 [|f3 [|f4 fs]]]]; try done.
  - intros [= _ _ <-]. by left.
  - destruct (Py.float f3) as [x|]; [|done].
    destruct (PrimFloat.leb x cut_threshold) eqn:Hx; [done|].
    destruct weighted; intros [= _ _ <-]; [by right|by left].
Qed.

Lemma reading_read (P : float → Prop) g0 g (file : string) (cut_threshold : float) :
  Graph.class g0 = Graph.SparseGraph →
  (∀ v, v = 1%float ∨
        (Graph.weighted g = true ∧ PrimFloat.leb v cut_threshold = false) → P v) →
  reading g0 P g → reading g0 P (Py.state (Graph.read file cut_threshold g)).
Proof.
  intros Hcl HP Hg. unfold Graph.read. rewrite bind_get.
  apply (for_each_keeps (reading g0 P)); [|done]. intros line g1 Hg1.
  destruct (Graph.edglst_reader_line (Graph.weighted g) cut_threshold line)
    as [|a b w|e] eqn:Hline; [done| |done].
  apply reading_add_edge; [done| |done].
  apply HP. by eapply reader_yield_weight.
Qed.

End read_facts.

(** [from_edglst] and the weights it stores.  When the call succeeds the
    graph is a [SparseGraph] with the two flags as given and self loops
    off, and it satisfies the invariant.  Every stored weight is [1.0] when
    [weighted] is [False]; when it is [True] a stored weight is not
    [<= cut_threshold], or it is the [1.0] of a line with two columns,
    which is stored whatever the threshold. *)
Theorem from_edglst_weights (F : Py.Float) (file : string)
    (weighted directed : bool) (cut_threshold : float) (g : Graph.t) :
  Graph.from_edglst file weighted directed cut_threshold = Py.Ok g →
  Graph.consistent g ∧
  Graph.class g = Graph.SparseGraph ∧ Graph.weighted g = weighted ∧
  Graph.directed g = directed ∧ Graph.self_loops g = false ∧
  ∀ i j v, Graph.lookup (Graph.edge_data g) i j = Some v →
    v = 1%float ∨ (weighted = true ∧ PrimFloat.leb v cut_threshold = false).
Proof.
  unfold Graph.from_edglst. intros Hrun.
  pose proof (reading_read
    (fun v => v = 1%float ∨ (weighted = true ∧ PrimFloat.leb v cut_threshold = false))
    (Graph.new weighted directed false) (Graph.new weighted directed false)
    file cut_threshold) as Hkeep.
  destruct (Graph.read file cut_threshold (Graph.new weighted directed false))
    as [[[]|e] g'] eqn:Hread; [|done].
  injection Hrun as ->. unfold Py.state in Hkeep. simpl in Hkeep.
  destruct Hkeep as [[Hg (Hc & Hw & Hd & Hs)] HP]; [done|done| |].
  - split; [split; [apply consistent_new|done]|].
    intros i j v. unfold Graph.lookup. simpl. by destruct i.
  - split_and!; try done.
Qed.

Lemma from_edglst_weights_witness :
  ∃ g, Graph.from_edglst (H := Decimal.float) Example.toy_edglst false false 0
       = Py.Ok g ∧
    Graph.lookup (Graph.edge_data g) 0 1 = Some 1%float ∧
    ∀ i j v, Graph.lookup (Graph.edge_data g) i j = Some v → v = 1%float.
Proof.
  eexists. split; [vm_compute; reflexivity|]. split; [vm_compute; reflexivity|].
  intros i j v Hv.
  edestruct (from_edglst_weights Decimal.float Example.toy_edglst false false 0%float)
    as (_ & _ & _ & _ & _ & Hw).
  - vm_compute. reflexivity.
  - destruct (Hw i j v Hv) as [->|[Hf _]]; [reflexivity|discriminate Hf].
Defined.

(** ** Lines the reader rejects *)

Lemma readlines_line (line rest : string) :
  Py.NL ∉ String.list_ascii_of_string line →
  Py.CR ∉ String.list_ascii_of_string line →
  Py.readlines (line +:+ String Py.NL rest)
  = (line +:+ String Py.NL "") :: Py.readlines rest.
Proof.
  induction line as [|c line IH]; intros Hnl Hcr; simpl.
  - done.
  - simpl in Hnl, Hcr. apply not_elem_of_cons in Hnl as [Hc Hnl].
    apply not_elem_of_cons in Hcr as [Hc' Hcr].
    destruct (Ascii.eqb c Py.NL) eqn:Hcn.
    { apply Ascii.eqb_eq in Hcn. congruence. }
    destruct (Ascii.eqb c Py.CR) eqn:Hcc.
    { apply Ascii.eqb_eq in Hcc. congruence. }
    by rewrite IH.
Qed.

Lemma readlines_nonempty (c : ascii) (s : string) : Py.readlines (String c s) ≠ [].
Proof.
  simpl. destruct (Ascii.eqb c Py.NL); [done|].
  destruct (Ascii.eqb c Py.CR); [done|]. by destruct (Py.readlines s).
Qed.

Lemma ends_with_newline_tail (c : ascii) (s1 : string) :
  (∃ s, String c s1 = s +:+ String Py.NL "") →
  c = Py.NL ∧ s1 = "" ∨ (∃ s, s1 = s +:+ String Py.NL "").
Proof.
  intros [s Hs]. destruct s as [|c' s]; simpl in Hs.
  - left. by injection Hs as -> ->.
  - right. exists s. by injection Hs as _ ->.
Qed.

Lemma readlines_cons (c : ascii) (s : string) :
  Py.readlines (String c s)
  = if Ascii.eqb c Py.NL then String Py.NL "" :: Py.readlines s
    else if Ascii.eqb c Py.CR then
      String Py.NL "" ::
      match s with
      | String c' s' => if Ascii.eqb c' Py.NL then Py.readlines s' else Py.readlines s
      | EmptyString => []
      end
    else match Py.readlines s with
         | l :: ls => String c l :: ls
         | [] => [String c ""]
         end.
Proof. done. Qed.

(* A text that is empty or ends with a line feed: its lines are complete. *)
Lemma readlines_app_bounded (n : nat) (s1 s2 : string) :
  String.length s1 ≤ n →
  s1 = "" ∨ (∃ s, s1 = s +:+ String Py.NL "") →
  Py.readlines (s1 +:+ s2) = Py.readlines s1 ++ Py.readlines s2.
Proof.
  revert s1. induction n as [|n IH]; intros s1 Hn Hs1.
  { destruct s1; [done|simpl in Hn; lia]. }
  destruct s1 as [|c s1]; [done|]. simpl in Hn.
  destruct Hs1 as [?|Hs1]; [done|].
  apply ends_with_newline_tail in Hs1 as Hs1'.
  assert (Htail : s1 = "" ∨ (∃ s, s1 = s +:+ String Py.NL "")).
  { destruct Hs1' as [[_ ->]|?]; [by left|by right]. }
  change (String c s1 +:+ s2) with (String c (s1 +:+ s2)).
  rewrite !(readlines_cons c).
  destruct (Ascii.eqb c Py.NL) eqn:Hcn.
  { simpl. f_equal. apply IH; [lia|done]. }
  destruct Hs1' as [[-> _]|Hs]; [by rewrite Ascii.eqb_refl in Hcn|].
  destruct s1 as [|c1 s1].
  { destruct Hs as [[|??] Hs]; done. }
  simpl in Hn.
  destruct (Ascii.eqb c Py.CR) eqn:Hcc.
  - rewrite <- app_comm_cons. f_equal.
    change (String c1 s1 +:+ s2) with (String c1 (s1 +:+ s2)).
    cbv beta iota. destruct (Ascii.eqb c1 Py.NL) eqn:Hc1.
    + apply IH; [lia|].
      apply ends_with_newline_tail in Hs as [[_ ->]|?]; [by left|by right].
    + change (String c1 (s1 +:+ s2)) with (String c1 s1 +:+ s2).
      apply IH; [simpl; lia|by right].
  - rewrite IH; [|simpl; lia|by right].
    pose proof (readlines_nonempty c1 s1).
    by destruct (Py.readlines (String c1 s1)).
Qed.

Lemma readlines_app (s1 s2 : string) :
  s1 = "" ∨ (∃ s, s1 = s +:+ String Py.NL "") →
  Py.readlines (s1 +:+ s2) = Py.readlines s1 ++ Py.readlines s2.
Proof. by apply (readlines_app_bounded (String.length s1)). Qed.

(** [read] stops at a line it cannot unpack and does not roll back.  A
    line (a text with no line feed and no carriage return in it, ended
    by a line feed) that has neither two nor three tab-separated fields
    (a blank line, a line separated by spaces), or that has three with a
    third field [float] rejects, makes the reader raise [ValueError].
    When the text before that line has been read successfully, [read] of
    the whole text raises [ValueError] and leaves the graph as it was
    after the lines before; the lines after are not read. *)
Theorem read_stops_at_bad_line (F : Py.Float) (g g1 : Graph.t)
    (before line rest : string) (cut_threshold : float) :
  before = "" ∨ (∃ s, before = s +:+ String Py.NL "") →
  Py.NL ∉ String.list_ascii_of_string line →
  Py.CR ∉ String.list_ascii_of_string line →
  match Py.split Py.TAB (line +:+ String Py.NL "") with
  | [_; _] => False
  | [_; _; weight] => Py.float weight = None
  | _ => True
  end →
  Graph.read before cut_threshold g = (Py.Ok tt, g1) →
  Graph.read (before +:+ line +:+ String Py.NL rest) cut_threshold g
  = (Py.Raise Py.ValueError, g1).
Proof.
  intros Hbefore Hnl Hcr Hbad. unfold Graph.read. rewrite !bind_get. intros Hrun.
  rewrite readlines_app, readlines_line by done.
  rewrite for_each_app, (bind_ok _ _ _ _ _ Hrun). cbn [Py.for_each].
  apply bind_raise.
  assert (Graph.edglst_reader_line (Graph.weighted g) cut_threshold
            (line +:+ String Py.NL "") = Graph.Fail Py.ValueError) as ->; [|done].
  unfold Graph.edglst_reader_line.
  destruct (Py.split Py.TAB (line +:+ String Py.NL "")) as [|f1 [|f2 [|f3 [|f4 fs]]]];
    try done.
  by rewrite Hbad.
Qed.

Lemma read_stops_at_bad_line_witness :
  ∃ g1, Graph.read (H := Decimal.float) Example.toy_edglst 0 (Graph.new true false false)
        = (Py.Ok tt, g1) ∧
    Graph.num_edges g1 = 6 ∧
    Graph.read (H := Decimal.float)
      (Example.toy_edglst +:+ "" +:+ String Py.NL (Example.line "5" "6" "1")) 0
      (Graph.new true false false)
    = (Py.Raise Py.ValueError, g1).
Proof.
  eexists. split; [vm_compute; reflexivity|]. split; [vm_compute; reflexivity|].
  apply (read_stops_at_bad_line Decimal.float).
  - right.
    exists (Example.line "1" "3" "0.4" +:+ Example.line "1" "2" "1"
            +:+ "3" +:+ String Py.TAB ("4" +:+ String Py.TAB "0.1")).
    vm_compute. reflexivity.
  - simpl. apply not_elem_of_nil.
  - simpl. apply not_elem_of_nil.
  - vm_compute. exact I.
  - vm_compute. reflexivity.
Defined.

(** * [num_edges] after [add_edge] *)

Lemma length_row_set (r : Row.t) (k : nat) (v : float) :
  length (Row.set k v r) = length r + (if Row.get k r then 0 else 1).
Proof.
  induction r as [|[k' v'] r IH]; simpl; [done|].
  destruct (decide (k' = k)); simpl; [lia|]. rewrite IH. lia.
Qed.

Lemma num_edges_insert (ed : list Row.t) (i : nat) (r r' : Row.t) :
  ed !! i = Some r →
  sum_list (length <$> <[i := r']> ed) + length r
  = sum_list (length <$> ed) + length r'.
Proof.
  revert i. induction ed as [|r0 ed IH]; intros i Hi; [done|].
  destruct i as [|i]; simpl in *.
  - injection Hi as ->. lia.
  - specialize (IH i Hi). unfold fmap in *. lia.
Qed.

Lemma num_edges_write (ed : list Row.t) (i j : nat) (w : float) :
  i < length ed →
  sum_list (length <$> Graph.write ed i j w)
  = sum_list (length <$> ed) + (if Graph.lookup ed i j then 0 else 1).
Proof.
  intros Hi. unfold Graph.write, Graph.lookup.
  destruct (lookup_lt_is_Some_2 ed i Hi) as [row Hrow]. rewrite Hrow. simpl.
  pose proof (num_edges_insert ed i row (Row.set j w row) Hrow) as Hsum.
  rewrite length_row_set in Hsum. destruct (Row.get j row); lia.
Qed.

(** [num_edges] counts stored entries.  In a graph that satisfies the
    invariant, [add_edge] between two nodes of the graph (not a self loop
    where self loops are off) succeeds and leaves [num_edges] as it was
    when a weight was already stored for the pair; otherwise [num_edges]
    grows by 1 in a directed graph and for a self loop, and by 2 in an
    undirected graph, where both directions are stored. *)
Theorem add_edge_num_edges (F : Py.Float) (g : Graph.t) (a b : string) (i j : nat)
    (w : float) (red : option string) :
  Graph.wf g → Graph.known_reduction red = true →
  IDmap.data (Graph.idmap g) !! a = Some i →
  IDmap.data (Graph.idmap g) !! b = Some j →
  (Graph.self_loops g = true ∨ i ≠ j) →
  ∃ g', Graph.add_edge a b w red g = (Py.Ok tt, g') ∧
    Graph.num_edges g'
    = Graph.num_edges g
      + (if Graph.lookup (Graph.edge_data g) i j then 0
         else if Graph.directed g || bool_decide (i = j) then 1 else 2).
Proof.
  intros Hwf Hk Ha Hb Hloop.
  destruct (add_edge_present g a b i j w red Hwf Hk Ha Hb Hloop)
    as (g' & Hrun & Hed & _).
  exists g'. split; [done|]. unfold Graph.num_edges. rewrite Hed.
  pose proof (idmap_wf_lt _ _ _ (Graph.wf_idmap _ Hwf) Ha) as Hi.
  pose proof (idmap_wf_lt _ _ _ (Graph.wf_idmap _ Hwf) Hb) as Hj.
  rewrite <- (Graph.wf_rows _ Hwf) in Hi, Hj.
  cbn zeta. destruct (Graph.directed g) eqn:Hd; simpl.
  - rewrite num_edges_write by done.
    by destruct (Graph.lookup (Graph.edge_data g) i j).
  - rewrite !num_edges_write by (by rewrite ?length_write).
    rewrite lookup_write by done.
    pose proof (Graph.wf_mirror _ Hwf Hd) as Hm.
    destruct (Graph.lookup (Graph.edge_data g) i j) as [old|] eqn:Hold.
    + rewrite (Hm _ _ _ Hold). by case_decide.
    + case_bool_decide as Hij.
      * subst j. rewrite decide_True by done. lia.
      * rewrite decide_False by naive_solver.
        destruct (Graph.lookup (Graph.edge_data g) j i) as [v|] eqn:Hji; [|lia].
        apply Hm in Hji. congruence.
Qed.

Lemma add_edge_num_edges_witness :
  Graph.num_edges Example.toy = 6 ∧
  ∃ g', Graph.add_edge (H := Decimal.float) "2" "4" 0.7 None Example.toy
        = (Py.Ok tt, g') ∧
    Graph.num_edges g' = 8.
Proof.
  split; [reflexivity|].
  destruct (add_edge_num_edges Decimal.float Example.toy "2" "4" 2 3 0.7%float None)
    as (g' & Hrun & Hn).
  - apply wf_toy.
  - reflexivity.
  - reflexivity.
  - reflexivity.
  - right. lia.
  - exists g'. split; [exact Hrun|]. rewrite Hn. reflexivity.
Defined.
